(** * MikoJSCore: value model, bytecode VM, compiler and collector

    A shallow embedding of the C sources of MikoJSCore (runtime.c, vm.c,
    compiler.c, string.c, object.c, array.c, gc.c and their headers) and
    the properties of the specification checked against it.

    Conventions of the embedding.
    - A C pointer into the managed heap is an address [ptr]; [NULL] is 0.
    - [size_t] is 64 bits wide and [uint32_t] 32 bits (LP64); arithmetic on
      them is written with its wrap-around.
    - [double] is the kernel's binary64 type [float].
    - A [char*] is a [string]; the bytes a C string function sees are the
      ones before the first NUL ([c_str]).
    - Singly linked chains owned by one structure (property chains, the
      generation lists, the intern table, the weak-reference list) are
      lists in chain order.
    - [malloc] of the C library succeeds. What [realloc] answers when the
      managed heap grows is not fixed by the sources: it is a field of
      the collector's state, [heap_realloc]. [realloc] of the elements of
      an array succeeds, except for a request of 0 bytes, which releases
      the block and gives [NULL].
    - Where [mjs_array_new] or [mjs_array_ensure_capacity] would fill
      elements outside the block it has asked for, because the byte
      count has wrapped, the model has no result ([None]). A cell
      [mjs_gc_alloc] places past the end of the managed heap, which
      takes a heap that is still too small after it has been doubled,
      is a cell of the model; the properties of allocations are stated
      for a heap that has room for them ([heap_room]), where no such
      cell is made.
    - A pointer that is no cell of the heap is followed as the null
      pointer is, and a write through it changes nothing. After the heap
      has moved, the pointers into the released block are such pointers;
      what the C code reads through them is not defined, and no property
      below is stated for a state in which one is followed. *)

From Stdlib Require Import ZArith NArith String Ascii List Floats Lia Bool.
From Stdlib Require Import DecimalString.
From stdpp Require Import gmap strings list.

Local Open Scope Z_scope.

(** ** Machine integers and C strings *)

Abbreviation ptr := N (only parsing).
Definition NULL : ptr := 0%N.

Definition wrap_size_t (z : Z) : N := Z.to_N (z mod 2 ^ 64).
Definition wrap_uint32 (z : Z) : N := Z.to_N (z mod 2 ^ 32).
(** Conversion to [int]: the low 32 bits read as two's complement. *)
Definition wrap_int (z : Z) : Z := (z + 2 ^ 31) mod 2 ^ 32 - 2 ^ 31.

Definition size_add (a b : N) : N := wrap_size_t (Z.of_N a + Z.of_N b).
Definition size_sub (a b : N) : N := wrap_size_t (Z.of_N a - Z.of_N b).
Definition size_mul (a b : N) : N := wrap_size_t (Z.of_N a * Z.of_N b).

Definition NUL : ascii := Ascii.zero.

Fixpoint c_str (s : string) : string :=
  match s with
  | EmptyString => EmptyString
  | String c r => if Ascii.eqb c NUL then EmptyString else String c (c_str r)
  end.

Definition strlen (s : string) : N := N.of_nat (String.length (c_str s)).

(** [MJS_STREQ(a, b)], that is [strcmp(a, b) == 0]. *)
Definition MJS_STREQ (a b : string) : bool := String.eqb (c_str a) (c_str b).

(** ** The C library functions the sources call

    Reference model of [isspace], [strtod], [fmod], the conversions from
    [double] to integer types and [snprintf] with ["%.15g"], after ISO C.
    Where C leaves a conversion undefined the result is the one gcc
    produces on x86-64. *)

Module LibC.

Definition isspace (c : ascii) : bool :=
  let n := N_of_ascii c in ((n =? 32) || ((9 <=? n) && (n <=? 13)))%N.

Definition isdigit (c : ascii) : bool :=
  let n := N_of_ascii c in ((48 <=? n) && (n <=? 57))%N.

Definition digit_val (c : ascii) : Z := Z.of_N (N_of_ascii c) - 48.

Definition tolower (c : ascii) : ascii :=
  let n := N_of_ascii c in
  if ((65 <=? n) && (n <=? 90))%N then ascii_of_N (n + 32) else c.

Definition xdigit_val (c : ascii) : option Z :=
  let n := Z.of_N (N_of_ascii (tolower c)) in
  if isdigit c then Some (digit_val c)
  else if (97 <=? n) && (n <=? 102) then Some (n - 87)
  else None.

Fixpoint skip_space (s : string) : string :=
  match s with
  | String c r => if isspace c then skip_space r else s
  | EmptyString => s
  end.

(** [s] starts with [p], letters compared without case. *)
Fixpoint prefix_nocase (p s : string) : bool :=
  match p, s with
  | EmptyString, _ => true
  | String a p', String b s' => Ascii.eqb a (tolower b) && prefix_nocase p' s'
  | _, EmptyString => false
  end.

(** The nearest binary64 number to [n / d] (ties to even), for [0 <= n]
    and [0 < d]: the quotient is taken with at least 66 significant bits
    and a sticky bit for the remainder, then rounded once. *)
Definition round_ratio (n d : Z) : float :=
  if n =? 0 then PrimFloat.zero
  else
    let k := Z.max 0 (66 + Z.log2 d - Z.log2 n) in
    let q := (n * 2 ^ k) / d in
    let sticky := if (n * 2 ^ k) mod d =? 0 then 0 else 1 in
    SF2Prim (binary_normalize 53 1024 (2 * q + sticky) (- (k + 1)) false).

(** The value [m * base ^ e] with [m >= 0], rounded. Exponents far outside
    the range of binary64 are cut off before any power is computed. *)
Definition scale_round (m base e : Z) (ndigits : Z) : float :=
  if m =? 0 then PrimFloat.zero
  else if 5000 <? e then PrimFloat.infinity
  else if e + 4 * ndigits <? -5000 then PrimFloat.zero
  else if 0 <=? e then round_ratio (m * base ^ e) 1
  else round_ratio m (base ^ (- e)).

(** A run of digits: the accumulated value, how many were read, the rest. *)
Fixpoint read_digits (s : string) (acc n : Z) : Z * Z * string :=
  match s with
  | String c r => if isdigit c then read_digits r (10 * acc + digit_val c) (n + 1)
                  else (acc, n, s)
  | EmptyString => (acc, n, s)
  end.

Fixpoint read_xdigits (s : string) (acc n : Z) : Z * Z * string :=
  match s with
  | String c r => match xdigit_val c with
                  | Some v => read_xdigits r (16 * acc + v) (n + 1)
                  | None => (acc, n, s)
                  end
  | EmptyString => (acc, n, s)
  end.

(** An exponent part [e[+-]ddd] (or [p...]): its value and the rest, or 0
    and the text itself when there is none or it has no digit. *)
Definition read_exponent (mark : ascii) (s : string) : Z * string :=
  match s with
  | String c r =>
      if Ascii.eqb (tolower c) mark then
        let '(neg, r') :=
          match r with
          | String "-"%char t => (true, t)
          | String "+"%char t => (false, t)
          | _ => (false, r)
          end in
        let '(v, n, rest) := read_digits r' 0 0 in
        if n =? 0 then (0, s) else (if neg then - v else v, rest)
      else (0, s)
  | EmptyString => (0, s)
  end.

(** Mantissa [iii.fff] in the given base: value of all digits, number of
    digits, number of digits after the point, and the rest. *)
Definition read_mantissa (rd : string -> Z -> Z -> Z * Z * string) (s : string)
  : Z * Z * Z * string :=
  let '(i, ni, r) := rd s 0 0 in
  match r with
  | String "."%char r' =>
      let '(m, n, r'') := rd r' i ni in
      if n =? 0 then (i, ni, 0, r) else (m, n, n - ni, r'')
  | _ => (i, ni, 0, r)
  end.

Definition drop (n : nat) (s : string) : string :=
  substring n (String.length s - n) s.

Definition isalnum_ (c : ascii) : bool :=
  let n := N_of_ascii (tolower c) in
  (isdigit c || ((97 <=? n) && (n <=? 122)) || (n =? 95))%N.

(** The optional [(n-char-sequence)] after [nan]. *)
Fixpoint skip_nan_payload (s : string) : option string :=
  match s with
  | String c r => if Ascii.eqb c ")"%char then Some r
                  else if isalnum_ c then skip_nan_payload r else None
  | EmptyString => None
  end.

(** The number at the head of [s], after its sign, and the rest. *)
Definition strtod_unsigned (s : string) : option (float * string) :=
  if prefix_nocase "infinity" s then Some (PrimFloat.infinity, drop 8 s)
  else if prefix_nocase "inf" s then Some (PrimFloat.infinity, drop 3 s)
  else if prefix_nocase "nan" s then
    let r := drop 3 s in
    match r with
    | String "("%char t =>
        match skip_nan_payload t with
        | Some r' => Some (PrimFloat.nan, r')
        | None => Some (PrimFloat.nan, r)
        end
    | _ => Some (PrimFloat.nan, r)
    end
  else
    let hex :=
      match s with
      | String "0"%char (String x r) =>
          if Ascii.eqb (tolower x) "x"%char then
            let '(m, n, nf, r') := read_mantissa read_xdigits r in
            if n =? 0 then None
            else
              let '(e, rest) := read_exponent "p"%char r' in
              Some (scale_round m 2 (e - 4 * nf) n, rest)
          else None
      | _ => None
      end in
    match hex with
    | Some v => Some v
    | None =>
        let '(m, n, nf, r) := read_mantissa read_digits s in
        if n =? 0 then None
        else
          let '(e, rest) := read_exponent "e"%char r in
          Some (scale_round m 10 (e - nf) n, rest)
    end.

(** [strtod(s, &end)]: leading white space is skipped and the longest
    prefix that is a number is converted; the result comes with the text
    from [end] on. When there is no number the result is zero and [end]
    is [s]. *)
Definition strtod_end (s : string) : float * string :=
  let s0 := c_str s in
  let s1 := skip_space s0 in
  let '(neg, r) :=
    match s1 with
    | String "-"%char t => (true, t)
    | String "+"%char t => (false, t)
    | _ => (false, s1)
    end in
  match strtod_unsigned r with
  | Some (v, rest) => (if neg then PrimFloat.opp v else v, rest)
  | None => (PrimFloat.zero, s0)
  end.

(** [strtod(s, NULL)]. *)
Definition strtod (s : string) : float := fst (strtod_end s).

(** [fmod(x, y)]: the exact remainder of [x / y] with the sign of [x]. *)
Definition fmod (x y : float) : float :=
  match Prim2SF x, Prim2SF y with
  | S754_nan, _ | _, S754_nan => PrimFloat.nan
  | S754_infinity _, _ => PrimFloat.nan
  | _, S754_zero _ => PrimFloat.nan
  | S754_zero _, _ => x
  | _, S754_infinity _ => x
  | S754_finite sx mx ex, S754_finite _ my ey =>
      let e := Z.min ex ey in
      let r := (Z.pos mx * 2 ^ (ex - e)) mod (Z.pos my * 2 ^ (ey - e)) in
      let v := SF2Prim (binary_normalize 53 1024 r e false) in
      if sx then PrimFloat.opp v else v
  end.

(** The integer part of a finite [double]. *)
Definition trunc (x : float) : option Z :=
  match Prim2SF x with
  | S754_zero _ => Some 0
  | S754_finite s m e =>
      let a := if 0 <=? e then Z.pos m * 2 ^ e else Z.pos m / 2 ^ (- e) in
      Some (if s then - a else a)
  | _ => None
  end.

(** [(int32_t)x]. *)
Definition to_int32 (x : float) : Z :=
  match trunc x with
  | Some z => if (- 2 ^ 31 <=? z) && (z <? 2 ^ 31) then z else - 2 ^ 31
  | None => - 2 ^ 31
  end.

(** [(double)n] for a [size_t]. *)
Definition of_size_t (n : N) : float :=
  SF2Prim (binary_normalize 53 1024 (Z.of_N n) 0 false).

(** [(size_t)x]. From [2 ^ 63] on the conversion subtracts [2 ^ 63],
    converts to 64 signed bits and sets the top bit again, and a signed
    conversion out of range gives [- 2 ^ 63]: the result is 0 from
    [2 ^ 64] on and [2 ^ 63] below [- 2 ^ 63] and for a NaN. *)
Definition to_size_t (x : float) : N :=
  match trunc x with
  | Some z => if z <? - 2 ^ 63 then (2 ^ 63)%N
              else if z <? 2 ^ 64 then wrap_size_t z
              else 0%N
  | None => if PrimFloat.ltb PrimFloat.zero x then 0%N else (2 ^ 63)%N
  end.

(** The digits of ["%.15g"]: for [0 < n / d], the decimal exponent [x]
    with [10^x <= n/d < 10^(x+1)] after rounding, and the 15 significant
    digits as one integer. *)
Definition pow10_le (k n d : Z) : bool :=
  if 0 <=? k then 10 ^ k * d <=? n else d <=? n * 10 ^ (- k).

Fixpoint find_exp10 (fuel : nat) (x n d : Z) : Z :=
  match fuel with
  | O => x
  | S f => if pow10_le (x + 1) n d then find_exp10 f (x + 1) n d else x
  end.

Definition round_half_even (n d : Z) : Z :=
  let q := n / d in
  let r := n mod d in
  match 2 * r ?= d with
  | Lt => q
  | Gt => q + 1
  | Eq => if Z.even q then q else q + 1
  end.

Definition digits15 (n d : Z) : Z * Z :=
  let x0 := (Z.log2 n - Z.log2 d) * 30103 / 100000 - 2 in
  let x := find_exp10 8 x0 n d in
  let s := x - 14 in
  let v := if 0 <=? s then round_half_even n (d * 10 ^ s)
           else round_half_even (n * 10 ^ (- s)) d in
  if v =? 10 ^ 15 then (x + 1, 10 ^ 14) else (x, v).

Definition dec (z : Z) : string := NilZero.string_of_uint (N.to_uint (Z.to_N z)).

Fixpoint strip_zeros_rev (s : list ascii) : list ascii :=
  match s with
  | "0"%char :: r => strip_zeros_rev r
  | _ => s
  end.

Definition strip_trailing_zeros (s : string) : string :=
  string_of_list_ascii
    (rev (strip_zeros_rev (rev (list_ascii_of_string s)))).

Fixpoint zeros (n : nat) : string :=
  match n with O => EmptyString | S k => String "0"%char (zeros k) end.

Definition with_point (i f : string) : string :=
  match f with EmptyString => i | _ => (i ++ "." ++ f)%string end.

(** [snprintf(buf, n, "%.15g", x)]. The type [float] has one NaN, with
    no sign: a NaN is printed as [nan] here, where the C library prints
    [-nan] for one whose sign bit is set. *)
Definition snprintf_g15 (x : float) : string :=
  match Prim2SF x with
  | S754_nan => "nan"%string
  | S754_infinity s => if s then "-inf"%string else "inf"%string
  | S754_zero s => if s then "-0"%string else "0"%string
  | S754_finite s m e =>
      let '(n, d) := if 0 <=? e then (Z.pos m * 2 ^ e, 1)
                     else (Z.pos m, 2 ^ (- e)) in
      let '(x10, v) := digits15 n d in
      let ds := dec v in
      let body :=
        if (x10 <? -4) || (15 <=? x10) then
          let mant := with_point (substring 0 1 ds)
                        (strip_trailing_zeros (substring 1 14 ds)) in
          let ex := dec (Z.abs x10) in
          let ex := if Z.abs x10 <? 10 then ("0" ++ ex)%string else ex in
          let sg := if x10 <? 0 then "-"%string else "+"%string in
          (mant ++ "e" ++ sg ++ ex)%string
        else if x10 <? 0 then
          ("0." ++ zeros (Z.to_nat (- x10 - 1)) ++ strip_trailing_zeros ds)%string
        else
          let ni := Z.to_nat (x10 + 1) in
          with_point (substring 0 ni ds)
            (strip_trailing_zeros (substring ni (15 - ni) ds))
      in if s then ("-" ++ body)%string else body
  end.

End LibC.

(** ** Values (mikojs.h, mikojs_internal.h) *)

Inductive mjs_result_t :=
| MJS_OK | MJS_ERROR_SYNTAX | MJS_ERROR_RUNTIME | MJS_ERROR_MEMORY
| MJS_ERROR_TYPE | MJS_ERROR_REFERENCE | MJS_ERROR_RANGE.

(** [#define MJS_ERROR -1], the value of [MJS_ERROR_SYNTAX]. *)
Definition MJS_ERROR : mjs_result_t := MJS_ERROR_SYNTAX.

Inductive mjs_value_type_t :=
| MJS_TYPE_UNDEFINED | MJS_TYPE_NULL | MJS_TYPE_BOOLEAN | MJS_TYPE_NUMBER
| MJS_TYPE_STRING | MJS_TYPE_OBJECT | MJS_TYPE_FUNCTION | MJS_TYPE_ARRAY
| MJS_TYPE_BIGINT | MJS_TYPE_SYMBOL.

(** [struct mjs_value]: the tag and the member of the union it selects. *)
Inductive mjs_value_t :=
| VUndefined
| VNull
| VBoolean (boolean : bool)
| VNumber (number : float)
| VString (string : ptr)
| VObject (object : ptr)
| VFunction (function : ptr)
| VArray (array : ptr)
| VBigint
| VSymbol.

Definition mjs_undefined : mjs_value_t := VUndefined.
Definition mjs_null : mjs_value_t := VNull.
Definition mjs_boolean (val : bool) : mjs_value_t := VBoolean val.
Definition mjs_number (val : float) : mjs_value_t := VNumber val.

Definition mjs_value_undefined : mjs_value_t := mjs_undefined.
Definition mjs_value_null : mjs_value_t := mjs_null.
Definition mjs_value_boolean (b : bool) : mjs_value_t := mjs_boolean b.
Definition mjs_value_number (n : float) : mjs_value_t := mjs_number n.
Definition mjs_value_string (str : ptr) : mjs_value_t :=
  if (str =? NULL)%N then mjs_undefined else VString str.
Definition mjs_value_array (arr : ptr) : mjs_value_t :=
  if (arr =? NULL)%N then mjs_undefined else VArray arr.
Definition mjs_value_object (obj : ptr) : mjs_value_t :=
  if (obj =? NULL)%N then mjs_undefined else VObject obj.

Definition mjs_get_type (value : mjs_value_t) : mjs_value_type_t :=
  match value with
  | VUndefined => MJS_TYPE_UNDEFINED
  | VNull => MJS_TYPE_NULL
  | VBoolean _ => MJS_TYPE_BOOLEAN
  | VNumber _ => MJS_TYPE_NUMBER
  | VString _ => MJS_TYPE_STRING
  | VObject _ => MJS_TYPE_OBJECT
  | VFunction _ => MJS_TYPE_FUNCTION
  | VArray _ => MJS_TYPE_ARRAY
  | VBigint => MJS_TYPE_BIGINT
  | VSymbol => MJS_TYPE_SYMBOL
  end.

Definition mjs_value_type_eqb (a b : mjs_value_type_t) : bool :=
  match a, b with
  | MJS_TYPE_UNDEFINED, MJS_TYPE_UNDEFINED | MJS_TYPE_NULL, MJS_TYPE_NULL
  | MJS_TYPE_BOOLEAN, MJS_TYPE_BOOLEAN | MJS_TYPE_NUMBER, MJS_TYPE_NUMBER
  | MJS_TYPE_STRING, MJS_TYPE_STRING | MJS_TYPE_OBJECT, MJS_TYPE_OBJECT
  | MJS_TYPE_FUNCTION, MJS_TYPE_FUNCTION | MJS_TYPE_ARRAY, MJS_TYPE_ARRAY
  | MJS_TYPE_BIGINT, MJS_TYPE_BIGINT | MJS_TYPE_SYMBOL, MJS_TYPE_SYMBOL => true
  | _, _ => false
  end.

Definition mjs_is_undefined (v : mjs_value_t) : bool :=
  match v with VUndefined => true | _ => false end.
Definition mjs_is_null (v : mjs_value_t) : bool :=
  match v with VNull => true | _ => false end.
Definition mjs_is_boolean (v : mjs_value_t) : bool :=
  match v with VBoolean _ => true | _ => false end.
Definition mjs_is_number (v : mjs_value_t) : bool :=
  match v with VNumber _ => true | _ => false end.
Definition mjs_is_string (v : mjs_value_t) : bool :=
  match v with VString _ => true | _ => false end.
Definition mjs_is_object (v : mjs_value_t) : bool :=
  match v with VObject _ => true | _ => false end.
Definition mjs_is_function (v : mjs_value_t) : bool :=
  match v with VFunction _ => true | _ => false end.
Definition mjs_is_array (v : mjs_value_t) : bool :=
  match v with VArray _ => true | _ => false end.

(** The accessors return a fixed value when the tag is another one. *)
Definition mjs_get_boolean (v : mjs_value_t) : bool :=
  match v with VBoolean b => b | _ => false end.
Definition mjs_get_number (v : mjs_value_t) : float :=
  match v with VNumber n => n | _ => PrimFloat.zero end.
Definition mjs_get_string (v : mjs_value_t) : ptr :=
  match v with VString s => s | _ => NULL end.
Definition mjs_get_object (v : mjs_value_t) : ptr :=
  match v with VObject o => o | _ => NULL end.
Definition mjs_get_array (v : mjs_value_t) : ptr :=
  match v with VArray a => a | _ => NULL end.

(** ** Bytecode (vm.h) *)

Inductive mjs_opcode_t :=
| OP_NOP
| OP_PUSH_UNDEFINED | OP_PUSH_NULL | OP_PUSH_TRUE | OP_PUSH_FALSE
| OP_PUSH_NUMBER | OP_PUSH_STRING | OP_PUSH_BIGINT | OP_POP | OP_DUP | OP_SWAP
| OP_LOAD_CONST | OP_LOAD_VAR | OP_STORE_VAR | OP_LOAD_LOCAL | OP_STORE_LOCAL
| OP_LOAD_GLOBAL | OP_STORE_GLOBAL | OP_DECLARE_VAR | OP_DECLARE_LET
| OP_DECLARE_CONST
| OP_ADD | OP_SUB | OP_MUL | OP_DIV | OP_MOD | OP_NEG | OP_PLUS | OP_SUBTRACT
| OP_MULTIPLY | OP_DIVIDE | OP_MODULO | OP_EXPONENT | OP_NEGATE | OP_INCREMENT
| OP_DECREMENT
| OP_EQ | OP_NE | OP_EQUAL | OP_NOT_EQUAL | OP_STRICT_EQUAL
| OP_STRICT_NOT_EQUAL | OP_LESS_THAN | OP_LESS_EQUAL | OP_GREATER_THAN
| OP_GREATER_EQUAL | OP_LT | OP_LE | OP_GT | OP_GE
| OP_AND | OP_OR | OP_NOT | OP_LOGICAL_AND | OP_LOGICAL_OR | OP_LOGICAL_NOT
| OP_NULLISH_COALESCING
| OP_BIT_AND | OP_BIT_OR | OP_BIT_XOR | OP_BIT_NOT | OP_SHL | OP_SHR
| OP_BITWISE_AND | OP_BITWISE_OR | OP_BITWISE_XOR | OP_BITWISE_NOT
| OP_LEFT_SHIFT | OP_RIGHT_SHIFT | OP_UNSIGNED_RIGHT_SHIFT
| OP_NEW_OBJECT | OP_NEW_ARRAY | OP_GET_PROP | OP_SET_PROP | OP_GET_PROPERTY
| OP_SET_PROPERTY | OP_GET_PROP_COMPUTED | OP_SET_PROP_COMPUTED
| OP_DELETE_PROPERTY | OP_HAS_PROPERTY | OP_GET_ELEMENT | OP_SET_ELEMENT
| OP_TYPEOF | OP_INSTANCEOF
| OP_ARRAY_PUSH | OP_ARRAY_POP | OP_ARRAY_GET | OP_ARRAY_SET | OP_ARRAY_LENGTH
| OP_CALL | OP_NEW | OP_RETURN | OP_YIELD | OP_AWAIT
| OP_JUMP | OP_JUMP_IF_TRUE | OP_JUMP_IF_FALSE | OP_JUMP_IF_NULL_OR_UNDEFINED
| OP_THROW | OP_TRY_BEGIN | OP_TRY_END | OP_CATCH_BEGIN | OP_CATCH_END
| OP_FINALLY_BEGIN | OP_FINALLY_END
| OP_DEBUGGER | OP_HALT.

(** [mjs_instruction_t]; the sources only use the [u32] member of the
    operand. *)
Record mjs_instruction_t := Instr { opcode : mjs_opcode_t; operand : N }.

(** [struct mjs_string]. [str_data] holds the [length] bytes of the
    string (the terminating NUL is not stored); the chain through [next]
    is kept by the owner of the chain. *)
Record mjs_string_t := MkString {
  str_data : string;
  str_capacity : N;
  is_interned : bool
}.

Definition str_length (s : mjs_string_t) : N :=
  N.of_nat (String.length (str_data s)).

(** [struct mjs_bytecode]. The counts are the lengths of the lists; the
    string pool owns its strings (they are not on the managed heap). *)
Record mjs_bytecode_t := MkBytecode {
  instructions : list mjs_instruction_t;
  instruction_capacity : N;
  constants : list mjs_value_t;
  constant_capacity : N;
  strings : list mjs_string_t;
  string_capacity : N
}.

Definition instruction_count (b : mjs_bytecode_t) : N :=
  N.of_nat (length (instructions b)).
Definition constant_count (b : mjs_bytecode_t) : N :=
  N.of_nat (length (constants b)).
Definition string_count (b : mjs_bytecode_t) : N :=
  N.of_nat (length (strings b)).

(** ** Heap objects (mikojs_internal.h, gc.h) *)

Record mjs_property_t := MkProperty {
  key : ptr;
  value : mjs_value_t;
  writable : bool;
  enumerable : bool;
  configurable : bool
}.

Record mjs_object_t := MkObject {
  properties : list mjs_property_t;
  prototype : ptr;
  extensible : bool;
  property_count : N
}.

(** [struct mjs_array]: [elements] is the whole buffer, so that its length
    is [capacity]. *)
Record mjs_array_t := MkArray {
  elements : list mjs_value_t;
  arr_length : N
}.

Definition arr_capacity (a : mjs_array_t) : N := N.of_nat (length (elements a)).

Inductive mjs_function_kind := MJS_FUNCTION_NATIVE | MJS_FUNCTION_BYTECODE.

(** [struct mjs_function]; [fn_bytecode] is the block of a bytecode
    function. *)
Record mjs_function_t := MkFunction {
  fn_type : mjs_function_kind;
  fn_bytecode : option mjs_bytecode_t;
  fn_name : ptr;
  fn_scope : ptr
}.

Definition GC_MARK_WHITE : Z := 0.
Definition GC_MARK_GRAY : Z := 1.
Definition GC_MARK_BLACK : Z := 2.

Definition GC_TYPE_STRING : Z := 1.
Definition GC_TYPE_ARRAY : Z := 2.
Definition GC_TYPE_OBJECT : Z := 3.
Definition GC_TYPE_FUNCTION : Z := 4.

(** [mjs_gc_object_header_t], the fields the collector reads. *)
Record mjs_gc_object_header_t := MkHeader {
  type : Z;
  mark : Z;
  generation : Z;
  obj_size : N
}.

(** What the payload after a header holds. [PRaw] is memory no
    constructor has filled in. *)
Inductive payload :=
| PString (s : mjs_string_t)
| PObject (o : mjs_object_t)
| PArray (a : mjs_array_t)
| PFunction (f : mjs_function_t)
| PRaw.

Record cell := MkCell { header : mjs_gc_object_header_t; body : payload }.

Inductive mjs_gc_state_t :=
| GC_STATE_IDLE | GC_STATE_MARKING | GC_STATE_SWEEPING | GC_STATE_COMPACTING.

Record mjs_gc_config_t := MkConfig {
  incremental : bool;
  generational : bool;
  compact : bool;
  collection_threshold : N;
  max_heap_size : N
}.

Record mjs_gc_generation_t := MkGeneration {
  objects : list ptr;
  gen_size : N;
  gen_capacity : N
}.

Record mjs_gc_stats_t := MkStats {
  total_allocations : N;
  total_bytes_allocated : N;
  collections : N;
  objects_freed : N;
  bytes_freed : N;
  stat_heap_size : N;
  stat_heap_used : N;
  young_generation_size : N;
  old_generation_size : N
}.

(** [mjs_weak_ref_t]. A callback is a code address; calling it is
    recorded in [fired] of the collector. *)
Record mjs_weak_ref_t := MkWeakRef {
  wr_object : ptr;
  callback : ptr;
  userdata : ptr
}.

(** [struct mjs_gc]. [memory] is the managed heap, keyed by the address of
    the payload; [heap] is the address [malloc] gave for it. A weak
    reference is known by the address [malloc] gave for its record,
    [next_weak_ref] being the next one to be given; [fired] lists the
    callbacks called so far with their argument, latest first.
    [heap_realloc block size] is what [realloc] of the C library answers
    when the heap at [block] is to have [size] bytes: [block] when it is
    extended where it is, another address when it is moved, [NULL] when
    there is no memory. *)
Record mjs_gc_t := MkGc {
  config : mjs_gc_config_t;
  state : mjs_gc_state_t;
  heap : N;
  heap_used : N;
  heap_size : N;
  incremental_step : N;
  young_generation : mjs_gc_generation_t;
  old_generation : mjs_gc_generation_t;
  roots : list ptr;
  gray_stack : list ptr;
  stats : mjs_gc_stats_t;
  weak_refs : list (ptr * mjs_weak_ref_t);
  next_weak_ref : ptr;
  fired : list (ptr * ptr);
  memory : gmap N cell;
  heap_realloc : N -> N -> N
}.

Record mjs_runtime_t := MkRuntime {
  gc : mjs_gc_t;
  string_table : list ptr;
  memory_limit : N;
  memory_usage : N
}.

(** [struct mjs_context]; the VM of a context is kept beside it, in
    [mjs_vm_t]. *)
Record mjs_context_t := MkContext {
  runtime : mjs_runtime_t;
  global_object : mjs_value_t;
  error_value : mjs_value_t;
  error_message : option string;
  has_error : bool
}.

(** ** Field updates *)

Definition set_mark (m : Z) (h : mjs_gc_object_header_t) : mjs_gc_object_header_t :=
  MkHeader (type h) m (generation h) (obj_size h).
Definition set_generation (g : Z) (h : mjs_gc_object_header_t) : mjs_gc_object_header_t :=
  MkHeader (type h) (mark h) g (obj_size h).
Definition cell_set_mark (m : Z) (c : cell) : cell :=
  MkCell (set_mark m (header c)) (body c).
Definition cell_set_body (b : payload) (c : cell) : cell := MkCell (header c) b.

Definition gc_set_state (s : mjs_gc_state_t) (g : mjs_gc_t) : mjs_gc_t :=
  MkGc (config g) s (heap g) (heap_used g) (heap_size g) (incremental_step g)
    (young_generation g) (old_generation g) (roots g) (gray_stack g) (stats g)
    (weak_refs g) (next_weak_ref g) (fired g) (memory g) (heap_realloc g).
Definition gc_set_config (c : mjs_gc_config_t) (g : mjs_gc_t) : mjs_gc_t :=
  MkGc c (state g) (heap g) (heap_used g) (heap_size g) (incremental_step g)
    (young_generation g) (old_generation g) (roots g) (gray_stack g) (stats g)
    (weak_refs g) (next_weak_ref g) (fired g) (memory g) (heap_realloc g).
Definition gc_set_heap (used sz : N) (g : mjs_gc_t) : mjs_gc_t :=
  MkGc (config g) (state g) (heap g) used sz (incremental_step g)
    (young_generation g) (old_generation g) (roots g) (gray_stack g) (stats g)
    (weak_refs g) (next_weak_ref g) (fired g) (memory g) (heap_realloc g).
Definition gc_set_incremental_step (n : N) (g : mjs_gc_t) : mjs_gc_t :=
  MkGc (config g) (state g) (heap g) (heap_used g) (heap_size g) n
    (young_generation g) (old_generation g) (roots g) (gray_stack g) (stats g)
    (weak_refs g) (next_weak_ref g) (fired g) (memory g) (heap_realloc g).
Definition gc_set_young (y : mjs_gc_generation_t) (g : mjs_gc_t) : mjs_gc_t :=
  MkGc (config g) (state g) (heap g) (heap_used g) (heap_size g)
    (incremental_step g) y (old_generation g) (roots g) (gray_stack g) (stats g)
    (weak_refs g) (next_weak_ref g) (fired g) (memory g) (heap_realloc g).
Definition gc_set_old (o : mjs_gc_generation_t) (g : mjs_gc_t) : mjs_gc_t :=
  MkGc (config g) (state g) (heap g) (heap_used g) (heap_size g)
    (incremental_step g) (young_generation g) o (roots g) (gray_stack g) (stats g)
    (weak_refs g) (next_weak_ref g) (fired g) (memory g) (heap_realloc g).
Definition gc_set_roots (r : list ptr) (g : mjs_gc_t) : mjs_gc_t :=
  MkGc (config g) (state g) (heap g) (heap_used g) (heap_size g)
    (incremental_step g) (young_generation g) (old_generation g) r
    (gray_stack g) (stats g) (weak_refs g) (next_weak_ref g) (fired g) (memory g) (heap_realloc g).
Definition gc_set_gray_stack (s : list ptr) (g : mjs_gc_t) : mjs_gc_t :=
  MkGc (config g) (state g) (heap g) (heap_used g) (heap_size g)
    (incremental_step g) (young_generation g) (old_generation g) (roots g) s
    (stats g) (weak_refs g) (next_weak_ref g) (fired g) (memory g) (heap_realloc g).
Definition gc_set_stats (s : mjs_gc_stats_t) (g : mjs_gc_t) : mjs_gc_t :=
  MkGc (config g) (state g) (heap g) (heap_used g) (heap_size g)
    (incremental_step g) (young_generation g) (old_generation g) (roots g)
    (gray_stack g) s (weak_refs g) (next_weak_ref g) (fired g) (memory g) (heap_realloc g).
Definition gc_set_weak_refs (w : list (ptr * mjs_weak_ref_t)) (g : mjs_gc_t) : mjs_gc_t :=
  MkGc (config g) (state g) (heap g) (heap_used g) (heap_size g)
    (incremental_step g) (young_generation g) (old_generation g) (roots g)
    (gray_stack g) (stats g) w (next_weak_ref g) (fired g) (memory g) (heap_realloc g).
Definition gc_set_next_weak_ref (n : ptr) (g : mjs_gc_t) : mjs_gc_t :=
  MkGc (config g) (state g) (heap g) (heap_used g) (heap_size g)
    (incremental_step g) (young_generation g) (old_generation g) (roots g)
    (gray_stack g) (stats g) (weak_refs g) n (fired g) (memory g) (heap_realloc g).
Definition gc_set_fired (f : list (ptr * ptr)) (g : mjs_gc_t) : mjs_gc_t :=
  MkGc (config g) (state g) (heap g) (heap_used g) (heap_size g)
    (incremental_step g) (young_generation g) (old_generation g) (roots g)
    (gray_stack g) (stats g) (weak_refs g) (next_weak_ref g) f (memory g) (heap_realloc g).
Definition gc_set_memory (m : gmap N cell) (g : mjs_gc_t) : mjs_gc_t :=
  MkGc (config g) (state g) (heap g) (heap_used g) (heap_size g)
    (incremental_step g) (young_generation g) (old_generation g) (roots g)
    (gray_stack g) (stats g) (weak_refs g) (next_weak_ref g) (fired g) m (heap_realloc g).
(** The heap at another address: what was at [p] is at the same distance
    from the new address, and nothing is left at the old one. *)
Definition gc_move_heap (block : N) (g : mjs_gc_t) : mjs_gc_t :=
  MkGc (config g) (state g) block (heap_used g) (heap_size g)
    (incremental_step g) (young_generation g) (old_generation g) (roots g)
    (gray_stack g) (stats g) (weak_refs g) (next_weak_ref g) (fired g)
    (kmap (fun p => (block + (p - heap g))%N) (memory g)) (heap_realloc g).

Definition rt_set_gc (g : mjs_gc_t) (rt : mjs_runtime_t) : mjs_runtime_t :=
  MkRuntime g (string_table rt) (memory_limit rt) (memory_usage rt).
Definition rt_set_string_table (t : list ptr) (rt : mjs_runtime_t) : mjs_runtime_t :=
  MkRuntime (gc rt) t (memory_limit rt) (memory_usage rt).
Definition ctx_set_runtime (rt : mjs_runtime_t) (ctx : mjs_context_t) : mjs_context_t :=
  MkContext rt (global_object ctx) (error_value ctx) (error_message ctx)
    (has_error ctx).
Definition ctx_set_gc (g : mjs_gc_t) (ctx : mjs_context_t) : mjs_context_t :=
  ctx_set_runtime (rt_set_gc g (runtime ctx)) ctx.
Definition ctx_gc (ctx : mjs_context_t) : mjs_gc_t := gc (runtime ctx).
Definition ctx_memory (ctx : mjs_context_t) : gmap N cell := memory (ctx_gc ctx).
Definition ctx_set_memory (m : gmap N cell) (ctx : mjs_context_t) : mjs_context_t :=
  ctx_set_gc (gc_set_memory m (ctx_gc ctx)) ctx.

(** Reading and writing the payload at an address. A write through a
    pointer that is not on the heap changes nothing in the model. *)
Definition load (m : gmap N cell) (p : ptr) : option payload :=
  body <$> m !! p.
Definition store (p : ptr) (b : payload) (m : gmap N cell) : gmap N cell :=
  match m !! p with
  | Some c => <[p := cell_set_body b c]> m
  | None => m
  end.
Definition load_string (m : gmap N cell) (p : ptr) : option mjs_string_t :=
  match load m p with Some (PString s) => Some s | _ => None end.
Definition load_object (m : gmap N cell) (p : ptr) : option mjs_object_t :=
  match load m p with Some (PObject o) => Some o | _ => None end.
Definition load_array (m : gmap N cell) (p : ptr) : option mjs_array_t :=
  match load m p with Some (PArray a) => Some a | _ => None end.

(** ** The collector (gc.c) *)

Definition GC_INITIAL_HEAP_SIZE : N := 1024 * 1024.
Definition GC_GROWTH_FACTOR : N := 2.
(** [0.8], the nearest binary64 number. *)
Definition GC_COLLECTION_THRESHOLD : float := 0x1.999999999999ap-1%float.
Definition GC_YOUNG_GENERATION_SIZE : N := 256 * 1024.
Definition GC_INCREMENTAL_STEP_SIZE : nat := 100.
(** [sizeof(mjs_gc_object_header_t)] and the sizes of the heap structures
    on LP64. *)
Definition GC_HEADER_SIZE : N := 48.
Definition sizeof_mjs_string_t : N := 40.
Definition sizeof_mjs_object_t : N := 32.
Definition sizeof_mjs_array_t : N := 24.

(** [mjs_gc_new]; [heap_addr] is the address [malloc] returned for the
    heap and [realloc] what the C library will answer when the heap is to
    grow. The structure is zeroed first, which leaves [compact] false and
    the [capacity] of the generations 0; [collection_threshold] is a
    [size_t], so the assignment of [GC_COLLECTION_THRESHOLD] converts. *)
Definition mjs_gc_new (heap_addr : N) (realloc : N -> N -> N) : mjs_gc_t :=
  {| config := {| incremental := true; generational := true; compact := false;
                  collection_threshold := LibC.to_size_t GC_COLLECTION_THRESHOLD;
                  max_heap_size := 0 |};
     state := GC_STATE_IDLE;
     heap := heap_addr; heap_used := 0; heap_size := GC_INITIAL_HEAP_SIZE;
     incremental_step := 0;
     young_generation := MkGeneration [] 0 0;
     old_generation := MkGeneration [] 0 0;
     roots := []; gray_stack := [];
     stats := MkStats 0 0 0 0 0 0 0 0 0;
     weak_refs := []; next_weak_ref := 1%N; fired := [];
     memory := ∅; heap_realloc := realloc |}.

(** *** Marking *)

(** The body of [gc_mark_object], its recursive calls being [mark_child]. *)
Definition gc_mark_object_body (mark_child : mjs_gc_t -> ptr -> mjs_gc_t)
    (g : mjs_gc_t) (obj : ptr) : mjs_gc_t :=
  if (obj =? NULL)%N then g
  else
    match memory g !! obj with
    | None => g
    | Some c =>
        if negb (mark (header c) =? GC_MARK_WHITE) then g
        else
          let g := gc_set_memory (<[obj := cell_set_mark GC_MARK_GRAY c]> (memory g)) g in
          let g := gc_set_gray_stack (obj :: gray_stack g) g in
          let g :=
            if type (header c) =? GC_TYPE_STRING then g
            else if type (header c) =? GC_TYPE_OBJECT then
              match body c with
              | PObject object =>
                  let g := if negb (prototype object =? NULL)%N
                           then mark_child g (prototype object)
                           else g in
                  fold_left
                    (fun g prop =>
                       if negb (key prop =? NULL)%N then mark_child g (key prop) else g)
                    (properties object) g
              | _ => g
              end
            else if type (header c) =? GC_TYPE_ARRAY then g
            else if type (header c) =? GC_TYPE_FUNCTION then
              match body c with
              | PFunction function =>
                  if negb (fn_name function =? NULL)%N
                  then mark_child g (fn_name function)
                  else g
              | _ => g
              end
            else g in
          gc_set_memory (alter (cell_set_mark GC_MARK_BLACK) obj (memory g)) g
    end.

(** [gc_mark_object]. The recursion of the C function follows the object
    graph; it goes one level deeper only through an object it has just
    turned from white to grey, so its depth is at most the number of cells
    and [fuel] counts the levels left. *)
Fixpoint gc_mark_object_fuel (fuel : nat) (g : mjs_gc_t) (obj : ptr) : mjs_gc_t :=
  match fuel with
  | O => g
  | S fuel => gc_mark_object_body (gc_mark_object_fuel fuel) g obj
  end.

Definition gc_mark_object (g : mjs_gc_t) (obj : ptr) : mjs_gc_t :=
  gc_mark_object_fuel (S (size (memory g))) g obj.

Definition gc_mark_roots (g : mjs_gc_t) : mjs_gc_t :=
  fold_left
    (fun g obj => if negb (obj =? NULL)%N then gc_mark_object g obj else g)
    (roots g) g.

(** [while (gc->gray_count > 0) { obj = gray_stack[--gray_count]; ... }];
    [young_only] is the test on the generation [mjs_gc_collect_young]
    adds. Every turn pops one entry and pushes only cells that were white,
    which bounds the number of turns. *)
Fixpoint gc_process_gray (fuel : nat) (young_only : bool) (g : mjs_gc_t) : mjs_gc_t :=
  match fuel with
  | O => g
  | S fuel =>
      match gray_stack g with
      | [] => g
      | obj :: rest =>
          let g := gc_set_gray_stack rest g in
          let skip :=
            young_only &&
            match memory g !! obj with
            | Some c => negb (generation (header c) =? 0)
            | None => false
            end in
          gc_process_gray fuel young_only (if skip then g else gc_mark_object g obj)
      end
  end.

Definition gc_drain_gray (young_only : bool) (g : mjs_gc_t) : mjs_gc_t :=
  gc_process_gray (length (gray_stack g) + size (memory g)) young_only g.

(** *** Sweeping *)

Definition stats_freed (bytes : N) (s : mjs_gc_stats_t) : mjs_gc_stats_t :=
  MkStats (total_allocations s) (total_bytes_allocated s) (collections s)
    (size_add (objects_freed s) 1) (size_add (bytes_freed s) bytes)
    (stat_heap_size s) (stat_heap_used s) (young_generation_size s)
    (old_generation_size s).

(** One of the two loops of [gc_sweep] over the chain of a generation:
    the chain without the white objects, the size left, the statistics
    and the heap with the survivors white again. *)
Fixpoint sweep_chain (l : list ptr) (sz : N) (st : mjs_gc_stats_t) (m : gmap N cell)
  : list ptr * N * mjs_gc_stats_t * gmap N cell :=
  match l with
  | [] => ([], sz, st, m)
  | obj :: next =>
      match m !! obj with
      | None =>
          let '(kept, sz, st, m) := sweep_chain next sz st m in
          (obj :: kept, sz, st, m)
      | Some c =>
          if mark (header c) =? GC_MARK_WHITE then
            let bytes := size_add (obj_size (header c)) GC_HEADER_SIZE in
            sweep_chain next (size_sub sz bytes) (stats_freed bytes st) m
          else
            let '(kept, sz, st, m) :=
              sweep_chain next sz st (<[obj := cell_set_mark GC_MARK_WHITE c]> m) in
            (obj :: kept, sz, st, m)
      end
  end.

Definition sweep_young (g : mjs_gc_t) : mjs_gc_t :=
  let y := young_generation g in
  let '(kept, sz, st, m) := sweep_chain (objects y) (gen_size y) (stats g) (memory g) in
  gc_set_memory m (gc_set_stats st (gc_set_young (MkGeneration kept sz (gen_capacity y)) g)).

Definition sweep_old (g : mjs_gc_t) : mjs_gc_t :=
  let o := old_generation g in
  let '(kept, sz, st, m) := sweep_chain (objects o) (gen_size o) (stats g) (memory g) in
  gc_set_memory m (gc_set_stats st (gc_set_old (MkGeneration kept sz (gen_capacity o)) g)).

(** The last loop of [gc_sweep], over the weak references: a reference
    whose target has a white header is cleared and its callback, if it has
    one, is called; a cleared reference is unlinked and freed. It returns
    the references left and the callbacks called, latest first. *)
Fixpoint process_weak_refs (m : gmap N cell) (l : list (ptr * mjs_weak_ref_t))
    (calls : list (ptr * ptr)) : list (ptr * mjs_weak_ref_t) * list (ptr * ptr) :=
  match l with
  | [] => ([], calls)
  | (h, weak_ref) :: next_weak =>
      let white :=
        match m !! wr_object weak_ref with
        | Some c => mark (header c) =? GC_MARK_WHITE
        | None => false
        end in
      let collected := negb (wr_object weak_ref =? NULL)%N && white in
      let weak_ref' :=
        if collected then MkWeakRef NULL (callback weak_ref) (userdata weak_ref)
        else weak_ref in
      let calls :=
        if collected && negb (callback weak_ref =? NULL)%N
        then (callback weak_ref, userdata weak_ref) :: calls
        else calls in
      let '(kept, calls) := process_weak_refs m next_weak calls in
      if (wr_object weak_ref' =? NULL)%N then (kept, calls)
      else ((h, weak_ref') :: kept, calls)
  end.

Definition gc_sweep (g : mjs_gc_t) : mjs_gc_t :=
  let g := sweep_old (sweep_young g) in
  let '(kept, calls) := process_weak_refs (memory g) (weak_refs g) (fired g) in
  gc_set_fired calls (gc_set_weak_refs kept g).

(** [gc_compact] has an empty body. *)
Definition gc_compact (g : mjs_gc_t) : mjs_gc_t := g.

Definition stats_collected (s : mjs_gc_stats_t) : mjs_gc_stats_t :=
  MkStats (total_allocations s) (total_bytes_allocated s)
    (size_add (collections s) 1) (objects_freed s) (bytes_freed s)
    (stat_heap_size s) (stat_heap_used s) (young_generation_size s)
    (old_generation_size s).

Definition gc_update_statistics (g : mjs_gc_t) : mjs_gc_t :=
  let s := stats g in
  gc_set_stats
    (MkStats (total_allocations s) (total_bytes_allocated s) (collections s)
       (objects_freed s) (bytes_freed s) (heap_size g) (heap_used g)
       (gen_size (young_generation g)) (gen_size (old_generation g))) g.

(** [mjs_gc_collect]; the time it adds to [stats.collection_time] is not
    kept. *)
Definition mjs_gc_collect (g : mjs_gc_t) : mjs_gc_t :=
  let g := gc_set_state GC_STATE_MARKING g in
  let g := gc_mark_roots g in
  let g := gc_drain_gray false g in
  let g := gc_set_state GC_STATE_SWEEPING g in
  let g := gc_sweep g in
  let g := if compact (config g)
           then gc_compact (gc_set_state GC_STATE_COMPACTING g) else g in
  let g := gc_set_state GC_STATE_IDLE g in
  let g := gc_set_stats (stats_collected (stats g)) g in
  gc_update_statistics g.

(** [mjs_gc_collect_young]. Its own sweep of the young chain ages the
    survivors and moves them to the old chain at generation 2; it does not
    visit the weak references. *)
Fixpoint sweep_young_chain (l : list ptr) (sz : N) (st : mjs_gc_stats_t)
    (m : gmap N cell) (old : list ptr) (old_sz : N)
  : list ptr * N * mjs_gc_stats_t * gmap N cell * list ptr * N :=
  match l with
  | [] => ([], sz, st, m, old, old_sz)
  | obj :: next =>
      match m !! obj with
      | None =>
          let '(kept, sz, st, m, old, old_sz) :=
            sweep_young_chain next sz st m old old_sz in
          (obj :: kept, sz, st, m, old, old_sz)
      | Some c =>
          let bytes := size_add (obj_size (header c)) GC_HEADER_SIZE in
          if mark (header c) =? GC_MARK_WHITE then
            sweep_young_chain next (size_sub sz bytes) (stats_freed bytes st) m old old_sz
          else
            let gen := wrap_int (generation (header c) + 1) in
            let c' := MkCell (set_mark GC_MARK_WHITE (set_generation gen (header c))) (body c) in
            let m := <[obj := c']> m in
            if 2 <=? gen then
              sweep_young_chain next (size_sub sz bytes) st m (obj :: old)
                (size_add old_sz bytes)
            else
              let '(kept, sz, st, m, old, old_sz) :=
                sweep_young_chain next sz st m old old_sz in
              (obj :: kept, sz, st, m, old, old_sz)
      end
  end.

Definition mjs_gc_collect_young (g : mjs_gc_t) : mjs_gc_t :=
  if negb (generational (config g)) then mjs_gc_collect g
  else
    let g := gc_set_state GC_STATE_MARKING g in
    let g :=
      fold_left
        (fun g obj =>
           if negb (obj =? NULL)%N then
             match memory g !! obj with
             | Some c => if generation (header c) =? 0 then gc_mark_object g obj else g
             | None => g
             end
           else g)
        (roots g) g in
    let g := gc_drain_gray true g in
    let g := gc_set_state GC_STATE_SWEEPING g in
    let y := young_generation g in
    let o := old_generation g in
    let '(kept, sz, st, m, old, old_sz) :=
      sweep_young_chain (objects y) (gen_size y) (stats g) (memory g)
        (objects o) (gen_size o) in
    let g := gc_set_young (MkGeneration kept sz (gen_capacity y)) g in
    let g := gc_set_old (MkGeneration old old_sz (gen_capacity o)) g in
    let g := gc_set_memory m (gc_set_stats st g) in
    let g := gc_set_state GC_STATE_IDLE g in
    gc_set_stats (stats_collected (stats g)) g.

(** The marking step of [mjs_gc_collect_incremental]: at most
    [GC_INCREMENTAL_STEP_SIZE] entries of the grey stack. *)
Fixpoint gc_process_gray_step (n : nat) (g : mjs_gc_t) : mjs_gc_t :=
  match n with
  | O => g
  | S n =>
      match gray_stack g with
      | [] => g
      | obj :: rest => gc_process_gray_step n (gc_mark_object (gc_set_gray_stack rest g) obj)
      end
  end.

Definition mjs_gc_collect_incremental (g : mjs_gc_t) : mjs_gc_t :=
  if negb (incremental (config g)) then mjs_gc_collect g
  else
    match state g with
    | GC_STATE_IDLE =>
        gc_mark_roots (gc_set_incremental_step 0 (gc_set_state GC_STATE_MARKING g))
    | GC_STATE_MARKING =>
        let g := gc_process_gray_step GC_INCREMENTAL_STEP_SIZE g in
        match gray_stack g with
        | [] => gc_set_incremental_step 0 (gc_set_state GC_STATE_SWEEPING g)
        | _ => g
        end
    | GC_STATE_SWEEPING =>
        let g := gc_set_state GC_STATE_IDLE (gc_sweep g) in
        gc_set_stats (stats_collected (stats g)) g
    | GC_STATE_COMPACTING => gc_set_state GC_STATE_IDLE (gc_compact g)
    end.

(** *** Allocation and roots *)

Definition gc_should_collect (g : mjs_gc_t) : bool :=
  let usage_ratio :=
    PrimFloat.div (LibC.of_size_t (heap_used g)) (LibC.of_size_t (heap_size g)) in
  if PrimFloat.leb (LibC.of_size_t (collection_threshold (config g))) usage_ratio
  then true
  else generational (config g) &&
       (gen_capacity (young_generation g) <=? gen_size (young_generation g))%N.

Definition stats_allocated (bytes : N) (s : mjs_gc_stats_t) : mjs_gc_stats_t :=
  MkStats (size_add (total_allocations s) 1)
    (size_add (total_bytes_allocated s) bytes) (collections s) (objects_freed s)
    (bytes_freed s) (stat_heap_size s) (stat_heap_used s)
    (young_generation_size s) (old_generation_size s).

(** [mjs_gc_alloc]: the address of the payload, [NULL] when the heap may
    not or cannot grow. A heap that grows is at the address [realloc]
    answers; when that is another address the cells are there, and the
    chains, the roots and every pointer held elsewhere keep the addresses
    of the block that was released. The heap is doubled once, and the
    cell is placed at its next place whether it fits the block or not. *)
Definition mjs_gc_alloc (g : mjs_gc_t) (sz : N) (ty : Z) : ptr * mjs_gc_t :=
  if (sz =? 0)%N then (NULL, g)
  else
    let g := if gc_should_collect g then mjs_gc_collect g else g in
    let total_size := size_add sz GC_HEADER_SIZE in
    let full g := (heap_size g <? size_add (heap_used g) total_size)%N in
    let g := if full g then mjs_gc_collect g else g in
    let grown :=
      if full g then
        let new_heap_size := size_mul (heap_size g) GC_GROWTH_FACTOR in
        if (0 <? max_heap_size (config g))%N &&
           (max_heap_size (config g) <? new_heap_size)%N
        then None
        else
          let new_heap := heap_realloc g (heap g) new_heap_size in
          if (new_heap =? NULL)%N then None
          else Some (gc_set_heap (heap_used g) new_heap_size (gc_move_heap new_heap g))
      else Some g in
    match grown with
    | None => (NULL, g)
    | Some g =>
        let object := (heap g + heap_used g + GC_HEADER_SIZE)%N in
        let c := MkCell (MkHeader ty GC_MARK_WHITE 0 sz) PRaw in
        let y := young_generation g in
        let g := gc_set_memory (<[object := c]> (memory g)) g in
        let g := gc_set_young
                   (MkGeneration (object :: objects y)
                      (size_add (gen_size y) total_size) (gen_capacity y)) g in
        let g := gc_set_heap (size_add (heap_used g) total_size) (heap_size g) g in
        let g := gc_set_stats (stats_allocated total_size (stats g)) g in
        (object, g)
    end.

Definition mjs_gc_add_root (g : mjs_gc_t) (root : ptr) : bool * mjs_gc_t :=
  if (root =? NULL)%N then (false, g)
  else (true, gc_set_roots (roots g ++ [root]) g).

(** [mjs_gc_remove_root]: the last root takes the place of the first
    entry equal to [root]. *)
Fixpoint index_of (root : ptr) (l : list ptr) : option nat :=
  match l with
  | [] => None
  | x :: r => if (x =? root)%N then Some O else S <$> index_of root r
  end.

Definition mjs_gc_remove_root (g : mjs_gc_t) (root : ptr) : bool * mjs_gc_t :=
  if (root =? NULL)%N then (false, g)
  else
    match index_of root (roots g) with
    | Some i =>
        let r := match last (roots g) with
                 | Some l => <[i := l]> (roots g)
                 | None => roots g
                 end in
        (true, gc_set_roots (take (length r - 1) r) g)
    | None => (false, g)
    end.

(** *** Weak references *)

(** [mjs_gc_create_weak_ref(gc, target)]: the handle, [NULL] for a null
    target. *)
Definition mjs_gc_create_weak_ref (g : mjs_gc_t) (target : ptr) : ptr * mjs_gc_t :=
  if (target =? NULL)%N then (NULL, g)
  else
    let weak_ref := next_weak_ref g in
    let g := gc_set_next_weak_ref (weak_ref + 1)%N g in
    (weak_ref, gc_set_weak_refs ((weak_ref, MkWeakRef target NULL NULL) :: weak_refs g) g).

Definition find_weak_ref (g : mjs_gc_t) (weak_ref : ptr) : option mjs_weak_ref_t :=
  snd <$> List.find (fun e => (fst e =? weak_ref)%N) (weak_refs g).

(** [mjs_weak_ref_get]: [Some] of the [object] field of a handle that is
    [NULL] or in use; [None] when the record of the handle has been
    freed, where the C function reads released memory. *)
Definition mjs_weak_ref_get (g : mjs_gc_t) (weak_ref : ptr) : option ptr :=
  if (weak_ref =? NULL)%N then Some NULL
  else wr_object <$> find_weak_ref g weak_ref.

(** The host stores a callback in a handle: [weak_ref->callback = cb;
    weak_ref->userdata = data;] (the record is declared in gc.h). *)
Definition weak_ref_set_callback (g : mjs_gc_t) (weak_ref cb data : ptr) : mjs_gc_t :=
  gc_set_weak_refs
    (map (fun e => if (fst e =? weak_ref)%N
                   then (fst e, MkWeakRef (wr_object (snd e)) cb data) else e)
       (weak_refs g)) g.

(** ** Strings (string.c) *)

(** The first [length] bytes at [data]. *)
Definition bytes (data : string) (length : N) : string :=
  substring 0 (N.to_nat length) data.

(** [mjs_string_new(ctx, data, length)]. *)
Definition mjs_string_new (ctx : mjs_context_t) (data : string) (length : N)
  : ptr * mjs_context_t :=
  let '(str, g) := mjs_gc_alloc (ctx_gc ctx) sizeof_mjs_string_t GC_TYPE_STRING in
  if (str =? NULL)%N then (NULL, ctx_set_gc g ctx)
  else
    let s := MkString (bytes data length) (size_add length 1) false in
    (str, ctx_set_gc (gc_set_memory (store str (PString s) (memory g)) g) ctx).

(** The test of the loop of [mjs_string_intern]:
    [current->length == length && memcmp(current->data, data, length) == 0]. *)
Definition intern_match (m : gmap N cell) (data : string) (length : N) (current : ptr) : bool :=
  match load_string m current with
  | Some s => (str_length s =? length)%N && String.eqb (str_data s) (bytes data length)
  | None => false
  end.

(** [mjs_string_intern(ctx, data, length)]. *)
Definition mjs_string_intern (ctx : mjs_context_t) (data : string) (length : N)
  : ptr * mjs_context_t :=
  match List.find (intern_match (ctx_memory ctx) data length)
          (string_table (runtime ctx)) with
  | Some current => (current, ctx)
  | None =>
      let '(str, ctx) := mjs_string_new ctx data length in
      if (str =? NULL)%N then (NULL, ctx)
      else
        let m := ctx_memory ctx in
        let m := match load_string m str with
                 | Some s => store str (PString (MkString (str_data s) (str_capacity s) true)) m
                 | None => m
                 end in
        let ctx := ctx_set_memory m ctx in
        (str, ctx_set_runtime
                (rt_set_string_table (str :: string_table (runtime ctx)) (runtime ctx))
                ctx)
  end.

(** [memcmp] on two buffers of the same length: the difference of the
    first two bytes that differ. *)
Fixpoint memcmp (a b : string) : Z :=
  match a, b with
  | String x a', String y b' =>
      if Ascii.eqb x y then memcmp a' b'
      else Z.of_N (N_of_ascii x) - Z.of_N (N_of_ascii y)
  | _, _ => 0
  end.

(** [mjs_string_compare(a, b)]. A non-null pointer that is not a string
    of the heap is read as the empty string. *)
Definition mjs_string_compare (m : gmap N cell) (a b : ptr) : Z :=
  if (a =? NULL)%N && (b =? NULL)%N then 0
  else if (a =? NULL)%N then -1
  else if (b =? NULL)%N then 1
  else
    let sa := default (MkString "" 1 false) (load_string m a) in
    let sb := default (MkString "" 1 false) (load_string m b) in
    if negb (str_length sa =? str_length sb)%N
    then wrap_int (Z.of_N (size_sub (str_length sa) (str_length sb)))
    else memcmp (str_data sa) (str_data sb).

(** [mjs_string_to_number(str)]. *)
Definition mjs_string_to_number (m : gmap N cell) (str : ptr) : float :=
  match load_string m str with
  | None => PrimFloat.zero
  | Some s =>
      if (str_length s =? 0)%N then PrimFloat.zero
      else if MJS_STREQ (str_data s) "NaN" then PrimFloat.nan
      else if MJS_STREQ (str_data s) "Infinity" then PrimFloat.infinity
      else if MJS_STREQ (str_data s) "-Infinity" then PrimFloat.neg_infinity
      else
        let start := LibC.skip_space (c_str (str_data s)) in
        let '(result, e) := LibC.strtod_end start in
        match LibC.skip_space e with
        | EmptyString => result
        | _ => PrimFloat.nan
        end
  end.

(** ** Objects (object.c) *)

(** [mjs_object_new(ctx)]. *)
Definition mjs_object_new (ctx : mjs_context_t) : ptr * mjs_context_t :=
  let '(obj, g) := mjs_gc_alloc (ctx_gc ctx) sizeof_mjs_object_t GC_TYPE_OBJECT in
  if (obj =? NULL)%N then (NULL, ctx_set_gc g ctx)
  else
    (obj, ctx_set_gc
            (gc_set_memory (store obj (PObject (MkObject [] NULL true 0)) (memory g)) g)
            ctx).

(** [prop->key && MJS_STREQ(prop->key->data, key)]; a key that is not a
    string of the heap matches nothing. *)
Definition key_matches (m : gmap N cell) (k : string) (prop : mjs_property_t) : bool :=
  negb (key prop =? NULL)%N &&
  match load_string m (key prop) with
  | Some s => MJS_STREQ (str_data s) k
  | None => false
  end.

(** The position in a chain of the first property the test accepts. *)
Fixpoint find_index {A} (f : A -> bool) (l : list A) : option nat :=
  match l with
  | [] => None
  | x :: r => if f x then Some O else S <$> find_index f r
  end.

(** [mjs_object_get_property(obj, key)]: the property found, as its
    position in the chain of [obj]; [None] is the null result. *)
Definition mjs_object_get_property (m : gmap N cell) (obj : ptr) (k : string)
  : option nat :=
  match load_object m obj with
  | Some o => find_index (key_matches m k) (properties o)
  | None => None
  end.

(** The property a result of [mjs_object_get_property] points to. *)
Definition property_at (m : gmap N cell) (obj : ptr) (i : nat) : option mjs_property_t :=
  match load_object m obj with
  | Some o => properties o !! i
  | None => None
  end.

(** [mjs_object_get_property_value(obj, key)]. *)
Definition mjs_object_get_property_value (m : gmap N cell) (obj : ptr) (k : string)
  : mjs_value_t :=
  match mjs_object_get_property m obj k with
  | Some i => match property_at m obj i with
              | Some prop => value prop
              | None => mjs_value_undefined
              end
  | None => mjs_value_undefined
  end.

Definition prop_set_value (v : mjs_value_t) (p : mjs_property_t) : mjs_property_t :=
  MkProperty (key p) v (writable p) (enumerable p) (configurable p).

(** [mjs_object_set_property(obj, key, value)]. *)
Definition mjs_object_set_property (m : gmap N cell) (obj : ptr) (k : string)
    (v : mjs_value_t) : gmap N cell :=
  match load_object m obj with
  | None => m
  | Some o =>
      match mjs_object_get_property m obj k with
      | Some i =>
          match properties o !! i with
          | Some existing =>
              if writable existing then
                store obj
                  (PObject (MkObject (<[i := prop_set_value v existing]> (properties o))
                              (prototype o) (extensible o) (property_count o))) m
              else m
          | None => m
          end
      | None =>
          let prop := MkProperty NULL v true true true in
          store obj
            (PObject (MkObject (prop :: properties o) (prototype o) (extensible o)
                        (size_add (property_count o) 1))) m
      end
  end.

Definition mjs_object_has_property (m : gmap N cell) (obj : ptr) (k : string) : bool :=
  match mjs_object_get_property m obj k with Some _ => true | None => false end.

(** [mjs_object_define_property(ctx, obj, key, value, writable, enumerable,
    configurable)]. *)
Definition mjs_object_define_property (ctx : mjs_context_t) (obj : ptr) (k : string)
    (v : mjs_value_t) (w e c : bool) : mjs_result_t * mjs_context_t :=
  match load_object (ctx_memory ctx) obj with
  | None => (MJS_ERROR_TYPE, ctx)
  | Some o =>
      if negb (extensible o) then (MJS_ERROR_TYPE, ctx)
      else
        match mjs_object_get_property (ctx_memory ctx) obj k with
        | Some i =>
            match properties o !! i with
            | Some existing =>
                if negb (configurable existing) then (MJS_ERROR_TYPE, ctx)
                else
                  (MJS_OK,
                   ctx_set_memory
                     (store obj
                        (PObject (MkObject
                                    (<[i := MkProperty (key existing) v w e c]> (properties o))
                                    (prototype o) (extensible o) (property_count o)))
                        (ctx_memory ctx)) ctx)
            | None => (MJS_ERROR_TYPE, ctx)
            end
        | None =>
            let '(kp, ctx) := mjs_string_new ctx k (strlen k) in
            if (kp =? NULL)%N then (MJS_ERROR_MEMORY, ctx)
            else
              let prop := MkProperty kp v w e c in
              match load_object (ctx_memory ctx) obj with
              | Some o =>
                  (MJS_OK,
                   ctx_set_memory
                     (store obj
                        (PObject (MkObject (prop :: properties o) (prototype o)
                                    (extensible o) (size_add (property_count o) 1)))
                        (ctx_memory ctx)) ctx)
              | None => (MJS_OK, ctx)
              end
        end
  end.

(** ** Arrays (array.c) *)

(** [sizeof(mjs_value_t)] on LP64. *)
Definition sizeof_mjs_value_t : N := 16.

(** A block of [size] bytes has room for [capacity] values. *)
Definition holds_values (size capacity : N) : bool :=
  (capacity <=? size / sizeof_mjs_value_t)%N.

(** [mjs_array_new(ctx, initial_capacity, element_size)]. The byte count
    asked of [malloc] wraps from a capacity of [2 ^ 60] on: the block is
    then too small for the loop that fills [capacity] elements, which
    writes past its end, and there is no result. *)
Definition mjs_array_new (ctx : mjs_context_t) (initial_capacity : N)
  : option (ptr * mjs_context_t) :=
  let '(arr, g) := mjs_gc_alloc (ctx_gc ctx) sizeof_mjs_array_t GC_TYPE_ARRAY in
  if (arr =? NULL)%N then Some (NULL, ctx_set_gc g ctx)
  else
    let capacity := if (0 <? initial_capacity)%N then initial_capacity else 4%N in
    let size := size_mul sizeof_mjs_value_t capacity in
    if holds_values size capacity then
      let a := MkArray (replicate (N.to_nat capacity) mjs_value_undefined) 0 in
      Some (arr, ctx_set_gc (gc_set_memory (store arr (PArray a) (memory g)) g) ctx)
    else None.

(** [while (new_capacity < required_capacity) new_capacity *= 2;]. The
    product wraps; once it is 0 the loop never ends, which is [None]. *)
Fixpoint grow_capacity (fuel : nat) (new_capacity required_capacity : N) : option N :=
  if (required_capacity <=? new_capacity)%N then Some new_capacity
  else
    match fuel with
    | O => None
    | S fuel =>
        if (new_capacity =? 0)%N then None
        else grow_capacity fuel (size_mul new_capacity 2) required_capacity
    end.

(** [mjs_array_ensure_capacity(arr, required_capacity)], for a non-null
    [arr]; [None] when it does not return. The byte count asked of
    [realloc] wraps from a capacity of [2 ^ 60] on. When it is 0,
    [realloc] gives [NULL] and the result is false (the block of the
    elements is released by that request, while [arr->elements] keeps its
    address). When it is not 0 and too small for the new capacity, the
    loop that fills the new elements writes past the block, and there is
    no result. *)
Definition mjs_array_ensure_capacity (a : mjs_array_t) (required_capacity : N)
  : option (bool * mjs_array_t) :=
  if (required_capacity <=? arr_capacity a)%N then Some (true, a)
  else
    match grow_capacity 64 (arr_capacity a) required_capacity with
    | None => None
    | Some new_capacity =>
        let size := size_mul sizeof_mjs_value_t new_capacity in
        if (size =? 0)%N then Some (false, a)
        else if holds_values size new_capacity then
          Some (true,
                MkArray (elements a ++
                         replicate (N.to_nat (new_capacity - arr_capacity a))
                           mjs_value_undefined)
                  (arr_length a))
        else None
    end.

(** [for (i = from; i < to; i++) arr->elements[i] = mjs_value_undefined();] *)
Definition fill_undefined (from to : N) (l : list mjs_value_t) : list mjs_value_t :=
  fold_left (fun l i => <[i := mjs_value_undefined]> l)
    (seq (N.to_nat from) (N.to_nat to - N.to_nat from)) l.

(** [mjs_array_get(arr, index)]. *)
Definition mjs_array_get (m : gmap N cell) (arr : ptr) (index : N) : mjs_value_t :=
  match load_array m arr with
  | None => mjs_value_undefined
  | Some a =>
      if (arr_length a <=? index)%N then mjs_value_undefined
      else default mjs_value_undefined (elements a !! N.to_nat index)
  end.

(** [mjs_array_set(arr, index, value)]. *)
Definition mjs_array_set (m : gmap N cell) (arr : ptr) (index : N) (v : mjs_value_t)
  : option (bool * gmap N cell) :=
  match load_array m arr with
  | None => Some (false, m)
  | Some a =>
      if (arr_length a <=? index)%N then
        match mjs_array_ensure_capacity a (size_add index 1) with
        | None => None
        | Some (false, _) => Some (false, m)
        | Some (true, a) =>
            let els := fill_undefined (arr_length a) index (elements a) in
            Some (true,
                  store arr (PArray (MkArray (<[N.to_nat index := v]> els)
                                       (size_add index 1))) m)
        end
      else
        Some (true,
              store arr (PArray (MkArray (<[N.to_nat index := v]> (elements a))
                                   (arr_length a))) m)
  end.

(** [mjs_array_push(arr, value)]. *)
Definition mjs_array_push (m : gmap N cell) (arr : ptr) (v : mjs_value_t)
  : option (bool * gmap N cell) :=
  match load_array m arr with
  | None => Some (false, m)
  | Some a =>
      match mjs_array_ensure_capacity a (size_add (arr_length a) 1) with
      | None => None
      | Some (false, _) => Some (false, m)
      | Some (true, a) =>
          Some (true,
                store arr (PArray (MkArray (<[N.to_nat (arr_length a) := v]> (elements a))
                                     (size_add (arr_length a) 1))) m)
      end
  end.

(** [mjs_array_pop(arr)]. *)
Definition mjs_array_pop (m : gmap N cell) (arr : ptr) : mjs_value_t * gmap N cell :=
  match load_array m arr with
  | None => (mjs_value_undefined, m)
  | Some a =>
      if (arr_length a =? 0)%N then (mjs_value_undefined, m)
      else
        let n := size_sub (arr_length a) 1 in
        (default mjs_value_undefined (elements a !! N.to_nat n),
         store arr (PArray (MkArray (<[N.to_nat n := mjs_value_undefined]> (elements a)) n)) m)
  end.

(** ** The runtime (runtime.c) *)

(** [mjs_new_runtime]; [heap_addr] is where [malloc] put the heap and
    [realloc] what the C library answers when the heap grows. *)
Definition mjs_new_runtime (heap_addr : N) (realloc : N -> N -> N) : mjs_runtime_t :=
  MkRuntime (mjs_gc_new heap_addr realloc) [] (64 * 1024 * 1024) 0.

(** [mjs_object(ctx)]. *)
Definition mjs_object (ctx : mjs_context_t) : mjs_value_t * mjs_context_t :=
  let '(obj, ctx) := mjs_object_new ctx in
  if (obj =? NULL)%N then (mjs_undefined, ctx) else (VObject obj, ctx).

(** [mjs_new_context(rt)]. *)
Definition mjs_new_context (rt : mjs_runtime_t) : mjs_context_t :=
  let ctx := MkContext rt mjs_undefined mjs_undefined None false in
  let '(global, ctx) := mjs_object ctx in
  MkContext (runtime ctx) global mjs_undefined None false.

(** [mjs_to_boolean(value)]. *)
Definition mjs_to_boolean (m : gmap N cell) (v : mjs_value_t) : bool :=
  match v with
  | VUndefined | VNull => false
  | VBoolean b => b
  | VNumber n => negb (PrimFloat.eqb n PrimFloat.zero) && negb (PrimFloat.is_nan n)
  | VString s =>
      match load_string m s with
      | Some str => (0 <? str_length str)%N
      | None => false
      end
  | VObject _ | VFunction _ | VArray _ => true
  | _ => false
  end.

(** [mjs_to_number(value)]. *)
Definition mjs_to_number (m : gmap N cell) (v : mjs_value_t) : float :=
  match v with
  | VUndefined => PrimFloat.nan
  | VNull => PrimFloat.zero
  | VBoolean b => if b then PrimFloat.one else PrimFloat.zero
  | VNumber n => n
  | VString s =>
      match load_string m s with
      | None => PrimFloat.zero
      | Some str =>
          if (str_length str =? 0)%N then PrimFloat.zero
          else LibC.strtod (str_data str)
      end
  | _ => PrimFloat.nan
  end.

(** [mjs_to_string(ctx, value)]; it never returns a null pointer. *)
Definition mjs_to_string (m : gmap N cell) (v : mjs_value_t) : string :=
  match v with
  | VUndefined => "undefined"
  | VNull => "null"
  | VBoolean b => if b then "true" else "false"
  | VNumber n => LibC.snprintf_g15 n
  | VString s =>
      match load_string m s with
      | Some str => str_data str
      | None => ""
      end
  | VObject _ => "[object Object]"
  | VFunction _ => "[object Function]"
  | VArray _ => "[object Array]"
  | _ => ""
  end.

(** [ctx->global_object.u.object]: the pointer member of the union,
    whatever the tag; null when the value holds no pointer. *)
Definition union_object (v : mjs_value_t) : ptr :=
  match v with
  | VString p | VObject p | VFunction p | VArray p => p
  | _ => NULL
  end.

(** The test of the loops over the globals:
    [prop->key && prop->key->data && strcmp(prop->key->data, name) == 0]. *)
Definition mjs_context_get_variable (ctx : mjs_context_t) (name : string)
  : bool * mjs_value_t :=
  match load_object (ctx_memory ctx) (union_object (global_object ctx)) with
  | None => (false, mjs_undefined)
  | Some global =>
      match List.find (key_matches (ctx_memory ctx) name) (properties global) with
      | Some prop => (true, value prop)
      | None => (false, mjs_undefined)
      end
  end.

Definition mjs_context_set_variable (ctx : mjs_context_t) (name : string) (v : mjs_value_t)
  : bool * mjs_context_t :=
  let gp := union_object (global_object ctx) in
  match load_object (ctx_memory ctx) gp with
  | None => (false, ctx)
  | Some global =>
      match find_index (key_matches (ctx_memory ctx) name) (properties global) with
      | Some i =>
          (true,
           ctx_set_memory
             (store gp
                (PObject (MkObject (alter (prop_set_value v) i (properties global))
                            (prototype global) (extensible global)
                            (property_count global)))
                (ctx_memory ctx)) ctx)
      | None =>
          let '(kp, ctx) := mjs_string_new ctx name (strlen name) in
          match load_object (ctx_memory ctx) gp with
          | Some global =>
              let new_prop := MkProperty kp v true true true in
              (true,
               ctx_set_memory
                 (store gp
                    (PObject (MkObject (new_prop :: properties global) (prototype global)
                                (extensible global)
                                (size_add (property_count global) 1)))
                    (ctx_memory ctx)) ctx)
          | None => (true, ctx)
          end
      end
  end.

(** [mjs_eval(ctx, source, filename, result)]. A null pointer argument is
    [None]; the second component is what the call stores through
    [result], if anything. *)
Definition mjs_eval (ctx : option mjs_context_t) (source filename : option string)
    (result : bool) : mjs_result_t * option mjs_value_t :=
  match ctx, source, result with
  | Some _, Some _, true => (MJS_OK, Some mjs_undefined)
  | _, _, _ => (MJS_ERROR_TYPE, if result then Some mjs_undefined else None)
  end.

(** ** The virtual machine (vm.c) *)

Definition VM_STACK_SIZE : N := 1024.
Definition VM_CALL_STACK_SIZE : N := 256.
Definition VM_EXCEPTION_STACK_SIZE : N := 64.

Definition VM_STATE_READY : Z := 0.
Definition VM_STATE_RUNNING : Z := 1.
Definition VM_STATE_ERROR : Z := 2.

Record mjs_call_frame_t := MkFrame {
  bytecode : mjs_bytecode_t;
  pc : N;
  locals_base : N;
  this_value : mjs_value_t
}.

(** [struct mjs_vm]. The operand stack and the call stack are lists whose
    head is the top, so that [stack_top] and [call_stack_top] are their
    lengths. *)
Record mjs_vm_t := MkVm {
  context : mjs_context_t;
  vm_state : Z;
  stack : list mjs_value_t;
  stack_capacity : N;
  call_stack : list mjs_call_frame_t;
  call_stack_capacity : N;
  instructions_executed : N
}.

Definition stack_top (vm : mjs_vm_t) : N := N.of_nat (length (stack vm)).
Definition call_stack_top (vm : mjs_vm_t) : N := N.of_nat (length (call_stack vm)).

Definition vm_set_context (c : mjs_context_t) (vm : mjs_vm_t) : mjs_vm_t :=
  MkVm c (vm_state vm) (stack vm) (stack_capacity vm) (call_stack vm)
    (call_stack_capacity vm) (instructions_executed vm).
Definition vm_set_state (s : Z) (vm : mjs_vm_t) : mjs_vm_t :=
  MkVm (context vm) s (stack vm) (stack_capacity vm) (call_stack vm)
    (call_stack_capacity vm) (instructions_executed vm).
Definition vm_set_stack (s : list mjs_value_t) (vm : mjs_vm_t) : mjs_vm_t :=
  MkVm (context vm) (vm_state vm) s (stack_capacity vm) (call_stack vm)
    (call_stack_capacity vm) (instructions_executed vm).
Definition vm_set_call_stack (s : list mjs_call_frame_t) (vm : mjs_vm_t) : mjs_vm_t :=
  MkVm (context vm) (vm_state vm) (stack vm) (stack_capacity vm) s
    (call_stack_capacity vm) (instructions_executed vm).
Definition vm_count_instruction (vm : mjs_vm_t) : mjs_vm_t :=
  MkVm (context vm) (vm_state vm) (stack vm) (stack_capacity vm) (call_stack vm)
    (call_stack_capacity vm) (size_add (instructions_executed vm) 1).
Definition vm_memory (vm : mjs_vm_t) : gmap N cell := ctx_memory (context vm).
Definition vm_set_memory (m : gmap N cell) (vm : mjs_vm_t) : mjs_vm_t :=
  vm_set_context (ctx_set_memory m (context vm)) vm.

(** [mjs_vm_new(ctx)]. *)
Definition mjs_vm_new (ctx : mjs_context_t) : mjs_vm_t :=
  MkVm ctx VM_STATE_READY [] VM_STACK_SIZE [] VM_CALL_STACK_SIZE 0.

Definition vm_push (vm : mjs_vm_t) (v : mjs_value_t) : bool * mjs_vm_t :=
  if (stack_capacity vm <=? stack_top vm)%N then (false, vm)
  else (true, vm_set_stack (v :: stack vm) vm).

Definition vm_pop (vm : mjs_vm_t) : mjs_value_t * mjs_vm_t :=
  match stack vm with
  | [] => (mjs_value_undefined, vm)
  | v :: rest => (v, vm_set_stack rest vm)
  end.

Definition vm_peek (vm : mjs_vm_t) (offset : N) : mjs_value_t :=
  if (stack_top vm <=? offset)%N then mjs_value_undefined
  else default mjs_value_undefined (stack vm !! N.to_nat offset).

Definition vm_drop (vm : mjs_vm_t) (count : N) : mjs_vm_t :=
  if (stack_top vm <? count)%N then vm_set_stack [] vm
  else vm_set_stack (skipn (N.to_nat count) (stack vm)) vm.

Definition vm_push_frame (vm : mjs_vm_t) (bc : mjs_bytecode_t) (locals_count : N)
  : bool * mjs_vm_t :=
  if (call_stack_capacity vm <=? call_stack_top vm)%N then (false, vm)
  else
    let frame := MkFrame bc 0 (size_sub (stack_top vm) locals_count) mjs_value_undefined in
    (true, vm_set_call_stack (frame :: call_stack vm) vm).

Definition vm_pop_frame (vm : mjs_vm_t) : bool * mjs_vm_t :=
  match call_stack vm with
  | [] => (false, vm)
  | _ :: rest => (true, vm_set_call_stack rest vm)
  end.

Definition vm_current_frame (vm : mjs_vm_t) : option mjs_call_frame_t :=
  head (call_stack vm).

(** [frame->pc = target] on the current frame. *)
Definition vm_set_pc (target : N) (vm : mjs_vm_t) : mjs_vm_t :=
  match call_stack vm with
  | f :: rest =>
      vm_set_call_stack (MkFrame (bytecode f) target (locals_base f) (this_value f) :: rest) vm
  | [] => vm
  end.

(** *** Helpers of the operators *)

Definition vm_add (vm : mjs_vm_t) (a b : mjs_value_t) : mjs_value_t :=
  if mjs_is_string a || mjs_is_string b then
    let str_a := mjs_to_string (vm_memory vm) a in
    let str_b := mjs_to_string (vm_memory vm) b in
    (* both pointers are non-null; either way the result is undefined *)
    mjs_value_undefined
  else
    mjs_value_number
      (PrimFloat.add (mjs_to_number (vm_memory vm) a) (mjs_to_number (vm_memory vm) b)).

Definition vm_subtract (vm : mjs_vm_t) (a b : mjs_value_t) : mjs_value_t :=
  mjs_value_number
    (PrimFloat.sub (mjs_to_number (vm_memory vm) a) (mjs_to_number (vm_memory vm) b)).

Definition vm_multiply (vm : mjs_vm_t) (a b : mjs_value_t) : mjs_value_t :=
  mjs_value_number
    (PrimFloat.mul (mjs_to_number (vm_memory vm) a) (mjs_to_number (vm_memory vm) b)).

Definition vm_divide (vm : mjs_vm_t) (a b : mjs_value_t) : mjs_value_t :=
  let num_a := mjs_to_number (vm_memory vm) a in
  let num_b := mjs_to_number (vm_memory vm) b in
  if PrimFloat.eqb num_b PrimFloat.zero then
    mjs_value_number (if PrimFloat.leb PrimFloat.zero num_a
                      then PrimFloat.infinity else PrimFloat.neg_infinity)
  else mjs_value_number (PrimFloat.div num_a num_b).

Definition vm_modulo (vm : mjs_vm_t) (a b : mjs_value_t) : mjs_value_t :=
  let num_a := mjs_to_number (vm_memory vm) a in
  let num_b := mjs_to_number (vm_memory vm) b in
  if PrimFloat.eqb num_b PrimFloat.zero then mjs_value_number PrimFloat.nan
  else mjs_value_number (LibC.fmod num_a num_b).

Definition vm_negate (vm : mjs_vm_t) (a : mjs_value_t) : mjs_value_t :=
  mjs_value_number (PrimFloat.opp (mjs_to_number (vm_memory vm) a)).

Definition vm_unary_plus (vm : mjs_vm_t) (a : mjs_value_t) : mjs_value_t :=
  mjs_value_number (mjs_to_number (vm_memory vm) a).

Definition vm_equals (vm : mjs_vm_t) (a b : mjs_value_t) : bool :=
  if negb (mjs_value_type_eqb (mjs_get_type a) (mjs_get_type b)) then false
  else
    match mjs_get_type a with
    | MJS_TYPE_UNDEFINED | MJS_TYPE_NULL => true
    | MJS_TYPE_BOOLEAN => Bool.eqb (mjs_get_boolean a) (mjs_get_boolean b)
    | MJS_TYPE_NUMBER => PrimFloat.eqb (mjs_get_number a) (mjs_get_number b)
    | MJS_TYPE_STRING =>
        mjs_string_compare (vm_memory vm) (mjs_get_string a) (mjs_get_string b) =? 0
    | MJS_TYPE_OBJECT | MJS_TYPE_ARRAY | MJS_TYPE_FUNCTION =>
        (mjs_get_object a =? mjs_get_object b)%N
    | _ => false
    end.

Definition vm_less_than (vm : mjs_vm_t) (a b : mjs_value_t) : bool :=
  PrimFloat.ltb (mjs_to_number (vm_memory vm) a) (mjs_to_number (vm_memory vm) b).
Definition vm_less_than_or_equal (vm : mjs_vm_t) (a b : mjs_value_t) : bool :=
  PrimFloat.leb (mjs_to_number (vm_memory vm) a) (mjs_to_number (vm_memory vm) b).
Definition vm_greater_than (vm : mjs_vm_t) (a b : mjs_value_t) : bool :=
  PrimFloat.ltb (mjs_to_number (vm_memory vm) b) (mjs_to_number (vm_memory vm) a).
Definition vm_greater_than_or_equal (vm : mjs_vm_t) (a b : mjs_value_t) : bool :=
  PrimFloat.leb (mjs_to_number (vm_memory vm) b) (mjs_to_number (vm_memory vm) a).

Definition vm_typeof (v : mjs_value_t) : string :=
  match mjs_get_type v with
  | MJS_TYPE_UNDEFINED => "undefined"
  | MJS_TYPE_NULL => "object"
  | MJS_TYPE_BOOLEAN => "boolean"
  | MJS_TYPE_NUMBER => "number"
  | MJS_TYPE_STRING => "string"
  | MJS_TYPE_FUNCTION => "function"
  | _ => "object"
  end.

(** [(double)n] for an [int32_t]. *)
Definition of_int32 (z : Z) : float := SF2Prim (binary_normalize 53 1024 z 0 false).

(** [(int32_t)mjs_to_number(v)]. *)
Definition to_int32 (vm : mjs_vm_t) (v : mjs_value_t) : Z :=
  LibC.to_int32 (mjs_to_number (vm_memory vm) v).

(** *** Instructions *)

(** Pop [b], pop [a], push [f a b]. *)
Definition vm_binary (vm : mjs_vm_t)
    (f : mjs_vm_t -> mjs_value_t -> mjs_value_t -> mjs_value_t) : bool * mjs_vm_t :=
  let '(b, vm) := vm_pop vm in
  let '(a, vm) := vm_pop vm in
  vm_push vm (f vm a b).

(** Pop [a], push [f a]. *)
Definition vm_unary (vm : mjs_vm_t) (f : mjs_vm_t -> mjs_value_t -> mjs_value_t)
  : bool * mjs_vm_t :=
  let '(a, vm) := vm_pop vm in
  vm_push vm (f vm a).

Definition pool_string (bc : mjs_bytecode_t) (i : N) : string :=
  match strings bc !! N.to_nat i with
  | Some s => str_data s
  | None => ""
  end.

(** [vm_execute_instruction(vm, instr)]: whether the instruction
    succeeded, and the machine after it; [None] when the call does not
    return (see [mjs_array_ensure_capacity]). *)
Definition vm_execute_instruction (vm : mjs_vm_t) (instr : mjs_instruction_t)
  : option (bool * mjs_vm_t) :=
  match vm_current_frame vm with
  | None => Some (false, vm)
  | Some frame =>
      let bc := bytecode frame in
      let u32 := operand instr in
      match opcode instr with
      | OP_NOP => Some (true, vm)
      | OP_LOAD_CONST =>
          if (constant_count bc <=? u32)%N then Some (false, vm)
          else
            Some (vm_push vm (default mjs_value_undefined (constants bc !! N.to_nat u32)))
      | OP_LOAD_VAR =>
          if (string_count bc <=? u32)%N then Some (false, vm)
          else
            let '(found, v) := mjs_context_get_variable (context vm) (pool_string bc u32) in
            if found then Some (vm_push vm v)
            else Some (vm_push vm mjs_value_undefined)
      | OP_STORE_VAR =>
          if (string_count bc <=? u32)%N then Some (false, vm)
          else
            let '(v, vm) := vm_pop vm in
            let '(ok, ctx) := mjs_context_set_variable (context vm) (pool_string bc u32) v in
            Some (ok, vm_set_context ctx vm)
      | OP_POP => Some (true, snd (vm_pop vm))
      | OP_DUP => Some (vm_push vm (vm_peek vm 0))
      | OP_SWAP =>
          if (stack_top vm <? 2)%N then Some (false, vm)
          else
            let '(a, vm) := vm_pop vm in
            let '(b, vm) := vm_pop vm in
            let vm := snd (vm_push vm a) in
            Some (true, snd (vm_push vm b))
      | OP_ADD => Some (vm_binary vm vm_add)
      | OP_SUB => Some (vm_binary vm vm_subtract)
      | OP_MUL => Some (vm_binary vm vm_multiply)
      | OP_DIV => Some (vm_binary vm vm_divide)
      | OP_MOD => Some (vm_binary vm vm_modulo)
      | OP_NEG => Some (vm_unary vm vm_negate)
      | OP_PLUS => Some (vm_unary vm vm_unary_plus)
      | OP_EQ => Some (vm_binary vm (fun vm a b => mjs_value_boolean (vm_equals vm a b)))
      | OP_NE => Some (vm_binary vm (fun vm a b => mjs_value_boolean (negb (vm_equals vm a b))))
      | OP_LT => Some (vm_binary vm (fun vm a b => mjs_value_boolean (vm_less_than vm a b)))
      | OP_LE =>
          Some (vm_binary vm (fun vm a b => mjs_value_boolean (vm_less_than_or_equal vm a b)))
      | OP_GT => Some (vm_binary vm (fun vm a b => mjs_value_boolean (vm_greater_than vm a b)))
      | OP_GE =>
          Some (vm_binary vm
                  (fun vm a b => mjs_value_boolean (vm_greater_than_or_equal vm a b)))
      | OP_AND =>
          Some (vm_binary vm
                  (fun vm a b =>
                     mjs_value_boolean
                       (mjs_to_boolean (vm_memory vm) a && mjs_to_boolean (vm_memory vm) b)))
      | OP_OR =>
          Some (vm_binary vm
                  (fun vm a b =>
                     mjs_value_boolean
                       (mjs_to_boolean (vm_memory vm) a || mjs_to_boolean (vm_memory vm) b)))
      | OP_NOT =>
          Some (vm_unary vm
                  (fun vm a => mjs_value_boolean (negb (mjs_to_boolean (vm_memory vm) a))))
      | OP_BIT_AND =>
          Some (vm_binary vm
                  (fun vm a b =>
                     mjs_value_number (of_int32 (Z.land (to_int32 vm a) (to_int32 vm b)))))
      | OP_BIT_OR =>
          Some (vm_binary vm
                  (fun vm a b =>
                     mjs_value_number (of_int32 (Z.lor (to_int32 vm a) (to_int32 vm b)))))
      | OP_BIT_XOR =>
          Some (vm_binary vm
                  (fun vm a b =>
                     mjs_value_number (of_int32 (Z.lxor (to_int32 vm a) (to_int32 vm b)))))
      | OP_BIT_NOT =>
          Some (vm_unary vm
                  (fun vm a => mjs_value_number (of_int32 (Z.lnot (to_int32 vm a)))))
      | OP_SHL =>
          Some (vm_binary vm
                  (fun vm a b =>
                     mjs_value_number
                       (of_int32
                          (wrap_int (Z.shiftl (to_int32 vm a) (Z.land (to_int32 vm b) 31))))))
      | OP_SHR =>
          Some (vm_binary vm
                  (fun vm a b =>
                     mjs_value_number
                       (of_int32 (Z.shiftr (to_int32 vm a) (Z.land (to_int32 vm b) 31)))))
      | OP_NEW_OBJECT =>
          let '(obj, ctx) := mjs_object_new (context vm) in
          let vm := vm_set_context ctx vm in
          if (obj =? NULL)%N then Some (false, vm)
          else Some (vm_push vm (mjs_value_object obj))
      | OP_NEW_ARRAY =>
          match mjs_array_new (context vm) u32 with
          | None => None
          | Some (arr, ctx) =>
              let vm := vm_set_context ctx vm in
              if (arr =? NULL)%N then Some (false, vm)
              else Some (vm_push vm (mjs_value_array arr))
          end
      | OP_GET_PROP =>
          if (string_count bc <=? u32)%N then Some (false, vm)
          else
            let prop := pool_string bc u32 in
            let '(obj, vm) := vm_pop vm in
            if negb (mjs_is_object obj) then Some (vm_push vm mjs_value_undefined)
            else
              Some (vm_push vm
                      (mjs_object_get_property_value (vm_memory vm) (mjs_get_object obj) prop))
      | OP_SET_PROP =>
          if (string_count bc <=? u32)%N then Some (false, vm)
          else
            let prop := pool_string bc u32 in
            let '(v, vm) := vm_pop vm in
            let '(obj, vm) := vm_pop vm in
            if negb (mjs_is_object obj) then Some (false, vm)
            else
              Some (true,
                    vm_set_memory
                      (mjs_object_set_property (vm_memory vm) (mjs_get_object obj) prop v) vm)
      | OP_GET_PROP_COMPUTED =>
          let '(prop, vm) := vm_pop vm in
          let '(obj, vm) := vm_pop vm in
          if negb (mjs_is_object obj) then Some (vm_push vm mjs_value_undefined)
          else
            let prop_str := mjs_to_string (vm_memory vm) prop in
            Some (vm_push vm
                    (mjs_object_get_property_value (vm_memory vm) (mjs_get_object obj) prop_str))
      | OP_SET_PROP_COMPUTED =>
          let '(v, vm) := vm_pop vm in
          let '(prop, vm) := vm_pop vm in
          let '(obj, vm) := vm_pop vm in
          if negb (mjs_is_object obj) then Some (false, vm)
          else
            let prop_str := mjs_to_string (vm_memory vm) prop in
            Some (true,
                  vm_set_memory
                    (mjs_object_set_property (vm_memory vm) (mjs_get_object obj) prop_str v) vm)
      | OP_ARRAY_PUSH =>
          let '(v, vm) := vm_pop vm in
          let arr := vm_peek vm 0 in
          if negb (mjs_is_array arr) then Some (false, vm)
          else
            match mjs_array_push (vm_memory vm) (mjs_get_array arr) v with
            | Some (ok, m) => Some (ok, vm_set_memory m vm)
            | None => None
            end
      | OP_ARRAY_POP =>
          let '(arr, vm) := vm_pop vm in
          if negb (mjs_is_array arr) then Some (vm_push vm mjs_value_undefined)
          else
            let '(result, m) := mjs_array_pop (vm_memory vm) (mjs_get_array arr) in
            Some (vm_push (vm_set_memory m vm) result)
      | OP_ARRAY_GET =>
          let '(index, vm) := vm_pop vm in
          let '(arr, vm) := vm_pop vm in
          if negb (mjs_is_array arr) then Some (vm_push vm mjs_value_undefined)
          else
            let idx := LibC.to_size_t (mjs_to_number (vm_memory vm) index) in
            Some (vm_push vm (mjs_array_get (vm_memory vm) (mjs_get_array arr) idx))
      | OP_ARRAY_SET =>
          let '(v, vm) := vm_pop vm in
          let '(index, vm) := vm_pop vm in
          let '(arr, vm) := vm_pop vm in
          if negb (mjs_is_array arr) then Some (false, vm)
          else
            let idx := LibC.to_size_t (mjs_to_number (vm_memory vm) index) in
            match mjs_array_set (vm_memory vm) (mjs_get_array arr) idx v with
            | Some (ok, m) => Some (ok, vm_set_memory m vm)
            | None => None
            end
      | OP_CALL =>
          let arg_count := u32 in
          let func := vm_peek vm arg_count in
          if negb (mjs_is_function func) then Some (false, vm)
          else Some (vm_push (vm_drop vm (size_add arg_count 1)) mjs_value_undefined)
      | OP_RETURN =>
          let '(return_value, vm) := vm_pop vm in
          let '(ok, vm) := vm_pop_frame vm in
          if negb ok then Some (false, vm)
          else Some (vm_push vm return_value)
      | OP_JUMP => Some (true, vm_set_pc u32 vm)
      | OP_JUMP_IF_TRUE =>
          let '(condition, vm) := vm_pop vm in
          if mjs_to_boolean (vm_memory vm) condition then Some (true, vm_set_pc u32 vm)
          else Some (true, vm)
      | OP_JUMP_IF_FALSE =>
          let '(condition, vm) := vm_pop vm in
          if negb (mjs_to_boolean (vm_memory vm) condition) then Some (true, vm_set_pc u32 vm)
          else Some (true, vm)
      | OP_TYPEOF =>
          let '(v, vm) := vm_pop vm in
          let type_str := vm_typeof v in
          let '(str, ctx) := mjs_string_new (context vm) type_str (strlen type_str) in
          let vm := vm_set_context ctx vm in
          if (str =? NULL)%N then Some (false, vm)
          else Some (vm_push vm (mjs_value_string str))
      | _ => Some (false, vm)
      end
  end.

(** The loop of [mjs_vm_execute]: [None] when [fuel] turns of the loop do
    not end it. *)
Fixpoint vm_run (fuel : nat) (vm : mjs_vm_t) : option (mjs_result_t * mjs_vm_t) :=
  match fuel with
  | O => None
  | S fuel =>
      if (vm_state vm =? VM_STATE_RUNNING) && (0 <? call_stack_top vm)%N then
        match vm_current_frame vm with
        | None => vm_run fuel (snd (vm_pop_frame vm))
        | Some frame =>
            if (instruction_count (bytecode frame) <=? pc frame)%N
            then vm_run fuel (snd (vm_pop_frame vm))
            else
              match instructions (bytecode frame) !! N.to_nat (pc frame) with
              | None => None
              | Some instr =>
                  let vm := vm_set_pc (size_add (pc frame) 1) vm in
                  let vm := vm_count_instruction vm in
                  match vm_execute_instruction vm instr with
                  | None => None
                  | Some (false, vm) => Some (MJS_ERROR, vm_set_state VM_STATE_ERROR vm)
                  | Some (true, vm) => vm_run fuel vm
                  end
              end
        end
      else Some (MJS_OK, vm)
  end.

(** [mjs_vm_execute(vm, bytecode, result)], run for at most [fuel] turns
    of its loop: the code returned, what it stored through [result], and
    the machine. *)
Definition mjs_vm_execute (fuel : nat) (vm : mjs_vm_t) (bc : mjs_bytecode_t)
  : option (mjs_result_t * option mjs_value_t * mjs_vm_t) :=
  let '(ok, vm) := vm_push_frame vm bc 0 in
  if negb ok then Some (MJS_ERROR, None, vm)
  else
    match vm_run fuel (vm_set_state VM_STATE_RUNNING vm) with
    | None => None
    | Some (MJS_OK, vm) =>
        let vm := vm_set_state VM_STATE_READY vm in
        let result := if (0 <? stack_top vm)%N then vm_peek vm 0 else mjs_value_undefined in
        Some (MJS_OK, Some result, vm)
    | Some (r, vm) => Some (r, None, vm)
    end.

(** *** Bytecode blocks (vm.c) *)

Definition mjs_bytecode_new : mjs_bytecode_t := MkBytecode [] 64 [] 32 [] 32.

Definition mjs_bytecode_emit (b : mjs_bytecode_t) (instruction : mjs_instruction_t)
  : bool * mjs_bytecode_t :=
  let cap := if (instruction_capacity b <=? instruction_count b)%N
             then size_mul (instruction_capacity b) 2 else instruction_capacity b in
  (true,
   MkBytecode (instructions b ++ [instruction]) cap (constants b) (constant_capacity b)
     (strings b) (string_capacity b)).

Definition mjs_bytecode_add_constant (b : mjs_bytecode_t) (v : mjs_value_t)
  : N * mjs_bytecode_t :=
  let cap := if (constant_capacity b <=? constant_count b)%N
             then size_mul (constant_capacity b) 2 else constant_capacity b in
  (wrap_uint32 (Z.of_N (constant_count b)),
   MkBytecode (instructions b) (instruction_capacity b) (constants b ++ [v]) cap
     (strings b) (string_capacity b)).

Definition mjs_bytecode_add_string (b : mjs_bytecode_t) (str : string)
  : N * mjs_bytecode_t :=
  match find_index (fun s => MJS_STREQ (str_data s) str) (strings b) with
  | Some i => (wrap_uint32 (Z.of_nat i), b)
  | None =>
      let cap := if (string_capacity b <=? string_count b)%N
                 then size_mul (string_capacity b) 2 else string_capacity b in
      let mjs_str := MkString (c_str str) (size_add (strlen str) 1) false in
      (wrap_uint32 (Z.of_N (string_count b)),
       MkBytecode (instructions b) (instruction_capacity b) (constants b)
         (constant_capacity b) (strings b ++ [mjs_str]) cap)
  end.

Definition mjs_bytecode_emit_jump (b : mjs_bytecode_t) (op : mjs_opcode_t) (placeholder : N)
  : N * mjs_bytecode_t :=
  (instruction_count b, snd (mjs_bytecode_emit b (Instr op placeholder))).

Definition mjs_bytecode_patch_jump (b : mjs_bytecode_t) (jump_index : N) : mjs_bytecode_t :=
  if (instruction_count b <=? jump_index)%N then b
  else
    MkBytecode
      (alter (fun i => Instr (opcode i) (wrap_uint32 (Z.of_N (instruction_count b))))
         (N.to_nat jump_index) (instructions b))
      (instruction_capacity b) (constants b) (constant_capacity b) (strings b)
      (string_capacity b).

Definition mjs_bytecode_get_current_offset (b : mjs_bytecode_t) : N :=
  instruction_count b.

(** ** The compiler (lexer.h, parser.h, compiler.c) *)

Inductive mjs_token_type_t :=
| TOKEN_UNDEFINED | TOKEN_NULL | TOKEN_TRUE | TOKEN_FALSE | TOKEN_NUMBER
| TOKEN_STRING | TOKEN_TEMPLATE_LITERAL | TOKEN_BIGINT
| TOKEN_IDENTIFIER | TOKEN_KEYWORD_ASYNC | TOKEN_KEYWORD_AWAIT
| TOKEN_KEYWORD_BREAK | TOKEN_KEYWORD_CASE | TOKEN_KEYWORD_CATCH
| TOKEN_KEYWORD_CLASS | TOKEN_KEYWORD_CONST | TOKEN_KEYWORD_CONTINUE
| TOKEN_KEYWORD_DEBUGGER | TOKEN_KEYWORD_DEFAULT | TOKEN_KEYWORD_DELETE
| TOKEN_KEYWORD_DO | TOKEN_KEYWORD_ELSE | TOKEN_KEYWORD_EXPORT
| TOKEN_KEYWORD_EXTENDS | TOKEN_KEYWORD_FINALLY | TOKEN_KEYWORD_FOR
| TOKEN_KEYWORD_FUNCTION | TOKEN_KEYWORD_IF | TOKEN_KEYWORD_IMPORT
| TOKEN_KEYWORD_IN | TOKEN_KEYWORD_INSTANCEOF | TOKEN_KEYWORD_LET
| TOKEN_KEYWORD_NEW | TOKEN_KEYWORD_OF | TOKEN_KEYWORD_RETURN
| TOKEN_KEYWORD_STATIC | TOKEN_KEYWORD_SUPER | TOKEN_KEYWORD_SWITCH
| TOKEN_KEYWORD_THIS | TOKEN_KEYWORD_THROW | TOKEN_KEYWORD_TRY
| TOKEN_KEYWORD_TYPEOF | TOKEN_KEYWORD_VAR | TOKEN_KEYWORD_VOID
| TOKEN_KEYWORD_WHILE | TOKEN_KEYWORD_WITH | TOKEN_KEYWORD_YIELD
| TOKEN_PLUS | TOKEN_MINUS | TOKEN_MULTIPLY | TOKEN_DIVIDE | TOKEN_MODULO
| TOKEN_EXPONENT | TOKEN_ASSIGN | TOKEN_PLUS_ASSIGN | TOKEN_MINUS_ASSIGN
| TOKEN_MULTIPLY_ASSIGN | TOKEN_DIVIDE_ASSIGN | TOKEN_MODULO_ASSIGN
| TOKEN_EXPONENT_ASSIGN | TOKEN_INCREMENT | TOKEN_DECREMENT
| TOKEN_EQUAL | TOKEN_NOT_EQUAL | TOKEN_STRICT_EQUAL | TOKEN_STRICT_NOT_EQUAL
| TOKEN_LESS_THAN | TOKEN_LESS_EQUAL | TOKEN_GREATER_THAN | TOKEN_GREATER_EQUAL
| TOKEN_LOGICAL_AND | TOKEN_LOGICAL_OR | TOKEN_LOGICAL_NOT
| TOKEN_NULLISH_COALESCING
| TOKEN_BITWISE_AND | TOKEN_BITWISE_OR | TOKEN_BITWISE_XOR | TOKEN_BITWISE_NOT
| TOKEN_LEFT_SHIFT | TOKEN_RIGHT_SHIFT | TOKEN_UNSIGNED_RIGHT_SHIFT
| TOKEN_BITWISE_AND_ASSIGN | TOKEN_BITWISE_OR_ASSIGN | TOKEN_BITWISE_XOR_ASSIGN
| TOKEN_LEFT_SHIFT_ASSIGN | TOKEN_RIGHT_SHIFT_ASSIGN
| TOKEN_UNSIGNED_RIGHT_SHIFT_ASSIGN
| TOKEN_SEMICOLON | TOKEN_COMMA | TOKEN_DOT | TOKEN_OPTIONAL_CHAINING
| TOKEN_QUESTION | TOKEN_COLON | TOKEN_ARROW
| TOKEN_LEFT_PAREN | TOKEN_RIGHT_PAREN | TOKEN_LEFT_BRACKET
| TOKEN_RIGHT_BRACKET | TOKEN_LEFT_BRACE | TOKEN_RIGHT_BRACE
| TOKEN_NEWLINE | TOKEN_EOF | TOKEN_ERROR.

(** The node types of [mjs_ast_type_t] the compiler has no case for. *)
Inductive mjs_ast_other_t :=
| AST_LITERAL_BIGINT | AST_LITERAL_TEMPLATE | AST_UPDATE_EXPRESSION
| AST_LOGICAL_EXPRESSION | AST_CONDITIONAL_EXPRESSION | AST_NEW_EXPRESSION
| AST_THIS_EXPRESSION | AST_ARROW_FUNCTION_EXPRESSION | AST_SEQUENCE_EXPRESSION
| AST_AWAIT_EXPRESSION | AST_YIELD_EXPRESSION | AST_EMPTY_STATEMENT
| AST_DEBUGGER_STATEMENT | AST_WITH_STATEMENT | AST_LABELED_STATEMENT
| AST_SWITCH_STATEMENT | AST_THROW_STATEMENT | AST_TRY_STATEMENT
| AST_DO_WHILE_STATEMENT | AST_FOR_STATEMENT | AST_FOR_IN_STATEMENT
| AST_FOR_OF_STATEMENT | AST_CLASS_DECLARATION | AST_IMPORT_DECLARATION
| AST_EXPORT_DECLARATION | AST_SUPER.

Inductive var_decl_kind :=
| VAR_DECLARATION_VAR | VAR_DECLARATION_LET | VAR_DECLARATION_CONST.

(** [struct mjs_ast_node]: the type of the node with the member of the
    union it selects. A child the parser may leave null is an [option];
    the [id] of a declarator and the name of a function are given by
    their text. *)
#[local] Unset Elimination Schemes.
Inductive mjs_ast_node_t :=
| AST_LITERAL_UNDEFINED
| AST_LITERAL_NULL
| AST_LITERAL_BOOLEAN (boolean : bool)
| AST_LITERAL_NUMBER (number : float)
| AST_LITERAL_STRING (data : string)
| AST_IDENTIFIER (name : string)
| AST_BINARY_EXPRESSION (operator : mjs_token_type_t) (left right : mjs_ast_node_t)
| AST_UNARY_EXPRESSION (operator : mjs_token_type_t) (argument : mjs_ast_node_t)
    (prefix : bool)
| AST_ASSIGNMENT_EXPRESSION (operator : mjs_token_type_t) (left right : mjs_ast_node_t)
| AST_CALL_EXPRESSION (callee : mjs_ast_node_t) (arguments : list mjs_ast_node_t)
| AST_MEMBER_EXPRESSION (object property : mjs_ast_node_t) (computed : bool)
| AST_ARRAY_EXPRESSION (elements : list mjs_ast_node_t)
| AST_OBJECT_EXPRESSION (properties : list (mjs_ast_node_t * mjs_ast_node_t))
| AST_FUNCTION_EXPRESSION (name : string) (params : list mjs_ast_node_t)
    (body : mjs_ast_node_t)
| AST_EXPRESSION_STATEMENT (expression : mjs_ast_node_t)
| AST_BLOCK_STATEMENT (statements : list mjs_ast_node_t)
| AST_RETURN_STATEMENT (argument : option mjs_ast_node_t)
| AST_BREAK_STATEMENT
| AST_CONTINUE_STATEMENT
| AST_IF_STATEMENT (test consequent : mjs_ast_node_t) (alternate : option mjs_ast_node_t)
| AST_WHILE_STATEMENT (test body : mjs_ast_node_t)
| AST_FUNCTION_DECLARATION (name : string) (params : list mjs_ast_node_t)
    (body : mjs_ast_node_t)
| AST_VARIABLE_DECLARATION (kind : var_decl_kind)
    (declarations : list (string * option mjs_ast_node_t))
| AST_PROGRAM (body : list mjs_ast_node_t)
| AST_OTHER (type : mjs_ast_other_t).
#[local] Set Elimination Schemes.

Record mjs_compiler_t := MkCompiler {
  c_bytecode : mjs_bytecode_t;
  current_scope_depth : N;
  c_has_error : bool;
  c_error_message : string
}.

(** A function of compiler.c: it returns a result and changes the
    compiler it is given. *)
Definition compile (A : Type) : Type := mjs_compiler_t -> A * mjs_compiler_t.

Definition creturn {A} (x : A) : compile A := fun c => (x, c).
Definition cbind {A B} (m : compile A) (k : A -> compile B) : compile B :=
  fun c => let '(x, c) := m c in k x c.

Declare Scope compile_scope.
Delimit Scope compile_scope with compile.
Notation "x <- m ;; k" := (cbind m (fun x => k))
  (at level 100, m at next level, right associativity) : compile_scope.
Notation "m ;;; k" := (cbind m (fun _ => k))
  (at level 100, right associativity) : compile_scope.
Local Open Scope compile_scope.

Definition on_bytecode {A} (f : mjs_bytecode_t -> A * mjs_bytecode_t) : compile A :=
  fun c =>
    let '(x, b) := f (c_bytecode c) in
    (x, MkCompiler b (current_scope_depth c) (c_has_error c) (c_error_message c)).

Definition compiler_error (message : string) : compile unit :=
  fun c =>
    if c_has_error c then (tt, c)
    else (tt, MkCompiler (c_bytecode c) (current_scope_depth c) true
                (bytes ("Compilation error: " +:+ message) 255)).

Definition emit_instruction (op : mjs_opcode_t) (operand : N) : compile bool :=
  on_bytecode (fun b => mjs_bytecode_emit b (Instr op operand)).

Definition add_constant (v : mjs_value_t) : compile N :=
  on_bytecode (fun b => mjs_bytecode_add_constant b v).

Definition add_string (str : string) : compile N :=
  on_bytecode (fun b => mjs_bytecode_add_string b str).

Definition emit_jump (op : mjs_opcode_t) (placeholder : N) : compile N :=
  on_bytecode (fun b => mjs_bytecode_emit_jump b op placeholder).

Definition patch_jump (jump_index : N) : compile unit :=
  on_bytecode (fun b => (tt, mjs_bytecode_patch_jump b jump_index)).

Definition get_current_offset : compile N :=
  on_bytecode (fun b => (mjs_bytecode_get_current_offset b, b)).

Definition scope_depth_add (d : Z) : compile unit :=
  fun c => (tt, MkCompiler (c_bytecode c)
                  (wrap_size_t (Z.of_N (current_scope_depth c) + d))
                  (c_has_error c) (c_error_message c)).

(** [return false;] after [compiler_error(compiler, message);]. *)
Definition fail (message : string) : compile bool :=
  compiler_error message ;;; creturn false.

(** [if (!e) return false;] followed by the rest. *)
Definition guard (e : compile bool) (k : compile bool) : compile bool :=
  ok <- e ;; if ok then k else creturn false.

(** The loops that compile the nodes of an array in order and stop at
    the first failure; [after] is what follows each node in the loop. *)
Fixpoint compile_each {A} (f : A -> compile bool) (after : compile unit) (l : list A)
  : compile bool :=
  match l with
  | [] => creturn true
  | x :: r => guard (f x) (after ;;; compile_each f after r)
  end.

Definition compile_literal (node : mjs_ast_node_t) : compile bool :=
  match node with
  | AST_LITERAL_NUMBER number =>
      i <- add_constant (mjs_value_number number) ;; emit_instruction OP_LOAD_CONST i
  | AST_LITERAL_STRING data =>
      i <- add_string data ;; emit_instruction OP_LOAD_CONST i
  | AST_LITERAL_BOOLEAN boolean =>
      emit_instruction (if boolean then OP_PUSH_TRUE else OP_PUSH_FALSE) 0
  | AST_LITERAL_NULL => emit_instruction OP_PUSH_NULL 0
  | AST_LITERAL_UNDEFINED => emit_instruction OP_PUSH_UNDEFINED 0
  | _ => fail "Unknown literal type"
  end.

Definition compile_identifier (node : mjs_ast_node_t) : compile bool :=
  match node with
  | AST_IDENTIFIER name =>
      string_index <- add_string name ;; emit_instruction OP_LOAD_VAR string_index
  | _ => creturn false
  end.

Section Recursion.

(** [compile_expression] and [compile_statement], which the functions of
    this section call back. *)
Variable compile_expression : mjs_ast_node_t -> compile bool.
Variable compile_statement : mjs_ast_node_t -> compile bool.

Definition compile_binary_expression (operator : mjs_token_type_t)
    (left right : mjs_ast_node_t) : compile bool :=
  guard (compile_expression left)
    (guard (compile_expression right)
       match operator with
       | TOKEN_PLUS => emit_instruction OP_ADD 0
       | TOKEN_MINUS => emit_instruction OP_SUB 0
       | TOKEN_MULTIPLY => emit_instruction OP_MUL 0
       | TOKEN_DIVIDE => emit_instruction OP_DIV 0
       | TOKEN_MODULO => emit_instruction OP_MOD 0
       | TOKEN_EQUAL => emit_instruction OP_EQ 0
       | TOKEN_NOT_EQUAL => emit_instruction OP_NE 0
       | TOKEN_LESS_THAN => emit_instruction OP_LT 0
       | TOKEN_LESS_EQUAL => emit_instruction OP_LE 0
       | TOKEN_GREATER_THAN => emit_instruction OP_GT 0
       | TOKEN_GREATER_EQUAL => emit_instruction OP_GE 0
       | TOKEN_LOGICAL_AND => emit_instruction OP_AND 0
       | TOKEN_LOGICAL_OR => emit_instruction OP_OR 0
       | TOKEN_BITWISE_AND => emit_instruction OP_BIT_AND 0
       | TOKEN_BITWISE_OR => emit_instruction OP_BIT_OR 0
       | TOKEN_BITWISE_XOR => emit_instruction OP_BIT_XOR 0
       | TOKEN_LEFT_SHIFT => emit_instruction OP_SHL 0
       | TOKEN_RIGHT_SHIFT => emit_instruction OP_SHR 0
       | _ => fail "Unknown binary operator"
       end).

Definition compile_unary_expression (operator : mjs_token_type_t)
    (argument : mjs_ast_node_t) (prefix : bool) : compile bool :=
  if prefix then
    guard (compile_expression argument)
      match operator with
      | TOKEN_PLUS => emit_instruction OP_PLUS 0
      | TOKEN_MINUS => emit_instruction OP_NEG 0
      | TOKEN_LOGICAL_NOT => emit_instruction OP_NOT 0
      | TOKEN_BITWISE_NOT => emit_instruction OP_BIT_NOT 0
      | TOKEN_KEYWORD_TYPEOF => emit_instruction OP_TYPEOF 0
      | TOKEN_KEYWORD_VOID =>
          emit_instruction OP_POP 0 ;;;
          undef_index <- add_constant mjs_value_undefined ;;
          emit_instruction OP_LOAD_CONST undef_index
      | _ => fail "Unknown unary operator"
      end
  else fail "Postfix operators not yet implemented".

Definition compile_assignment_expression (left right : mjs_ast_node_t) : compile bool :=
  guard (compile_expression right)
    match left with
    | AST_IDENTIFIER name =>
        string_index <- add_string name ;; emit_instruction OP_STORE_VAR string_index
    | AST_MEMBER_EXPRESSION object property computed =>
        guard (compile_expression object)
          (if computed then
             guard (compile_expression property) (emit_instruction OP_SET_PROP_COMPUTED 0)
           else
             match property with
             | AST_IDENTIFIER name =>
                 prop_index <- add_string name ;; emit_instruction OP_SET_PROP prop_index
             | _ => fail "Invalid assignment target"
             end)
    | _ => fail "Invalid assignment target"
    end.

Definition compile_call_expression (callee : mjs_ast_node_t)
    (arguments : list mjs_ast_node_t) : compile bool :=
  guard (compile_expression callee)
    (guard (compile_each compile_expression (creturn tt) arguments)
       (emit_instruction OP_CALL (wrap_uint32 (Z.of_nat (length arguments))))).

Definition compile_member_expression (object property : mjs_ast_node_t) (computed : bool)
  : compile bool :=
  guard (compile_expression object)
    (if computed then
       guard (compile_expression property) (emit_instruction OP_GET_PROP_COMPUTED 0)
     else
       match property with
       | AST_IDENTIFIER name =>
           prop_index <- add_string name ;; emit_instruction OP_GET_PROP prop_index
       | _ => fail "Invalid member expression"
       end).

Definition compile_variable_declaration
    (declarations : list (string * option mjs_ast_node_t)) : compile bool :=
  compile_each
    (fun d : string * option mjs_ast_node_t =>
       guard
         match snd d with
         | Some init => compile_expression init
         | None => emit_instruction OP_PUSH_UNDEFINED 0 ;;; creturn true
         end
         (name_index <- add_string (fst d) ;; emit_instruction OP_STORE_VAR name_index))
    (creturn tt) declarations.

Definition compile_function_declaration (name : string) : compile bool :=
  add_string name ;;; emit_instruction OP_PUSH_UNDEFINED 0.

Definition compile_block_statement (statements : list mjs_ast_node_t) : compile bool :=
  scope_depth_add 1 ;;;
  guard (compile_each compile_statement (creturn tt) statements)
    (scope_depth_add (-1) ;;; creturn true).

Definition compile_if_statement (test consequent : mjs_ast_node_t)
    (alternate : option mjs_ast_node_t) : compile bool :=
  guard (compile_expression test)
    (else_jump <- emit_jump OP_JUMP_IF_FALSE 0 ;;
     guard (compile_statement consequent)
       match alternate with
       | Some alt =>
           end_jump <- emit_jump OP_JUMP 0 ;;
           patch_jump else_jump ;;;
           guard (compile_statement alt) (patch_jump end_jump ;;; creturn true)
       | None => patch_jump else_jump ;;; creturn true
       end).

Definition compile_while_statement (test body : mjs_ast_node_t) : compile bool :=
  loop_start <- get_current_offset ;;
  guard (compile_expression test)
    (exit_jump <- emit_jump OP_JUMP_IF_FALSE 0 ;;
     guard (compile_statement body)
       (emit_instruction OP_JUMP (wrap_uint32 (Z.of_N loop_start)) ;;;
        patch_jump exit_jump ;;; creturn true)).

Definition compile_return_statement (argument : option mjs_ast_node_t) : compile bool :=
  guard
    match argument with
    | Some a => compile_expression a
    | None =>
        undef_index <- add_constant mjs_value_undefined ;;
        emit_instruction OP_LOAD_CONST undef_index ;;; creturn true
    end
    (emit_instruction OP_RETURN 0).

End Recursion.

Fixpoint compile_expression (node : mjs_ast_node_t) {struct node} : compile bool :=
  match node with
  | AST_LITERAL_NUMBER _ | AST_LITERAL_STRING _ | AST_LITERAL_BOOLEAN _
  | AST_LITERAL_NULL | AST_LITERAL_UNDEFINED => compile_literal node
  | AST_IDENTIFIER _ => compile_identifier node
  | AST_BINARY_EXPRESSION operator lhs rhs =>
      compile_binary_expression compile_expression operator lhs rhs
  | AST_UNARY_EXPRESSION operator argument prefix =>
      compile_unary_expression compile_expression operator argument prefix
  | AST_ASSIGNMENT_EXPRESSION _ lhs rhs =>
      compile_assignment_expression compile_expression lhs rhs
  | AST_CALL_EXPRESSION callee arguments =>
      compile_call_expression compile_expression callee arguments
  | AST_MEMBER_EXPRESSION object property computed =>
      compile_member_expression compile_expression object property computed
  | AST_ARRAY_EXPRESSION elements =>
      emit_instruction OP_NEW_ARRAY 0 ;;;
      guard (compile_each compile_expression
               (emit_instruction OP_ARRAY_PUSH 0 ;;; creturn tt) elements)
        (creturn true)
  | AST_OBJECT_EXPRESSION _ => emit_instruction OP_NEW_OBJECT 0 ;;; creturn true
  | AST_FUNCTION_EXPRESSION _ _ _ => fail "Function expressions not yet implemented"
  | _ => fail "Unknown expression type"
  end.

Fixpoint compile_statement (node : mjs_ast_node_t) {struct node} : compile bool :=
  match node with
  | AST_PROGRAM body => compile_each compile_statement (creturn tt) body
  | AST_EXPRESSION_STATEMENT expression =>
      guard (compile_expression expression) (emit_instruction OP_POP 0 ;;; creturn true)
  | AST_BLOCK_STATEMENT statements =>
      compile_block_statement compile_statement statements
  | AST_VARIABLE_DECLARATION _ declarations =>
      compile_variable_declaration compile_expression declarations
  | AST_FUNCTION_DECLARATION name _ _ => compile_function_declaration name
  | AST_IF_STATEMENT test consequent alternate =>
      compile_if_statement compile_expression compile_statement test consequent alternate
  | AST_WHILE_STATEMENT test body =>
      compile_while_statement compile_expression compile_statement test body
  | AST_RETURN_STATEMENT argument => compile_return_statement compile_expression argument
  | AST_BREAK_STATEMENT => creturn true
  | AST_CONTINUE_STATEMENT => creturn true
  | _ => fail "Unknown statement type"
  end.

(** [mjs_compile_ast(ctx, ast)]: the block, or [None] for the null result. *)
Definition mjs_compile_ast (ast : mjs_ast_node_t) : option mjs_bytecode_t :=
  let compiler := MkCompiler mjs_bytecode_new 0 false "" in
  let '(success, compiler) :=
    match ast with
    | AST_PROGRAM _ => compile_statement ast compiler
    | _ => compile_expression ast compiler
    end in
  if negb success || c_has_error compiler then None
  else Some (c_bytecode (snd (emit_instruction OP_RETURN 0 compiler))).

(** ** More of array.c *)

(** [(long)n] for a [size_t], and the sum of two [long]s, which wraps. *)
Definition wrap_long (z : Z) : Z := (z + 2 ^ 63) mod 2 ^ 64 - 2 ^ 63.
Definition to_long (n : N) : Z := wrap_long (Z.of_N n).

(** [mjs_array_length(arr)]. *)
Definition mjs_array_length (m : gmap N cell) (arr : ptr) : N :=
  match load_array m arr with
  | Some a => arr_length a
  | None => 0%N
  end.

(** [mjs_array_set_length(arr, new_length)]. *)
Definition mjs_array_set_length (m : gmap N cell) (arr : ptr) (new_length : N)
  : option (bool * gmap N cell) :=
  match load_array m arr with
  | None => Some (false, m)
  | Some a =>
      if (arr_length a <? new_length)%N then
        match mjs_array_ensure_capacity a new_length with
        | None => None
        | Some (false, _) => Some (false, m)
        | Some (true, a) =>
            Some (true,
                  store arr
                    (PArray (MkArray (fill_undefined (arr_length a) new_length (elements a))
                               new_length)) m)
        end
      else
        let els := if (new_length <? arr_length a)%N
                   then fill_undefined new_length (arr_length a) (elements a)
                   else elements a in
        Some (true, store arr (PArray (MkArray els new_length)) m)
  end.

(** [for (i = n; i > 0; i--) elements[i] = elements[i - 1];] *)
Fixpoint move_right (n : nat) (l : list mjs_value_t) : list mjs_value_t :=
  match n with
  | O => l
  | S k => move_right k (<[S k := default mjs_value_undefined (l !! k)]> l)
  end.

(** [for (i = 0; i < n; i++) elements[i] = elements[i + 1];] *)
Definition move_left (n : nat) (l : list mjs_value_t) : list mjs_value_t :=
  fold_left (fun l i => <[i := default mjs_value_undefined (l !! S i)]> l) (seq 0 n) l.

(** [mjs_array_unshift(arr, value)]. *)
Definition mjs_array_unshift (m : gmap N cell) (arr : ptr) (v : mjs_value_t)
  : option (bool * gmap N cell) :=
  match load_array m arr with
  | None => Some (false, m)
  | Some a =>
      match mjs_array_ensure_capacity a (size_add (arr_length a) 1) with
      | None => None
      | Some (false, _) => Some (false, m)
      | Some (true, a) =>
          let els := move_right (N.to_nat (arr_length a)) (elements a) in
          Some (true,
                store arr (PArray (MkArray (<[O := v]> els) (size_add (arr_length a) 1))) m)
      end
  end.

(** [mjs_array_shift(arr)]. *)
Definition mjs_array_shift (m : gmap N cell) (arr : ptr) : mjs_value_t * gmap N cell :=
  match load_array m arr with
  | None => (mjs_value_undefined, m)
  | Some a =>
      if (arr_length a =? 0)%N then (mjs_value_undefined, m)
      else
        let n := size_sub (arr_length a) 1 in
        let els := move_left (N.to_nat n) (elements a) in
        (default mjs_value_undefined (elements a !! O),
         store arr (PArray (MkArray (<[N.to_nat n := mjs_value_undefined]> els) n)) m)
  end.

(** The comparison in the loops of [mjs_array_index_of] and
    [mjs_array_last_index_of]: the tags are the same and the members of
    the union the tag of [value] selects are equal, the pointer for a tag
    other than undefined, null, boolean and number. *)
Definition same_element (e value : mjs_value_t) : bool :=
  mjs_value_type_eqb (mjs_get_type e) (mjs_get_type value) &&
  match value with
  | VUndefined | VNull => true
  | VBoolean b => Bool.eqb (mjs_get_boolean e) b
  | VNumber n => PrimFloat.eqb (mjs_get_number e) n
  | _ => (union_object e =? union_object value)%N
  end.

(** [for (i = from; i < length; i++) if (...) return (long)i;] over the
    elements from [from] on. *)
Fixpoint index_from (value : mjs_value_t) (l : list mjs_value_t) (from : N) : option N :=
  match l with
  | [] => None
  | e :: r => if same_element e value then Some from else index_from value r (from + 1)%N
  end.

(** [mjs_array_index_of(arr, value, start_index)]. *)
Definition mjs_array_index_of (m : gmap N cell) (arr : ptr) (value : mjs_value_t)
    (start_index : N) : Z :=
  match load_array m arr with
  | None => -1
  | Some a =>
      if (arr_length a <=? start_index)%N then -1
      else
        match index_from value
                (drop (N.to_nat start_index) (take (N.to_nat (arr_length a)) (elements a)))
                start_index with
        | Some i => to_long i
        | None => -1
        end
  end.

(** [for (i = n; i > 0; i--) { index = i - 1; if (...) return (long)index; }] *)
Fixpoint last_index_below (value : mjs_value_t) (l : list mjs_value_t) (n : nat)
  : option N :=
  match n with
  | O => None
  | S index =>
      if same_element (default mjs_value_undefined (l !! index)) value
      then Some (N.of_nat index)
      else last_index_below value l index
  end.

(** [mjs_array_last_index_of(arr, value, start_index)]. *)
Definition mjs_array_last_index_of (m : gmap N cell) (arr : ptr) (value : mjs_value_t)
    (start_index : N) : Z :=
  match load_array m arr with
  | None => -1
  | Some a =>
      if (arr_length a =? 0)%N then -1
      else
        let start := if (start_index <? arr_length a)%N then start_index
                     else size_sub (arr_length a) 1 in
        match last_index_below value (elements a) (N.to_nat (size_add start 1)) with
        | Some i => to_long i
        | None => -1
        end
  end.

(** [mjs_array_includes(arr, value, start_index)]. *)
Definition mjs_array_includes (m : gmap N cell) (arr : ptr) (value : mjs_value_t)
    (start_index : N) : bool :=
  negb (mjs_array_index_of m arr value start_index =? -1).

(** The loop of [mjs_array_reverse]; it ends before [fuel], the length
    of the array, runs out, as every turn moves [left] up. *)
Fixpoint reverse_loop (fuel left right : nat) (l : list mjs_value_t) : list mjs_value_t :=
  match fuel with
  | O => l
  | S fuel =>
      if (left <? right)%nat then
        let temp := default mjs_value_undefined (l !! left) in
        let l := <[left := default mjs_value_undefined (l !! right)]> l in
        let l := <[right := temp]> l in
        reverse_loop fuel (S left) (right - 1) l
      else l
  end.

(** [mjs_array_reverse(arr)]. *)
Definition mjs_array_reverse (m : gmap N cell) (arr : ptr) : gmap N cell :=
  match load_array m arr with
  | None => m
  | Some a =>
      if (arr_length a <=? 1)%N then m
      else
        let n := N.to_nat (arr_length a) in
        store arr (PArray (MkArray (reverse_loop n 0 (n - 1) (elements a)) (arr_length a))) m
  end.

(** [for (i = 0; i < n; i++) dst[to + i] = src[from + i];] *)
Definition copy_elements (src : list mjs_value_t) (from : nat) (dst : list mjs_value_t)
    (to n : nat) : list mjs_value_t :=
  fold_left
    (fun l i => <[(to + i)%nat := default mjs_value_undefined (src !! (from + i)%nat)]> l)
    (seq 0 n) dst.

(** [mjs_array_slice(ctx, arr, start, end)]; the array is read again
    after the allocation. *)
Definition mjs_array_slice (ctx : mjs_context_t) (arr : ptr) (start end_ : Z)
  : option (ptr * mjs_context_t) :=
  match load_array (ctx_memory ctx) arr with
  | None => Some (NULL, ctx)
  | Some a =>
      let len := to_long (arr_length a) in
      let start :=
        if start <? 0 then
          let s := wrap_long (len + start) in if s <? 0 then 0 else s
        else start in
      let end_ := if end_ <? 0 then wrap_long (len + end_) else end_ in
      let start := if len <=? start then len else start in
      let end_ := if len <? end_ then len else end_ in
      if end_ <=? start then mjs_array_new ctx 0
      else
        let slice_length := wrap_size_t (end_ - start) in
        match mjs_array_new ctx slice_length with
        | None => None
        | Some (slice, ctx) =>
            if (slice =? NULL)%N then Some (NULL, ctx)
            else
              match load_array (ctx_memory ctx) arr, load_array (ctx_memory ctx) slice with
              | Some a, Some s =>
                  let els := copy_elements (elements a) (Z.to_nat start) (elements s) 0
                               (N.to_nat slice_length) in
                  Some (slice,
                        ctx_set_memory
                          (store slice (PArray (MkArray els slice_length)) (ctx_memory ctx))
                          ctx)
              | _, _ => Some (slice, ctx)
              end
        end
  end.

(** [mjs_array_concat(ctx, arr1, arr2)]; a pointer that is no array of
    the heap stands for the null pointer. *)
Definition mjs_array_concat (ctx : mjs_context_t) (arr1 arr2 : ptr)
  : option (ptr * mjs_context_t) :=
  let len1 := mjs_array_length (ctx_memory ctx) arr1 in
  let len2 := mjs_array_length (ctx_memory ctx) arr2 in
  let total_length := size_add len1 len2 in
  match mjs_array_new ctx total_length with
  | None => None
  | Some (result, ctx) =>
      if (result =? NULL)%N then Some (NULL, ctx)
      else
        match load_array (ctx_memory ctx) result with
        | None => Some (result, ctx)
        | Some r =>
            let els :=
              match load_array (ctx_memory ctx) arr1 with
              | Some a1 => copy_elements (elements a1) 0 (elements r) 0 (N.to_nat len1)
              | None => elements r
              end in
            let els :=
              match load_array (ctx_memory ctx) arr2 with
              | Some a2 => copy_elements (elements a2) 0 els (N.to_nat len1) (N.to_nat len2)
              | None => els
              end in
            Some (result,
                  ctx_set_memory
                    (store result (PArray (MkArray els total_length)) (ctx_memory ctx)) ctx)
        end
  end.

(** [mjs_array_equals(a, b)]. *)
Definition mjs_array_equals (a b : ptr) : bool := (a =? b)%N.

(** [mjs_array_clone(ctx, arr)]. *)
Definition mjs_array_clone (ctx : mjs_context_t) (arr : ptr)
  : option (ptr * mjs_context_t) :=
  match load_array (ctx_memory ctx) arr with
  | None => Some (NULL, ctx)
  | Some a =>
      match mjs_array_new ctx (arr_capacity a) with
      | None => None
      | Some (clone, ctx) =>
          if (clone =? NULL)%N then Some (NULL, ctx)
          else
            match load_array (ctx_memory ctx) arr, load_array (ctx_memory ctx) clone with
            | Some a, Some c =>
                let els := copy_elements (elements a) 0 (elements c) 0
                             (N.to_nat (arr_length a)) in
                Some (clone,
                      ctx_set_memory
                        (store clone (PArray (MkArray els (arr_length a))) (ctx_memory ctx))
                        ctx)
            | _, _ => Some (clone, ctx)
            end
      end
  end.

(** ** More of object.c *)

(** [mjs_string_free(str)] releases the bytes of the string and leaves
    the record to the collector: the cell holds no string any more. *)
Definition mjs_string_free (m : gmap N cell) (str : ptr) : gmap N cell :=
  if (str =? NULL)%N then m
  else match load_string m str with
       | Some _ => store str PRaw m
       | None => m
       end.

(** [mjs_object_delete_property(obj, key)]. *)
Definition mjs_object_delete_property (m : gmap N cell) (obj : ptr) (k : string)
  : bool * gmap N cell :=
  match load_object m obj with
  | None => (false, m)
  | Some o =>
      match find_index (key_matches m k) (properties o) with
      | None => (true, m)
      | Some i =>
          match properties o !! i with
          | None => (true, m)
          | Some prop =>
              if negb (configurable prop) then (false, m)
              else
                let m := store obj
                           (PObject (MkObject (delete i (properties o)) (prototype o)
                                       (extensible o) (size_sub (property_count o) 1))) m in
                (true, mjs_string_free m (key prop))
          end
      end
  end.

(** [mjs_object_set_prototype(obj, prototype)] and
    [mjs_object_get_prototype(obj)]. *)
Definition mjs_object_set_prototype (m : gmap N cell) (obj proto : ptr) : gmap N cell :=
  match load_object m obj with
  | None => m
  | Some o =>
      store obj (PObject (MkObject (properties o) proto (extensible o) (property_count o))) m
  end.

Definition mjs_object_get_prototype (m : gmap N cell) (obj : ptr) : ptr :=
  match load_object m obj with
  | Some o => prototype o
  | None => NULL
  end.

(** [mjs_object_prevent_extensions(obj)] and
    [mjs_object_is_extensible(obj)]. *)
Definition mjs_object_prevent_extensions (m : gmap N cell) (obj : ptr) : gmap N cell :=
  match load_object m obj with
  | None => m
  | Some o =>
      store obj (PObject (MkObject (properties o) (prototype o) false (property_count o))) m
  end.

Definition mjs_object_is_extensible (m : gmap N cell) (obj : ptr) : bool :=
  match load_object m obj with
  | Some o => extensible o
  | None => false
  end.

(** [mjs_object_seal(obj)] and [mjs_object_freeze(obj)]. *)
Definition mjs_object_seal (m : gmap N cell) (obj : ptr) : gmap N cell :=
  match load_object m obj with
  | None => m
  | Some o =>
      store obj
        (PObject (MkObject
                    (map (fun p => MkProperty (key p) (value p) (writable p) (enumerable p)
                                     false) (properties o))
                    (prototype o) false (property_count o))) m
  end.

Definition mjs_object_freeze (m : gmap N cell) (obj : ptr) : gmap N cell :=
  match load_object m obj with
  | None => m
  | Some o =>
      store obj
        (PObject (MkObject
                    (map (fun p => MkProperty (key p) (value p) false (enumerable p) false)
                       (properties o))
                    (prototype o) false (property_count o))) m
  end.

(** [mjs_object_is_sealed(obj)] and [mjs_object_is_frozen(obj)]. *)
Definition mjs_object_is_sealed (m : gmap N cell) (obj : ptr) : bool :=
  match load_object m obj with
  | None => false
  | Some o =>
      if extensible o then false
      else forallb (fun p => negb (configurable p)) (properties o)
  end.

Definition mjs_object_is_frozen (m : gmap N cell) (obj : ptr) : bool :=
  match load_object m obj with
  | None => false
  | Some o =>
      if extensible o then false
      else forallb (fun p => negb (configurable p || writable p)) (properties o)
  end.

(** [mjs_object_equals(a, b)]. *)
Definition mjs_object_equals (a b : ptr) : bool := (a =? b)%N.

(** [mjs_object_free(obj)]: the keys of the properties are released
    with the properties; the chain is left as it is, to the collector. *)
Definition mjs_object_free (m : gmap N cell) (obj : ptr) : gmap N cell :=
  match load_object m obj with
  | None => m
  | Some o => fold_left (fun m p => mjs_string_free m (key p)) (properties o) m
  end.

(** The loop of [mjs_object_clone] over the properties of the object,
    whose chain the definitions on the clone, a new cell, leave alone:
    each property with a key is defined on the clone, and the loop stops
    at the first definition that fails. A key that is no string of the
    heap any more, whose bytes the C code would read released, fails
    too. *)
Fixpoint clone_properties (ctx : mjs_context_t) (clone : ptr) (l : list mjs_property_t)
  : bool * mjs_context_t :=
  match l with
  | [] => (true, ctx)
  | prop :: next =>
      if (key prop =? NULL)%N then clone_properties ctx clone next
      else
        match load_string (ctx_memory ctx) (key prop) with
        | None => (false, ctx)
        | Some s =>
            let '(result, ctx) :=
              mjs_object_define_property ctx clone (str_data s) (value prop)
                (writable prop) (enumerable prop) (configurable prop) in
            match result with
            | MJS_OK => clone_properties ctx clone next
            | _ => (false, ctx)
            end
        end
  end.

(** [mjs_object_clone(ctx, obj)]; the object is read again after the
    allocation of the clone. *)
Definition mjs_object_clone (ctx : mjs_context_t) (obj : ptr) : ptr * mjs_context_t :=
  match load_object (ctx_memory ctx) obj with
  | None => (NULL, ctx)
  | Some _ =>
      let '(clone, ctx) := mjs_object_new ctx in
      if (clone =? NULL)%N then (NULL, ctx)
      else
        match load_object (ctx_memory ctx) obj, load_object (ctx_memory ctx) clone with
        | Some o, Some c =>
            let ctx :=
              ctx_set_memory
                (store clone
                   (PObject (MkObject (properties c) (prototype o) (extensible o)
                               (property_count c))) (ctx_memory ctx)) ctx in
            let '(ok, ctx) := clone_properties ctx clone (properties o) in
            if ok then (clone, ctx)
            else (NULL, ctx_set_memory (mjs_object_free (ctx_memory ctx) clone) ctx)
        | _, _ => (NULL, ctx)
        end
  end.

(** ** More of string.c *)

(** The string behind a pointer that is not null; a pointer that is not
    a string of the heap is read as the empty string. *)
Definition read_string (m : gmap N cell) (p : ptr) : mjs_string_t :=
  default (MkString "" 1 false) (load_string m p).

(** [mjs_string_concat(ctx, a, b)]. The sum of the lengths is taken
    before the record of the result is allocated and the bytes are
    copied after; [None] stands for the call whose sum wraps, where the
    copies overrun the buffer of the result. *)
Definition mjs_string_concat (ctx : mjs_context_t) (a b : ptr)
  : option (ptr * mjs_context_t) :=
  if (a =? NULL)%N && (b =? NULL)%N then Some (mjs_string_new ctx "" 0)
  else if (a =? NULL)%N then
    let sb := read_string (ctx_memory ctx) b in
    Some (mjs_string_new ctx (str_data sb) (str_length sb))
  else if (b =? NULL)%N then
    let sa := read_string (ctx_memory ctx) a in
    Some (mjs_string_new ctx (str_data sa) (str_length sa))
  else
    let a_length := str_length (read_string (ctx_memory ctx) a) in
    let b_length := str_length (read_string (ctx_memory ctx) b) in
    let total_length := size_add a_length b_length in
    let '(result, g) := mjs_gc_alloc (ctx_gc ctx) sizeof_mjs_string_t GC_TYPE_STRING in
    if (result =? NULL)%N then Some (NULL, ctx_set_gc g ctx)
    else if (total_length <? a_length + b_length)%N then None
    else
      let sa := read_string (memory g) a in
      let sb := read_string (memory g) b in
      let s := MkString (str_data sa +:+ str_data sb) (size_add total_length 1) false in
      Some (result, ctx_set_gc (gc_set_memory (store result (PString s) (memory g)) g) ctx).

(** [mjs_string_substring(ctx, str, start, length)]. *)
Definition mjs_string_substring (ctx : mjs_context_t) (str : ptr) (start length : N)
  : ptr * mjs_context_t :=
  if (str =? NULL)%N then mjs_string_new ctx "" 0
  else
    let s := read_string (ctx_memory ctx) str in
    if (str_length s <=? start)%N then mjs_string_new ctx "" 0
    else
      let length :=
        if (str_length s <? size_add start length)%N then size_sub (str_length s) start
        else length in
      mjs_string_new ctx (LibC.drop (N.to_nat start) (str_data s)) length.

(** The loop of [mjs_string_index_of], with [n] indices left to try from
    [i] on: [memcmp(str->data + i, search->data, search->length) == 0]
    ends it with [(int)i]. *)
Fixpoint string_index_from (n : nat) (data search : string) (i : N) : Z :=
  match n with
  | O => -1
  | S n =>
      if memcmp (substring (N.to_nat i) (String.length search) data) search =? 0
      then wrap_int (Z.of_N i)
      else string_index_from n data search (i + 1)
  end.

(** [mjs_string_index_of(str, search, start_pos)]. *)
Definition mjs_string_index_of (m : gmap N cell) (str search : ptr) (start_pos : N) : Z :=
  if (str =? NULL)%N || (search =? NULL)%N then -1
  else
    let s := read_string m str in
    let t := read_string m search in
    if (str_length t =? 0)%N || (str_length s <=? start_pos)%N then -1
    else if (size_sub (str_length s) start_pos <? str_length t)%N then -1
    else
      string_index_from
        (N.to_nat (size_sub (str_length s) (str_length t)) + 1 - N.to_nat start_pos)
        (str_data s) (str_data t) start_pos.

(** * Properties *)

Local Close Scope compile_scope.

(** A C library that moves a block it enlarges: the new block is past
    the end of the old one. *)
Definition realloc_moving (block size : N) : N := (block + size)%N.

(** A runtime whose heap [malloc] put at 4096, and a context of it: the
    fresh runtime and context of the scenarios. *)
Definition fresh_runtime : mjs_runtime_t := mjs_new_runtime 4096 realloc_moving.
Definition fresh_context : mjs_context_t := mjs_new_context fresh_runtime.

(** ** Evaluation of source text *)

(** C1. [mjs_eval] does not parse, compile or run its source: for every
    context and file name, evaluating [var x = 2 + 3 * 4; x] returns
    [MJS_OK] and stores [undefined], not the number 14. *)
Theorem mjs_eval_stores_undefined :
  forall (ctx : mjs_context_t) (filename : option string),
    mjs_eval (Some ctx) (Some "var x = 2 + 3 * 4; x"%string) filename true
    = (MJS_OK, Some mjs_undefined)
    /\ mjs_undefined <> mjs_number 14.
Proof.
  intros ctx filename. split; [reflexivity | discriminate].
Qed.

(** Whatever the source is, the result is the same. *)
Lemma mjs_eval_ignores_source :
  forall ctx source source' filename filename',
    mjs_eval (Some ctx) (Some source) filename true
    = mjs_eval (Some ctx) (Some source') filename' true.
Proof. reflexivity. Qed.

(** ** Addition *)

(** Without a string operand [vm_add] is the sum of the operands as
    numbers. *)
Lemma vm_add_numeric :
  forall vm a b,
    mjs_is_string a = false -> mjs_is_string b = false ->
    vm_add vm a b
    = mjs_value_number
        (PrimFloat.add (mjs_to_number (vm_memory vm) a) (mjs_to_number (vm_memory vm) b)).
Proof.
  intros vm a b Ha Hb. unfold vm_add. rewrite Ha, Hb. reflexivity.
Qed.

(** The machine of the scenario ["5" + 1]: the string ["5"] on the heap of
    a fresh context, a frame, and the two operands on the stack. *)
Definition five_plus_one : mjs_vm_t :=
  let '(five, ctx) := mjs_string_new fresh_context "5" 1 in
  let vm := mjs_vm_new ctx in
  let vm := snd (vm_push_frame vm (MkBytecode [Instr OP_ADD 0] 64 [] 32 [] 32) 0) in
  let vm := snd (vm_push vm (mjs_value_string five)) in
  snd (vm_push vm (mjs_value_number 1)).

(** C2. With a string operand on either side [vm_add] returns [undefined]
    and concatenates nothing; executing [OP_ADD] on the operands ["5"] and
    [1] succeeds and leaves [undefined] on the stack, not the string
    ["51"]. *)
Theorem vm_add_string_operand_undefined :
  (forall vm s v,
      vm_add vm (VString s) v = mjs_value_undefined
      /\ vm_add vm v (VString s) = mjs_value_undefined)
  /\ (mjs_to_string (vm_memory five_plus_one) <$> stack five_plus_one
      = ["1"%string; "5"%string])
  /\ (exists vm',
        vm_execute_instruction five_plus_one (Instr OP_ADD 0) = Some (true, vm')
        /\ stack vm' = [mjs_value_undefined]).
Proof.
  split; [| split].
  - intros vm s v. split; [reflexivity |].
    unfold vm_add. simpl. rewrite orb_true_r. reflexivity.
  - vm_compute. reflexivity.
  - eexists. split; vm_compute; reflexivity.
Qed.

(** ** Equality *)

Lemma mjs_value_type_eqb_eq a b : mjs_value_type_eqb a b = true <-> a = b.
Proof. destruct a, b; simpl; split; (reflexivity || discriminate). Qed.

Lemma vm_equals_tags_differ vm a b :
  mjs_get_type a <> mjs_get_type b -> vm_equals vm a b = false.
Proof.
  intros H. unfold vm_equals.
  destruct (mjs_value_type_eqb (mjs_get_type a) (mjs_get_type b)) eqn:E; [| reflexivity].
  apply mjs_value_type_eqb_eq in E. contradiction.
Qed.

Lemma vm_equals_undefined vm : vm_equals vm VUndefined VUndefined = true.
Proof. reflexivity. Qed.

Lemma vm_equals_null vm : vm_equals vm VNull VNull = true.
Proof. reflexivity. Qed.

Lemma vm_equals_boolean vm x y :
  vm_equals vm (VBoolean x) (VBoolean y) = Bool.eqb x y.
Proof. reflexivity. Qed.

Lemma vm_equals_number vm x y :
  vm_equals vm (VNumber x) (VNumber y) = PrimFloat.eqb x y.
Proof. reflexivity. Qed.

Lemma vm_equals_nan vm : vm_equals vm (VNumber PrimFloat.nan) (VNumber PrimFloat.nan) = false.
Proof. reflexivity. Qed.

Lemma vm_equals_object vm a b :
  vm_equals vm (VObject a) (VObject b) = (a =? b)%N.
Proof. reflexivity. Qed.

Lemma memcmp_zero a b :
  String.length a = String.length b -> (memcmp a b =? 0) = String.eqb a b.
Proof.
  revert b. induction a as [| x a IH]; intros [| y b] Hlen; simpl in *;
    try reflexivity; try discriminate.
  destruct (Ascii.eqb x y) eqn:E.
  - apply IH. congruence.
  - apply Z.eqb_neq. intros H.
    apply Ascii.eqb_neq in E. apply E.
    assert (N_of_ascii x = N_of_ascii y) as Hn by (apply N2Z.inj; lia).
    rewrite <- (ascii_N_embedding x), <- (ascii_N_embedding y). congruence.
Qed.

(** Two strings of the heap, shorter than 4 GiB, are equal exactly when
    their bytes are. *)
Lemma vm_equals_string vm a b sa sb :
  a <> NULL -> b <> NULL ->
  load_string (vm_memory vm) a = Some sa ->
  load_string (vm_memory vm) b = Some sb ->
  (str_length sa < 2 ^ 32)%N -> (str_length sb < 2 ^ 32)%N ->
  vm_equals vm (VString a) (VString b) = String.eqb (str_data sa) (str_data sb).
Proof.
  intros Ha Hb Hsa Hsb La Lb.
  unfold vm_equals, mjs_string_compare. simpl.
  apply N.eqb_neq in Ha, Hb. rewrite Ha, Hb. simpl.
  rewrite Hsa, Hsb. simpl.
  destruct (str_length sa =? str_length sb)%N eqn:E; simpl.
  - apply memcmp_zero. apply N.eqb_eq in E. unfold str_length in E. lia.
  - apply N.eqb_neq in E.
    assert (String.eqb (str_data sa) (str_data sb) = false) as ->.
    { apply String.eqb_neq. intros H. apply E. unfold str_length. rewrite H. reflexivity. }
    apply Z.eqb_neq. unfold wrap_int, size_sub, wrap_size_t.
    change (2 ^ 32)%N with 4294967296%N in La, Lb.
    change (2 ^ 64) with 18446744073709551616.
    change (2 ^ 32) with 4294967296. change (2 ^ 31) with 2147483648.
    set (x := str_length sa) in *. set (y := str_length sb) in *.
    pose proof (Z.mod_pos_bound (Z.of_N x - Z.of_N y) 18446744073709551616 eq_refl) as B1.
    pose proof (Z.div_mod (Z.of_N x - Z.of_N y) 18446744073709551616 ltac:(lia)) as D1.
    rewrite Z2N.id by lia.
    set (z := (Z.of_N x - Z.of_N y) mod 18446744073709551616) in *.
    pose proof (Z.mod_pos_bound (z + 2147483648) 4294967296 eq_refl) as B2.
    pose proof (Z.div_mod (z + 2147483648) 4294967296 ltac:(lia)) as D2.
    lia.
Qed.

(** C3. Two array values are always equal for [vm_equals], and so are two
    function values: [mjs_get_object] gives the null pointer for both
    operands, whatever heap objects they reference. The claim makes them
    equal only when they reference the same heap object. *)
Theorem vm_equals_arrays_functions_always_equal :
  forall (vm : mjs_vm_t) (a b : ptr),
    vm_equals vm (VArray a) (VArray b) = true
    /\ vm_equals vm (VFunction a) (VFunction b) = true
    /\ vm_equals vm (VArray 1%N) (VArray 2%N) <> (1 =? 2)%N.
Proof.
  intros vm a b. repeat split; discriminate.
Qed.

(** ** Strings as numbers *)

(** [mjs_to_number] hands a non-empty string to [strtod] as it is. *)
Lemma mjs_to_number_string m s str :
  load_string m s = Some str ->
  mjs_to_number m (VString s)
  = if (str_length str =? 0)%N then PrimFloat.zero else LibC.strtod (str_data str).
Proof. intros H. simpl. rewrite H. reflexivity. Qed.

(** A string put on the heap of a fresh context. *)
Definition string_on_heap (data : string) : ptr * mjs_context_t :=
  mjs_string_new fresh_context data (strlen data).

Definition to_number_of (data : string) : float :=
  let '(s, ctx) := string_on_heap data in mjs_to_number (ctx_memory ctx) (VString s).

Definition string_to_number_of (data : string) : float :=
  let '(s, ctx) := string_on_heap data in mjs_string_to_number (ctx_memory ctx) s.

(** What [strtod] gives [mjs_to_number]: white space before the number
    is skipped, the tokens for infinity and NaN are read, and so is a
    number followed by anything. *)
Example to_number_leading_space : to_number_of "  42" = 42%float.
Proof. vm_compute. reflexivity. Qed.

Example to_number_trailing_space : to_number_of "42  " = 42%float.
Proof. vm_compute. reflexivity. Qed.

Example to_number_infinity : to_number_of "Infinity" = PrimFloat.infinity.
Proof. vm_compute. reflexivity. Qed.

Example to_number_nan : to_number_of "NaN" = PrimFloat.nan.
Proof. vm_compute. reflexivity. Qed.

Example to_number_trailing_text : to_number_of "12abc" = 12%float.
Proof. vm_compute. reflexivity. Qed.

Example string_to_number_trailing_text : string_to_number_of "12abc" = PrimFloat.nan.
Proof. vm_compute. reflexivity. Qed.

(** C8. For the string ["abc"], which is not a number, [mjs_to_number]
    returns 0 and not NaN; [mjs_string_to_number], which [mjs_to_number]
    does not call, returns NaN for it. *)
Theorem mjs_to_number_not_a_number_is_zero :
  to_number_of "abc" = PrimFloat.zero
  /\ PrimFloat.is_nan (to_number_of "abc") = false
  /\ PrimFloat.is_nan (string_to_number_of "abc") = true.
Proof. repeat split; vm_compute; reflexivity. Qed.

(** ** Pool indices *)

(** The operand of an instruction that indexes a pool is below the size
    of the pool. *)
Definition operand_in_bounds (b : mjs_bytecode_t) (i : mjs_instruction_t) : bool :=
  match opcode i with
  | OP_LOAD_CONST => (operand i <? constant_count b)%N
  | OP_LOAD_VAR | OP_STORE_VAR | OP_GET_PROP | OP_SET_PROP =>
      (operand i <? string_count b)%N
  | _ => true
  end.

Definition operands_in_bounds (b : mjs_bytecode_t) : bool :=
  forallb (operand_in_bounds b) (instructions b).

(** What [mjs_vm_execute] returns and the state it leaves the machine in. *)
Definition outcome (r : option (mjs_result_t * option mjs_value_t * mjs_vm_t))
  : option (mjs_result_t * option mjs_value_t * Z) :=
  match r with
  | Some (code, result, vm) => Some (code, result, vm_state vm)
  | None => None
  end.

(** C7. A string literal compiles to [LOAD_CONST] with the index the
    string got in the string pool, while the constant pool stays empty:
    the operand is out of the bounds of the pool [LOAD_CONST] reads, and
    running the block is a runtime error. *)
Theorem string_literal_operand_out_of_bounds :
  forall data : string,
    exists bc,
      mjs_compile_ast (AST_LITERAL_STRING data) = Some bc
      /\ instructions bc = [Instr OP_LOAD_CONST 0; Instr OP_RETURN 0]
      /\ constants bc = []
      /\ length (strings bc) = 1%nat
      /\ operands_in_bounds bc = false
      /\ outcome (mjs_vm_execute 2 (mjs_vm_new fresh_context) bc)
         = Some (MJS_ERROR, None, VM_STATE_ERROR).
Proof.
  intros data. eexists. split; [reflexivity |].
  repeat split; vm_compute; reflexivity.
Qed.

(** ** Runtime faults *)

(** A block made of the given instructions, with empty pools. *)
Definition code (l : list mjs_instruction_t) : mjs_bytecode_t :=
  MkBytecode l 64 [] 32 [] 32.

(** C6, as stated, fails: [OP_POP] on an empty operand stack is carried
    out, execution ends with [MJS_OK] and the machine is ready. *)
Lemma pop_on_empty_stack_is_no_fault :
  stack (mjs_vm_new fresh_context) = []
  /\ outcome (mjs_vm_execute 3 (mjs_vm_new fresh_context) (code [Instr OP_POP 0]))
     = Some (MJS_OK, Some mjs_value_undefined, VM_STATE_READY).
Proof. split; vm_compute; reflexivity. Qed.

Lemma lookup_instruction_in_range (l : list mjs_instruction_t) (n : N) i :
  l !! N.to_nat n = Some i -> (N.of_nat (length l) <=? n)%N = false.
Proof.
  intros H. apply lookup_lt_Some in H. apply N.leb_gt. lia.
Qed.

(** An instruction whose operand is out of the bounds of its pool fails
    before it touches the machine. *)
Lemma pool_fault_fails vm frame rest instr :
  call_stack vm = frame :: rest ->
  operand_in_bounds (bytecode frame) instr = false ->
  vm_execute_instruction vm instr = Some (false, vm).
Proof.
  intros Hcs Hb. unfold vm_execute_instruction, vm_current_frame.
  rewrite Hcs. simpl. unfold operand_in_bounds in Hb.
  destruct (opcode instr); try discriminate Hb;
    apply N.ltb_ge in Hb; apply N.leb_le in Hb; rewrite Hb; reflexivity.
Qed.

(** C6, amended. When the instruction at the program counter of the
    running frame has an operand out of the bounds of its pool, the loop
    of [mjs_vm_execute] stops at once with [MJS_ERROR], the machine in
    the error state and the operand stack as it was. Popping an empty
    operand stack is no fault: [vm_pop] returns [undefined] and leaves
    the machine as it is. *)
Theorem pool_index_fault_sets_error :
  forall (fuel : nat) (vm : mjs_vm_t) (frame : mjs_call_frame_t)
         (rest : list mjs_call_frame_t) (instr : mjs_instruction_t),
    vm_state vm = VM_STATE_RUNNING ->
    call_stack vm = frame :: rest ->
    instructions (bytecode frame) !! N.to_nat (pc frame) = Some instr ->
    operand_in_bounds (bytecode frame) instr = false ->
    (exists vm',
        vm_run (S fuel) vm = Some (MJS_ERROR, vm')
        /\ vm_state vm' = VM_STATE_ERROR
        /\ stack vm' = stack vm)
    /\ (forall vm0, stack vm0 = [] -> vm_pop vm0 = (mjs_value_undefined, vm0)).
Proof.
  intros fuel vm frame rest instr Hst Hcs Hin Hb. split.
  - simpl. rewrite Hst. unfold call_stack_top, vm_current_frame. rewrite Hcs. simpl.
    unfold instruction_count. rewrite (lookup_instruction_in_range _ _ _ Hin), Hin.
    erewrite pool_fault_fails;
      [| unfold vm_count_instruction, vm_set_pc; rewrite Hcs; reflexivity | exact Hb].
    eexists. split; [reflexivity |]. split; [reflexivity |].
    unfold vm_count_instruction, vm_set_pc. rewrite Hcs. reflexivity.
  - intros vm0 H0. unfold vm_pop. rewrite H0. reflexivity.
Qed.

Lemma pool_index_fault_sets_error_witness :
  exists vm',
    vm_run 1 (vm_set_state VM_STATE_RUNNING
                (snd (vm_push_frame (mjs_vm_new fresh_context)
                        (code [Instr OP_LOAD_CONST 0]) 0)))
    = Some (MJS_ERROR, vm')
    /\ vm_state vm' = VM_STATE_ERROR
    /\ stack vm' = [].
Proof.
  exact (proj1 (pool_index_fault_sets_error 0
                  (vm_set_state VM_STATE_RUNNING
                     (snd (vm_push_frame (mjs_vm_new fresh_context)
                             (code [Instr OP_LOAD_CONST 0]) 0)))
                  (MkFrame (code [Instr OP_LOAD_CONST 0]) 0 0 mjs_value_undefined) []
                  (Instr OP_LOAD_CONST 0)
                  eq_refl eq_refl eq_refl eq_refl)).
Defined.

(** ** What a collection leaves alone

    Marking and sweeping write the mark and the generation of headers and
    nothing else of the heap: every payload stays what it was, and so do
    the place of the heap and the number of bytes used. *)

Definition same_bodies (m m' : gmap N cell) : Prop :=
  forall p, body <$> m !! p = body <$> m' !! p.

Lemma same_bodies_refl m : same_bodies m m.
Proof. intros p. reflexivity. Qed.

Lemma same_bodies_trans m1 m2 m3 :
  same_bodies m1 m2 -> same_bodies m2 m3 -> same_bodies m1 m3.
Proof. intros H1 H2 p. rewrite H1. apply H2. Qed.

Lemma same_bodies_insert m p c c' :
  m !! p = Some c -> body c' = body c -> same_bodies m (<[p := c']> m).
Proof.
  intros Hp Hb q. destruct (decide (p = q)) as [<- | Hne].
  - rewrite lookup_insert_eq, Hp. simpl. congruence.
  - rewrite lookup_insert_ne by exact Hne. reflexivity.
Qed.

Lemma same_bodies_alter m p (f : cell -> cell) :
  (forall c, body (f c) = body c) -> same_bodies m (alter f p m).
Proof.
  intros Hf q. destruct (decide (p = q)) as [<- | Hne].
  - rewrite lookup_alter_eq. destruct (m !! p); simpl; [rewrite Hf |]; reflexivity.
  - rewrite lookup_alter_ne by exact Hne. reflexivity.
Qed.

Lemma same_bodies_load m m' p : same_bodies m m' -> load m' p = load m p.
Proof. intros H. unfold load. symmetry. apply H. Qed.

Lemma same_bodies_lookup_none m m' p : same_bodies m m' -> m !! p = None -> m' !! p = None.
Proof.
  intros H Hp. specialize (H p). rewrite Hp in H. simpl in H.
  destruct (m' !! p); [discriminate | reflexivity].
Qed.

(** [g'] has the heap of [g] at the same place, as full, with the same
    payloads, and the configuration of [g]. *)
Definition preserves (g g' : mjs_gc_t) : Prop :=
  heap g' = heap g /\ heap_used g' = heap_used g /\ config g' = config g
  /\ same_bodies (memory g) (memory g').

(** [g'] differs from [g] in fields other than the heap, apart from the
    memory, which [tac] shows to have the same payloads. *)
Ltac preserves_by tac :=
  split; [reflexivity | split; [reflexivity | split; [reflexivity | simpl; tac]]].

Lemma preserves_refl g : preserves g g.
Proof. preserves_by ltac:(apply same_bodies_refl). Qed.

Lemma preserves_trans g1 g2 g3 : preserves g1 g2 -> preserves g2 g3 -> preserves g1 g3.
Proof.
  intros (H1 & H2 & H3 & H4) (K1 & K2 & K3 & K4).
  split; [congruence | split; [congruence | split; [congruence |]]].
  eapply same_bodies_trans; eassumption.
Qed.

Lemma preserves_fold {A} (f : mjs_gc_t -> A -> mjs_gc_t) (l : list A) g :
  (forall g x, preserves g (f g x)) -> preserves g (fold_left f l g).
Proof.
  intros Hf. revert g. induction l as [| x l IH]; intros g; simpl.
  - apply preserves_refl.
  - eapply preserves_trans; [apply Hf | apply IH].
Qed.

Lemma preserves_fold_from {A} (f : mjs_gc_t -> A -> mjs_gc_t) (l : list A) g g0 :
  preserves g g0 -> (forall g x, preserves g (f g x)) -> preserves g (fold_left f l g0).
Proof.
  intros H0 Hf. eapply preserves_trans; [exact H0 | apply preserves_fold, Hf].
Qed.

Lemma preserves_set_memory g m :
  same_bodies (memory g) m -> preserves g (gc_set_memory m g).
Proof. intros H. preserves_by ltac:(exact H). Qed.

Lemma gc_mark_object_fuel_preserves fuel :
  forall g obj, preserves g (gc_mark_object_fuel fuel g obj).
Proof.
  induction fuel as [| fuel IH]; intros g obj; simpl.
  - apply preserves_refl.
  - unfold gc_mark_object_body.
    destruct (obj =? NULL)%N; [apply preserves_refl |].
    destruct (memory g !! obj) as [c |] eqn:Hc; [| apply preserves_refl].
    destruct (mark (header c) =? GC_MARK_WHITE); simpl; [| apply preserves_refl].
    set (g1 := gc_set_gray_stack _ (gc_set_memory _ g)).
    assert (preserves g g1) as H1.
    { preserves_by ltac:(eapply same_bodies_insert; [exact Hc | reflexivity]). }
    eapply preserves_trans; [exact H1 |].
    match goal with
    | |- preserves _ (gc_set_memory (alter _ _ (memory ?x)) ?x) =>
        assert (preserves g1 x) as H2
    end.
    { destruct (type (header c) =? GC_TYPE_STRING); [apply preserves_refl |].
      destruct (type (header c) =? GC_TYPE_OBJECT).
      { destruct (body c); try apply preserves_refl.
        apply preserves_fold_from.
        - destruct (negb (prototype o =? NULL)%N); [apply IH | apply preserves_refl].
        - intros g' prop.
          destruct (negb (key prop =? NULL)%N); [apply IH | apply preserves_refl]. }
      destruct (type (header c) =? GC_TYPE_ARRAY); [apply preserves_refl |].
      destruct (type (header c) =? GC_TYPE_FUNCTION); [| apply preserves_refl].
      destruct (body c); try apply preserves_refl.
      destruct (negb (fn_name f =? NULL)%N); [apply IH | apply preserves_refl]. }
    eapply preserves_trans; [exact H2 |].
    apply preserves_set_memory, same_bodies_alter. reflexivity.
Qed.

Lemma gc_mark_object_preserves g obj : preserves g (gc_mark_object g obj).
Proof. apply gc_mark_object_fuel_preserves. Qed.

Lemma gc_mark_roots_preserves g : preserves g (gc_mark_roots g).
Proof.
  unfold gc_mark_roots. apply preserves_fold. intros g' obj.
  destruct (negb (obj =? NULL)%N); [apply gc_mark_object_preserves | apply preserves_refl].
Qed.

Lemma gc_process_gray_preserves fuel young_only :
  forall g, preserves g (gc_process_gray fuel young_only g).
Proof.
  induction fuel as [| fuel IH]; intros g; simpl; [apply preserves_refl |].
  destruct (gray_stack g) as [| obj rest]; [apply preserves_refl |].
  eapply preserves_trans; [| apply IH].
  match goal with |- preserves _ (if ?b then _ else _) => destruct b end.
  - preserves_by ltac:(apply same_bodies_refl).
  - eapply preserves_trans; [| apply gc_mark_object_preserves].
    preserves_by ltac:(apply same_bodies_refl).
Qed.

Lemma sweep_chain_same_bodies l :
  forall sz st m kept sz' st' m',
    sweep_chain l sz st m = (kept, sz', st', m') -> same_bodies m m'.
Proof.
  induction l as [| obj l IH]; intros sz st m kept sz' st' m' H; simpl in H.
  - inversion H. apply same_bodies_refl.
  - destruct (m !! obj) as [c |] eqn:Hc.
    + destruct (mark (header c) =? GC_MARK_WHITE).
      * eapply IH. exact H.
      * destruct (sweep_chain l sz st (<[obj := cell_set_mark GC_MARK_WHITE c]> m))
          as [[[k s1] s2] m1] eqn:E.
        inversion H; subst.
        eapply same_bodies_trans; [| eapply IH; exact E].
        eapply same_bodies_insert; [exact Hc | reflexivity].
    + destruct (sweep_chain l sz st m) as [[[k s1] s2] m1] eqn:E.
      inversion H; subst. eapply IH. exact E.
Qed.

Lemma sweep_young_preserves g : preserves g (sweep_young g).
Proof.
  unfold sweep_young.
  destruct (sweep_chain _ _ _ _) as [[[k s1] s2] m1] eqn:E.
  preserves_by ltac:(eapply sweep_chain_same_bodies; exact E).
Qed.

Lemma sweep_old_preserves g : preserves g (sweep_old g).
Proof.
  unfold sweep_old.
  destruct (sweep_chain _ _ _ _) as [[[k s1] s2] m1] eqn:E.
  preserves_by ltac:(eapply sweep_chain_same_bodies; exact E).
Qed.

Lemma gc_sweep_preserves g : preserves g (gc_sweep g).
Proof.
  unfold gc_sweep.
  destruct (process_weak_refs _ _ _) as [kept calls].
  eapply preserves_trans; [apply sweep_young_preserves |].
  eapply preserves_trans; [apply sweep_old_preserves |].
  preserves_by ltac:(apply same_bodies_refl).
Qed.

Lemma preserves_step g g' g'' :
  preserves g g' -> heap g'' = heap g' -> heap_used g'' = heap_used g' ->
  config g'' = config g' -> memory g'' = memory g' -> preserves g g''.
Proof.
  intros (H1 & H2 & H3 & H4) K1 K2 K3 K4.
  split; [congruence | split; [congruence | split; [congruence | rewrite K4; exact H4]]].
Qed.

Lemma mjs_gc_collect_preserves g : preserves g (mjs_gc_collect g).
Proof.
  unfold mjs_gc_collect, gc_drain_gray.
  eapply preserves_step
    with (g' := gc_sweep (gc_set_state GC_STATE_SWEEPING
                            (gc_process_gray _ false
                               (gc_mark_roots (gc_set_state GC_STATE_MARKING g))))).
  - eapply preserves_trans; [| apply gc_sweep_preserves].
    eapply preserves_step; [| reflexivity | reflexivity | reflexivity | reflexivity].
    eapply preserves_trans; [| apply gc_process_gray_preserves].
    eapply preserves_trans; [| apply gc_mark_roots_preserves].
    preserves_by ltac:(apply same_bodies_refl).
  - simpl. destruct (compact _); reflexivity.
  - simpl. destruct (compact _); reflexivity.
  - simpl. destruct (compact _); reflexivity.
  - simpl. destruct (compact _); reflexivity.
Qed.

(** ** Allocation *)

(** Every cell of the heap lies below the place of the next one. *)
Definition heap_below (g : mjs_gc_t) : Prop :=
  forall p c, memory g !! p = Some c -> (p < heap g + heap_used g + GC_HEADER_SIZE)%N.

Lemma load_store m p b q :
  load (store p b m) q
  = if decide (p = q) then (match m !! p with Some _ => Some b | None => None end)
    else load m q.
Proof.
  unfold load, store. destruct (m !! p) as [c |] eqn:Hp; case_decide as Hq; subst.
  - rewrite lookup_insert_eq. reflexivity.
  - rewrite lookup_insert_ne by exact Hq. reflexivity.
  - rewrite Hp. reflexivity.
  - reflexivity.
Qed.

Lemma load_store_eq m p b c : m !! p = Some c -> load (store p b m) p = Some b.
Proof. intros H. rewrite load_store, H. case_decide; [reflexivity | contradiction]. Qed.

Lemma load_store_ne m p b q : p <> q -> load (store p b m) q = load m q.
Proof. intros H. rewrite load_store. case_decide; [contradiction | reflexivity]. Qed.

(** A collection leaves the size of the heap as it is. *)
Lemma heap_size_fold {A} (f : mjs_gc_t -> A -> mjs_gc_t) (l : list A) :
  (forall g x, heap_size (f g x) = heap_size g) ->
  forall g, heap_size (fold_left f l g) = heap_size g.
Proof.
  intros Hf. induction l as [| x l IH]; intros g; simpl; [reflexivity |].
  rewrite IH. apply Hf.
Qed.

Lemma gc_mark_object_fuel_heap_size fuel :
  forall g obj, heap_size (gc_mark_object_fuel fuel g obj) = heap_size g.
Proof.
  induction fuel as [| fuel IH]; intros g obj; simpl; [reflexivity |].
  unfold gc_mark_object_body.
  destruct (obj =? NULL)%N; [reflexivity |].
  destruct (memory g !! obj) as [c |]; [| reflexivity].
  destruct (mark (header c) =? GC_MARK_WHITE); simpl; [| reflexivity].
  destruct (type (header c) =? GC_TYPE_STRING); [reflexivity |].
  destruct (type (header c) =? GC_TYPE_OBJECT).
  { destruct (body c); try reflexivity.
    rewrite heap_size_fold.
    - destruct (negb (prototype o =? NULL)%N); [rewrite IH |]; reflexivity.
    - intros g' prop. destruct (negb (key prop =? NULL)%N); [apply IH | reflexivity]. }
  destruct (type (header c) =? GC_TYPE_ARRAY); [reflexivity |].
  destruct (type (header c) =? GC_TYPE_FUNCTION); [| reflexivity].
  destruct (body c); try reflexivity.
  destruct (negb (fn_name f =? NULL)%N); [rewrite IH |]; reflexivity.
Qed.

Lemma gc_process_gray_heap_size fuel young_only :
  forall g, heap_size (gc_process_gray fuel young_only g) = heap_size g.
Proof.
  induction fuel as [| fuel IH]; intros g; simpl; [reflexivity |].
  destruct (gray_stack g) as [| obj rest]; [reflexivity |].
  rewrite IH.
  match goal with |- heap_size (if ?b then _ else _) = _ => destruct b end;
    [reflexivity |].
  unfold gc_mark_object. rewrite gc_mark_object_fuel_heap_size. reflexivity.
Qed.

Lemma gc_sweep_heap_size g : heap_size (gc_sweep g) = heap_size g.
Proof.
  unfold gc_sweep, sweep_old, sweep_young.
  destruct (sweep_chain (objects (young_generation g)) _ _ _) as [[[k s1] s2] m1].
  cbn [young_generation old_generation gc_set_memory gc_set_stats gc_set_young stats memory].
  destruct (sweep_chain _ _ _ _) as [[[k' s1'] s2'] m1'].
  destruct (process_weak_refs _ _ _) as [kept calls]. reflexivity.
Qed.

Lemma mjs_gc_collect_heap_size g : heap_size (mjs_gc_collect g) = heap_size g.
Proof.
  unfold mjs_gc_collect, gc_drain_gray, gc_update_statistics, gc_compact.
  cbv zeta.
  match goal with
  | |- heap_size (gc_set_stats _ (gc_set_stats _ (gc_set_state _ ?x))) = _ =>
      change (heap_size x = heap_size g)
  end.
  match goal with |- heap_size (if ?b then _ else ?y) = _ =>
    transitivity (heap_size y); [destruct b; reflexivity |] end.
  rewrite gc_sweep_heap_size.
  change (heap_size (gc_process_gray
                       (length (gray_stack (gc_mark_roots (gc_set_state GC_STATE_MARKING g)))
                        + size (memory (gc_mark_roots (gc_set_state GC_STATE_MARKING g))))
                       false (gc_mark_roots (gc_set_state GC_STATE_MARKING g)))
          = heap_size g).
  rewrite gc_process_gray_heap_size. unfold gc_mark_roots.
  rewrite heap_size_fold; [reflexivity |].
  intros g' obj. destruct (negb (obj =? NULL)%N); [| reflexivity].
  unfold gc_mark_object. apply gc_mark_object_fuel_heap_size.
Qed.

(** The heap has room for [need] more bytes, headers included, and its
    size is a [size_t]. *)
Definition heap_room (g : mjs_gc_t) (need : N) : Prop :=
  (heap_used g + need <= heap_size g)%N /\ (heap_size g < 2 ^ 64)%N.

Lemma heap_room_less g need need' :
  heap_room g need -> (need' <= need)%N -> heap_room g need'.
Proof. intros [H1 H2] H. split; [lia | exact H2]. Qed.

Lemma size_add_small a b : (a + b < 2 ^ 64)%N -> size_add a b = (a + b)%N.
Proof.
  intros H. unfold size_add, wrap_size_t.
  change (2 ^ 64)%N with 18446744073709551616%N in H.
  rewrite Z.mod_small by (change (2 ^ 64) with 18446744073709551616; lia). lia.
Qed.

(** What [mjs_gc_alloc] returns on a heap that has room: the null
    pointer with the payloads as they were, or the next place of the
    heap, where a new cell is, the other payloads being as they were. *)
Lemma mjs_gc_alloc_spec g sz ty p g' :
  heap_room g (sz + GC_HEADER_SIZE) ->
  mjs_gc_alloc g sz ty = (p, g') ->
  heap g' = heap g
  /\ ((p = NULL /\ preserves g g')
      \/ (p = (heap g + heap_used g + GC_HEADER_SIZE)%N
          /\ heap_used g' = size_add (heap_used g) (size_add sz GC_HEADER_SIZE)
          /\ load (memory g') p = Some PRaw
          /\ (forall q, q <> p -> load (memory g') q = load (memory g) q))).
Proof.
  intros [Hroom Hsize]. unfold mjs_gc_alloc. destruct (sz =? 0)%N.
  { intros [= <- <-]. split; [reflexivity |]. left. split; [reflexivity | apply preserves_refl]. }
  cbv beta zeta.
  set (g1 := if gc_should_collect g then mjs_gc_collect g else g).
  assert (preserves g g1 /\ heap_size g1 = heap_size g) as [P1 S1].
  { subst g1. destruct (gc_should_collect g).
    - split; [apply mjs_gc_collect_preserves | apply mjs_gc_collect_heap_size].
    - split; [apply preserves_refl | reflexivity]. }
  assert (size_add (heap_used g) (size_add sz GC_HEADER_SIZE)
          = (heap_used g + (sz + GC_HEADER_SIZE))%N) as Hsum.
  { rewrite (size_add_small sz) by lia. apply size_add_small. lia. }
  assert ((heap_size g1 <? size_add (heap_used g1) (size_add sz GC_HEADER_SIZE))%N = false)
    as ->.
  { destruct P1 as (_ & Q2 & _). rewrite Q2, S1, Hsum. apply N.ltb_ge. exact Hroom. }
  assert ((heap_size g1 <? size_add (heap_used g1) (size_add sz GC_HEADER_SIZE))%N = false)
    as ->.
  { destruct P1 as (_ & Q2 & _). rewrite Q2, S1, Hsum. apply N.ltb_ge. exact Hroom. }
  clearbody g1. destruct P1 as (Q1 & Q2 & Qc & Q3).
  intros [= <- <-]. simpl.
  split; [exact Q1 |]. right.
  split; [congruence |]. split; [rewrite Q2; reflexivity |].
  split.
  - unfold load. rewrite Q1, Q2, lookup_insert_eq. reflexivity.
  - intros q Hq. unfold load. rewrite lookup_insert_ne by congruence.
    symmetry. apply Q3.
Qed.

(** On a heap that has room the size of the heap stays, an allocation of
    at least one byte gives an address, and the bytes used grow by the
    size and the header. *)
Lemma mjs_gc_alloc_room g sz ty p g' :
  heap_room g (sz + GC_HEADER_SIZE) ->
  mjs_gc_alloc g sz ty = (p, g') ->
  heap_size g' = heap_size g
  /\ ((0 < sz)%N -> p <> NULL /\ heap_used g' = (heap_used g + (sz + GC_HEADER_SIZE))%N).
Proof.
  intros [Hroom Hsize]. unfold mjs_gc_alloc. destruct (sz =? 0)%N eqn:Hz.
  { intros [= <- <-]. split; [reflexivity |]. apply N.eqb_eq in Hz. lia. }
  cbv beta zeta.
  set (g1 := if gc_should_collect g then mjs_gc_collect g else g).
  assert (preserves g g1 /\ heap_size g1 = heap_size g) as [P1 S1].
  { subst g1. destruct (gc_should_collect g).
    - split; [apply mjs_gc_collect_preserves | apply mjs_gc_collect_heap_size].
    - split; [apply preserves_refl | reflexivity]. }
  assert (size_add (heap_used g) (size_add sz GC_HEADER_SIZE)
          = (heap_used g + (sz + GC_HEADER_SIZE))%N) as Hsum.
  { rewrite (size_add_small sz) by lia. apply size_add_small. lia. }
  assert ((heap_size g1 <? size_add (heap_used g1) (size_add sz GC_HEADER_SIZE))%N = false)
    as ->.
  { destruct P1 as (_ & Q2 & _). rewrite Q2, S1, Hsum. apply N.ltb_ge. exact Hroom. }
  assert ((heap_size g1 <? size_add (heap_used g1) (size_add sz GC_HEADER_SIZE))%N = false)
    as ->.
  { destruct P1 as (_ & Q2 & _). rewrite Q2, S1, Hsum. apply N.ltb_ge. exact Hroom. }
  clearbody g1. destruct P1 as (Q1 & Q2 & Qc & Q3).
  intros [= <- <-]. simpl.
  split; [exact S1 |]. intros _.
  split; [unfold GC_HEADER_SIZE, NULL; lia |]. rewrite Q2. exact Hsum.
Qed.

Lemma heap_below_fresh g p :
  heap_below g -> p = (heap g + heap_used g + GC_HEADER_SIZE)%N -> memory g !! p = None.
Proof.
  intros Hb Hp. destruct (memory g !! p) as [c |] eqn:E; [| reflexivity].
  apply Hb in E. lia.
Qed.

Lemma load_some_ne g p q b :
  heap_below g -> p = (heap g + heap_used g + GC_HEADER_SIZE)%N ->
  load (memory g) q = Some b -> q <> p.
Proof.
  intros Hb Hp Hq Heq. unfold load in Hq.
  rewrite Heq, (heap_below_fresh g p Hb Hp) in Hq. discriminate.
Qed.

(** What [mjs_string_new] returns: the null pointer, or the address of a
    new string with the bytes asked for, which is not interned. The
    context keeps its globals and its intern table, and the payloads that
    were on the heap. *)
Lemma mjs_string_new_spec ctx data len str ctx' :
  heap_room (ctx_gc ctx) (sizeof_mjs_string_t + GC_HEADER_SIZE) ->
  mjs_string_new ctx data len = (str, ctx') ->
  global_object ctx' = global_object ctx
  /\ string_table (runtime ctx') = string_table (runtime ctx)
  /\ heap (ctx_gc ctx') = heap (ctx_gc ctx)
  /\ ((str = NULL /\ preserves (ctx_gc ctx) (ctx_gc ctx'))
      \/ (str = (heap (ctx_gc ctx) + heap_used (ctx_gc ctx) + GC_HEADER_SIZE)%N
          /\ heap_used (ctx_gc ctx')
             = size_add (heap_used (ctx_gc ctx)) (size_add sizeof_mjs_string_t GC_HEADER_SIZE)
          /\ load_string (ctx_memory ctx') str
             = Some (MkString (bytes data len) (size_add len 1) false)
          /\ (forall q, q <> str -> load (ctx_memory ctx') q = load (ctx_memory ctx) q))).
Proof.
  intros Hroom. unfold mjs_string_new.
  destruct (mjs_gc_alloc (ctx_gc ctx) sizeof_mjs_string_t GC_TYPE_STRING) as [p g] eqn:E.
  apply mjs_gc_alloc_spec in E; [| exact Hroom].
  destruct E as (Hh & [[-> Hp] | (Hp & Hu & Hl & Ho)]).
  - simpl. intros [= <- <-]. repeat split; try assumption. left. split; [reflexivity | exact Hp].
  - assert ((p =? NULL)%N = false) as ->.
    { apply N.eqb_neq. subst p. unfold GC_HEADER_SIZE, NULL. lia. }
    intros [= <- <-]. repeat split; try assumption. right.
    split; [exact Hp |]. split; [exact Hu |].
    unfold ctx_memory, ctx_gc, load_string. simpl.
    assert (exists c, memory g !! p = Some c) as [c Hc].
    { unfold load in Hl. destruct (memory g !! p) as [c |]; [eauto | discriminate]. }
    split.
    + rewrite (load_store_eq _ _ _ _ Hc). reflexivity.
    + intros q Hq. rewrite load_store_ne by congruence. apply Ho. exact Hq.
Qed.

(** On a heap that has room [mjs_string_new] gives a string, and the
    heap has 88 bytes less room. *)
Lemma mjs_string_new_room ctx data len str ctx' :
  heap_room (ctx_gc ctx) (sizeof_mjs_string_t + GC_HEADER_SIZE) ->
  mjs_string_new ctx data len = (str, ctx') ->
  str <> NULL
  /\ heap_size (ctx_gc ctx') = heap_size (ctx_gc ctx)
  /\ heap_used (ctx_gc ctx')
     = (heap_used (ctx_gc ctx) + (sizeof_mjs_string_t + GC_HEADER_SIZE))%N.
Proof.
  intros Hroom. unfold mjs_string_new.
  destruct (mjs_gc_alloc (ctx_gc ctx) sizeof_mjs_string_t GC_TYPE_STRING) as [p g] eqn:E.
  destruct (mjs_gc_alloc_room _ _ _ _ _ Hroom E) as [Hs Hp].
  destruct (Hp ltac:(unfold sizeof_mjs_string_t; lia)) as [Hn Hu].
  apply N.eqb_neq in Hn. rewrite Hn. intros [= <- <-].
  apply N.eqb_neq in Hn. split; [exact Hn |]. split; [exact Hs | exact Hu].
Qed.

Lemma heap_room_no_wrap g need :
  heap_room g need -> Z.of_N (heap_used g) + Z.of_N need < 2 ^ 64.
Proof.
  intros [H1 H2]. lia.
Qed.

(** Room that is left once [used] bytes of it are taken. *)
Lemma heap_room_step g g' need used :
  heap_room g need ->
  heap_size g' = heap_size g ->
  (heap_used g' <= heap_used g + used)%N ->
  (used <= need)%N ->
  heap_room g' (need - used).
Proof. intros [H1 H2] Hs Hu Hn. split; [lia | rewrite Hs; exact H2]. Qed.

(** ** Interning *)

Lemma length_substring_0 n s :
  (n <= String.length s)%nat -> String.length (substring 0 n s) = n.
Proof.
  revert s. induction n as [| n IH]; intros [| c s] H; simpl in *;
    try reflexivity; try lia.
  rewrite IH by lia. reflexivity.
Qed.

Lemma str_length_bytes data len cap i :
  (len <= N.of_nat (String.length data))%N ->
  str_length (MkString (bytes data len) cap i) = len.
Proof.
  intros H. unfold str_length, bytes. simpl.
  rewrite length_substring_0 by lia. lia.
Qed.

Lemma intern_match_new m data len str cap i :
  (len <= N.of_nat (String.length data))%N ->
  load_string m str = Some (MkString (bytes data len) cap i) ->
  intern_match m data len str = true.
Proof.
  intros Hlen Hs. unfold intern_match. rewrite Hs.
  rewrite str_length_bytes by exact Hlen.
  rewrite N.eqb_refl, String.eqb_refl. reflexivity.
Qed.


(** The two ways [mjs_string_intern] returns: with the first string of
    the table that has the bytes asked for, the context being left as it
    is; or, when the table has none, with what [mjs_string_new] gave, put
    at the head of the table when it is not the null pointer. *)
Lemma mjs_string_intern_spec ctx data len h ctx' :
  heap_room (ctx_gc ctx) 88 ->
  mjs_string_intern ctx data len = (h, ctx') ->
  (List.find (intern_match (ctx_memory ctx) data len) (string_table (runtime ctx)) = Some h
   /\ ctx' = ctx)
  \/ (List.find (intern_match (ctx_memory ctx) data len) (string_table (runtime ctx)) = None
      /\ heap (ctx_gc ctx') = heap (ctx_gc ctx)
      /\ ((h = NULL
           /\ string_table (runtime ctx') = string_table (runtime ctx)
           /\ preserves (ctx_gc ctx) (ctx_gc ctx'))
          \/ (h = (heap (ctx_gc ctx) + heap_used (ctx_gc ctx) + GC_HEADER_SIZE)%N
              /\ string_table (runtime ctx') = h :: string_table (runtime ctx)
              /\ heap_used (ctx_gc ctx')
                 = size_add (heap_used (ctx_gc ctx))
                     (size_add sizeof_mjs_string_t GC_HEADER_SIZE)
              /\ load_string (ctx_memory ctx') h
                 = Some (MkString (bytes data len) (size_add len 1) true)
              /\ (forall q, q <> h -> load (ctx_memory ctx') q = load (ctx_memory ctx) q)))).
Proof.
  intros Hroom. unfold mjs_string_intern.
  destruct (List.find _ _) as [current |] eqn:Hfind.
  { intros [= <- <-]. left. split; reflexivity. }
  destruct (mjs_string_new ctx data len) as [str ctx1] eqn:Hnew.
  apply mjs_string_new_spec in Hnew; [| exact Hroom].
  destruct Hnew as (Hg & Ht & Hh & [[-> Hp] | (Hstr & Hu & Hl & Ho)]).
  - simpl. intros [= <- <-]. right. split; [reflexivity |]. split; [exact Hh |].
    left. split; [reflexivity |]. split; [exact Ht | exact Hp].
  - assert ((str =? NULL)%N = false) as ->.
    { apply N.eqb_neq. subst str. unfold GC_HEADER_SIZE, NULL. lia. }
    rewrite Hl. intros [= <- <-]. right. split; [reflexivity |].
    split; [exact Hh |]. right.
    split; [exact Hstr |]. split; [simpl; rewrite Ht; reflexivity |].
    split; [exact Hu |].
    assert (exists c, ctx_memory ctx1 !! str = Some c) as [c Hc].
    { unfold load_string, load in Hl.
      destruct (ctx_memory ctx1 !! str) as [c |]; [eauto | discriminate]. }
    split.
    + unfold load_string. change (ctx_memory (ctx_set_runtime ?r ?c)) with (memory (gc r)).
      simpl. rewrite (load_store_eq _ _ _ _ Hc). reflexivity.
    + intros q Hq. change (ctx_memory (ctx_set_runtime ?r ?c)) with (memory (gc r)).
      simpl. rewrite load_store_ne by congruence. apply Ho. exact Hq.
Qed.


(** Interning the same bytes again returns the same string and changes
    nothing. *)
Lemma mjs_string_intern_again ctx data len h ctx' :
  heap_room (ctx_gc ctx) 88 ->
  mjs_string_intern ctx data len = (h, ctx') ->
  h <> NULL ->
  (len <= N.of_nat (String.length data))%N ->
  mjs_string_intern ctx' data len = (h, ctx').
Proof.
  intros Hroom H Hh Hlen. apply mjs_string_intern_spec in H; [| exact Hroom].
  destruct H as [[Hf ->] | (Hf & _ & [(-> & _) | (Hstr & Ht & _ & Hl & _)])].
  - unfold mjs_string_intern. rewrite Hf. reflexivity.
  - contradiction.
  - unfold mjs_string_intern. rewrite Ht. simpl.
    rewrite (intern_match_new _ _ _ _ _ _ Hlen Hl). reflexivity.
Qed.

Lemma find_ext {A} (f g : A -> bool) (l : list A) :
  (forall x, f x = g x) -> List.find f l = List.find g l.
Proof.
  intros H. induction l as [| x l IH]; simpl; [reflexivity |].
  rewrite H, IH. reflexivity.
Qed.


(** A heap that gets one cell at its next place, with the count of bytes
    used moved on without wrapping, still has every cell below the next
    place. *)
Lemma heap_below_extend g g' p n :
  heap_below g ->
  heap g' = heap g ->
  p = (heap g + heap_used g + GC_HEADER_SIZE)%N ->
  heap_used g' = size_add (heap_used g) n ->
  (0 < n)%N ->
  Z.of_N (heap_used g) + Z.of_N n < 2 ^ 64 ->
  (forall q, q <> p -> load (memory g') q = load (memory g) q) ->
  heap_below g'.
Proof.
  intros Hb Hh Hp Hu Hn Hw Ho q c Hq.
  assert (heap_used g' = (heap_used g + n)%N) as Hu'.
  { rewrite Hu. unfold size_add, wrap_size_t. rewrite Z.mod_small by lia. lia. }
  rewrite Hh, Hu'. destruct (decide (q = p)) as [-> | Hne]; [lia |].
  specialize (Ho q Hne). unfold load in Ho. rewrite Hq in Ho. simpl in Ho.
  destruct (memory g !! q) as [c0 |] eqn:E; [| discriminate].
  apply Hb in E. lia.
Qed.










(** The context before [mjs_new_context] allocates the global object. *)
Definition bare_context : mjs_context_t :=
  MkContext fresh_runtime mjs_undefined mjs_undefined None false.



(** ** Properties of objects *)

Lemma c_str_idem s : c_str (c_str s) = c_str s.
Proof.
  induction s as [| c r IH]; [reflexivity |].
  simpl. destruct (Ascii.eqb c NUL) eqn:E; [reflexivity |].
  simpl. rewrite E, IH. reflexivity.
Qed.

Lemma substring_c_str s : substring 0 (String.length (c_str s)) s = c_str s.
Proof.
  induction s as [| c r IH]; [reflexivity |].
  simpl. destruct (Ascii.eqb c NUL); [reflexivity |].
  simpl. rewrite IH. reflexivity.
Qed.

(** The key [mjs_string_new(ctx, key, strlen(key))] makes compares equal
    to [key]. *)
Lemma streq_bytes_strlen k : MJS_STREQ (bytes k (strlen k)) k = true.
Proof.
  unfold MJS_STREQ, bytes, strlen. rewrite Nat2N.id, substring_c_str, c_str_idem.
  apply String.eqb_refl.
Qed.

Lemma find_index_some {A} (f : A -> bool) l i :
  find_index f l = Some i -> exists x, l !! i = Some x /\ f x = true.
Proof.
  revert i. induction l as [| y r IH]; intros i H; [discriminate |].
  simpl in H. destruct (f y) eqn:E.
  - injection H as <-. exists y. split; [reflexivity | exact E].
  - destruct (find_index f r) as [j |]; [| discriminate].
    injection H as <-. destruct (IH j eq_refl) as (x & Hx & Hf). exists x. split; assumption.
Qed.

Lemma find_index_insert {A} (f : A -> bool) l i x :
  find_index f l = Some i -> f x = true -> find_index f (<[i := x]> l) = Some i.
Proof.
  revert i. induction l as [| y r IH]; intros i H Hx; [discriminate |].
  simpl in H. destruct (f y) eqn:E.
  - injection H as <-. simpl. rewrite Hx. reflexivity.
  - destruct (find_index f r) as [j |] eqn:Ej; [| discriminate].
    injection H as <-. simpl. rewrite E, (IH j eq_refl Hx). reflexivity.
Qed.

Lemma find_index_ext {A} (f f' : A -> bool) l :
  (forall x, f x = f' x) -> find_index f l = find_index f' l.
Proof.
  intros H. induction l as [| y r IH]; [reflexivity |].
  simpl. rewrite H, IH. reflexivity.
Qed.

Lemma find_index_find {A} (f : A -> bool) l i x :
  find_index f l = Some i -> l !! i = Some x -> List.find f l = Some x.
Proof.
  revert i. induction l as [| y r IH]; intros i H Hx; [discriminate |].
  simpl in H. simpl. destruct (f y).
  - injection H as <-. exact Hx.
  - destruct (find_index f r) as [j |]; [| discriminate].
    injection H as <-. apply (IH j eq_refl Hx).
Qed.

Lemma find_alter {A} (f : A -> bool) (g : A -> A) l i :
  find_index f l = Some i -> (forall x, f (g x) = f x) ->
  List.find f (alter g i l) = g <$> l !! i.
Proof.
  revert i. induction l as [| y r IH]; intros i H Hg; [discriminate |].
  simpl in H. destruct (f y) eqn:E.
  - injection H as <-. simpl. rewrite Hg, E. reflexivity.
  - destruct (find_index f r) as [j |] eqn:Ej; [| discriminate].
    injection H as <-. simpl. rewrite E. apply (IH j eq_refl Hg).
Qed.

(** Writing an object over an object moves no string. *)
Lemma load_string_store_object m obj o o' q :
  load_object m obj = Some o ->
  load_string (store obj (PObject o') m) q = load_string m q.
Proof.
  intros H. unfold load_string. rewrite load_store. case_decide as Hq; [| reflexivity].
  subst q. unfold load_object in H. unfold load in *.
  destruct (m !! obj) as [c |]; [| discriminate]. simpl in *.
  destruct (body c); try discriminate. reflexivity.
Qed.

Lemma key_matches_store_object m obj o o' k prop :
  load_object m obj = Some o ->
  key_matches (store obj (PObject o') m) k prop = key_matches m k prop.
Proof.
  intros H. unfold key_matches. rewrite (load_string_store_object m obj o o' _ H).
  reflexivity.
Qed.

Lemma load_object_store m obj o o' :
  load_object m obj = Some o -> load_object (store obj (PObject o') m) obj = Some o'.
Proof.
  intros H. unfold load_object in *. unfold load in H.
  destruct (m !! obj) as [c |] eqn:E; [| discriminate].
  rewrite (load_store_eq m obj (PObject o') c E). reflexivity.
Qed.

Lemma get_property_store m obj o o' k :
  load_object m obj = Some o ->
  mjs_object_get_property (store obj (PObject o') m) obj k
  = find_index (key_matches m k) (properties o').
Proof.
  intros H. unfold mjs_object_get_property.
  rewrite (load_object_store m obj o o' H).
  apply find_index_ext. intros x. apply (key_matches_store_object m obj o o' k x H).
Qed.

(** [mjs_object_set_property] on a key the object has, writable. *)
Lemma set_property_existing m obj o k v i p :
  load_object m obj = Some o ->
  mjs_object_get_property m obj k = Some i ->
  properties o !! i = Some p -> writable p = true ->
  mjs_object_get_property_value (mjs_object_set_property m obj k v) obj k = v.
Proof.
  intros Ho Hg Hp Hw.
  unfold mjs_object_set_property. rewrite Ho, Hg, Hp, Hw.
  unfold mjs_object_get_property_value, property_at.
  rewrite (get_property_store m obj o _ k Ho), (load_object_store m obj o _ Ho).
  cbn [properties].
  assert (find_index (key_matches m k) (properties o) = Some i) as Hf.
  { unfold mjs_object_get_property in Hg. rewrite Ho in Hg. exact Hg. }
  destruct (find_index_some _ _ _ Hf) as (x & Hx & Hk).
  assert (x = p) as -> by congruence.
  rewrite (find_index_insert _ _ _ (prop_set_value v p) Hf) by exact Hk.
  rewrite list_lookup_insert_eq by (eapply lookup_lt_Some; exact Hp).
  reflexivity.
Qed.

(** [mjs_object_set_property] on a key the object has not: the new
    property is the head of the chain, with a null key, and no lookup of
    the key finds it. *)
Lemma set_property_fresh m obj o k v :
  load_object m obj = Some o ->
  mjs_object_get_property m obj k = None ->
  load_object (mjs_object_set_property m obj k v) obj
  = Some (MkObject (MkProperty NULL v true true true :: properties o) (prototype o)
            (extensible o) (size_add (property_count o) 1))
  /\ mjs_object_get_property (mjs_object_set_property m obj k v) obj k = None
  /\ mjs_object_get_property_value (mjs_object_set_property m obj k v) obj k
     = mjs_value_undefined.
Proof.
  intros Ho Hg.
  assert (mjs_object_get_property (mjs_object_set_property m obj k v) obj k = None) as Hn.
  { unfold mjs_object_set_property. rewrite Ho, Hg.
    rewrite (get_property_store m obj o _ k Ho). cbn [properties find_index].
    unfold key_matches at 1. cbn [key]. rewrite N.eqb_refl. cbn [negb andb].
    unfold mjs_object_get_property in Hg. rewrite Ho in Hg. rewrite Hg. reflexivity. }
  split; [| split; [exact Hn |]].
  - unfold mjs_object_set_property. rewrite Ho, Hg. apply (load_object_store m obj o _ Ho).
  - unfold mjs_object_get_property_value. rewrite Hn. reflexivity.
Qed.

(** What both functions that make their own key do on a key the object
    has not: once [mjs_string_new] has given the key, the property is
    the head of the chain and a lookup of the key finds it. *)
Lemma new_key_is_found ctx ctx1 obj o k kp v w e c :
  heap_below (ctx_gc ctx) ->
  heap_room (ctx_gc ctx) 88 ->
  load_object (ctx_memory ctx) obj = Some o ->
  mjs_string_new ctx k (strlen k) = (kp, ctx1) ->
  kp <> NULL ->
  load_object (ctx_memory ctx1) obj = Some o
  /\ forall pt ex n,
       let o' := MkObject (MkProperty kp v w e c :: properties o) pt ex n in
       let m' := store obj (PObject o') (ctx_memory ctx1) in
       load_object m' obj = Some o'
       /\ key_matches m' k (MkProperty kp v w e c) = true.
Proof.
  intros Hb Hroom Ho Hs Hk.
  destruct (mjs_string_new_spec _ _ _ _ _ Hroom Hs)
    as (_ & _ & _ & [[-> _] | (Hkp & _ & Hl & Hq)]); [contradiction |].
  assert (obj <> kp) as Hne.
  { unfold load_object in Ho.
    destruct (load (ctx_memory ctx) obj) as [b |] eqn:E; [| discriminate].
    apply (load_some_ne (ctx_gc ctx) kp obj b Hb Hkp E). }
  assert (load_object (ctx_memory ctx1) obj = Some o) as Ho1.
  { unfold load_object. rewrite (Hq obj Hne). exact Ho. }
  split; [exact Ho1 |]. intros pt ex n o' m'. split.
  - apply (load_object_store _ _ o _ Ho1).
  - subst m'. rewrite (key_matches_store_object _ _ o _ _ _ Ho1).
    unfold key_matches. cbn [key]. rewrite Hl. cbn [str_data].
    rewrite streq_bytes_strlen. apply N.eqb_neq in Hk. rewrite Hk. reflexivity.
Qed.

(** [mjs_object_define_property] on a key an extensible object has not,
    on a heap with room for the key. *)
Lemma define_property_fresh ctx obj o k v w e c :
  heap_below (ctx_gc ctx) ->
  heap_room (ctx_gc ctx) 88 ->
  load_object (ctx_memory ctx) obj = Some o ->
  mjs_object_get_property (ctx_memory ctx) obj k = None ->
  extensible o = true ->
  fst (mjs_object_define_property ctx obj k v w e c) = MJS_OK
  /\ mjs_object_get_property_value
       (ctx_memory (snd (mjs_object_define_property ctx obj k v w e c))) obj k = v.
Proof.
  intros Hb Hroom Ho Hg He. unfold mjs_object_define_property. rewrite Ho, Hg, He.
  cbn [negb].
  destruct (mjs_string_new ctx k (strlen k)) as [kp ctx1] eqn:Hs.
  destruct (mjs_string_new_room _ _ _ _ _ Hroom Hs) as (Hk & _).
  destruct (new_key_is_found ctx ctx1 obj o k kp v w e c Hb Hroom Ho Hs Hk) as (Ho1 & Hnew).
  apply N.eqb_neq in Hk. rewrite Hk, Ho1. cbn [fst snd]. split; [reflexivity |].
  destruct (Hnew (prototype o) (extensible o) (size_add (property_count o) 1))
    as (Hl & Hm).
  change (ctx_memory (ctx_set_memory ?m _)) with m.
  unfold mjs_object_get_property_value, mjs_object_get_property, property_at.
  rewrite Hl. cbn [properties find_index]. rewrite Hm. reflexivity.
Qed.

(** [mjs_context_set_variable] then [mjs_context_get_variable], on a
    heap with room for the key of a new global. *)
Lemma set_variable_get_variable ctx global name v :
  heap_below (ctx_gc ctx) ->
  heap_room (ctx_gc ctx) 88 ->
  load_object (ctx_memory ctx) (union_object (global_object ctx)) = Some global ->
  fst (mjs_context_set_variable ctx name v) = true
  /\ mjs_context_get_variable (snd (mjs_context_set_variable ctx name v)) name = (true, v).
Proof.
  intros Hb Hroom Ho. unfold mjs_context_set_variable. rewrite Ho.
  destruct (find_index (key_matches (ctx_memory ctx) name) (properties global))
    as [i |] eqn:Hf.
  - cbn [fst snd]. split; [reflexivity |].
    unfold mjs_context_get_variable.
    change (ctx_memory (ctx_set_memory ?m _)) with m.
    change (global_object (ctx_set_memory _ ?c)) with (global_object c).
    rewrite (load_object_store _ _ global _ Ho). cbn [properties].
    rewrite (find_ext _ (key_matches (ctx_memory ctx) name)).
    + rewrite (find_alter _ _ _ _ Hf) by reflexivity.
      destruct (find_index_some _ _ _ Hf) as (x & -> & _). reflexivity.
    + intros x. apply (key_matches_store_object _ _ global _ _ _ Ho).
  - destruct (mjs_string_new ctx name (strlen name)) as [kp ctx1] eqn:Hs.
    destruct (mjs_string_new_room _ _ _ _ _ Hroom Hs) as (Hk & _).
    destruct (new_key_is_found ctx ctx1 _ global name kp v true true true Hb Hroom Ho Hs Hk)
      as (Ho1 & Hnew).
    assert (global_object ctx1 = global_object ctx) as Hgo
        by apply (mjs_string_new_spec _ _ _ _ _ Hroom Hs).
    rewrite Ho1. cbn [fst snd]. split; [reflexivity |].
    destruct (Hnew (prototype global) (extensible global)
                (size_add (property_count global) 1)) as (Hl & Hm).
    unfold mjs_context_get_variable.
    change (ctx_memory (ctx_set_memory ?m _)) with m.
    change (global_object (ctx_set_memory _ ?c)) with (global_object c).
    rewrite Hgo, Hl. cbn [properties List.find]. rewrite Hm. reflexivity.
Qed.

(** [heap_below] can be decided by running over the cells. *)
Lemma heap_below_check g :
  bool_decide (map_Forall (fun (p : N) (_ : cell) =>
                 (p < heap g + heap_used g + GC_HEADER_SIZE)%N) (memory g)) = true ->
  heap_below g.
Proof. intros H. apply bool_decide_eq_true_1 in H. exact H. Qed.

(** C10. For an object [obj] of the heap, a key [k] and a value [v]:
    when [obj] has a writable property named [k],
    [mjs_object_set_property] stores [v] in it and
    [mjs_object_get_property_value] then returns [v]; when [obj] has no
    property named [k], [mjs_object_set_property] puts at the head of the
    chain a property whose key is the null pointer, which no lookup of
    [k] finds, so [mjs_object_get_property_value] still returns
    undefined. On an extensible [obj], [mjs_object_define_property] of
    the fresh key returns [MJS_OK] and makes a property that
    [mjs_object_get_property_value] reads back; on the global object,
    [mjs_context_set_variable] returns true and
    [mjs_context_get_variable] reads [v] back. The heap is one whose
    cells are below its next place and which has room for the key
    string, 88 bytes, so that it does not grow. *)
Theorem set_property_fresh_key_is_not_retrievable :
  forall (ctx : mjs_context_t) (obj : ptr) (o : mjs_object_t) (k : string)
         (v : mjs_value_t),
    heap_below (ctx_gc ctx) ->
    heap_room (ctx_gc ctx) 88 ->
    load_object (ctx_memory ctx) obj = Some o ->
    (forall i p,
        mjs_object_get_property (ctx_memory ctx) obj k = Some i ->
        properties o !! i = Some p -> writable p = true ->
        mjs_object_get_property_value
          (mjs_object_set_property (ctx_memory ctx) obj k v) obj k = v)
    /\ (mjs_object_get_property (ctx_memory ctx) obj k = None ->
        load_object (mjs_object_set_property (ctx_memory ctx) obj k v) obj
        = Some (MkObject (MkProperty NULL v true true true :: properties o)
                  (prototype o) (extensible o) (size_add (property_count o) 1))
        /\ mjs_object_get_property
             (mjs_object_set_property (ctx_memory ctx) obj k v) obj k = None
        /\ mjs_object_get_property_value
             (mjs_object_set_property (ctx_memory ctx) obj k v) obj k
           = mjs_value_undefined
        /\ forall w e c,
             extensible o = true ->
             fst (mjs_object_define_property ctx obj k v w e c) = MJS_OK
             /\ mjs_object_get_property_value
                  (ctx_memory (snd (mjs_object_define_property ctx obj k v w e c)))
                  obj k = v)
    /\ (union_object (global_object ctx) = obj ->
        fst (mjs_context_set_variable ctx k v) = true
        /\ mjs_context_get_variable (snd (mjs_context_set_variable ctx k v)) k
           = (true, v)).
Proof.
  intros ctx obj o k v Hb Hroom Ho. split; [| split].
  - intros i p Hg Hp Hw. exact (set_property_existing _ _ _ _ _ _ _ Ho Hg Hp Hw).
  - intros Hg.
    destruct (set_property_fresh _ _ _ k v Ho Hg) as (F1 & F2 & F3).
    split; [exact F1 |]. split; [exact F2 |]. split; [exact F3 |].
    intros w e c He. exact (define_property_fresh _ _ _ _ _ w e c Hb Hroom Ho Hg He).
  - intros Hu. subst obj. exact (set_variable_get_variable _ _ _ _ Hb Hroom Ho).
Qed.

(** The global object of the fresh context. *)
Definition fresh_global : ptr := union_object (global_object fresh_context).

Lemma set_property_fresh_key_is_not_retrievable_witness :
  mjs_object_get_property_value
    (mjs_object_set_property (ctx_memory fresh_context) fresh_global "x"
       (mjs_value_number 1)) fresh_global "x"
  = mjs_value_undefined
  /\ (fst (mjs_object_define_property fresh_context fresh_global "x"
             (mjs_value_number 1) true true true) = MJS_OK
      /\ mjs_object_get_property_value
           (ctx_memory (snd (mjs_object_define_property fresh_context fresh_global "x"
                               (mjs_value_number 1) true true true)))
           fresh_global "x"
         = mjs_value_number 1)
  /\ mjs_context_get_variable
       (snd (mjs_context_set_variable fresh_context "x" (mjs_value_number 1))) "x"
     = (true, mjs_value_number 1).
Proof.
  assert (heap_below (ctx_gc fresh_context)) as Hb.
  { apply heap_below_check. vm_compute. reflexivity. }
  assert (heap_room (ctx_gc fresh_context) 88) as Hr.
  { split; vm_compute; [discriminate | reflexivity]. }
  assert (load_object (ctx_memory fresh_context) fresh_global
          = Some (MkObject [] NULL true 0)) as Ho.
  { vm_compute. reflexivity. }
  assert (mjs_object_get_property (ctx_memory fresh_context) fresh_global "x" = None)
    as Hg.
  { vm_compute. reflexivity. }
  pose proof (set_property_fresh_key_is_not_retrievable fresh_context fresh_global
                (MkObject [] NULL true 0) "x" (mjs_value_number 1) Hb Hr Ho) as H.
  destruct H as (_ & Hfresh & Hvar).
  split; [| split].
  - exact (proj1 (proj2 (proj2 (Hfresh Hg)))).
  - exact (proj2 (proj2 (proj2 (Hfresh Hg))) true true true eq_refl).
  - exact (proj2 (Hvar eq_refl)).
Defined.

(** ** Marking *)

(** Marking a white array turns it grey, pushes it on the grey stack and
    turns it black; it reads no element and changes no other cell. *)
Lemma gc_mark_object_array g arr c :
  arr <> NULL -> memory g !! arr = Some c ->
  mark (header c) = GC_MARK_WHITE -> type (header c) = GC_TYPE_ARRAY ->
  gray_stack (gc_mark_object g arr) = arr :: gray_stack g
  /\ memory (gc_mark_object g arr) = <[arr := cell_set_mark GC_MARK_BLACK c]> (memory g).
Proof.
  intros Hn Hc Hm Ht. unfold gc_mark_object. cbn [gc_mark_object_fuel].
  unfold gc_mark_object_body. apply N.eqb_neq in Hn. rewrite Hn, Hc, Hm, Ht.
  change (GC_MARK_WHITE =? GC_MARK_WHITE) with true.
  change (GC_TYPE_ARRAY =? GC_TYPE_STRING) with false.
  change (GC_TYPE_ARRAY =? GC_TYPE_OBJECT) with false.
  change (GC_TYPE_ARRAY =? GC_TYPE_ARRAY) with true.
  cbn. split; [reflexivity |]. rewrite alter_insert_eq. reflexivity.
Qed.

(** *** The fuel of [gc_mark_object]

    A call goes past the test of the mark only on a white cell, which it
    turns grey before it calls itself, and no call turns a cell white:
    the calls nested in one another are about different cells, all white
    at the start. So more fuel than there are cells changes nothing. *)

(** The addresses [ws] include every white cell of [g]. *)
Definition covers (ws : list ptr) (g : mjs_gc_t) : Prop :=
  forall p c, memory g !! p = Some c -> mark (header c) = GC_MARK_WHITE -> In p ws.

Lemma covers_insert ws g p c x :
  covers ws g -> mark (header c) <> GC_MARK_WHITE ->
  memory x = <[p := c]> (memory g) -> covers (remove N.eq_dec p ws) x.
Proof.
  intros Hc Hm Hx q c' Hq Hw. rewrite Hx in Hq.
  destruct (decide (p = q)) as [<- | Hne].
  - rewrite lookup_insert_eq in Hq. injection Hq as <-. contradiction.
  - rewrite lookup_insert_ne in Hq by exact Hne.
    apply in_in_remove; [congruence | exact (Hc q c' Hq Hw)].
Qed.

Lemma covers_alter ws g p m :
  covers ws g -> m = alter (cell_set_mark GC_MARK_BLACK) p (memory g) ->
  covers ws (gc_set_memory m g).
Proof.
  intros Hc -> q c' Hq Hw. cbn in Hq.
  destruct (decide (p = q)) as [<- | Hne].
  - rewrite lookup_alter_eq in Hq. destruct (memory g !! p); [| discriminate].
    injection Hq as <-. discriminate.
  - rewrite lookup_alter_ne in Hq by exact Hne. exact (Hc q c' Hq Hw).
Qed.

Lemma covers_remove ws g p : covers (remove N.eq_dec p ws) g -> covers ws g.
Proof. intros Hc q c Hq Hw. exact (proj1 (in_remove _ _ _ _ (Hc q c Hq Hw))). Qed.

Lemma fold_left_invariant {A} (I : mjs_gc_t -> Prop) (f : mjs_gc_t -> A -> mjs_gc_t) l :
  (forall g x, I g -> I (f g x)) -> forall g, I g -> I (fold_left f l g).
Proof.
  intros Hf. induction l as [| x l IH]; intros g Hg; [exact Hg |].
  cbn. apply IH, Hf, Hg.
Qed.

Lemma fold_left_agree {A} (I : mjs_gc_t -> Prop) (f f' : mjs_gc_t -> A -> mjs_gc_t) l :
  (forall g x, I g -> I (f g x)) -> (forall g x, I g -> f g x = f' g x) ->
  forall g, I g -> fold_left f l g = fold_left f' l g.
Proof.
  intros Hf Hff'. induction l as [| x l IH]; intros g Hg; [reflexivity |].
  cbn. rewrite <- (Hff' g x Hg). apply IH, Hf, Hg.
Qed.

(** Marking turns no cell white. *)
Lemma gc_mark_object_fuel_covers ws fuel :
  forall g obj, covers ws g -> covers ws (gc_mark_object_fuel fuel g obj).
Proof.
  induction fuel as [| fuel IH]; intros g obj Hg; [exact Hg |].
  cbn [gc_mark_object_fuel]. unfold gc_mark_object_body.
  destruct (obj =? NULL)%N; [exact Hg |].
  destruct (memory g !! obj) as [c |] eqn:Hc; [| exact Hg].
  destruct (negb (mark (header c) =? GC_MARK_WHITE)); [exact Hg |].
  cbv zeta.
  set (g1 := gc_set_gray_stack _ (gc_set_memory _ g)).
  assert (covers ws g1) as H1.
  { apply (covers_remove ws g1 obj).
    apply (covers_insert ws g obj (cell_set_mark GC_MARK_GRAY c));
      [exact Hg | discriminate | reflexivity]. }
  clearbody g1.
  match goal with
  | |- covers ws (gc_set_memory (alter _ _ (memory ?x)) ?x) =>
      assert (covers ws x) as H2
  end.
  { destruct (type (header c) =? GC_TYPE_STRING); [exact H1 |].
    destruct (type (header c) =? GC_TYPE_OBJECT).
    { destruct (body c); try exact H1.
      apply (fold_left_invariant (covers ws)).
      - intros g' prop Hg'. destruct (negb (key prop =? NULL)%N); [apply IH |]; exact Hg'.
      - destruct (negb (prototype o =? NULL)%N); [apply IH |]; exact H1. }
    destruct (type (header c) =? GC_TYPE_ARRAY); [exact H1 |].
    destruct (type (header c) =? GC_TYPE_FUNCTION); [| exact H1].
    destruct (body c); try exact H1.
    destruct (negb (fn_name f =? NULL)%N); [apply IH |]; exact H1. }
  eapply covers_alter; [exact H2 | reflexivity].
Qed.

Lemma gc_mark_object_fuel_more fuel :
  forall ws g obj k,
    covers ws g -> (length ws < fuel)%nat ->
    gc_mark_object_fuel (fuel + k) g obj = gc_mark_object_fuel fuel g obj.
Proof.
  induction fuel as [| fuel IH]; intros ws g obj k Hg Hlen; [lia |].
  cbn [gc_mark_object_fuel Nat.add]. unfold gc_mark_object_body.
  destruct (obj =? NULL)%N; [reflexivity |].
  destruct (memory g !! obj) as [c |] eqn:Hc; [| reflexivity].
  destruct (mark (header c) =? GC_MARK_WHITE) eqn:Hm; [| reflexivity].
  cbn [negb]. cbv zeta.
  set (g1 := gc_set_gray_stack _ (gc_set_memory _ g)).
  set (ws1 := remove N.eq_dec obj ws).
  assert (covers ws1 g1) as H1.
  { apply (covers_insert ws g obj (cell_set_mark GC_MARK_GRAY c));
      [exact Hg | discriminate | reflexivity]. }
  assert (length ws1 < fuel)%nat as Hlen1.
  { assert (In obj ws) as Hin by (apply (Hg obj c Hc); apply Z.eqb_eq, Hm).
    pose proof (remove_length_lt N.eq_dec ws obj Hin). subst ws1. lia. }
  clearbody g1 ws1.
  assert (forall g' x, covers ws1 g' ->
            gc_mark_object_fuel (fuel + k) g' x = gc_mark_object_fuel fuel g' x) as Hsame.
  { intros g' x Hg'. apply (IH ws1 g' x k Hg' Hlen1). }
  match goal with
  | |- gc_set_memory (alter _ _ (memory ?x)) ?x = gc_set_memory (alter _ _ (memory ?y)) ?y =>
      assert (x = y) as ->; [| reflexivity]
  end.
  destruct (type (header c) =? GC_TYPE_STRING); [reflexivity |].
  destruct (type (header c) =? GC_TYPE_OBJECT).
  { destruct (body c); try reflexivity.
    assert (covers ws1 (if negb (prototype o =? NULL)%N
                        then gc_mark_object_fuel (fuel + k) g1 (prototype o) else g1)) as Hp.
    { destruct (negb (prototype o =? NULL)%N);
        [apply gc_mark_object_fuel_covers |]; exact H1. }
    assert ((if negb (prototype o =? NULL)%N
             then gc_mark_object_fuel fuel g1 (prototype o) else g1)
            = (if negb (prototype o =? NULL)%N
               then gc_mark_object_fuel (fuel + k) g1 (prototype o) else g1)) as ->.
    { destruct (negb (prototype o =? NULL)%N); [symmetry; apply Hsame, H1 | reflexivity]. }
    apply (fold_left_agree (covers ws1)); [| | exact Hp].
    - intros g' prop Hg'.
      destruct (negb (key prop =? NULL)%N); [apply gc_mark_object_fuel_covers |]; exact Hg'.
    - intros g' prop Hg'.
      destruct (negb (key prop =? NULL)%N); [apply Hsame, Hg' | reflexivity]. }
  destruct (type (header c) =? GC_TYPE_ARRAY); [reflexivity |].
  destruct (type (header c) =? GC_TYPE_FUNCTION); [| reflexivity].
  destruct (body c); try reflexivity.
  destruct (negb (fn_name f =? NULL)%N); [apply Hsame, H1 | reflexivity].
Qed.

(** [gc_mark_object] has the fuel it needs: with any more, the result is
    the same. *)
Lemma gc_mark_object_fuel_enough g obj k :
  gc_mark_object_fuel (S (size (memory g)) + k) g obj = gc_mark_object g obj.
Proof.
  unfold gc_mark_object.
  apply (gc_mark_object_fuel_more _ (map fst (map_to_list (memory g)))).
  - intros p c Hp _. apply in_map_iff. exists (p, c). split; [reflexivity |].
    apply list_elem_of_In, elem_of_map_to_list, Hp.
  - rewrite length_map, length_map_to_list. lia.
Qed.

(** The calls of the host on the collector of a context. *)
Definition add_root (ctx : mjs_context_t) (root : ptr) : mjs_context_t :=
  ctx_set_gc (snd (mjs_gc_add_root (ctx_gc ctx) root)) ctx.
Definition remove_root (ctx : mjs_context_t) (root : ptr) : mjs_context_t :=
  ctx_set_gc (snd (mjs_gc_remove_root (ctx_gc ctx) root)) ctx.

(** [GC_OBJECT_TO_HEADER(p)->mark]. *)
Definition mark_of (g : mjs_gc_t) (p : ptr) : option Z :=
  (fun c => mark (header c)) <$> memory g !! p.

(** A rooted object [owner] whose property [child] holds the object
    [held], which is no root of its own: owner, held, the result of
    [mjs_object_define_property] and the context. *)
Definition owner_of_child : ptr * ptr * mjs_result_t * mjs_context_t :=
  let '(owner, ctx) := mjs_object_new bare_context in
  let ctx := add_root ctx owner in
  let '(held, ctx) := mjs_object_new ctx in
  let ctx := add_root ctx held in
  let '(r, ctx) :=
    mjs_object_define_property ctx owner "child" (VObject held) true true true in
  let ctx := remove_root ctx held in
  (owner, held, r, ctx).

(** A rooted array whose element 0 holds the object [held], which is no
    root of its own. *)
Definition array_of_element : option (ptr * ptr * bool * mjs_context_t) :=
  match mjs_array_new bare_context 0 with
  | None => None
  | Some (arr, ctx) =>
      let ctx := add_root ctx arr in
      let '(held, ctx) := mjs_object_new ctx in
      let ctx := add_root ctx held in
      match mjs_array_push (ctx_memory ctx) arr (VObject held) with
      | Some (pushed, m) =>
          let ctx := remove_root (ctx_set_memory m ctx) held in
          Some (arr, held, pushed, ctx)
      | None => None
      end
  end.

Definition sizeof_mjs_function_t : N := 48.

(** A rooted bytecode function with a name, a closure scope and a string
    among its constants: function, name, scope, constant and the
    collector. *)
Definition function_of_scope : ptr * ptr * ptr * ptr * mjs_gc_t :=
  let '(name, ctx) := mjs_string_new bare_context "f" 1 in
  let ctx := add_root ctx name in
  let '(scope, ctx) := mjs_object_new ctx in
  let ctx := add_root ctx scope in
  let '(constant, ctx) := mjs_string_new ctx "k" 1 in
  let ctx := add_root ctx constant in
  let '(fn, g) := mjs_gc_alloc (ctx_gc ctx) sizeof_mjs_function_t GC_TYPE_FUNCTION in
  let code := MkBytecode [] 0 [VString constant] 8 [] 0 in
  let body := PFunction (MkFunction MJS_FUNCTION_BYTECODE (Some code) name scope) in
  let g := gc_set_memory (store fn body (memory g)) g in
  let g := snd (mjs_gc_add_root g fn) in
  let g := snd (mjs_gc_remove_root g name) in
  let g := snd (mjs_gc_remove_root g scope) in
  let g := snd (mjs_gc_remove_root g constant) in
  (fn, name, scope, constant, g).

(** C4. The marker does not reach the values the spec lists. Marking a
    white array greys and blackens the array alone, whatever its
    elements hold. For a rooted object whose property holds an object,
    marking the roots greys the owner and the key string and leaves the
    held object white and off the grey stack, and [mjs_gc_collect]
    unlinks it from the young generation while the property still holds
    its address; the same happens to an object held by element 0 of a
    rooted array. For a rooted bytecode function, marking reaches the
    name string only: the closure scope and the string in the constant
    pool stay white and are unlinked by the collection. *)
Theorem gc_mark_object_leaves_held_values_white :
  (forall (g : mjs_gc_t) (arr : ptr) (c : cell),
      arr <> NULL -> memory g !! arr = Some c ->
      mark (header c) = GC_MARK_WHITE -> type (header c) = GC_TYPE_ARRAY ->
      gray_stack (gc_mark_object g arr) = arr :: gray_stack g
      /\ memory (gc_mark_object g arr)
         = <[arr := cell_set_mark GC_MARK_BLACK c]> (memory g))
  /\ (let '(owner, held, r, ctx) := owner_of_child in
      let g := ctx_gc ctx in
      r = MJS_OK /\ roots g = [owner]
      /\ mjs_object_get_property_value (memory g) owner "child" = VObject held
      /\ mark_of g held = Some GC_MARK_WHITE
      /\ mark_of (gc_mark_roots g) owner = Some GC_MARK_BLACK
      /\ mark_of (gc_mark_roots g) held = Some GC_MARK_WHITE
      /\ ~ In held (gray_stack (gc_mark_roots g))
      /\ In held (objects (young_generation g))
      /\ ~ In held (objects (young_generation (mjs_gc_collect g)))
      /\ In owner (objects (young_generation (mjs_gc_collect g)))
      /\ mjs_object_get_property_value (memory (mjs_gc_collect g)) owner "child"
         = VObject held)
  /\ (exists arr held ctx,
         array_of_element = Some (arr, held, true, ctx)
         /\ roots (ctx_gc ctx) = [arr]
         /\ mjs_array_get (ctx_memory ctx) arr 0 = VObject held
         /\ mark_of (gc_mark_roots (ctx_gc ctx)) arr = Some GC_MARK_BLACK
         /\ mark_of (gc_mark_roots (ctx_gc ctx)) held = Some GC_MARK_WHITE
         /\ gray_stack (gc_mark_roots (ctx_gc ctx)) = [arr]
         /\ In held (objects (young_generation (ctx_gc ctx)))
         /\ objects (young_generation (mjs_gc_collect (ctx_gc ctx))) = [arr])
  /\ (let '(fn, name, scope, constant, g) := function_of_scope in
      roots g = [fn]
      /\ (exists code,
             load (memory g) fn
             = Some (PFunction (MkFunction MJS_FUNCTION_BYTECODE (Some code) name scope))
             /\ constants code = [VString constant])
      /\ gray_stack (gc_mark_roots g) = [name; fn]
      /\ mark_of (gc_mark_roots g) fn = Some GC_MARK_BLACK
      /\ mark_of (gc_mark_roots g) name = Some GC_MARK_BLACK
      /\ mark_of (gc_mark_roots g) scope = Some GC_MARK_WHITE
      /\ mark_of (gc_mark_roots g) constant = Some GC_MARK_WHITE
      /\ objects (young_generation g) = [fn; constant; scope; name]
      /\ objects (young_generation (mjs_gc_collect g)) = [fn; name]).
Proof.
  split; [exact gc_mark_object_array |]. split; [| split].
  - vm_compute.
    repeat match goal with |- _ /\ _ => split end;
      try reflexivity; try (intros H; decompose [or] H; discriminate || contradiction);
      auto.
  - eexists _, _, _. split; [vm_compute; reflexivity |].
    vm_compute.
    repeat match goal with |- _ /\ _ => split end; try reflexivity; auto.
  - vm_compute.
    repeat match goal with |- _ /\ _ => split end; try reflexivity.
    eexists. split; reflexivity.
Qed.

(** The array [mjs_array_new] makes in the bare context, and its
    collector. *)
Definition new_array_made : ptr * mjs_context_t :=
  default (NULL, bare_context) (mjs_array_new bare_context 0).
Definition new_array : ptr := fst new_array_made.
Definition new_array_gc : mjs_gc_t := ctx_gc (snd new_array_made).

Lemma gc_mark_object_leaves_held_values_white_witness :
  gray_stack (gc_mark_object new_array_gc new_array)
  = new_array :: gray_stack new_array_gc.
Proof.
  assert (new_array <> NULL) as Hn by (vm_compute; discriminate).
  assert (exists c, memory new_array_gc !! new_array = Some c
                    /\ mark (header c) = GC_MARK_WHITE
                    /\ type (header c) = GC_TYPE_ARRAY) as (c & Hc & Hm & Ht).
  { eexists. split; [vm_compute; reflexivity |]. split; reflexivity. }
  exact (proj1 (proj1 gc_mark_object_leaves_held_values_white
                  new_array_gc new_array c Hn Hc Hm Ht)).
Defined.

(** ** Weak references *)

(** The callbacks a run of the weak reference loop calls are put before
    the ones called so far, and the references kept do not depend on
    them. *)
Lemma process_weak_refs_calls m l :
  forall calls,
    process_weak_refs m l calls
    = (fst (process_weak_refs m l []), snd (process_weak_refs m l []) ++ calls).
Proof.
  induction l as [| [h r] l IH]; intros calls; [reflexivity |].
  cbn [process_weak_refs].
  destruct (wr_object r =? NULL)%N eqn:Hn; cbn [negb andb];
    [| destruct (match m !! wr_object r with Some _ => _ | None => _ end);
       destruct (negb (callback r =? NULL)%N) ];
    cbn [negb andb];
    rewrite ?(IH ((callback r, userdata r) :: calls)),
      ?(IH [(callback r, userdata r)]), ?(IH calls);
    destruct (process_weak_refs m l []) as [kept new];
    cbn [wr_object fst snd app]; rewrite ?Hn, ?N.eqb_refl; cbn [fst snd app];
    rewrite <- ?app_assoc; reflexivity.
Qed.

Lemma process_weak_refs_app m l1 l2 :
  forall calls,
    process_weak_refs m (l1 ++ l2) calls
    = (fst (process_weak_refs m l1 []) ++ fst (process_weak_refs m l2 []),
       snd (process_weak_refs m l2 []) ++ snd (process_weak_refs m l1 []) ++ calls).
Proof.
  induction l1 as [| [h r] l1 IH]; intros calls.
  - cbn [app]. rewrite process_weak_refs_calls. reflexivity.
  - cbn [app process_weak_refs].
    destruct (wr_object r =? NULL)%N eqn:Hn; cbn [negb andb];
      [| destruct (match m !! wr_object r with Some _ => _ | None => _ end);
         destruct (negb (callback r =? NULL)%N) ];
    cbn [negb andb];
      rewrite ?(IH ((callback r, userdata r) :: calls)), ?(IH calls),
        ?(process_weak_refs_calls m l1 [(callback r, userdata r)]);
      destruct (process_weak_refs m l1 []) as [kept new];
      cbn [wr_object fst snd app]; rewrite ?Hn, ?N.eqb_refl; cbn [fst snd app];
      rewrite <- ?app_assoc; reflexivity.
Qed.

(** The loop keeps only references it was given. *)
Lemma process_weak_refs_kept m l :
  forall calls e,
    In e (fst (process_weak_refs m l calls)) -> In (fst e) (map fst l).
Proof.
  induction l as [| [h r] l IH]; intros calls e H; [contradiction |].
  cbn [process_weak_refs] in H.
  destruct (process_weak_refs m l _) as [kept new] eqn:E.
  assert (forall e, In e kept -> In (fst e) (map fst l)) as Hk.
  { intros e' He'. eapply IH. erewrite E. exact He'. }
  cbn [map fst].
  match type of H with In _ (fst (if ?b then _ else _)) => destruct b end;
    cbn [fst] in H.
  - right. apply Hk, H.
  - destruct H as [<- | H]; [left; reflexivity | right; apply Hk, H].
Qed.

(** The header at [p] is white. *)
Definition white_at (m : gmap N cell) (p : ptr) : Prop :=
  exists c, m !! p = Some c /\ mark (header c) = GC_MARK_WHITE.

(** The loops over the chains turn headers white and leave white ones
    white: they free nothing. *)
Lemma sweep_chain_white l :
  forall sz st m kept sz' st' m' p,
    sweep_chain l sz st m = (kept, sz', st', m') -> white_at m p -> white_at m' p.
Proof.
  induction l as [| obj l IH]; intros sz st m kept sz' st' m' p H Hw; simpl in H.
  - inversion H; subst. exact Hw.
  - destruct (m !! obj) as [c |] eqn:Hc.
    + destruct (mark (header c) =? GC_MARK_WHITE).
      * eapply IH; [exact H | exact Hw].
      * destruct (sweep_chain l sz st (<[obj := cell_set_mark GC_MARK_WHITE c]> m))
          as [[[k s1] s2] m1] eqn:E.
        inversion H; subst. eapply IH; [exact E |].
        destruct Hw as (c0 & Hp & Hm).
        destruct (decide (obj = p)) as [-> | Hne].
        -- exists (cell_set_mark GC_MARK_WHITE c). rewrite lookup_insert_eq.
           split; reflexivity.
        -- exists c0. rewrite lookup_insert_ne by exact Hne. split; assumption.
    + destruct (sweep_chain l sz st m) as [[[k s1] s2] m1] eqn:E.
      inversion H; subst. eapply IH; [exact E | exact Hw].
Qed.

Lemma sweeps_white g p :
  white_at (memory g) p -> white_at (memory (sweep_old (sweep_young g))) p.
Proof.
  intros Hw. unfold sweep_old, sweep_young.
  destruct (sweep_chain (objects (young_generation g)) _ _ _) as [[[k s1] s2] m1] eqn:E.
  cbn.
  destruct (sweep_chain (objects (old_generation g)) _ _ _) as [[[k' s1'] s2'] m2] eqn:E'.
  cbn. eapply sweep_chain_white; [exact E' |].
  eapply sweep_chain_white; [exact E | exact Hw].
Qed.

(** The loops over the chains do not read the weak references. *)
Lemma sweeps_weak_refs g l :
  weak_refs (sweep_old (sweep_young g)) = weak_refs g
  /\ fired (sweep_old (sweep_young g)) = fired g
  /\ memory (sweep_old (sweep_young (gc_set_weak_refs l g)))
     = memory (sweep_old (sweep_young g)).
Proof.
  unfold sweep_old, sweep_young. cbn.
  destruct (sweep_chain (objects (young_generation g)) _ _ _) as [[[k s1] s2] m1].
  cbn.
  destruct (sweep_chain (objects (old_generation g)) _ _ _) as [[[k' s1'] s2'] m2].
  cbn. repeat split.
Qed.

(** A reference whose target has a white header is cleared, its callback
    is called if it has one, and its record is unlinked. *)
Lemma process_weak_refs_white m w r l :
  wr_object r <> NULL -> white_at m (wr_object r) ->
  process_weak_refs m ((w, r) :: l) []
  = (fst (process_weak_refs m l []),
     snd (process_weak_refs m l [])
     ++ (if negb (callback r =? NULL)%N then [(callback r, userdata r)] else [])).
Proof.
  intros Hn (c & Hc & Hm). cbn [process_weak_refs].
  apply N.eqb_neq in Hn. rewrite Hn, Hc, Hm.
  change (GC_MARK_WHITE =? GC_MARK_WHITE) with true. cbn [negb andb].
  destruct (negb (callback r =? NULL)%N);
    rewrite ?(process_weak_refs_calls m l [(callback r, userdata r)]);
    destruct (process_weak_refs m l []) as [kept new];
    cbn [wr_object fst snd]; rewrite N.eqb_refl, ?app_nil_r; reflexivity.
Qed.

Lemma find_handle_none (w : ptr) (l : list (ptr * mjs_weak_ref_t)) :
  ~ In w (map fst l) -> List.find (fun e => (fst e =? w)%N) l = None.
Proof.
  induction l as [| e l IH]; intros H; [reflexivity |].
  cbn [List.find]. destruct (fst e =? w)%N eqn:E.
  - apply N.eqb_eq in E. exfalso. apply H. left. exact E.
  - apply IH. intros Hin. apply H. right. exact Hin.
Qed.

Lemma find_handle_app (w : ptr) r (l1 l2 : list (ptr * mjs_weak_ref_t)) :
  ~ In w (map fst l1) ->
  List.find (fun e => (fst e =? w)%N) (l1 ++ (w, r) :: l2) = Some (w, r).
Proof.
  induction l1 as [| e l1 IH]; intros H.
  - cbn. rewrite N.eqb_refl. reflexivity.
  - cbn [app List.find]. destruct (fst e =? w)%N eqn:E.
    + apply N.eqb_eq in E. exfalso. apply H. left. exact E.
    + apply IH. intros Hin. apply H. right. exact Hin.
Qed.

Lemma set_callback_other (w cb data : ptr) (l : list (ptr * mjs_weak_ref_t)) :
  ~ In w (map fst l) ->
  map (fun e => if (fst e =? w)%N
                then (fst e, MkWeakRef (wr_object (snd e)) cb data) else e) l = l.
Proof.
  induction l as [| e l IH]; intros H; [reflexivity |].
  cbn [map]. destruct (fst e =? w)%N eqn:E.
  - apply N.eqb_eq in E. exfalso. apply H. left. exact E.
  - rewrite IH; [reflexivity |]. intros Hin. apply H. right. exact Hin.
Qed.

(** What [gc_sweep] does to a weak list that has a reference whose
    target is white when the sweep starts. *)
Lemma gc_sweep_clears g l1 w r l2 :
  weak_refs g = l1 ++ (w, r) :: l2 ->
  wr_object r <> NULL -> white_at (memory g) (wr_object r) ->
  weak_refs (gc_sweep g)
  = fst (process_weak_refs (memory (sweep_old (sweep_young g))) l1 [])
    ++ fst (process_weak_refs (memory (sweep_old (sweep_young g))) l2 [])
  /\ fired (gc_sweep g)
     = snd (process_weak_refs (memory (sweep_old (sweep_young g))) l2 [])
       ++ (if negb (callback r =? NULL)%N then [(callback r, userdata r)] else [])
       ++ snd (process_weak_refs (memory (sweep_old (sweep_young g))) l1 [])
       ++ fired g.
Proof.
  intros Hl Hn Hw. unfold gc_sweep.
  destruct (sweeps_weak_refs g []) as (W & F & _). rewrite W, F, Hl.
  rewrite process_weak_refs_app.
  rewrite (process_weak_refs_white _ w r l2 Hn (sweeps_white g _ Hw)).
  cbn [fst snd]. cbn. rewrite <- !app_assoc. split; reflexivity.
Qed.

(** Weak references as the code has them. [mjs_gc_create_weak_ref] links
    a record for the target, with no callback, at the head of the weak list, and
    reading the handle then yields the target. When a sweep starts with
    the header of the target white, as the marker leaves it for a target
    no root reaches, the record of the handle is cleared, unlinked and
    freed, so that a later read of the handle finds no record; no
    callback of the handle is called, unless the host has stored one in
    the record, and then the sweep calls it once, between the calls for
    the references before and after it in the list. *)
Theorem weak_ref_cleared_when_target_is_white :
  (forall (g : mjs_gc_t) (target : ptr),
      target <> NULL -> next_weak_ref g <> NULL ->
      fst (mjs_gc_create_weak_ref g target) = next_weak_ref g
      /\ weak_refs (snd (mjs_gc_create_weak_ref g target))
         = (next_weak_ref g, MkWeakRef target NULL NULL) :: weak_refs g
      /\ mjs_weak_ref_get (snd (mjs_gc_create_weak_ref g target))
           (fst (mjs_gc_create_weak_ref g target)) = Some target)
  /\ (forall (g : mjs_gc_t) (l1 l2 : list (ptr * mjs_weak_ref_t)) (w : ptr)
             (r : mjs_weak_ref_t) (cb data : ptr),
         weak_refs g = l1 ++ (w, r) :: l2 ->
         w <> NULL -> ~ In w (map fst l1) -> ~ In w (map fst l2) ->
         wr_object r <> NULL -> callback r = NULL ->
         white_at (memory g) (wr_object r) ->
         cb <> NULL ->
         mjs_weak_ref_get g w = Some (wr_object r)
         /\ mjs_weak_ref_get (gc_sweep g) w = None
         /\ exists pre post,
              fired (gc_sweep g) = post ++ pre ++ fired g
              /\ fired (gc_sweep (weak_ref_set_callback g w cb data))
                 = post ++ (cb, data) :: pre ++ fired g).
Proof.
  split.
  - intros g target Ht Hn. unfold mjs_gc_create_weak_ref.
    apply N.eqb_neq in Ht. rewrite Ht. cbn [fst snd].
    split; [reflexivity |]. split; [reflexivity |].
    unfold mjs_weak_ref_get, find_weak_ref. apply N.eqb_neq in Hn. rewrite Hn.
    cbn. rewrite N.eqb_refl. reflexivity.
  - intros g l1 l2 w r cb data Hl Hw H1 H2 Hn Hcb Hwhite Hc.
    assert ((w =? NULL)%N = false) as Hw' by (apply N.eqb_neq; exact Hw).
    destruct (gc_sweep_clears g l1 w r l2 Hl Hn Hwhite) as (Hk & Hf).
    split; [| split].
    + unfold mjs_weak_ref_get, find_weak_ref. rewrite Hw', Hl.
      rewrite (find_handle_app w r l1 l2 H1). reflexivity.
    + unfold mjs_weak_ref_get, find_weak_ref. rewrite Hw', Hk.
      rewrite find_handle_none; [reflexivity |].
      rewrite map_app, in_app_iff. intros [Hin | Hin].
      * apply in_map_iff in Hin. destruct Hin as (e & <- & He).
        apply process_weak_refs_kept in He. apply H1, He.
      * apply in_map_iff in Hin. destruct Hin as (e & <- & He).
        apply process_weak_refs_kept in He. apply H2, He.
    + exists (snd (process_weak_refs (memory (sweep_old (sweep_young g))) l1 [])),
        (snd (process_weak_refs (memory (sweep_old (sweep_young g))) l2 [])).
      split.
      * rewrite Hf, Hcb. rewrite N.eqb_refl. reflexivity.
      * set (g' := weak_ref_set_callback g w cb data).
        assert (weak_refs g' = l1 ++ (w, MkWeakRef (wr_object r) cb data) :: l2) as Hl'.
        { subst g'. unfold weak_ref_set_callback. cbn [weak_refs gc_set_weak_refs].
          rewrite Hl, map_app. cbn [map fst snd]. rewrite N.eqb_refl.
          rewrite (set_callback_other w cb data l1 H1),
            (set_callback_other w cb data l2 H2). reflexivity. }
        destruct (gc_sweep_clears g' l1 w _ l2 Hl' Hn Hwhite) as (_ & Hf').
        rewrite Hf'. cbn [callback userdata].
        apply N.eqb_neq in Hc. rewrite Hc. cbn [negb].
        subst g'. unfold weak_ref_set_callback.
        destruct (sweeps_weak_refs g
                    (map (fun e => if (fst e =? w)%N
                                   then (fst e, MkWeakRef (wr_object (snd e)) cb data)
                                   else e) (weak_refs g))) as (_ & _ & ->).
        reflexivity.
Qed.

(** An object no root reaches and a weak reference to it: target, handle
    and collector. *)
Definition weak_of_unrooted : ptr * ptr * mjs_gc_t :=
  let '(target, g) :=
    mjs_gc_alloc (mjs_gc_new 4096 realloc_moving) sizeof_mjs_object_t GC_TYPE_OBJECT in
  let '(w, g) := mjs_gc_create_weak_ref g target in
  (target, w, g).

Definition weak_target : ptr := fst (fst weak_of_unrooted).
Definition weak_handle : ptr := snd (fst weak_of_unrooted).
Definition weak_gc : mjs_gc_t := snd weak_of_unrooted.

Lemma weak_ref_cleared_when_target_is_white_witness :
  mjs_weak_ref_get weak_gc weak_handle
  = Some (wr_object (MkWeakRef weak_target NULL NULL))
  /\ mjs_weak_ref_get (gc_sweep weak_gc) weak_handle = None.
Proof.
  assert (weak_refs weak_gc
          = [] ++ (weak_handle, MkWeakRef weak_target NULL NULL) :: []) as Hl
      by (vm_compute; reflexivity).
  assert (weak_handle <> NULL) as Hw by (vm_compute; discriminate).
  assert (wr_object (MkWeakRef weak_target NULL NULL) <> NULL) as Hn
      by (vm_compute; discriminate).
  assert (white_at (memory weak_gc) (wr_object (MkWeakRef weak_target NULL NULL)))
    as Hwhite.
  { eexists. split; [vm_compute; reflexivity | reflexivity]. }
  assert (7%N <> NULL) as Hc by discriminate.
  pose proof (proj2 weak_ref_cleared_when_target_is_white weak_gc [] [] weak_handle
                (MkWeakRef weak_target NULL NULL) 7%N 9%N Hl Hw
                (fun H : In weak_handle (map fst []) => H)
                (fun H : In weak_handle (map fst []) => H)
                Hn eq_refl Hwhite Hc) as (H1 & H2 & _).
  split; [exact H1 | exact H2].
Defined.

(** After [mjs_gc_collect] has unlinked the target no root reaches, no
    callback has been called, as none can be given to
    [mjs_gc_create_weak_ref], and the record of the handle is freed: a
    read of the handle finds no record, where the C function reads
    released memory. *)
Lemma weak_ref_of_unreachable_target_calls_nothing :
  exists target w g,
    weak_of_unrooted = (target, w, g)
    /\ target <> NULL /\ w <> NULL
    /\ roots g = []
    /\ objects (young_generation g) = [target]
    /\ find_weak_ref g w = Some (MkWeakRef target NULL NULL)
    /\ mjs_weak_ref_get g w = Some target
    /\ objects (young_generation (mjs_gc_collect g)) = []
    /\ fired (mjs_gc_collect g) = []
    /\ weak_refs (mjs_gc_collect g) = []
    /\ mjs_weak_ref_get (mjs_gc_collect g) w = None.
Proof.
  eexists _, _, _. split; [vm_compute; reflexivity |].
  vm_compute. repeat split; discriminate.
Qed.

(** A target that is a root loses its weak reference too: the loops over
    the chains have turned its header white again when the loop over the
    weak references reads it. *)
Example weak_ref_of_rooted_target_is_cleared :
  let g := snd (mjs_gc_add_root weak_gc weak_target) in
  roots g = [weak_target]
  /\ mjs_weak_ref_get g weak_handle = Some weak_target
  /\ objects (young_generation (mjs_gc_collect g)) = [weak_target]
  /\ weak_refs (mjs_gc_collect g) = []
  /\ mjs_weak_ref_get (mjs_gc_collect g) weak_handle = None.
Proof. vm_compute. repeat split. Qed.

(** A callback the host has stored in the record is called by the sweep
    that clears the handle. *)
Example weak_ref_callback_stored_by_host :
  fired (mjs_gc_collect (weak_ref_set_callback weak_gc weak_handle 7 9)) = [(7%N, 9%N)].
Proof. vm_compute. reflexivity. Qed.

(** * Further properties of the code *)

(** ** Collections *)

Lemma sweep_young_chain_same_bodies l :
  forall sz st m old old_sz kept sz' st' m' old' old_sz',
    sweep_young_chain l sz st m old old_sz = (kept, sz', st', m', old', old_sz') ->
    same_bodies m m'.
Proof.
  induction l as [| obj l IH]; intros sz st m old old_sz kept sz' st' m' old' old_sz' H;
    simpl in H.
  - inversion H. apply same_bodies_refl.
  - destruct (m !! obj) as [c |] eqn:Hc.
    + destruct (mark (header c) =? GC_MARK_WHITE).
      * eapply IH. exact H.
      * match type of H with
        | context [sweep_young_chain l _ _ (<[obj := ?c']> m)] =>
            assert (same_bodies m (<[obj := c']> m)) as Hs
                by (eapply same_bodies_insert; [exact Hc | reflexivity])
        end.
        destruct (2 <=? _).
        -- eapply same_bodies_trans; [exact Hs | eapply IH; exact H].
        -- destruct (sweep_young_chain l sz st _ old old_sz)
             as [[[[[k s1] s2] m1] o1] o2] eqn:E.
           inversion H; subst.
           eapply same_bodies_trans; [exact Hs | eapply IH; exact E].
    + destruct (sweep_young_chain l sz st m old old_sz)
        as [[[[[k s1] s2] m1] o1] o2] eqn:E.
      inversion H; subst. eapply IH. exact E.
Qed.

Lemma mjs_gc_collect_young_preserves g : preserves g (mjs_gc_collect_young g).
Proof.
  unfold mjs_gc_collect_young.
  destruct (negb (generational (config g))); [apply mjs_gc_collect_preserves |].
  cbv zeta. unfold gc_drain_gray.
  match goal with
  | |- context [gc_process_gray ?n true ?x] =>
      set (g1 := gc_process_gray n true x);
      assert (preserves g g1) as H1
  end.
  { subst g1. eapply preserves_trans; [| apply gc_process_gray_preserves].
    apply preserves_fold_from.
    - preserves_by ltac:(apply same_bodies_refl).
    - intros g' obj. destruct (negb (obj =? NULL)%N); [| apply preserves_refl].
      destruct (memory g' !! obj) as [c |]; [| apply preserves_refl].
      destruct (generation (header c) =? 0);
        [apply gc_mark_object_preserves | apply preserves_refl]. }
  clearbody g1. cbn.
  destruct (sweep_young_chain _ _ _ _ _ _) as [[[[[k s1] s2] m1] o1] o2] eqn:E.
  apply sweep_young_chain_same_bodies in E.
  destruct H1 as (A & B & C & D).
  split; [exact A | split; [exact B | split; [exact C |]]].
  cbn. eapply same_bodies_trans; [exact D | exact E].
Qed.

Lemma gc_process_gray_step_preserves n : forall g, preserves g (gc_process_gray_step n g).
Proof.
  induction n as [| n IH]; intros g; simpl; [apply preserves_refl |].
  destruct (gray_stack g) as [| obj rest]; [apply preserves_refl |].
  eapply preserves_trans; [| apply IH].
  eapply preserves_trans; [| apply gc_mark_object_preserves].
  preserves_by ltac:(apply same_bodies_refl).
Qed.

Lemma mjs_gc_collect_incremental_preserves g :
  preserves g (mjs_gc_collect_incremental g).
Proof.
  unfold mjs_gc_collect_incremental.
  destruct (negb (incremental (config g))); [apply mjs_gc_collect_preserves |].
  destruct (state g).
  - eapply preserves_trans; [| apply gc_mark_roots_preserves].
    preserves_by ltac:(apply same_bodies_refl).
  - cbv zeta.
    pose proof (gc_process_gray_step_preserves GC_INCREMENTAL_STEP_SIZE g) as H.
    destruct (gray_stack (gc_process_gray_step GC_INCREMENTAL_STEP_SIZE g)); [| exact H].
    eapply preserves_step; [exact H | reflexivity ..].
  - eapply preserves_step; [apply gc_sweep_preserves | reflexivity ..].
  - preserves_by ltac:(apply same_bodies_refl).
Qed.

(** The heap of [g'] is the heap of [g]: at the same place, as full, each
    cell with the payload it had. *)
Definition same_heap (g g' : mjs_gc_t) : Prop :=
  heap g' = heap g
  /\ heap_used g' = heap_used g
  /\ forall p, load (memory g') p = load (memory g) p.

Lemma preserves_same_heap g g' : preserves g g' -> same_heap g g'.
Proof.
  intros (A & B & _ & D). split; [exact A | split; [exact B |]].
  intros p. apply same_bodies_load, D.
Qed.

(** X1. None of the three collections, [mjs_gc_collect],
    [mjs_gc_collect_young] and [mjs_gc_collect_incremental], changes the
    payload of a cell, frees a cell, moves the heap or gives back a byte:
    the count of bytes used is what it was. *)
Theorem collections_keep_payloads_and_bytes :
  forall g : mjs_gc_t,
    same_heap g (mjs_gc_collect g)
    /\ same_heap g (mjs_gc_collect_young g)
    /\ same_heap g (mjs_gc_collect_incremental g).
Proof.
  intros g. split; [| split]; apply preserves_same_heap.
  - apply mjs_gc_collect_preserves.
  - apply mjs_gc_collect_young_preserves.
  - apply mjs_gc_collect_incremental_preserves.
Qed.

(** ** Roots *)

(** The header at [p] is grey or black. *)
Definition marked_at (m : gmap N cell) (p : ptr) : Prop :=
  exists c, m !! p = Some c /\ mark (header c) <> GC_MARK_WHITE.

(** The addresses of the white cells. *)
Definition white_addresses (m : gmap N cell) : list ptr :=
  map fst (List.filter (fun e => mark (header (snd e)) =? GC_MARK_WHITE) (map_to_list m)).

Lemma covers_white_addresses g : covers (white_addresses (memory g)) g.
Proof.
  intros p c Hp Hw. unfold white_addresses. apply in_map_iff. exists (p, c).
  split; [reflexivity |]. apply filter_In. split.
  - apply list_elem_of_In, elem_of_map_to_list, Hp.
  - cbn. apply Z.eqb_eq, Hw.
Qed.

Lemma marked_not_white_address m p : marked_at m p -> ~ In p (white_addresses m).
Proof.
  intros (c & Hc & Hm) Hin. unfold white_addresses in Hin.
  apply in_map_iff in Hin. destruct Hin as ([q c'] & Hq & Hin). cbn in Hq. subst q.
  apply filter_In in Hin. destruct Hin as [Hin Hw]. cbn in Hw.
  apply list_elem_of_In, elem_of_map_to_list in Hin.
  rewrite Hc in Hin. injection Hin as <-. apply Hm, Z.eqb_eq, Hw.
Qed.

(** A step of the marker: the payloads stay and no cell turns white. *)
Definition marking_step (g g' : mjs_gc_t) : Prop :=
  preserves g g' /\ forall ws, covers ws g -> covers ws g'.

Lemma marking_step_refl g : marking_step g g.
Proof. split; [apply preserves_refl | auto]. Qed.

Lemma marking_step_trans g1 g2 g3 :
  marking_step g1 g2 -> marking_step g2 g3 -> marking_step g1 g3.
Proof.
  intros [P1 C1] [P2 C2]. split; [eapply preserves_trans; eassumption | auto].
Qed.

Lemma marking_step_present g g' p c :
  marking_step g g' -> memory g !! p = Some c ->
  exists c', memory g' !! p = Some c' /\ body c' = body c.
Proof.
  intros [(_ & _ & _ & Hs) _] Hp. specialize (Hs p). rewrite Hp in Hs. cbn in Hs.
  destruct (memory g' !! p) as [c' |]; [| discriminate].
  exists c'. split; [reflexivity |]. cbn in Hs. congruence.
Qed.

Lemma marking_step_marked g g' p :
  marking_step g g' -> marked_at (memory g) p -> marked_at (memory g') p.
Proof.
  intros Hs Hm. pose proof Hm as (c & Hc & _).
  destruct (marking_step_present g g' p c Hs Hc) as (c' & Hc' & _).
  exists c'. split; [exact Hc' |]. intros Hw.
  apply (marked_not_white_address _ _ Hm).
  destruct Hs as [_ Hcov]. exact (Hcov _ (covers_white_addresses g) p c' Hc' Hw).
Qed.

Lemma gc_mark_object_step g obj : marking_step g (gc_mark_object g obj).
Proof.
  split; [apply gc_mark_object_preserves |].
  intros ws. apply gc_mark_object_fuel_covers.
Qed.

Lemma marking_step_fold {A} (f : mjs_gc_t -> A -> mjs_gc_t) l :
  (forall g x, marking_step g (f g x)) -> forall g, marking_step g (fold_left f l g).
Proof.
  intros Hf. induction l as [| x l IH]; intros g; [apply marking_step_refl |].
  cbn. eapply marking_step_trans; [apply Hf | apply IH].
Qed.

Lemma marking_step_fields g g' :
  heap g' = heap g -> heap_used g' = heap_used g -> config g' = config g ->
  memory g' = memory g -> marking_step g g'.
Proof.
  intros A B C D. split.
  - split; [exact A | split; [exact B | split; [exact C |]]].
    rewrite D. apply same_bodies_refl.
  - intros ws Hc p c Hp. rewrite D in Hp. exact (Hc p c Hp).
Qed.

Lemma gc_process_gray_step_marking fuel young_only :
  forall g, marking_step g (gc_process_gray fuel young_only g).
Proof.
  induction fuel as [| fuel IH]; intros g; simpl; [apply marking_step_refl |].
  destruct (gray_stack g) as [| obj rest]; [apply marking_step_refl |].
  eapply marking_step_trans; [| apply IH].
  match goal with |- marking_step _ (if ?b then _ else _) => destruct b end.
  - apply marking_step_fields; reflexivity.
  - eapply marking_step_trans; [| apply gc_mark_object_step].
    apply marking_step_fields; reflexivity.
Qed.

(** What [gc_mark_object] returns for a white cell ends with the cell
    turned black. *)
Lemma gc_mark_object_body_white mark_child g obj c :
  obj <> NULL -> memory g !! obj = Some c -> mark (header c) = GC_MARK_WHITE ->
  exists g2,
    gc_mark_object_body mark_child g obj
    = gc_set_memory (alter (cell_set_mark GC_MARK_BLACK) obj (memory g2)) g2.
Proof.
  intros Hn Hc Hm. unfold gc_mark_object_body.
  apply N.eqb_neq in Hn. rewrite Hn, Hc, Hm.
  change (GC_MARK_WHITE =? GC_MARK_WHITE) with true. cbn [negb].
  eexists. reflexivity.
Qed.

(** After [gc_mark_object] a cell of the heap is not white. *)
Lemma gc_mark_object_marks g p c :
  p <> NULL -> memory g !! p = Some c -> marked_at (memory (gc_mark_object g p)) p.
Proof.
  intros Hn Hc.
  destruct (Z.eq_dec (mark (header c)) GC_MARK_WHITE) as [Hw | Hw].
  - pose proof (gc_mark_object_step g p) as Hs.
    destruct (marking_step_present _ _ p c Hs Hc) as (c' & Hc' & _).
    unfold gc_mark_object in *. cbn [gc_mark_object_fuel] in *.
    destruct (gc_mark_object_body_white
                (gc_mark_object_fuel (size (memory g))) g p c Hn Hc Hw) as (g2 & E).
    rewrite E in Hc' |- *. unfold marked_at. cbn in Hc' |- *.
    rewrite lookup_alter_eq in Hc' |- *.
    destruct (memory g2 !! p) as [x |]; [| discriminate].
    exists (cell_set_mark GC_MARK_BLACK x). split; [reflexivity | discriminate].
  - apply (marking_step_marked g); [apply gc_mark_object_step |].
    exists c. split; assumption.
Qed.

Lemma gc_mark_roots_marks g p c :
  In p (roots g) -> p <> NULL -> memory g !! p = Some c ->
  marked_at (memory (gc_mark_roots g)) p.
Proof.
  unfold gc_mark_roots. generalize (roots g) as l. intros l. revert g c.
  assert (forall g x, marking_step g
            (if negb (x =? NULL)%N then gc_mark_object g x else g)) as Hf.
  { intros g x. destruct (negb (x =? NULL)%N);
      [apply gc_mark_object_step | apply marking_step_refl]. }
  induction l as [| x l IH]; intros g c Hin Hn Hc; [contradiction |].
  cbn [fold_left]. destruct Hin as [-> | Hin].
  - apply (marking_step_marked _ _ _ (marking_step_fold _ l Hf _)).
    assert ((p =? NULL)%N = false) as -> by (apply N.eqb_neq; exact Hn).
    cbn [negb]. exact (gc_mark_object_marks g p c Hn Hc).
  - destruct (marking_step_present _ _ p c (Hf g x) Hc) as (c' & Hc' & _).
    exact (IH _ c' Hin Hn Hc').
Qed.

(** The marker leaves the chains of the generations, the roots and the
    weak references as they are. *)
Definition same_lists (g g' : mjs_gc_t) : Prop :=
  young_generation g' = young_generation g
  /\ old_generation g' = old_generation g
  /\ roots g' = roots g
  /\ weak_refs g' = weak_refs g.

Lemma same_lists_fields g0 g g' :
  same_lists g0 g ->
  young_generation g' = young_generation g -> old_generation g' = old_generation g ->
  roots g' = roots g -> weak_refs g' = weak_refs g -> same_lists g0 g'.
Proof.
  intros (A & B & C & D) A' B' C' D'. repeat split; congruence.
Qed.

Lemma gc_mark_object_fuel_lists g0 fuel :
  forall g obj, same_lists g0 g -> same_lists g0 (gc_mark_object_fuel fuel g obj).
Proof.
  induction fuel as [| fuel IH]; intros g obj Hg; [exact Hg |].
  cbn [gc_mark_object_fuel]. unfold gc_mark_object_body.
  destruct (obj =? NULL)%N; [exact Hg |].
  destruct (memory g !! obj) as [c |] eqn:Hc; [| exact Hg].
  destruct (negb (mark (header c) =? GC_MARK_WHITE)); [exact Hg |].
  cbv zeta.
  set (g1 := gc_set_gray_stack _ (gc_set_memory _ g)).
  assert (same_lists g0 g1) as H1
      by (apply (same_lists_fields g0 g); [exact Hg | reflexivity ..]).
  clearbody g1.
  match goal with
  | |- same_lists g0 (gc_set_memory (alter _ _ (memory ?x)) ?x) =>
      assert (same_lists g0 x) as H2
  end.
  { destruct (type (header c) =? GC_TYPE_STRING); [exact H1 |].
    destruct (type (header c) =? GC_TYPE_OBJECT).
    { destruct (body c); try exact H1.
      apply (fold_left_invariant (same_lists g0)).
      - intros g' prop Hg'. destruct (negb (key prop =? NULL)%N); [apply IH |]; exact Hg'.
      - destruct (negb (prototype o =? NULL)%N); [apply IH |]; exact H1. }
    destruct (type (header c) =? GC_TYPE_ARRAY); [exact H1 |].
    destruct (type (header c) =? GC_TYPE_FUNCTION); [| exact H1].
    destruct (body c); try exact H1.
    destruct (negb (fn_name f =? NULL)%N); [apply IH |]; exact H1. }
  apply (same_lists_fields g0 _ _ H2); reflexivity.
Qed.

Lemma same_lists_refl g : same_lists g g.
Proof. repeat split. Qed.

Lemma gc_mark_roots_lists g : same_lists g (gc_mark_roots g).
Proof.
  unfold gc_mark_roots. apply (fold_left_invariant (same_lists g)).
  - intros g' x Hg'. destruct (negb (x =? NULL)%N);
      [apply gc_mark_object_fuel_lists |]; exact Hg'.
  - apply same_lists_refl.
Qed.

Lemma gc_process_gray_lists g0 fuel young_only :
  forall g, same_lists g0 g -> same_lists g0 (gc_process_gray fuel young_only g).
Proof.
  induction fuel as [| fuel IH]; intros g Hg; simpl; [exact Hg |].
  destruct (gray_stack g) as [| obj rest]; [exact Hg |].
  apply IH.
  assert (same_lists g0 (gc_set_gray_stack rest g)) as H1
      by (apply (same_lists_fields g0 g); [exact Hg | reflexivity ..]).
  match goal with |- same_lists _ (if ?b then _ else _) => destruct b end;
    [| apply gc_mark_object_fuel_lists]; exact H1.
Qed.

(** The loop over a chain keeps the cells that are not white, and
    touches no cell that is not in the chain. *)
Lemma sweep_chain_keeps p l :
  forall sz st m kept sz' st' m',
    sweep_chain l sz st m = (kept, sz', st', m') ->
    In p l -> marked_at m p -> In p kept.
Proof.
  induction l as [| obj l IH]; intros sz st m kept sz' st' m' H Hin Hm; [contradiction |].
  simpl in H. destruct (decide (obj = p)) as [-> | Hne].
  - destruct Hm as (c & Hc & Hw). rewrite Hc in H.
    apply Z.eqb_neq in Hw. rewrite Hw in H.
    destruct (sweep_chain l sz st _) as [[[k s1] s2] m1].
    inversion H; subst. left. reflexivity.
  - destruct Hin as [-> | Hin]; [contradiction |].
    destruct (m !! obj) as [c |] eqn:Hc.
    + destruct (mark (header c) =? GC_MARK_WHITE).
      * eapply IH; eassumption.
      * destruct (sweep_chain l sz st (<[obj := cell_set_mark GC_MARK_WHITE c]> m))
          as [[[k s1] s2] m1] eqn:E.
        inversion H; subst. right. eapply IH; [exact E | exact Hin |].
        destruct Hm as (c0 & Hc0 & Hw). exists c0.
        rewrite lookup_insert_ne by exact Hne. split; assumption.
    + destruct (sweep_chain l sz st m) as [[[k s1] s2] m1] eqn:E.
      inversion H; subst. right. eapply IH; eassumption.
Qed.

Lemma sweep_chain_elsewhere p l :
  forall sz st m kept sz' st' m',
    sweep_chain l sz st m = (kept, sz', st', m') -> ~ In p l -> m' !! p = m !! p.
Proof.
  induction l as [| obj l IH]; intros sz st m kept sz' st' m' H Hin; simpl in H.
  - inversion H. reflexivity.
  - assert (obj <> p) as Hne by (intros ->; apply Hin; left; reflexivity).
    assert (~ In p l) as Hin' by (intros X; apply Hin; right; exact X).
    destruct (m !! obj) as [c |] eqn:Hc.
    + destruct (mark (header c) =? GC_MARK_WHITE).
      * eapply IH; eassumption.
      * destruct (sweep_chain l sz st (<[obj := cell_set_mark GC_MARK_WHITE c]> m))
          as [[[k s1] s2] m1] eqn:E.
        inversion H; subst. rewrite (IH _ _ _ _ _ _ _ E Hin').
        apply lookup_insert_ne. exact Hne.
    + destruct (sweep_chain l sz st m) as [[[k s1] s2] m1] eqn:E.
      inversion H; subst. eapply IH; eassumption.
Qed.

Lemma sweep_old_young g : young_generation (sweep_old g) = young_generation g.
Proof.
  unfold sweep_old. destruct (sweep_chain _ _ _ _) as [[[k s1] s2] m1]. reflexivity.
Qed.

(** The chains [mjs_gc_collect] leaves are the ones the two loops of
    [gc_sweep] make of the marked heap. *)
Lemma mjs_gc_collect_chains g :
  exists gm,
    marking_step g gm /\ same_lists g gm
    /\ (forall p c, In p (roots g) -> p <> NULL -> memory g !! p = Some c ->
                    marked_at (memory gm) p)
    /\ young_generation (mjs_gc_collect g) = young_generation (sweep_young gm)
    /\ old_generation (mjs_gc_collect g) = old_generation (sweep_old (sweep_young gm)).
Proof.
  exists (gc_set_state GC_STATE_SWEEPING
            (gc_drain_gray false (gc_mark_roots (gc_set_state GC_STATE_MARKING g)))).
  set (g0 := gc_set_state GC_STATE_MARKING g).
  assert (marking_step g g0) as S0 by (apply marking_step_fields; reflexivity).
  assert (marking_step g0 (gc_mark_roots g0)) as S1.
  { unfold gc_mark_roots. apply marking_step_fold. intros g' x.
    destruct (negb (x =? NULL)%N); [apply gc_mark_object_step | apply marking_step_refl]. }
  assert (marking_step (gc_mark_roots g0) (gc_drain_gray false (gc_mark_roots g0))) as S2
      by apply gc_process_gray_step_marking.
  split; [| split; [| split]].
  - eapply marking_step_trans; [exact S0 |].
    eapply marking_step_trans; [exact S1 |].
    eapply marking_step_trans; [exact S2 |].
    apply marking_step_fields; reflexivity.
  - apply (same_lists_fields g (gc_drain_gray false (gc_mark_roots g0)));
      [| reflexivity ..].
    apply gc_process_gray_lists.
    apply (same_lists_fields g (gc_mark_roots g0)); [| reflexivity ..].
    destruct (gc_mark_roots_lists g0) as (A & B & C & D).
    repeat split; assumption.
  - intros p c Hin Hn Hc.
    assert (marked_at (memory (gc_mark_roots g0)) p) as Hm
        by (apply (gc_mark_roots_marks g0 p c); assumption).
    apply (marking_step_marked _ _ p S2) in Hm. exact Hm.
  - unfold mjs_gc_collect, gc_sweep. fold g0. cbv zeta.
    destruct (process_weak_refs _ _ _) as [kept calls].
    split; destruct (compact _);
      cbn [young_generation old_generation gc_update_statistics gc_set_stats
             gc_set_state gc_compact gc_set_fired gc_set_weak_refs];
      rewrite ?sweep_old_young; reflexivity.
Qed.

(** X2. [mjs_gc_collect] never unlinks a registered root: a root that is
    a cell of the heap stays in the chain of the young generation when it
    is there, and in the chain of the old generation when it is there
    and not in the young one; its payload is what it was. *)
Theorem roots_survive_collection :
  forall (g : mjs_gc_t) (p : ptr) (c : cell),
    In p (roots g) -> p <> NULL -> memory g !! p = Some c ->
    (In p (objects (young_generation g)) ->
     In p (objects (young_generation (mjs_gc_collect g))))
    /\ (In p (objects (old_generation g)) -> ~ In p (objects (young_generation g)) ->
        In p (objects (old_generation (mjs_gc_collect g))))
    /\ load (memory (mjs_gc_collect g)) p = Some (body c).
Proof.
  intros g p c Hroot Hn Hc.
  destruct (mjs_gc_collect_chains g) as (gm & Hstep & (Ly & Lo & _ & _) & Hmark & Ey & Eo).
  pose proof (Hmark p c Hroot Hn Hc) as Hm.
  split; [| split].
  - intros Hin. rewrite Ey. unfold sweep_young.
    destruct (sweep_chain _ _ _ _) as [[[k s1] s2] m1] eqn:E. cbn.
    rewrite Ly in E. exact (sweep_chain_keeps p _ _ _ _ _ _ _ _ E Hin Hm).
  - intros Hin Hout. rewrite Eo. unfold sweep_old.
    destruct (sweep_chain (objects (old_generation (sweep_young gm))) _ _ _)
      as [[[k s1] s2] m1] eqn:E. cbn.
    unfold sweep_young in E.
    destruct (sweep_chain (objects (young_generation gm)) _ _ _)
      as [[[k' s1'] s2'] m1'] eqn:E'. cbn in E.
    rewrite Lo in E. rewrite Ly in E'.
    apply (sweep_chain_keeps p _ _ _ _ _ _ _ _ E Hin).
    destruct Hm as (c' & Hc' & Hw). exists c'.
    rewrite (sweep_chain_elsewhere p _ _ _ _ _ _ _ _ E' Hout). split; assumption.
  - destruct (mjs_gc_collect_preserves g) as (_ & _ & _ & Hs).
    rewrite (same_bodies_load _ _ p Hs). unfold load. rewrite Hc. reflexivity.
Qed.

(** The collector of [weak_of_unrooted] with the target made a root. *)
Definition rooted_gc : mjs_gc_t := snd (mjs_gc_add_root weak_gc weak_target).

Lemma roots_survive_collection_witness :
  In weak_target (objects (young_generation (mjs_gc_collect rooted_gc))).
Proof.
  assert (In weak_target (roots rooted_gc)) as Hr by (vm_compute; left; reflexivity).
  assert (weak_target <> NULL) as Hn by (vm_compute; discriminate).
  assert (exists c, memory rooted_gc !! weak_target = Some c) as (c & Hc).
  { eexists. vm_compute. reflexivity. }
  assert (In weak_target (objects (young_generation rooted_gc))) as Hy
      by (vm_compute; left; reflexivity).
  exact (proj1 (roots_survive_collection rooted_gc weak_target c Hr Hn Hc) Hy).
Defined.

(** ** Weak references to reachable targets *)

(** The loop over a chain leaves the header of every cell of the chain
    white: a white one is unlinked and stays white, any other is turned
    white for the next collection. *)
Lemma sweep_chain_whitens p l :
  forall sz st m kept sz' st' m' c,
    sweep_chain l sz st m = (kept, sz', st', m') ->
    In p l -> m !! p = Some c -> white_at m' p.
Proof.
  induction l as [| obj l IH]; intros sz st m kept sz' st' m' c H Hin Hc; [contradiction |].
  simpl in H. destruct (decide (obj = p)) as [-> | Hne].
  - rewrite Hc in H. destruct (mark (header c) =? GC_MARK_WHITE) eqn:Hw.
    + apply Z.eqb_eq in Hw.
      apply (sweep_chain_white _ _ _ _ _ _ _ _ p H). exists c. split; assumption.
    + destruct (sweep_chain l sz st (<[p := cell_set_mark GC_MARK_WHITE c]> m))
        as [[[k s1] s2] m1] eqn:E.
      inversion H; subst.
      apply (sweep_chain_white _ _ _ _ _ _ _ _ p E).
      exists (cell_set_mark GC_MARK_WHITE c). rewrite lookup_insert_eq.
      split; reflexivity.
  - destruct Hin as [-> | Hin]; [contradiction |].
    destruct (m !! obj) as [c0 |] eqn:Hc0.
    + destruct (mark (header c0) =? GC_MARK_WHITE).
      * eapply IH; eassumption.
      * destruct (sweep_chain l sz st (<[obj := cell_set_mark GC_MARK_WHITE c0]> m))
          as [[[k s1] s2] m1] eqn:E.
        inversion H; subst. eapply IH; [exact E | exact Hin |].
        rewrite lookup_insert_ne by exact Hne. exact Hc.
    + destruct (sweep_chain l sz st m) as [[[k s1] s2] m1] eqn:E.
      inversion H; subst. eapply IH; eassumption.
Qed.

(** When the loop over the weak references starts, every cell of the
    young chain is white, marked or not. *)
Lemma sweeps_whiten_young g p c :
  In p (objects (young_generation g)) -> memory g !! p = Some c ->
  white_at (memory (sweep_old (sweep_young g))) p.
Proof.
  intros Hin Hc. unfold sweep_old, sweep_young.
  destruct (sweep_chain (objects (young_generation g)) _ _ _) as [[[k s1] s2] m1] eqn:E.
  cbn.
  destruct (sweep_chain (objects (old_generation g)) _ _ _) as [[[k' s1'] s2'] m2] eqn:E'.
  cbn. eapply sweep_chain_white; [exact E' |].
  exact (sweep_chain_whitens p _ _ _ _ _ _ _ _ c E Hin Hc).
Qed.

(** What [gc_sweep] does to a weak list that has a reference whose
    target is white when the loop over the weak references starts. *)
Lemma gc_sweep_clears_swept g l1 w r l2 :
  weak_refs g = l1 ++ (w, r) :: l2 ->
  wr_object r <> NULL ->
  white_at (memory (sweep_old (sweep_young g))) (wr_object r) ->
  weak_refs (gc_sweep g)
  = fst (process_weak_refs (memory (sweep_old (sweep_young g))) l1 [])
    ++ fst (process_weak_refs (memory (sweep_old (sweep_young g))) l2 []).
Proof.
  intros Hl Hn Hw. unfold gc_sweep.
  destruct (sweeps_weak_refs g []) as (W & F & _). rewrite W, F, Hl.
  rewrite process_weak_refs_app.
  rewrite (process_weak_refs_white _ w r l2 Hn Hw).
  cbn [fst snd]. reflexivity.
Qed.

(** The weak list [mjs_gc_collect] leaves is the one [gc_sweep] makes of
    the marked heap. *)
Lemma mjs_gc_collect_weak_refs g :
  exists gm,
    marking_step g gm /\ same_lists g gm
    /\ (forall p c, In p (roots g) -> p <> NULL -> memory g !! p = Some c ->
                    marked_at (memory gm) p)
    /\ young_generation (mjs_gc_collect g) = young_generation (sweep_young gm)
    /\ weak_refs (mjs_gc_collect g) = weak_refs (gc_sweep gm).
Proof.
  exists (gc_set_state GC_STATE_SWEEPING
            (gc_drain_gray false (gc_mark_roots (gc_set_state GC_STATE_MARKING g)))).
  set (g0 := gc_set_state GC_STATE_MARKING g).
  assert (marking_step g g0) as S0 by (apply marking_step_fields; reflexivity).
  assert (marking_step g0 (gc_mark_roots g0)) as S1.
  { unfold gc_mark_roots. apply marking_step_fold. intros g' x.
    destruct (negb (x =? NULL)%N); [apply gc_mark_object_step | apply marking_step_refl]. }
  assert (marking_step (gc_mark_roots g0) (gc_drain_gray false (gc_mark_roots g0))) as S2
      by apply gc_process_gray_step_marking.
  split; [| split; [| split]].
  - eapply marking_step_trans; [exact S0 |].
    eapply marking_step_trans; [exact S1 |].
    eapply marking_step_trans; [exact S2 |].
    apply marking_step_fields; reflexivity.
  - apply (same_lists_fields g (gc_drain_gray false (gc_mark_roots g0)));
      [| reflexivity ..].
    apply gc_process_gray_lists.
    apply (same_lists_fields g (gc_mark_roots g0)); [| reflexivity ..].
    destruct (gc_mark_roots_lists g0) as (A & B & C & D).
    repeat split; assumption.
  - intros p c Hin Hn Hc.
    assert (marked_at (memory (gc_mark_roots g0)) p) as Hm
        by (apply (gc_mark_roots_marks g0 p c); assumption).
    apply (marking_step_marked _ _ p S2) in Hm. exact Hm.
  - unfold mjs_gc_collect. fold g0. cbv zeta.
    set (gs := gc_sweep _). unfold gc_sweep in gs.
    destruct (process_weak_refs _ _ _) as [kept calls] in gs. subst gs.
    split; destruct (compact _);
      cbn [young_generation weak_refs gc_update_statistics gc_set_stats
             gc_set_state gc_compact gc_set_fired gc_set_weak_refs];
      rewrite ?sweep_old_young; reflexivity.
Qed.

(** C5. A weak reference does not yield its target while the target is
    reachable. Take a handle of the weak list whose target is a cell of
    the heap, a registered root, and linked in the chain of the young
    generation. Reading the handle yields the target. [mjs_gc_collect]
    marks the target and keeps it: it is still in the chain and its
    payload is what it was. But the two loops of [gc_sweep] over the
    chains turn the header of every survivor white again before the loop
    over the weak references reads it, so this loop takes the target for
    collected: it clears the handle, unlinks its record and frees it,
    and a later read of the handle finds no record. *)
Theorem weak_ref_of_reachable_target_is_cleared :
  forall (g : mjs_gc_t) (l1 l2 : list (ptr * mjs_weak_ref_t)) (w : ptr)
         (r : mjs_weak_ref_t) (c : cell),
    weak_refs g = l1 ++ (w, r) :: l2 ->
    w <> NULL -> ~ In w (map fst l1) -> ~ In w (map fst l2) ->
    wr_object r <> NULL ->
    memory g !! wr_object r = Some c ->
    In (wr_object r) (roots g) ->
    In (wr_object r) (objects (young_generation g)) ->
    mjs_weak_ref_get g w = Some (wr_object r)
    /\ In (wr_object r) (objects (young_generation (mjs_gc_collect g)))
    /\ load (memory (mjs_gc_collect g)) (wr_object r) = Some (body c)
    /\ find_weak_ref (mjs_gc_collect g) w = None
    /\ mjs_weak_ref_get (mjs_gc_collect g) w = None.
Proof.
  intros g l1 l2 w r c Hl Hw H1 H2 Hn Hc Hroot Hin.
  assert ((w =? NULL)%N = false) as Hw' by (apply N.eqb_neq; exact Hw).
  destruct (mjs_gc_collect_weak_refs g)
    as (gm & Hstep & (Ly & _ & _ & Lw) & Hmark & Ey & Ew).
  destruct (marking_step_present g gm _ c Hstep Hc) as (c' & Hc' & _).
  assert (find_weak_ref (mjs_gc_collect g) w = None) as Hnone.
  { unfold find_weak_ref. rewrite Ew.
    assert (In (wr_object r) (objects (young_generation gm))) as Hin'
        by (rewrite Ly; exact Hin).
    rewrite (gc_sweep_clears_swept gm l1 w r l2 ltac:(rewrite Lw; exact Hl) Hn
               (sweeps_whiten_young gm _ c' Hin' Hc')).
    rewrite find_handle_none; [reflexivity |].
    rewrite map_app, in_app_iff. intros [Hi | Hi].
    - apply in_map_iff in Hi. destruct Hi as (e & <- & He).
      apply process_weak_refs_kept in He. apply H1, He.
    - apply in_map_iff in Hi. destruct Hi as (e & <- & He).
      apply process_weak_refs_kept in He. apply H2, He. }
  split; [| split; [| split; [| split]]].
  - unfold mjs_weak_ref_get, find_weak_ref. rewrite Hw', Hl.
    rewrite (find_handle_app w r l1 l2 H1). reflexivity.
  - rewrite Ey. unfold sweep_young.
    destruct (sweep_chain _ _ _ _) as [[[k s1] s2] m1] eqn:E. cbn.
    rewrite Ly in E.
    exact (sweep_chain_keeps _ _ _ _ _ _ _ _ _ E Hin (Hmark _ c Hroot Hn Hc)).
  - destruct (mjs_gc_collect_preserves g) as (_ & _ & _ & Hs).
    rewrite (same_bodies_load _ _ _ Hs). unfold load. rewrite Hc. reflexivity.
  - exact Hnone.
  - unfold mjs_weak_ref_get. rewrite Hw', Hnone. reflexivity.
Qed.

Lemma weak_ref_of_reachable_target_is_cleared_witness :
  mjs_weak_ref_get rooted_gc weak_handle
  = Some (wr_object (MkWeakRef weak_target NULL NULL))
  /\ In (wr_object (MkWeakRef weak_target NULL NULL))
       (objects (young_generation (mjs_gc_collect rooted_gc)))
  /\ mjs_weak_ref_get (mjs_gc_collect rooted_gc) weak_handle = None.
Proof.
  assert (weak_refs rooted_gc
          = [] ++ (weak_handle, MkWeakRef weak_target NULL NULL) :: []) as Hl
      by (vm_compute; reflexivity).
  assert (weak_handle <> NULL) as Hw by (vm_compute; discriminate).
  assert (wr_object (MkWeakRef weak_target NULL NULL) <> NULL) as Hn
      by (vm_compute; discriminate).
  assert (exists c, memory rooted_gc !! wr_object (MkWeakRef weak_target NULL NULL)
                    = Some c) as (c & Hc).
  { eexists. vm_compute. reflexivity. }
  assert (In (wr_object (MkWeakRef weak_target NULL NULL)) (roots rooted_gc)) as Hr
      by (vm_compute; left; reflexivity).
  assert (In (wr_object (MkWeakRef weak_target NULL NULL))
            (objects (young_generation rooted_gc))) as Hy
      by (vm_compute; left; reflexivity).
  pose proof (weak_ref_of_reachable_target_is_cleared rooted_gc [] [] weak_handle
                (MkWeakRef weak_target NULL NULL) c Hl Hw
                (fun H : In weak_handle (map fst []) => H)
                (fun H : In weak_handle (map fst []) => H)
                Hn Hc Hr Hy) as (H1 & H2 & _ & _ & H3).
  split; [exact H1 |]. split; [exact H2 | exact H3].
Defined.

(** The root array after the loop of [mjs_gc_remove_root] has found
    [root] at [i]: the roots without one [root], in some order. *)
Lemma remove_root_permutation (root : ptr) (l : list ptr) (i : nat) :
  index_of root l = Some i ->
  exists x, last l = Some x
            /\ Permutation l (root :: take (length l - 1) (<[i := x]> l)).
Proof.
  revert i. induction l as [| a l IH]; intros i H; [discriminate |].
  cbn [index_of] in H. destruct (a =? root)%N eqn:E.
  - injection H as <-. apply N.eqb_eq in E. subst a.
    destruct (last (root :: l)) as [x |] eqn:Hl; [| apply last_None in Hl; discriminate].
    exists x. split; [reflexivity |].
    apply last_Some in Hl. destruct Hl as (l' & Hl').
    destruct l as [| b l].
    + cbn. reflexivity.
    + cbn [list_insert insert length Nat.sub]. rewrite ?Nat.sub_0_r.
      destruct l' as [| c l']; [discriminate |].
      injection Hl' as -> Hl'. rewrite Hl'.
      change (x :: l' ++ [x]) with ((x :: l') ++ [x]).
      rewrite take_app_length'
        by (apply (f_equal length) in Hl'; rewrite length_app in Hl'; cbn in *; lia).
      constructor. symmetry. apply Permutation_cons_append.
  - destruct (index_of root l) as [j |] eqn:Hj; [| discriminate].
    injection H as <-. destruct (IH j eq_refl) as (x & Hx & Hp).
    exists x. destruct l as [| b l]; [discriminate |].
    split; [rewrite last_cons_cons; exact Hx |].
    cbn [length Nat.sub] in Hp |- *. rewrite ?Nat.sub_0_r in Hp. rewrite ?Nat.sub_0_r.
    change (<[S j := x]> (a :: b :: l)) with (a :: <[j := x]> (b :: l)).
    cbn [take]. etransitivity; [apply perm_skip, Hp | apply perm_swap].
Qed.

Lemma index_of_none (root : ptr) (l : list ptr) : ~ In root l -> index_of root l = None.
Proof.
  induction l as [| a l IH]; intros H; [reflexivity |].
  cbn [index_of]. destruct (a =? root)%N eqn:E.
  - apply N.eqb_eq in E. exfalso. apply H. left. exact E.
  - rewrite IH; [reflexivity |]. intros X. apply H. right. exact X.
Qed.

Lemma index_of_some (root : ptr) (l : list ptr) :
  In root l -> exists i, index_of root l = Some i.
Proof.
  induction l as [| a l IH]; intros H; [contradiction |].
  cbn [index_of]. destruct (a =? root)%N eqn:E; [eauto |].
  destruct H as [-> | H]; [rewrite N.eqb_refl in E; discriminate |].
  destruct (IH H) as (i & ->). eauto.
Qed.

Lemma index_of_snoc (root : ptr) (l : list ptr) :
  ~ In root l -> index_of root (l ++ [root]) = Some (length l).
Proof.
  induction l as [| a l IH]; intros H; cbn [app index_of length].
  - rewrite N.eqb_refl. reflexivity.
  - destruct (a =? root)%N eqn:E.
    + apply N.eqb_eq in E. exfalso. apply H. left. exact E.
    + rewrite IH; [reflexivity |]. intros X. apply H. right. exact X.
Qed.

(** X3. [mjs_gc_remove_root] on a root that is not registered returns
    false and changes nothing; on a registered root it returns true and
    takes exactly one entry of it out, the others staying, in some
    order. Removing a root right after adding it, when it was not
    registered before, gives the roots as they were, in their order. *)
Theorem remove_root_takes_one_entry :
  forall (g : mjs_gc_t) (root : ptr),
    root <> NULL ->
    (~ In root (roots g) ->
     mjs_gc_remove_root g root = (false, g)
     /\ fst (mjs_gc_remove_root (snd (mjs_gc_add_root g root)) root) = true
     /\ roots (snd (mjs_gc_remove_root (snd (mjs_gc_add_root g root)) root)) = roots g)
    /\ (In root (roots g) ->
        fst (mjs_gc_remove_root g root) = true
        /\ Permutation (roots g) (root :: roots (snd (mjs_gc_remove_root g root)))).
Proof.
  intros g root Hn. apply N.eqb_neq in Hn. split.
  - intros Hout. split; [| split].
    + unfold mjs_gc_remove_root. rewrite Hn, (index_of_none _ _ Hout). reflexivity.
    + unfold mjs_gc_remove_root, mjs_gc_add_root. rewrite Hn. cbn [snd roots gc_set_roots].
      rewrite (index_of_snoc _ _ Hout). reflexivity.
    + unfold mjs_gc_remove_root, mjs_gc_add_root. rewrite Hn. cbn [snd roots gc_set_roots].
      rewrite (index_of_snoc _ _ Hout), last_snoc. cbn [snd roots gc_set_roots].
      rewrite length_insert, length_app. cbn [length].
      replace (length (roots g) + 1 - 1)%nat with (length (roots g)) by lia.
      rewrite insert_app_r_alt by lia. rewrite Nat.sub_diag. cbn [list_insert insert].
      apply take_app_length.
  - intros Hin. destruct (index_of_some _ _ Hin) as (i & Hi).
    destruct (remove_root_permutation _ _ _ Hi) as (x & Hx & Hp).
    unfold mjs_gc_remove_root. rewrite Hn, Hi, Hx. cbn [fst snd roots gc_set_roots].
    split; [reflexivity |]. rewrite length_insert. exact Hp.
Qed.

Lemma remove_root_takes_one_entry_witness :
  roots (snd (mjs_gc_remove_root (snd (mjs_gc_add_root weak_gc weak_target)) weak_target))
  = roots weak_gc.
Proof.
  assert (weak_target <> NULL) as Hn by (vm_compute; discriminate).
  assert (~ In weak_target (roots weak_gc)) as Hout by (vm_compute; intros []).
  exact (proj2 (proj2 (proj1 (remove_root_takes_one_entry weak_gc weak_target Hn) Hout))).
Defined.

(** ** Allocation *)

(** The cell a successful [mjs_gc_alloc] makes: white, of generation 0,
    with the type and the size asked for, at the head of the young
    chain. *)
Lemma mjs_gc_alloc_cell g sz ty p g' :
  mjs_gc_alloc g sz ty = (p, g') -> p <> NULL ->
  memory g' !! p = Some (MkCell (MkHeader ty GC_MARK_WHITE 0 sz) PRaw)
  /\ head (objects (young_generation g')) = Some p.
Proof.
  unfold mjs_gc_alloc. destruct (sz =? 0)%N.
  { intros [= <- <-] Hn. contradiction. }
  cbv beta zeta.
  set (g1 := if gc_should_collect g then mjs_gc_collect g else g).
  set (g2 := if (heap_size g1 <? _)%N then mjs_gc_collect g1 else g1).
  clearbody g2. clear g1.
  destruct (heap_size g2 <? _)%N.
  - destruct ((0 <? max_heap_size (config g2))%N && _).
    + intros [= <- <-] Hn. contradiction.
    + destruct (heap_realloc g2 (heap g2) _ =? NULL)%N.
      * intros [= <- <-] Hn. contradiction.
      * intros [= <- <-] _. cbn. rewrite lookup_insert_eq. split; reflexivity.
  - intros [= <- <-] _. cbn. rewrite lookup_insert_eq. split; reflexivity.
Qed.



(** ** Arrays *)

(** [arr->elements[i]], read as undefined where the model has no
    element. *)
Definition element (l : list mjs_value_t) (i : nat) : mjs_value_t :=
  default mjs_value_undefined (l !! i).

Lemma element_app_undefined l k i :
  element (l ++ replicate k mjs_value_undefined) i = element l i.
Proof.
  unfold element. destruct (decide (i < length l)%nat) as [Hi | Hi].
  - rewrite lookup_app_l by exact Hi. reflexivity.
  - rewrite lookup_app_r by lia. rewrite (lookup_ge_None_2 l i) by lia.
    destruct (replicate k mjs_value_undefined !! (i - length l)%nat) as [x |] eqn:E;
      [| reflexivity].
    apply lookup_replicate in E. destruct E as [-> _]. reflexivity.
Qed.

Lemma element_insert l i j v :
  element (<[i := v]> l) j
  = if decide (i = j /\ (i < length l)%nat) then v else element l j.
Proof.
  unfold element. case_decide as H.
  - destruct H as [<- Hi]. rewrite list_lookup_insert_eq by exact Hi. reflexivity.
  - destruct (decide (i = j)) as [<- | Hne].
    + rewrite (lookup_ge_None_2 (<[i := v]> l) i) by (rewrite length_insert; lia).
      rewrite (lookup_ge_None_2 l i) by lia. reflexivity.
    + rewrite list_lookup_insert_ne by exact Hne. reflexivity.
Qed.

(** The loop that doubles the capacity ends, without wrapping, when the
    capacity is not 0 and no more than [2 ^ 63] elements are asked for. *)
Lemma grow_capacity_ends fuel :
  forall c r : N,
    (0 < c)%N -> (c < 2 ^ 64)%N -> (r <= 2 ^ 63)%N -> (2 ^ 63 <= c * 2 ^ N.of_nat fuel)%N ->
    exists c', grow_capacity fuel c r = Some c' /\ (r <= c')%N /\ (c <= c')%N
               /\ (c' < 2 ^ 64)%N.
Proof.
  induction fuel as [| fuel IH]; intros c r Hc Hc64 Hr Hf.
  - cbn [grow_capacity]. destruct (r <=? c)%N eqn:E.
    + apply N.leb_le in E. exists c. repeat split; try lia.
    + apply N.leb_gt in E. cbn in Hf. lia.
  - cbn [grow_capacity]. destruct (r <=? c)%N eqn:E.
    + apply N.leb_le in E. exists c. repeat split; try lia.
    + apply N.leb_gt in E.
      assert ((c =? 0)%N = false) as -> by (apply N.eqb_neq; lia).
      assert (size_mul c 2 = (c * 2)%N) as ->.
      { unfold size_mul, wrap_size_t. rewrite Z.mod_small by lia. lia. }
      destruct (IH (c * 2)%N r) as (c' & H1 & H2 & H3 & H4); try lia.
      { rewrite Nat2N.inj_succ, N.pow_succ_r' in Hf. lia. }
      exists c'. repeat split; try assumption. lia.
Qed.

(** The loop that doubles the capacity stays below [2 ^ 60] when no
    more than [2 ^ 59] elements are asked for. *)
Lemma grow_capacity_small fuel :
  forall c r : N,
    (0 < c)%N -> (c < 2 ^ 60)%N -> (r <= 2 ^ 59)%N -> (2 ^ 59 <= c * 2 ^ N.of_nat fuel)%N ->
    exists c', grow_capacity fuel c r = Some c' /\ (r <= c')%N /\ (c <= c')%N
               /\ (c' < 2 ^ 60)%N.
Proof.
  induction fuel as [| fuel IH]; intros c r Hc Hc60 Hr Hf.
  - cbn [grow_capacity]. destruct (r <=? c)%N eqn:E.
    + apply N.leb_le in E. exists c. repeat split; try lia.
    + apply N.leb_gt in E. cbn in Hf. lia.
  - cbn [grow_capacity]. destruct (r <=? c)%N eqn:E.
    + apply N.leb_le in E. exists c. repeat split; try lia.
    + apply N.leb_gt in E.
      assert ((c =? 0)%N = false) as -> by (apply N.eqb_neq; lia).
      assert (size_mul c 2 = (c * 2)%N) as ->.
      { unfold size_mul, wrap_size_t. rewrite Z.mod_small by lia. lia. }
      destruct (IH (c * 2)%N r) as (c' & H1 & H2 & H3 & H4); try lia.
      { rewrite Nat2N.inj_succ, N.pow_succ_r' in Hf. lia. }
      exists c'. repeat split; try assumption. lia.
Qed.

(** The byte count of fewer than [2 ^ 60] values does not wrap. *)
Lemma holds_values_small c :
  (0 < c)%N -> (c < 2 ^ 60)%N ->
  (size_mul sizeof_mjs_value_t c =? 0)%N = false
  /\ holds_values (size_mul sizeof_mjs_value_t c) c = true.
Proof.
  intros H0 H. assert (size_mul sizeof_mjs_value_t c = (16 * c)%N) as ->.
  { unfold size_mul, wrap_size_t, sizeof_mjs_value_t. rewrite Z.mod_small by lia. lia. }
  split; [apply N.eqb_neq; lia |].
  unfold holds_values, sizeof_mjs_value_t. apply N.leb_le.
  rewrite N.mul_comm, N.div_mul by discriminate. lia.
Qed.

(** [mjs_array_ensure_capacity] for no more than [2 ^ 59] elements
    returns true, the elements being what they were, followed by
    undefined ones. *)
Lemma mjs_array_ensure_capacity_ok a r :
  (0 < arr_capacity a)%N -> (arr_capacity a < 2 ^ 64)%N -> (r <= 2 ^ 59)%N ->
  exists k,
    mjs_array_ensure_capacity a r
    = Some (true, MkArray (elements a ++ replicate k mjs_value_undefined) (arr_length a))
    /\ (N.to_nat r <= length (elements a) + k)%nat.
Proof.
  intros Hc Hc64 Hr. unfold mjs_array_ensure_capacity.
  destruct (r <=? arr_capacity a)%N eqn:E.
  - apply N.leb_le in E. exists O. rewrite app_nil_r. split.
    + destruct a. reflexivity.
    + unfold arr_capacity in E. lia.
  - apply N.leb_gt in E.
    destruct (grow_capacity_small 64 (arr_capacity a) r Hc ltac:(lia) Hr)
      as (c' & -> & H2 & H3 & H4).
    { change (2 ^ N.of_nat 64)%N with (2 ^ 64)%N. lia. }
    destruct (holds_values_small c' ltac:(lia) H4) as [-> ->].
    exists (N.to_nat (c' - arr_capacity a)). split; [reflexivity |].
    unfold arr_capacity in *. lia.
Qed.

Lemma load_array_store m arr a a' :
  load_array m arr = Some a -> load_array (store arr (PArray a') m) arr = Some a'.
Proof.
  intros H. unfold load_array in *. unfold load in H.
  destruct (m !! arr) as [c |] eqn:E; [| discriminate].
  rewrite (load_store_eq m arr (PArray a') c E). reflexivity.
Qed.

Lemma size_add_1 n : (n < 2 ^ 63)%N -> size_add n 1 = (n + 1)%N.
Proof.
  intros H. unfold size_add, wrap_size_t. rewrite Z.mod_small by lia. lia.
Qed.

Lemma size_sub_1 n : (0 < n)%N -> (n < 2 ^ 64)%N -> size_sub n 1 = (n - 1)%N.
Proof.
  intros H H'. unfold size_sub, wrap_size_t. rewrite Z.mod_small by lia. lia.
Qed.

(** X5. [mjs_array_push] on an array of fewer than [2 ^ 59] elements,
    whose capacity is not 0, returns true; the length is one more, the
    new element is read back at the old length and the elements before
    it are what they were. [mjs_array_pop] then returns the element
    pushed and leaves an array with the length and the elements it had
    before the push. *)
Theorem mjs_array_push_then_get_and_pop :
  forall (m : gmap N cell) (arr : ptr) (a : mjs_array_t) (v : mjs_value_t),
    load_array m arr = Some a ->
    (0 < arr_capacity a)%N -> (arr_capacity a < 2 ^ 64)%N ->
    (arr_length a < 2 ^ 59)%N ->
    exists m',
      mjs_array_push m arr v = Some (true, m')
      /\ mjs_array_length m' arr = (arr_length a + 1)%N
      /\ mjs_array_get m' arr (arr_length a) = v
      /\ (forall i, (i < arr_length a)%N -> mjs_array_get m' arr i = mjs_array_get m arr i)
      /\ fst (mjs_array_pop m' arr) = v
      /\ mjs_array_length (snd (mjs_array_pop m' arr)) arr = arr_length a
      /\ (forall i, mjs_array_get (snd (mjs_array_pop m' arr)) arr i = mjs_array_get m arr i).
Proof.
  intros m arr a v Ha Hc Hc64 Hlen59.
  assert (arr_length a < 2 ^ 63)%N as Hlen by lia.
  destruct (mjs_array_ensure_capacity_ok a (size_add (arr_length a) 1) Hc Hc64)
    as (k & He & Hk); [rewrite size_add_1 by exact Hlen; lia |].
  rewrite size_add_1 in Hk by exact Hlen.
  unfold mjs_array_push. rewrite Ha, He. cbn [arr_length elements].
  rewrite size_add_1 by exact Hlen.
  set (els := elements a ++ replicate k mjs_value_undefined) in *.
  assert (N.to_nat (arr_length a) < length els)%nat as Hin
      by (subst els; rewrite length_app, length_replicate; lia).
  eexists. split; [reflexivity |].
  set (a1 := MkArray (<[N.to_nat (arr_length a) := v]> els) (arr_length a + 1)).
  assert (load_array (store arr (PArray a1) m) arr = Some a1) as H1
      by exact (load_array_store m arr a a1 Ha).
  assert (forall i, (i < arr_length a)%N ->
            mjs_array_get (store arr (PArray a1) m) arr i = mjs_array_get m arr i) as Hget.
  { intros i Hi. unfold mjs_array_get. rewrite H1, Ha. cbn [arr_length elements a1].
    assert ((arr_length a + 1 <=? i)%N = false) as -> by (apply N.leb_gt; lia).
    assert ((arr_length a <=? i)%N = false) as -> by (apply N.leb_gt; lia).
    fold (element (<[N.to_nat (arr_length a) := v]> els) (N.to_nat i)).
    rewrite element_insert. case_decide as Hd; [lia |].
    subst els. apply element_app_undefined. }
  split; [unfold mjs_array_length; rewrite H1; reflexivity |].
  split.
  { unfold mjs_array_get. rewrite H1. cbn [arr_length elements a1].
    assert ((arr_length a + 1 <=? arr_length a)%N = false) as -> by (apply N.leb_gt; lia).
    rewrite list_lookup_insert_eq by exact Hin. reflexivity. }
  split; [exact Hget |].
  unfold mjs_array_pop. rewrite H1. cbn [arr_length elements a1].
  assert ((arr_length a + 1 =? 0)%N = false) as -> by (apply N.eqb_neq; lia).
  rewrite size_sub_1 by lia. replace (arr_length a + 1 - 1)%N with (arr_length a) by lia.
  cbn [fst snd]. split.
  { rewrite list_lookup_insert_eq by exact Hin. reflexivity. }
  set (a2 := MkArray _ (arr_length a)).
  assert (load_array (store arr (PArray a2) (store arr (PArray a1) m)) arr = Some a2) as H2
      by exact (load_array_store _ arr a1 a2 H1).
  split; [unfold mjs_array_length; rewrite H2; reflexivity |].
  intros i. unfold mjs_array_get. rewrite H2, Ha. cbn [arr_length elements a2].
  destruct (arr_length a <=? i)%N eqn:E; [reflexivity |]. apply N.leb_gt in E.
  fold (element (<[N.to_nat (arr_length a) := mjs_value_undefined]>
                   (<[N.to_nat (arr_length a) := v]> els)) (N.to_nat i)).
  rewrite !element_insert. case_decide as Hd; [lia |]. case_decide as Hd'; [lia |].
  subst els. apply element_app_undefined.
Qed.

(** The heap of [new_array_gc] and the array [mjs_array_new] has put in
    it. *)
Definition new_array_memory : gmap N cell := memory new_array_gc.
Definition new_array_value : mjs_array_t :=
  MkArray (replicate 4 mjs_value_undefined) 0.

Lemma new_array_loaded : load_array new_array_memory new_array = Some new_array_value.
Proof. vm_compute. reflexivity. Qed.

(** The heap after the numbers of a list have been pushed on the new
    array, one after the other. *)
Definition pushed_all (l : list float) (m : gmap N cell) : gmap N cell :=
  fold_left
    (fun m x => match mjs_array_push m new_array (mjs_value_number x) with
                | Some (_, m') => m'
                | None => m
                end) l m.

(** The new array with 1, 2 and 3 pushed on it. *)
Definition three_memory : gmap N cell :=
  pushed_all [1%float; 2%float; 3%float] new_array_memory.
Definition three_value : mjs_array_t :=
  MkArray [mjs_value_number 1; mjs_value_number 2; mjs_value_number 3;
           mjs_value_undefined] 3.

Lemma three_loaded : load_array three_memory new_array = Some three_value.
Proof. vm_compute. reflexivity. Qed.

Lemma mjs_array_push_then_get_and_pop_witness :
  exists m',
    mjs_array_push new_array_memory new_array (mjs_value_number 7) = Some (true, m')
    /\ mjs_array_length m' new_array = (arr_length new_array_value + 1)%N
    /\ mjs_array_get m' new_array (arr_length new_array_value) = mjs_value_number 7.
Proof.
  assert (0 < arr_capacity new_array_value)%N as H1 by (vm_compute; reflexivity).
  assert (arr_capacity new_array_value < 2 ^ 64)%N as H2 by (vm_compute; reflexivity).
  assert (arr_length new_array_value < 2 ^ 59)%N as H3 by (vm_compute; reflexivity).
  destruct (mjs_array_push_then_get_and_pop new_array_memory new_array new_array_value
              (mjs_value_number 7) new_array_loaded H1 H2 H3)
    as (m' & A & B & C & _).
  exists m'. split; [exact A | split; [exact B | exact C]].
Defined.

Lemma fold_insert_undefined (n : nat) :
  forall (s : nat) (l : list mjs_value_t),
    let r := fold_left (fun l i => <[i := mjs_value_undefined]> l) (seq s n) l in
    length r = length l
    /\ forall j, element r j = if decide (s <= j < s + n)%nat then mjs_value_undefined
                               else element l j.
Proof.
  induction n as [| n IH]; intros s l; cbn [seq fold_left].
  - split; [reflexivity |]. intros j. case_decide; [lia | reflexivity].
  - destruct (IH (S s) (<[s := mjs_value_undefined]> l)) as [Hl He].
    split; [rewrite Hl; apply length_insert |].
    intros j. rewrite He. case_decide as H1; case_decide as H2; try reflexivity; try lia.
    + rewrite element_insert. case_decide as H3; [reflexivity |].
      unfold element. destruct (decide (s = j)) as [<- | Hne]; [| lia].
      rewrite (lookup_ge_None_2 l s) by lia. reflexivity.
    + rewrite element_insert. case_decide as H3; [lia | reflexivity].
Qed.

Lemma fill_undefined_spec from to l :
  length (fill_undefined from to l) = length l
  /\ forall j, element (fill_undefined from to l) j
               = if decide (N.to_nat from <= j < N.to_nat to)%nat then mjs_value_undefined
                 else element l j.
Proof.
  unfold fill_undefined.
  destruct (fold_insert_undefined (N.to_nat to - N.to_nat from) (N.to_nat from) l)
    as [Hl He].
  split; [exact Hl |]. intros j. rewrite He.
  case_decide; case_decide; try reflexivity; lia.
Qed.

Lemma mjs_array_get_element m arr a i :
  load_array m arr = Some a ->
  mjs_array_get m arr i
  = if (arr_length a <=? i)%N then mjs_value_undefined
    else element (elements a) (N.to_nat i).
Proof. intros H. unfold mjs_array_get. rewrite H. reflexivity. Qed.

(** X6. [mjs_array_set] at an index below [2 ^ 59] returns true and the
    value is read back at the index. An index at or past the length
    makes the length the index plus one, and the elements from the old
    length to the index read as undefined; every other index reads what
    it read before. *)
Theorem mjs_array_set_then_get :
  forall (m : gmap N cell) (arr : ptr) (a : mjs_array_t) (index : N) (v : mjs_value_t),
    load_array m arr = Some a ->
    (0 < arr_capacity a)%N -> (arr_capacity a < 2 ^ 64)%N ->
    (arr_length a <= arr_capacity a)%N ->
    (index < 2 ^ 59)%N ->
    exists m',
      mjs_array_set m arr index v = Some (true, m')
      /\ mjs_array_length m' arr = N.max (arr_length a) (index + 1)
      /\ mjs_array_get m' arr index = v
      /\ forall i, i <> index -> mjs_array_get m' arr i = mjs_array_get m arr i.
Proof.
  intros m arr a index v Ha Hc Hc64 Hinv Hi59.
  assert (index < 2 ^ 63)%N as Hi by lia.
  unfold mjs_array_set. rewrite Ha.
  destruct (arr_length a <=? index)%N eqn:E.
  - apply N.leb_le in E.
    destruct (mjs_array_ensure_capacity_ok a (size_add index 1) Hc Hc64)
      as (k & He & Hk); [rewrite size_add_1 by exact Hi; lia |].
    rewrite He. rewrite size_add_1 in Hk |- * by exact Hi. cbn [arr_length elements].
    set (els := elements a ++ replicate k mjs_value_undefined) in *.
    destruct (fill_undefined_spec (arr_length a) index els) as [Hl Hf].
    set (a1 := MkArray _ (index + 1)).
    eexists. split; [reflexivity |].
    assert (load_array (store arr (PArray a1) m) arr = Some a1) as H1
        by exact (load_array_store m arr a a1 Ha).
    assert (N.to_nat index < length els)%nat as Hin
        by (subst els; rewrite length_app, length_replicate; lia).
    split; [unfold mjs_array_length; rewrite H1; cbn; lia |].
    split.
    + rewrite (mjs_array_get_element _ _ _ _ H1). cbn [arr_length elements a1].
      assert ((index + 1 <=? index)%N = false) as -> by (apply N.leb_gt; lia).
      rewrite element_insert. case_decide as Hd; [reflexivity |]. lia.
    + intros i Hne.
      rewrite (mjs_array_get_element _ _ _ _ H1), (mjs_array_get_element _ _ _ _ Ha).
      cbn [arr_length elements a1].
      destruct (index + 1 <=? i)%N eqn:E1.
      * apply N.leb_le in E1.
        assert ((arr_length a <=? i)%N = true) as -> by (apply N.leb_le; lia).
        reflexivity.
      * apply N.leb_gt in E1. rewrite element_insert.
        case_decide as Hd; [lia |]. rewrite Hf.
        destruct (arr_length a <=? i)%N eqn:E2.
        -- apply N.leb_le in E2. case_decide; [reflexivity | lia].
        -- apply N.leb_gt in E2. case_decide; [lia |].
           subst els. apply element_app_undefined.
  - apply N.leb_gt in E.
    set (a1 := MkArray _ (arr_length a)).
    eexists. split; [reflexivity |].
    assert (load_array (store arr (PArray a1) m) arr = Some a1) as H1
        by exact (load_array_store m arr a a1 Ha).
    split; [unfold mjs_array_length; rewrite H1; cbn; lia |].
    split.
    + rewrite (mjs_array_get_element _ _ _ _ H1). cbn [arr_length elements a1].
      assert ((arr_length a <=? index)%N = false) as -> by (apply N.leb_gt; lia).
      rewrite element_insert. case_decide as Hd; [reflexivity |].
      unfold arr_capacity in Hinv. lia.
    + intros i Hne.
      rewrite (mjs_array_get_element _ _ _ _ H1), (mjs_array_get_element _ _ _ _ Ha).
      cbn [arr_length elements a1].
      destruct (arr_length a <=? i)%N; [reflexivity |].
      rewrite element_insert. case_decide as Hd; [lia | reflexivity].
Qed.

Lemma mjs_array_set_then_get_witness :
  exists m',
    mjs_array_set new_array_memory new_array 2 (mjs_value_number 7) = Some (true, m')
    /\ mjs_array_length m' new_array = N.max (arr_length new_array_value) (2 + 1)
    /\ mjs_array_get m' new_array 2 = mjs_value_number 7.
Proof.
  assert (0 < arr_capacity new_array_value)%N as H1 by (vm_compute; reflexivity).
  assert (arr_capacity new_array_value < 2 ^ 64)%N as H2 by (vm_compute; reflexivity).
  assert (arr_length new_array_value <= arr_capacity new_array_value)%N as H3
      by (vm_compute; discriminate).
  assert (2 < 2 ^ 59)%N as H4 by (vm_compute; reflexivity).
  destruct (mjs_array_set_then_get new_array_memory new_array new_array_value 2
              (mjs_value_number 7) new_array_loaded H1 H2 H3 H4)
    as (m' & A & B & C & _).
  exists m'. split; [exact A | split; [exact B | exact C]].
Defined.

(** From a capacity that is a power of two the doubling reaches [2 ^ 64],
    which wraps to 0, before it reaches a size above [2 ^ 63]; from 0 the
    loop of [mjs_array_ensure_capacity] goes on for ever. *)
Lemma grow_capacity_wraps fuel :
  forall (k : nat) (r : N),
    (k <= 63)%nat -> (2 ^ 63 < r)%N -> (64 - k <= fuel)%nat ->
    grow_capacity fuel (2 ^ N.of_nat k) r = None.
Proof.
  induction fuel as [| fuel IH]; intros k r Hk Hr Hf; [lia |].
  cbn [grow_capacity].
  assert (2 ^ N.of_nat k <= 2 ^ 63)%N as Hp by (apply N.pow_le_mono_r; lia).
  assert ((r <=? 2 ^ N.of_nat k)%N = false) as -> by (apply N.leb_gt; lia).
  assert ((2 ^ N.of_nat k =? 0)%N = false) as ->.
  { apply N.eqb_neq. apply N.pow_nonzero. lia. }
  destruct (decide (k = 63)%nat) as [-> | Hne].
  - assert (size_mul (2 ^ N.of_nat 63) 2 = 0%N) as -> by (vm_compute; reflexivity).
    destruct fuel as [| fuel]; cbn [grow_capacity];
      assert ((r <=? 0)%N = false) as -> by (apply N.leb_gt; lia); reflexivity.
  - assert (size_mul (2 ^ N.of_nat k) 2 = (2 ^ N.of_nat (S k))%N) as ->.
    { rewrite Nat2N.inj_succ, N.pow_succ_r'.
      assert (2 ^ N.of_nat k <= 2 ^ 62)%N by (apply N.pow_le_mono_r; lia).
      unfold size_mul, wrap_size_t. rewrite Z.mod_small by lia. lia. }
    apply IH; lia.
Qed.

(** X7. [mjs_array_set] at an index from [2 ^ 63] on, past the length of
    an array whose capacity is a power of two, as the capacities
    [mjs_array_new] and the doubling give, never returns: the loop of
    [mjs_array_ensure_capacity] doubles the capacity to 0 and stays
    there. *)
Theorem mjs_array_set_huge_index_never_returns :
  forall (m : gmap N cell) (arr : ptr) (a : mjs_array_t) (k : nat) (index : N)
         (v : mjs_value_t),
    load_array m arr = Some a ->
    arr_capacity a = (2 ^ N.of_nat k)%N -> (k <= 63)%nat ->
    (arr_length a <= index)%N ->
    (2 ^ 63 <= index)%N -> (index < 2 ^ 64 - 1)%N ->
    mjs_array_set m arr index v = None.
Proof.
  intros m arr a k index v Ha Hc Hk Hlen Hlo Hhi.
  unfold mjs_array_set. rewrite Ha.
  assert ((arr_length a <=? index)%N = true) as -> by (apply N.leb_le; exact Hlen).
  assert (size_add index 1 = (index + 1)%N) as ->.
  { unfold size_add, wrap_size_t. rewrite Z.mod_small by lia. lia. }
  unfold mjs_array_ensure_capacity. rewrite Hc.
  assert (2 ^ N.of_nat k <= 2 ^ 63)%N as Hp by (apply N.pow_le_mono_r; lia).
  assert ((index + 1 <=? 2 ^ N.of_nat k)%N = false) as -> by (apply N.leb_gt; lia).
  rewrite (grow_capacity_wraps 64 k (index + 1)) by lia. reflexivity.
Qed.

Lemma mjs_array_set_huge_index_never_returns_witness :
  mjs_array_set new_array_memory new_array (2 ^ 63) (mjs_value_number 7) = None.
Proof.
  assert (arr_capacity new_array_value = (2 ^ N.of_nat 2)%N) as H1
      by (vm_compute; reflexivity).
  assert (2 <= 63)%nat as H2 by lia.
  assert (arr_length new_array_value <= 2 ^ 63)%N as H3 by (vm_compute; discriminate).
  assert (2 ^ 63 <= 2 ^ 63)%N as H4 by (vm_compute; discriminate).
  assert (2 ^ 63 < 2 ^ 64 - 1)%N as H5 by (vm_compute; reflexivity).
  exact (mjs_array_set_huge_index_never_returns new_array_memory new_array
           new_array_value 2 (2 ^ 63) (mjs_value_number 7) new_array_loaded H1 H2 H3 H4 H5).
Defined.

Lemma move_right_spec n :
  forall l, (n < length l)%nat ->
    length (move_right n l) = length l
    /\ forall j, element (move_right n l) j
                 = if decide (1 <= j <= n)%nat then element l (j - 1) else element l j.
Proof.
  induction n as [| n IH]; intros l Hn; cbn [move_right].
  - split; [reflexivity |]. intros j. case_decide; [lia | reflexivity].
  - destruct (IH (<[S n := default mjs_value_undefined (l !! n)]> l)) as [Hl He];
      [rewrite length_insert; lia |].
    split; [rewrite Hl; apply length_insert |].
    intros j. rewrite He. fold (element l n).
    case_decide as H1; case_decide as H2; try lia; rewrite element_insert.
    + case_decide; [lia | reflexivity].
    + case_decide as H3; [| lia]. destruct H3 as [<- _].
      replace (S n - 1)%nat with n by lia. reflexivity.
    + case_decide; [lia | reflexivity].
Qed.

Lemma move_left_from n :
  forall s l, (s + n < length l)%nat ->
    let r := fold_left (fun l i => <[i := default mjs_value_undefined (l !! S i)]> l)
               (seq s n) l in
    length r = length l
    /\ forall j, element r j
                 = if decide (s <= j < s + n)%nat then element l (S j) else element l j.
Proof.
  induction n as [| n IH]; intros s l Hn; cbn [seq fold_left].
  - split; [reflexivity |]. intros j. case_decide; [lia | reflexivity].
  - destruct (IH (S s) (<[s := default mjs_value_undefined (l !! S s)]> l)) as [Hl He];
      [rewrite length_insert; lia |].
    split; [rewrite Hl; apply length_insert |].
    intros j. rewrite He. fold (element l (S s)).
    case_decide as H1; case_decide as H2; try lia; rewrite element_insert.
    + case_decide; [lia | reflexivity].
    + case_decide as H3; [| lia]. destruct H3 as [<- _]. reflexivity.
    + case_decide; [lia | reflexivity].
Qed.

Lemma move_left_spec n l :
  (n < length l)%nat ->
  length (move_left n l) = length l
  /\ forall j, element (move_left n l) j
               = if decide (j < n)%nat then element l (S j) else element l j.
Proof.
  intros Hn. destruct (move_left_from n 0 l Hn) as [Hl He].
  split; [exact Hl |]. intros j. unfold move_left. rewrite He.
  case_decide; case_decide; try reflexivity; lia.
Qed.

(** X8. [mjs_array_unshift] on an array of fewer than [2 ^ 59] elements,
    whose capacity is not 0, returns true; the value is element 0, every
    element is one place further and the length is one more.
    [mjs_array_shift] then returns the value and leaves an array with the
    length and the elements it had before. *)
Theorem mjs_array_unshift_then_shift :
  forall (m : gmap N cell) (arr : ptr) (a : mjs_array_t) (v : mjs_value_t),
    load_array m arr = Some a ->
    (0 < arr_capacity a)%N -> (arr_capacity a < 2 ^ 64)%N ->
    (arr_length a < 2 ^ 59)%N ->
    exists m',
      mjs_array_unshift m arr v = Some (true, m')
      /\ mjs_array_length m' arr = (arr_length a + 1)%N
      /\ mjs_array_get m' arr 0 = v
      /\ (forall i, (i < arr_length a)%N ->
                    mjs_array_get m' arr (i + 1) = mjs_array_get m arr i)
      /\ fst (mjs_array_shift m' arr) = v
      /\ mjs_array_length (snd (mjs_array_shift m' arr)) arr = arr_length a
      /\ (forall i, mjs_array_get (snd (mjs_array_shift m' arr)) arr i
                    = mjs_array_get m arr i).
Proof.
  intros m arr a v Ha Hc Hc64 Hlen59.
  assert (arr_length a < 2 ^ 63)%N as Hlen by lia.
  destruct (mjs_array_ensure_capacity_ok a (size_add (arr_length a) 1) Hc Hc64)
    as (k & He & Hk); [rewrite size_add_1 by exact Hlen; lia |].
  unfold mjs_array_unshift. rewrite Ha, He. rewrite size_add_1 in Hk |- * by exact Hlen.
  cbn [arr_length elements].
  set (els := elements a ++ replicate k mjs_value_undefined) in *.
  assert (N.to_nat (arr_length a) < length els)%nat as Hin
      by (subst els; rewrite length_app, length_replicate; lia).
  destruct (move_right_spec (N.to_nat (arr_length a)) els Hin) as [Hrl Hre].
  set (a1 := MkArray _ (arr_length a + 1)).
  eexists. split; [reflexivity |].
  assert (load_array (store arr (PArray a1) m) arr = Some a1) as H1
      by exact (load_array_store m arr a a1 Ha).
  assert (forall j, element (elements a1) j
                    = if decide (j = 0)%nat then v
                      else if decide (j <= N.to_nat (arr_length a))%nat
                           then element (elements a) (j - 1)
                           else element els j) as Hel.
  { intros j. subst a1. cbn [elements]. rewrite element_insert, Hre.
    repeat case_decide; try lia; try reflexivity.
    subst els. apply element_app_undefined. }
  split; [unfold mjs_array_length; rewrite H1; reflexivity |].
  split.
  { rewrite (mjs_array_get_element _ _ _ _ H1). cbn [arr_length a1].
    assert ((arr_length a + 1 <=? 0)%N = false) as -> by (apply N.leb_gt; lia).
    rewrite Hel. reflexivity. }
  split.
  { intros i Hi.
    rewrite (mjs_array_get_element _ _ _ _ H1), (mjs_array_get_element _ _ _ _ Ha).
    cbn [arr_length a1].
    assert ((arr_length a + 1 <=? i + 1)%N = false) as -> by (apply N.leb_gt; lia).
    assert ((arr_length a <=? i)%N = false) as -> by (apply N.leb_gt; lia).
    rewrite Hel. case_decide; [lia |]. case_decide; [| lia].
    f_equal. lia. }
  unfold mjs_array_shift. rewrite H1.
  assert (arr_length a1 = (arr_length a + 1)%N) as -> by reflexivity.
  assert ((arr_length a + 1 =? 0)%N = false) as -> by (apply N.eqb_neq; lia).
  rewrite size_sub_1 by lia. replace (arr_length a + 1 - 1)%N with (arr_length a) by lia.
  cbn [fst snd].
  assert (length (elements a1) = length els) as Hl1
      by (subst a1; cbn [elements]; rewrite length_insert; exact Hrl).
  split.
  { fold (element (elements a1) 0). rewrite Hel. reflexivity. }
  destruct (move_left_spec (N.to_nat (arr_length a)) (elements a1)) as [Hml Hme]; [lia |].
  set (a2 := MkArray _ (arr_length a)).
  assert (load_array (store arr (PArray a2) (store arr (PArray a1) m)) arr = Some a2) as H2
      by exact (load_array_store _ arr a1 a2 H1).
  split; [unfold mjs_array_length; rewrite H2; reflexivity |].
  intros i. rewrite (mjs_array_get_element _ _ _ _ H2), (mjs_array_get_element _ _ _ _ Ha).
  cbn [arr_length a2].
  destruct (arr_length a <=? i)%N eqn:E; [reflexivity |]. apply N.leb_gt in E.
  subst a2. cbn [elements]. rewrite element_insert. case_decide; [lia |].
  rewrite Hme. case_decide; [| lia]. rewrite Hel.
  case_decide; [lia |]. case_decide; [| lia]. f_equal. lia.
Qed.

Lemma mjs_array_unshift_then_shift_witness :
  exists m',
    mjs_array_unshift three_memory new_array (mjs_value_number 7) = Some (true, m')
    /\ mjs_array_length m' new_array = (arr_length three_value + 1)%N
    /\ mjs_array_get m' new_array 0 = mjs_value_number 7
    /\ (forall i, (i < arr_length three_value)%N ->
                  mjs_array_get m' new_array (i + 1) = mjs_array_get three_memory new_array i)
    /\ fst (mjs_array_shift m' new_array) = mjs_value_number 7
    /\ mjs_array_length (snd (mjs_array_shift m' new_array)) new_array
       = arr_length three_value
    /\ (forall i, mjs_array_get (snd (mjs_array_shift m' new_array)) new_array i
                  = mjs_array_get three_memory new_array i).
Proof.
  assert (0 < arr_capacity three_value)%N as H1 by (vm_compute; reflexivity).
  assert (arr_capacity three_value < 2 ^ 64)%N as H2 by (vm_compute; reflexivity).
  assert (arr_length three_value < 2 ^ 59)%N as H3 by (vm_compute; reflexivity).
  exact (mjs_array_unshift_then_shift three_memory new_array three_value
           (mjs_value_number 7) three_loaded H1 H2 H3).
Defined.

Lemma index_from_spec value l :
  forall from,
    match index_from value l from with
    | Some i =>
        exists k, i = (from + N.of_nat k)%N /\ (k < length l)%nat
                  /\ same_element (element l k) value = true
                  /\ forall j, (j < k)%nat -> same_element (element l j) value = false
    | None => forall j, (j < length l)%nat -> same_element (element l j) value = false
    end.
Proof.
  induction l as [| e l IH]; intros from; cbn [index_from].
  - intros j Hj. cbn in Hj. lia.
  - destruct (same_element e value) eqn:E.
    + exists O. split; [lia |]. split; [cbn; lia |]. split; [exact E |]. intros j Hj. lia.
    + specialize (IH (from + 1)%N). destruct (index_from value l (from + 1)%N) as [i |].
      * destruct IH as (k & -> & Hk & Hs & Hb). exists (S k).
        split; [lia |]. split; [cbn; lia |]. split; [exact Hs |].
        intros [| j] Hj; [exact E | apply Hb; lia].
      * intros [| j] Hj; [exact E | apply IH; cbn in Hj; lia].
Qed.

Lemma eqb_nan_r x : PrimFloat.eqb x PrimFloat.nan = false.
Proof.
  rewrite FloatAxioms.eqb_spec. destruct (Prim2SF x); vm_compute; reflexivity.
Qed.

Lemma to_long_small i : (i < 2 ^ 63)%N -> to_long i = Z.of_N i.
Proof.
  intros H. unfold to_long, wrap_long.
  replace (Z.of_N i + 2 ^ 63) with (Z.of_N i + 2 ^ 63 + 0 * 2 ^ 64) by lia.
  rewrite Z.mod_add by lia. rewrite Z.mod_small by lia. lia.
Qed.

(** X9. [mjs_array_index_of] on an array of fewer than [2 ^ 63]
    elements returns the first index from [start_index] on, below the
    length, whose element has the tag and the payload of the value, a
    string, an object or an array being found by its address; it returns
    -1 when there is none, and always for NaN. [mjs_array_includes] is
    true exactly when the index is not -1. *)
Theorem mjs_array_index_of_is_first_match :
  forall (m : gmap N cell) (arr : ptr) (a : mjs_array_t) (value : mjs_value_t)
         (start_index : N),
    load_array m arr = Some a ->
    (arr_length a <= arr_capacity a)%N -> (arr_length a < 2 ^ 63)%N ->
    ((mjs_array_index_of m arr value start_index = -1
      /\ mjs_array_includes m arr value start_index = false
      /\ forall i, (start_index <= i < arr_length a)%N ->
                   same_element (mjs_array_get m arr i) value = false)
     \/ (exists i,
            mjs_array_index_of m arr value start_index = Z.of_N i
            /\ mjs_array_includes m arr value start_index = true
            /\ (start_index <= i < arr_length a)%N
            /\ same_element (mjs_array_get m arr i) value = true
            /\ forall j, (start_index <= j < i)%N ->
                         same_element (mjs_array_get m arr j) value = false))
    /\ mjs_array_index_of m arr (VNumber PrimFloat.nan) start_index = -1.
Proof.
  intros m arr a value start_index Ha Hinv Hlen.
  assert (forall i, (i < arr_length a)%N ->
            mjs_array_get m arr i = element (elements a) (N.to_nat i)) as Hget.
  { intros i Hi. rewrite (mjs_array_get_element _ _ _ _ Ha).
    assert ((arr_length a <=? i)%N = false) as -> by (apply N.leb_gt; lia). reflexivity. }
  set (l := drop (N.to_nat start_index) (take (N.to_nat (arr_length a)) (elements a))).
  assert (forall k, (N.of_nat k < arr_length a - start_index)%N ->
            element l k = element (elements a) (N.to_nat start_index + k)) as Hl.
  { intros k Hk. unfold element. subst l. rewrite lookup_drop, lookup_take_lt by lia.
    reflexivity. }
  assert (length l = N.to_nat (arr_length a) - N.to_nat start_index)%nat as Hll.
  { subst l. rewrite length_drop, length_take. unfold arr_capacity in Hinv. lia. }
  split.
  - unfold mjs_array_includes, mjs_array_index_of. rewrite Ha.
    destruct (arr_length a <=? start_index)%N eqn:E.
    { apply N.leb_le in E. left. split; [reflexivity |]. split; [reflexivity |].
      intros i Hi. lia. }
    apply N.leb_gt in E. fold l.
    pose proof (index_from_spec value l start_index) as Hs.
    destruct (index_from value l start_index) as [i |].
    + destruct Hs as (k & -> & Hk & Hm & Hb).
      assert (start_index + N.of_nat k < arr_length a)%N as Hi by lia.
      right. exists (start_index + N.of_nat k)%N.
      rewrite to_long_small by lia. split; [reflexivity |]. split.
      { destruct (Z.of_N (start_index + N.of_nat k) =? -1) eqn:E1; [| reflexivity].
        apply Z.eqb_eq in E1. lia. }
      split; [lia |]. split.
      * rewrite Hget by exact Hi. rewrite Hl in Hm by lia.
        replace (N.to_nat (start_index + N.of_nat k))
          with (N.to_nat start_index + k)%nat by lia. exact Hm.
      * intros j Hj. rewrite Hget by lia.
        specialize (Hb (N.to_nat j - N.to_nat start_index)%nat).
        rewrite Hl in Hb by lia.
        replace (N.to_nat start_index + (N.to_nat j - N.to_nat start_index))%nat
          with (N.to_nat j) in Hb by lia.
        apply Hb. lia.
    + left. split; [reflexivity |]. split; [reflexivity |].
      intros i Hi. rewrite Hget by lia.
      specialize (Hs (N.to_nat i - N.to_nat start_index)%nat).
      rewrite Hl in Hs by lia.
      replace (N.to_nat start_index + (N.to_nat i - N.to_nat start_index))%nat
        with (N.to_nat i) in Hs by lia.
      apply Hs. lia.
  - unfold mjs_array_index_of. rewrite Ha.
    destruct (arr_length a <=? start_index)%N; [reflexivity |]. fold l.
    pose proof (index_from_spec (VNumber PrimFloat.nan) l start_index) as Hs.
    destruct (index_from _ l start_index) as [i |]; [| reflexivity].
    destruct Hs as (k & _ & _ & Hm & _). exfalso.
    unfold same_element in Hm. rewrite eqb_nan_r, andb_false_r in Hm. discriminate.
Qed.

(** The heap after 7 has been pushed on the new array. *)
Definition pushed_memory : gmap N cell :=
  match mjs_array_push new_array_memory new_array (mjs_value_number 7) with
  | Some (_, m) => m
  | None => new_array_memory
  end.
Definition pushed_value : mjs_array_t :=
  MkArray (mjs_value_number 7 :: replicate 3 mjs_value_undefined) 1.

Lemma pushed_loaded : load_array pushed_memory new_array = Some pushed_value.
Proof. vm_compute. reflexivity. Qed.

Lemma mjs_array_index_of_is_first_match_witness :
  mjs_array_index_of pushed_memory new_array (VNumber PrimFloat.nan) 0 = -1.
Proof.
  assert (arr_length pushed_value <= arr_capacity pushed_value)%N as H1
      by (vm_compute; discriminate).
  assert (arr_length pushed_value < 2 ^ 63)%N as H2 by (vm_compute; reflexivity).
  exact (proj2 (mjs_array_index_of_is_first_match pushed_memory new_array pushed_value
                  (mjs_value_number 7) 0 pushed_loaded H1 H2)).
Defined.

Lemma reverse_loop_spec fuel :
  forall left right l,
    (right < length l)%nat -> (right <= left + 2 * fuel)%nat ->
    length (reverse_loop fuel left right l) = length l
    /\ forall j, element (reverse_loop fuel left right l) j
                 = if decide (left <= j <= right)%nat then element l (left + right - j)
                   else element l j.
Proof.
  induction fuel as [| fuel IH]; intros left right l Hr Hf; cbn [reverse_loop].
  - split; [reflexivity |]. intros j. case_decide; [| reflexivity].
    f_equal. lia.
  - destruct (left <? right)%nat eqn:E.
    + apply Nat.ltb_lt in E. cbv zeta.
      fold (element l left). fold (element l right).
      set (l' := <[right := element l left]> (<[left := element l right]> l)).
      assert (length l' = length l) as Hl'
          by (subst l'; rewrite !length_insert; reflexivity).
      destruct (IH (S left) (right - 1)%nat l') as [Hl He]; [lia | lia |].
      split; [rewrite Hl; exact Hl' |].
      intros j. rewrite He. subst l'.
      repeat case_decide; try lia; rewrite !element_insert, ?length_insert;
        repeat case_decide; try lia; try reflexivity; f_equal; lia.
    + apply Nat.ltb_ge in E. split; [reflexivity |].
      intros j. case_decide; [| reflexivity]. f_equal. lia.
Qed.

(** What [mjs_array_reverse] does to an array whose elements are within
    its capacity. *)
Lemma mjs_array_reverse_spec m arr a :
  load_array m arr = Some a -> (arr_length a <= arr_capacity a)%N ->
  exists a',
    load_array (mjs_array_reverse m arr) arr = Some a'
    /\ arr_length a' = arr_length a /\ arr_capacity a' = arr_capacity a
    /\ forall i, (i < arr_length a)%N ->
                 mjs_array_get (mjs_array_reverse m arr) arr i
                 = mjs_array_get m arr (arr_length a - 1 - i).
Proof.
  intros Ha Hinv. unfold mjs_array_reverse. rewrite Ha.
  destruct (arr_length a <=? 1)%N eqn:E.
  - apply N.leb_le in E. exists a. split; [exact Ha |].
    split; [reflexivity |]. split; [reflexivity |].
    intros i Hi. f_equal. lia.
  - apply N.leb_gt in E. unfold arr_capacity in Hinv.
    destruct (reverse_loop_spec (N.to_nat (arr_length a)) 0
                (N.to_nat (arr_length a) - 1) (elements a)) as [Hl He]; [lia | lia |].
    set (a' := MkArray _ (arr_length a)).
    assert (load_array (store arr (PArray a') m) arr = Some a') as H1
        by exact (load_array_store m arr a a' Ha).
    exists a'. split; [exact H1 |]. split; [reflexivity |].
    split; [unfold arr_capacity; subst a'; cbn [elements]; rewrite Hl; reflexivity |].
    intros i Hi.
    rewrite (mjs_array_get_element _ _ _ _ H1), (mjs_array_get_element _ _ _ _ Ha).
    subst a'. cbn [arr_length elements].
    assert ((arr_length a <=? i)%N = false) as -> by (apply N.leb_gt; lia).
    assert ((arr_length a <=? arr_length a - 1 - i)%N = false) as ->
        by (apply N.leb_gt; lia).
    rewrite He. case_decide; [| lia]. f_equal. lia.
Qed.

(** X10. [mjs_array_reverse] keeps the length and puts at every index
    below it the element that was as far from the end; reversing twice
    gives back at every index what was read there. *)
Theorem mjs_array_reverse_mirrors :
  forall (m : gmap N cell) (arr : ptr) (a : mjs_array_t),
    load_array m arr = Some a -> (arr_length a <= arr_capacity a)%N ->
    mjs_array_length (mjs_array_reverse m arr) arr = arr_length a
    /\ (forall i, (i < arr_length a)%N ->
                  mjs_array_get (mjs_array_reverse m arr) arr i
                  = mjs_array_get m arr (arr_length a - 1 - i))
    /\ (forall i, mjs_array_get (mjs_array_reverse (mjs_array_reverse m arr) arr) arr i
                  = mjs_array_get m arr i).
Proof.
  intros m arr a Ha Hinv.
  destruct (mjs_array_reverse_spec m arr a Ha Hinv) as (a' & Ha' & Hl' & Hc' & Hg').
  split; [unfold mjs_array_length; rewrite Ha'; exact Hl' |].
  split; [exact Hg' |].
  destruct (mjs_array_reverse_spec _ arr a' Ha') as (a'' & Ha'' & Hl'' & _ & Hg'');
    [rewrite Hl', Hc'; exact Hinv |].
  intros i. destruct (arr_length a <=? i)%N eqn:E.
  - rewrite (mjs_array_get_element _ _ _ _ Ha''), (mjs_array_get_element _ _ _ _ Ha).
    rewrite Hl'', Hl', E. reflexivity.
  - apply N.leb_gt in E. rewrite Hg'' by lia. rewrite Hl'. rewrite Hg' by lia.
    f_equal. lia.
Qed.

Lemma mjs_array_reverse_mirrors_witness :
  mjs_array_length (mjs_array_reverse three_memory new_array) new_array
  = arr_length three_value
  /\ (forall i, (i < arr_length three_value)%N ->
                mjs_array_get (mjs_array_reverse three_memory new_array) new_array i
                = mjs_array_get three_memory new_array (arr_length three_value - 1 - i))
  /\ (forall i,
        mjs_array_get
          (mjs_array_reverse (mjs_array_reverse three_memory new_array) new_array)
          new_array i
        = mjs_array_get three_memory new_array i).
Proof.
  assert (arr_length three_value <= arr_capacity three_value)%N as H1
      by (vm_compute; discriminate).
  exact (mjs_array_reverse_mirrors three_memory new_array three_value three_loaded H1).
Defined.

(** ** Objects *)

Lemma find_index_all_false {A} (f : A -> bool) l :
  Forall (fun x => f x = false) l -> find_index f l = None.
Proof.
  induction 1 as [| x r Hx _ IH]; [reflexivity |].
  simpl. rewrite Hx, IH. reflexivity.
Qed.

Lemma find_index_map {A} (f : A -> bool) (g : A -> A) l :
  (forall x, f (g x) = f x) -> find_index f (map g l) = find_index f l.
Proof.
  intros H. induction l as [| y r IH]; [reflexivity |].
  simpl. rewrite H, IH. reflexivity.
Qed.

Lemma lookup_map {A B} (g : A -> B) (l : list A) (i : nat) :
  map g l !! i = g <$> l !! i.
Proof.
  revert i. induction l as [| y r IH]; intros [| i]; try reflexivity. apply IH.
Qed.

Lemma load_string_free_ne m str q :
  q <> str -> load_string (mjs_string_free m str) q = load_string m q.
Proof.
  intros H. unfold mjs_string_free. destruct (str =? NULL)%N; [reflexivity |].
  destruct (load_string m str); [| reflexivity].
  unfold load_string. rewrite load_store_ne by congruence. reflexivity.
Qed.

Lemma load_string_free_eq m str :
  str <> NULL -> load_string (mjs_string_free m str) str = None.
Proof.
  intros H. unfold mjs_string_free. apply N.eqb_neq in H. rewrite H.
  destruct (load_string m str) eqn:E; [| exact E].
  unfold load_string in *. unfold load in E.
  destruct (m !! str) as [c |] eqn:Ec; [| discriminate].
  rewrite (load_store_eq _ _ _ _ Ec). reflexivity.
Qed.

Lemma load_object_free m str q :
  load_object (mjs_string_free m str) q = load_object m q.
Proof.
  unfold mjs_string_free. destruct (str =? NULL)%N; [reflexivity |].
  destruct (load_string m str) as [s |] eqn:E; [| reflexivity].
  unfold load_object. rewrite load_store. case_decide as Hq; [| reflexivity].
  subst q. unfold load_string in E. unfold load in *.
  destruct (m !! str) as [c |]; [| reflexivity]. simpl in *.
  destruct (body c); try discriminate; reflexivity.
Qed.

(** The first match of a key in the chain of an object. *)
Lemma get_property_first m obj o k i :
  load_object m obj = Some o ->
  mjs_object_get_property m obj k = Some i ->
  find_index (key_matches m k) (properties o) = Some i.
Proof. intros Ho Hg. unfold mjs_object_get_property in Hg. rewrite Ho in Hg. exact Hg. Qed.

(** X11. [mjs_object_delete_property] on an object of the heap: a key
    the object has not is reported deleted and the heap stays as it is;
    a key whose first property is not configurable is refused and the
    heap stays as it is; otherwise that property leaves the chain, the
    count goes down by one, the string of its key is released, every
    property with another key string matches as before, and the key is
    not found any more when no other property of the chain had it. *)
Theorem mjs_object_delete_property_takes_first_match :
  forall (m : gmap N cell) (obj : ptr) (o : mjs_object_t) (k : string),
    load_object m obj = Some o ->
    (mjs_object_has_property m obj k = false ->
     mjs_object_delete_property m obj k = (true, m))
    /\ (forall i p,
          mjs_object_get_property m obj k = Some i -> properties o !! i = Some p ->
          if configurable p then
            fst (mjs_object_delete_property m obj k) = true
            /\ load_object (snd (mjs_object_delete_property m obj k)) obj
               = Some (MkObject (delete i (properties o)) (prototype o) (extensible o)
                         (size_sub (property_count o) 1))
            /\ load_string (snd (mjs_object_delete_property m obj k)) (key p) = None
            /\ (forall k' q, key q <> key p ->
                  key_matches (snd (mjs_object_delete_property m obj k)) k' q
                  = key_matches m k' q)
            /\ (Forall (fun q => key_matches m k q = false) (delete i (properties o)) ->
                mjs_object_has_property (snd (mjs_object_delete_property m obj k)) obj k
                = false)
          else mjs_object_delete_property m obj k = (false, m)).
Proof.
  intros m obj o k Ho. split.
  - unfold mjs_object_has_property, mjs_object_get_property, mjs_object_delete_property.
    rewrite Ho. destruct (find_index _ _); [discriminate | reflexivity].
  - intros i p Hg Hp. pose proof (get_property_first _ _ _ _ _ Ho Hg) as Hf.
    unfold mjs_object_delete_property. rewrite Ho, Hf, Hp.
    destruct (configurable p); [| reflexivity]. cbn [negb fst snd].
    destruct (find_index_some _ _ _ Hf) as (x & Hx & Hm).
    assert (x = p) as -> by congruence.
    assert (key p <> NULL) as Hk.
    { unfold key_matches in Hm. destruct (key p =? NULL)%N eqn:E; [discriminate |].
      apply N.eqb_neq. exact E. }
    set (o' := MkObject _ _ _ _).
    assert (forall k' q, key q <> key p ->
              key_matches (mjs_string_free (store obj (PObject o') m) (key p)) k' q
              = key_matches m k' q) as Hother.
    { intros k' q Hq. unfold key_matches.
      rewrite load_string_free_ne by exact Hq.
      rewrite (load_string_store_object m obj o o' _ Ho). reflexivity. }
    split; [reflexivity |]. split; [| split; [| split]].
    + rewrite load_object_free. apply (load_object_store m obj o o' Ho).
    + apply load_string_free_eq. exact Hk.
    + exact Hother.
    + intros Hall. unfold mjs_object_has_property, mjs_object_get_property.
      rewrite load_object_free, (load_object_store m obj o o' Ho). cbn [properties].
      rewrite find_index_all_false; [reflexivity |].
      eapply Forall_impl; [exact Hall |]. intros q Hq. cbv beta in Hq |- *.
      destruct (decide (key q = key p)) as [E | E].
      * unfold key_matches. rewrite E, load_string_free_eq by exact Hk.
        apply andb_false_r.
      * rewrite Hother by exact E. exact Hq.
Qed.

(** An object with one property that has a key: the global object of
    the fresh context after [x] has been defined on it. *)
Definition keyed_context : mjs_context_t :=
  snd (mjs_object_define_property fresh_context fresh_global "x" (mjs_value_number 1)
         true true true).
Definition keyed_property : mjs_property_t :=
  MkProperty 4224 (mjs_value_number 1) true true true.
Definition keyed_object : mjs_object_t := MkObject [keyed_property] NULL true 1.

Lemma keyed_loaded :
  load_object (ctx_memory keyed_context) fresh_global = Some keyed_object.
Proof. vm_compute. reflexivity. Qed.

Lemma keyed_found :
  mjs_object_get_property (ctx_memory keyed_context) fresh_global "x" = Some 0%nat.
Proof. vm_compute. reflexivity. Qed.

Lemma mjs_object_delete_property_takes_first_match_witness :
  fst (mjs_object_delete_property (ctx_memory keyed_context) fresh_global "x") = true
  /\ load_string (snd (mjs_object_delete_property (ctx_memory keyed_context)
                         fresh_global "x")) 4224
     = None.
Proof.
  assert (properties keyed_object !! 0%nat = Some keyed_property) as Hp by reflexivity.
  pose proof (proj2 (mjs_object_delete_property_takes_first_match
                       (ctx_memory keyed_context) fresh_global keyed_object "x"
                       keyed_loaded) 0%nat keyed_property keyed_found Hp) as H.
  change (configurable keyed_property) with true in H. cbv iota in H.
  exact (conj (proj1 H) (proj1 (proj2 (proj2 H)))).
Defined.

(** What [mjs_object_seal] and [mjs_object_freeze] do to a property
    leaves its key alone. *)
Lemma key_matches_key m k (p q : mjs_property_t) :
  key p = key q -> key_matches m k p = key_matches m k q.
Proof. intros H. unfold key_matches. rewrite H. reflexivity. Qed.

(** A store over an object whose properties are those of the object,
    each changed by [g], which keeps the keys: every key is found where
    it was, and its property is the changed one. *)
Lemma get_property_store_map m obj o g pt ex n k :
  load_object m obj = Some o ->
  (forall p, key (g p) = key p) ->
  mjs_object_get_property
    (store obj (PObject (MkObject (map g (properties o)) pt ex n)) m) obj k
  = mjs_object_get_property m obj k.
Proof.
  intros Ho Hg. rewrite (get_property_store m obj o _ k Ho). cbn [properties].
  unfold mjs_object_get_property. rewrite Ho.
  apply find_index_map. intros p. apply key_matches_key, Hg.
Qed.

(** X12. [mjs_object_freeze] on an object of the heap: the object is
    frozen, sealed and not extensible, every key is found where it was
    with the value it had; after it [mjs_object_set_property] and
    [mjs_object_delete_property] on a key the object has change nothing,
    the deletion returning false, and [mjs_object_define_property] fails
    with a type error on every key. A key the object has not is still
    added by [mjs_object_set_property], as a writable and configurable
    property, and the object is not frozen any more. *)
Theorem mjs_object_freeze_guards_present_keys_only :
  forall (ctx : mjs_context_t) (obj : ptr) (o : mjs_object_t),
    load_object (ctx_memory ctx) obj = Some o ->
    mjs_object_is_frozen (mjs_object_freeze (ctx_memory ctx) obj) obj = true
    /\ mjs_object_is_sealed (mjs_object_freeze (ctx_memory ctx) obj) obj = true
    /\ mjs_object_is_extensible (mjs_object_freeze (ctx_memory ctx) obj) obj = false
    /\ (forall k,
          mjs_object_get_property (mjs_object_freeze (ctx_memory ctx) obj) obj k
          = mjs_object_get_property (ctx_memory ctx) obj k
          /\ mjs_object_get_property_value (mjs_object_freeze (ctx_memory ctx) obj) obj k
             = mjs_object_get_property_value (ctx_memory ctx) obj k)
    /\ (forall k v,
          mjs_object_has_property (ctx_memory ctx) obj k = true ->
          mjs_object_set_property (mjs_object_freeze (ctx_memory ctx) obj) obj k v
          = mjs_object_freeze (ctx_memory ctx) obj
          /\ mjs_object_delete_property (mjs_object_freeze (ctx_memory ctx) obj) obj k
             = (false, mjs_object_freeze (ctx_memory ctx) obj))
    /\ (forall k v w e c,
          mjs_object_define_property
            (ctx_set_memory (mjs_object_freeze (ctx_memory ctx) obj) ctx) obj k v w e c
          = (MJS_ERROR_TYPE, ctx_set_memory (mjs_object_freeze (ctx_memory ctx) obj) ctx))
    /\ (forall k v,
          mjs_object_has_property (ctx_memory ctx) obj k = false ->
          mjs_object_is_frozen
            (mjs_object_set_property (mjs_object_freeze (ctx_memory ctx) obj) obj k v) obj
          = false
          /\ load_object
               (mjs_object_set_property (mjs_object_freeze (ctx_memory ctx) obj) obj k v)
               obj
             = Some (MkObject
                       (MkProperty NULL v true true true
                        :: map (fun p => MkProperty (key p) (value p) false (enumerable p)
                                           false) (properties o))
                       (prototype o) false (size_add (property_count o) 1))).
Proof.
  intros ctx obj o Ho. set (m := ctx_memory ctx) in *.
  set (g := fun p : mjs_property_t =>
              MkProperty (key p) (value p) false (enumerable p) false).
  set (o' := MkObject (map g (properties o)) (prototype o) false (property_count o)).
  assert (mjs_object_freeze m obj = store obj (PObject o') m) as Hfr.
  { unfold mjs_object_freeze. rewrite Ho. reflexivity. }
  rewrite Hfr.
  pose proof (load_object_store m obj o o' Ho) as Ho'.
  assert (forall k, mjs_object_get_property (store obj (PObject o') m) obj k
                    = mjs_object_get_property m obj k) as Hget.
  { intros k. apply get_property_store_map; [exact Ho | reflexivity]. }
  assert (forallb (fun p => negb (configurable p || writable p)) (map g (properties o))
          = true) as Hall.
  { apply forallb_forall. intros p Hp. apply in_map_iff in Hp.
    destruct Hp as (q & <- & _). reflexivity. }
  assert (forallb (fun p => negb (configurable p)) (map g (properties o)) = true) as Hall'.
  { apply forallb_forall. intros p Hp. apply in_map_iff in Hp.
    destruct Hp as (q & <- & _). reflexivity. }
  split; [unfold mjs_object_is_frozen; rewrite Ho'; exact Hall |].
  split; [unfold mjs_object_is_sealed; rewrite Ho'; exact Hall' |].
  split; [unfold mjs_object_is_extensible; rewrite Ho'; reflexivity |].
  split; [| split; [| split]].
  - intros k. split; [apply Hget |].
    unfold mjs_object_get_property_value, property_at. rewrite Hget, Ho', Ho.
    destruct (mjs_object_get_property m obj k) as [i |]; [| reflexivity].
    cbn [properties o']. rewrite lookup_map.
    destruct (properties o !! i); reflexivity.
  - intros k v Hh. unfold mjs_object_has_property in Hh.
    destruct (mjs_object_get_property m obj k) as [i |] eqn:Hi; [| discriminate].
    pose proof (get_property_first _ _ _ _ _ Ho Hi) as Hf.
    destruct (find_index_some _ _ _ Hf) as (p & Hp & _).
    assert (properties o' !! i = Some (g p)) as Hp'.
    { cbn [properties o']. rewrite lookup_map, Hp. reflexivity. }
    split.
    + unfold mjs_object_set_property. rewrite Ho', Hget, Hi, Hp'. reflexivity.
    + unfold mjs_object_delete_property. rewrite Ho'.
      pose proof (Hget k) as Hk. rewrite Hi in Hk.
      rewrite (get_property_first _ _ _ _ _ Ho' Hk), Hp'. reflexivity.
  - intros k v w e c. unfold mjs_object_define_property.
    change (ctx_memory (ctx_set_memory ?x _)) with x. rewrite Ho'. reflexivity.
  - intros k v Hh. unfold mjs_object_has_property in Hh.
    destruct (mjs_object_get_property m obj k) as [i |] eqn:Hi; [discriminate |].
    unfold mjs_object_set_property. rewrite Ho', Hget, Hi.
    split.
    + unfold mjs_object_is_frozen. rewrite (load_object_store _ obj o' _ Ho'). reflexivity.
    + apply (load_object_store _ obj o' _ Ho').
Qed.

Lemma mjs_object_freeze_guards_present_keys_only_witness :
  mjs_object_is_frozen (mjs_object_freeze (ctx_memory keyed_context) fresh_global)
    fresh_global = true
  /\ mjs_object_is_frozen
       (mjs_object_set_property (mjs_object_freeze (ctx_memory keyed_context) fresh_global)
          fresh_global "y" (mjs_value_number 2)) fresh_global
     = false.
Proof.
  pose proof (mjs_object_freeze_guards_present_keys_only keyed_context fresh_global
                keyed_object keyed_loaded) as H.
  assert (mjs_object_has_property (ctx_memory keyed_context) fresh_global "y" = false)
    as Hy by (vm_compute; reflexivity).
  split.
  - exact (proj1 H).
  - exact (proj1 (proj2 (proj2 (proj2 (proj2 (proj2 (proj2 H))))) "y"
                    (mjs_value_number 2) Hy)).
Defined.

(** X13. [mjs_object_seal] on an object of the heap: the object is
    sealed, and frozen exactly when none of its properties was writable;
    every key is found where it was with the value it had. After it
    [mjs_object_set_property] on a key the object has still stores the
    value when the property is writable, a deletion of such a key is
    refused, and [mjs_object_define_property] fails with a type error on
    every key. *)
Theorem mjs_object_seal_keeps_values_writable :
  forall (ctx : mjs_context_t) (obj : ptr) (o : mjs_object_t),
    load_object (ctx_memory ctx) obj = Some o ->
    mjs_object_is_sealed (mjs_object_seal (ctx_memory ctx) obj) obj = true
    /\ mjs_object_is_frozen (mjs_object_seal (ctx_memory ctx) obj) obj
       = forallb (fun p => negb (writable p)) (properties o)
    /\ (forall k,
          mjs_object_get_property (mjs_object_seal (ctx_memory ctx) obj) obj k
          = mjs_object_get_property (ctx_memory ctx) obj k
          /\ mjs_object_get_property_value (mjs_object_seal (ctx_memory ctx) obj) obj k
             = mjs_object_get_property_value (ctx_memory ctx) obj k)
    /\ (forall k v i p,
          mjs_object_get_property (ctx_memory ctx) obj k = Some i ->
          properties o !! i = Some p ->
          mjs_object_get_property_value
            (mjs_object_set_property (mjs_object_seal (ctx_memory ctx) obj) obj k v) obj k
          = (if writable p then v else value p)
          /\ mjs_object_delete_property (mjs_object_seal (ctx_memory ctx) obj) obj k
             = (false, mjs_object_seal (ctx_memory ctx) obj))
    /\ (forall k v w e c,
          mjs_object_define_property
            (ctx_set_memory (mjs_object_seal (ctx_memory ctx) obj) ctx) obj k v w e c
          = (MJS_ERROR_TYPE, ctx_set_memory (mjs_object_seal (ctx_memory ctx) obj) ctx)).
Proof.
  intros ctx obj o Ho. set (m := ctx_memory ctx) in *.
  set (g := fun p : mjs_property_t =>
              MkProperty (key p) (value p) (writable p) (enumerable p) false).
  set (o' := MkObject (map g (properties o)) (prototype o) false (property_count o)).
  assert (mjs_object_seal m obj = store obj (PObject o') m) as Hse.
  { unfold mjs_object_seal. rewrite Ho. reflexivity. }
  rewrite Hse.
  pose proof (load_object_store m obj o o' Ho) as Ho'.
  assert (forall k, mjs_object_get_property (store obj (PObject o') m) obj k
                    = mjs_object_get_property m obj k) as Hget.
  { intros k. apply get_property_store_map; [exact Ho | reflexivity]. }
  assert (forall k, mjs_object_get_property_value (store obj (PObject o') m) obj k
                    = mjs_object_get_property_value m obj k) as Hval.
  { intros k. unfold mjs_object_get_property_value, property_at. rewrite Hget, Ho', Ho.
    destruct (mjs_object_get_property m obj k) as [i |]; [| reflexivity].
    cbn [properties o']. rewrite lookup_map.
    destruct (properties o !! i); reflexivity. }
  split; [| split; [| split; [| split]]].
  - unfold mjs_object_is_sealed. rewrite Ho'. cbn [extensible properties o'].
    apply forallb_forall. intros p Hp. apply in_map_iff in Hp.
    destruct Hp as (q & <- & _). reflexivity.
  - unfold mjs_object_is_frozen. rewrite Ho'. cbn [extensible properties o'].
    clear. induction (properties o) as [| p r IH]; [reflexivity |].
    cbn [map forallb]. rewrite IH. reflexivity.
  - intros k. split; [apply Hget | apply Hval].
  - intros k v i p Hi Hp.
    assert (properties o' !! i = Some (g p)) as Hp'.
    { cbn [properties o']. rewrite lookup_map, Hp. reflexivity. }
    pose proof (Hget k) as Hk. rewrite Hi in Hk.
    split.
    + destruct (writable p) eqn:Hw.
      * apply (set_property_existing _ obj o' k v i (g p) Ho' Hk Hp'). exact Hw.
      * unfold mjs_object_set_property. rewrite Ho', Hk, Hp'. cbn [writable g].
        rewrite Hw, Hval. unfold mjs_object_get_property_value, property_at.
        rewrite Hi, Ho, Hp. reflexivity.
    + unfold mjs_object_delete_property. rewrite Ho'.
      rewrite (get_property_first _ _ _ _ _ Ho' Hk), Hp'. reflexivity.
  - intros k v w e c. unfold mjs_object_define_property.
    change (ctx_memory (ctx_set_memory ?x _)) with x. rewrite Ho'. reflexivity.
Qed.

Lemma mjs_object_seal_keeps_values_writable_witness :
  mjs_object_get_property_value
    (mjs_object_set_property (mjs_object_seal (ctx_memory keyed_context) fresh_global)
       fresh_global "x" (mjs_value_number 2)) fresh_global "x"
  = mjs_value_number 2.
Proof.
  assert (properties keyed_object !! 0%nat = Some keyed_property) as Hp by reflexivity.
  pose proof (mjs_object_seal_keeps_values_writable keyed_context fresh_global
                keyed_object keyed_loaded) as H.
  exact (proj1 (proj1 (proj2 (proj2 (proj2 H))) "x" (mjs_value_number 2) 0%nat
                  keyed_property keyed_found Hp)).
Defined.

(** X14. [mjs_object_define_property] on a key the object has: when the
    object is extensible and the first property of the key configurable,
    that property takes the value and the three attributes given and
    keeps its key and its place, and the count of the object stays;
    otherwise the call fails with a type error and changes nothing. *)
Theorem mjs_object_define_property_on_present_key :
  forall (ctx : mjs_context_t) (obj : ptr) (o : mjs_object_t) (k : string)
         (v : mjs_value_t) (w e c : bool) (i : nat) (p : mjs_property_t),
    load_object (ctx_memory ctx) obj = Some o ->
    mjs_object_get_property (ctx_memory ctx) obj k = Some i ->
    properties o !! i = Some p ->
    if extensible o && configurable p then
      fst (mjs_object_define_property ctx obj k v w e c) = MJS_OK
      /\ load_object (ctx_memory (snd (mjs_object_define_property ctx obj k v w e c))) obj
         = Some (MkObject (<[i := MkProperty (key p) v w e c]> (properties o))
                   (prototype o) (extensible o) (property_count o))
      /\ mjs_object_get_property
           (ctx_memory (snd (mjs_object_define_property ctx obj k v w e c))) obj k
         = Some i
      /\ mjs_object_get_property_value
           (ctx_memory (snd (mjs_object_define_property ctx obj k v w e c))) obj k
         = v
    else mjs_object_define_property ctx obj k v w e c = (MJS_ERROR_TYPE, ctx).
Proof.
  intros ctx obj o k v w e c i p Ho Hi Hp.
  unfold mjs_object_define_property. rewrite Ho, Hi, Hp.
  destruct (extensible o) eqn:He; [| reflexivity].
  destruct (configurable p) eqn:Hc; [| reflexivity].
  cbn [negb andb fst snd]. change (ctx_memory (ctx_set_memory ?x _)) with x.
  pose proof (get_property_first _ _ _ _ _ Ho Hi) as Hf.
  destruct (find_index_some _ _ _ Hf) as (x & Hx & Hm).
  assert (x = p) as -> by congruence.
  set (o' := MkObject _ _ _ _).
  pose proof (load_object_store _ obj o o' Ho) as Ho'.
  assert (mjs_object_get_property (store obj (PObject o') (ctx_memory ctx)) obj k = Some i)
    as Hi'.
  { rewrite (get_property_store _ obj o o' k Ho). cbn [properties o'].
    apply find_index_insert; [exact Hf |].
    rewrite (key_matches_key _ _ _ p) by reflexivity. exact Hm. }
  split; [reflexivity |]. split; [exact Ho' |]. split; [exact Hi' |].
  unfold mjs_object_get_property_value, property_at. rewrite Hi', Ho'.
  cbn [properties o'].
  rewrite list_lookup_insert_eq by (eapply lookup_lt_Some; exact Hp). reflexivity.
Qed.

Lemma mjs_object_define_property_on_present_key_witness :
  mjs_object_get_property_value
    (ctx_memory (snd (mjs_object_define_property keyed_context fresh_global "x"
                        (mjs_value_number 2) false true false))) fresh_global "x"
  = mjs_value_number 2.
Proof.
  assert (properties keyed_object !! 0%nat = Some keyed_property) as Hp by reflexivity.
  pose proof (mjs_object_define_property_on_present_key keyed_context fresh_global
                keyed_object "x" (mjs_value_number 2) false true false 0%nat
                keyed_property keyed_loaded keyed_found Hp) as H.
  change (extensible keyed_object && configurable keyed_property) with true in H.
  cbv iota in H.
  exact (proj2 (proj2 (proj2 H))).
Defined.

(** What [mjs_object_new] returns: the null pointer, or the address of a
    new object, empty and extensible, the payloads that were on the heap
    being as they were. *)
Lemma mjs_object_new_spec ctx obj ctx' :
  heap_room (ctx_gc ctx) 80 ->
  mjs_object_new ctx = (obj, ctx') ->
  heap (ctx_gc ctx') = heap (ctx_gc ctx)
  /\ ((obj = NULL /\ preserves (ctx_gc ctx) (ctx_gc ctx'))
      \/ (obj = (heap (ctx_gc ctx) + heap_used (ctx_gc ctx) + GC_HEADER_SIZE)%N
          /\ heap_used (ctx_gc ctx')
             = size_add (heap_used (ctx_gc ctx)) (size_add sizeof_mjs_object_t GC_HEADER_SIZE)
          /\ load_object (ctx_memory ctx') obj = Some (MkObject [] NULL true 0)
          /\ (forall q, q <> obj -> load (ctx_memory ctx') q = load (ctx_memory ctx) q))).
Proof.
  intros Hroom. unfold mjs_object_new.
  destruct (mjs_gc_alloc (ctx_gc ctx) sizeof_mjs_object_t GC_TYPE_OBJECT) as [p g] eqn:E.
  change 80%N with (sizeof_mjs_object_t + GC_HEADER_SIZE)%N in Hroom.
  apply mjs_gc_alloc_spec in E; [| exact Hroom].
  destruct E as (Hh & [[-> Hp] | (Hp & Hu & Hl & Ho)]).
  - simpl. intros [= <- <-]. split; [exact Hh |]. left. split; [reflexivity | exact Hp].
  - assert ((p =? NULL)%N = false) as ->.
    { apply N.eqb_neq. subst p. unfold GC_HEADER_SIZE, NULL. lia. }
    intros [= <- <-]. split; [exact Hh |]. right.
    split; [exact Hp |]. split; [exact Hu |].
    unfold ctx_memory, ctx_gc, load_object. simpl.
    assert (exists c, memory g !! p = Some c) as [c Hc].
    { unfold load in Hl. destruct (memory g !! p) as [c |]; [eauto | discriminate]. }
    split.
    + rewrite (load_store_eq _ _ _ _ Hc). reflexivity.
    + intros q Hq. rewrite load_store_ne by congruence. apply Ho. exact Hq.
Qed.

(** On a heap that has room [mjs_object_new] gives an object, and the
    heap has 80 bytes less room. *)
Lemma mjs_object_new_room ctx obj ctx' :
  heap_room (ctx_gc ctx) 80 ->
  mjs_object_new ctx = (obj, ctx') ->
  obj <> NULL
  /\ heap_size (ctx_gc ctx') = heap_size (ctx_gc ctx)
  /\ heap_used (ctx_gc ctx') = (heap_used (ctx_gc ctx) + 80)%N.
Proof.
  intros Hroom. unfold mjs_object_new.
  destruct (mjs_gc_alloc (ctx_gc ctx) sizeof_mjs_object_t GC_TYPE_OBJECT) as [p g] eqn:E.
  change 80%N with (sizeof_mjs_object_t + GC_HEADER_SIZE)%N in Hroom.
  destruct (mjs_gc_alloc_room _ _ _ _ _ Hroom E) as [Hs Hp].
  destruct (Hp ltac:(unfold sizeof_mjs_object_t; lia)) as [Hn Hu].
  apply N.eqb_neq in Hn. rewrite Hn. intros [= <- <-].
  apply N.eqb_neq in Hn. split; [exact Hn |]. split; [exact Hs | exact Hu].
Qed.

(** On a clone that is not extensible the loop fails at the first
    property with a key. *)
Lemma clone_properties_not_extensible clone c l :
  extensible c = false ->
  Exists (fun p => key p <> NULL) l ->
  forall ctx, load_object (ctx_memory ctx) clone = Some c ->
              fst (clone_properties ctx clone l) = false.
Proof.
  intros He. induction 1 as [p r Hp | p r _ IH]; intros ctx Hc; cbn [clone_properties].
  - apply N.eqb_neq in Hp. rewrite Hp.
    destruct (load_string (ctx_memory ctx) (key p)); [| reflexivity].
    unfold mjs_object_define_property. rewrite Hc, He. reflexivity.
  - destruct (key p =? NULL)%N; [apply IH; exact Hc |].
    destruct (load_string (ctx_memory ctx) (key p)); [| reflexivity].
    unfold mjs_object_define_property. rewrite Hc, He. reflexivity.
Qed.

(** X15. [mjs_object_clone] of an object that is not extensible and has
    a property with a key returns the null pointer, on a heap that has
    room for the clone, 80 bytes, and does not grow: the clone is made
    not extensible before the properties are defined on it, and the
    first definition fails. *)
Theorem mjs_object_clone_of_non_extensible_is_null :
  forall (ctx : mjs_context_t) (obj : ptr) (o : mjs_object_t),
    heap_below (ctx_gc ctx) ->
    heap_room (ctx_gc ctx) 80 ->
    load_object (ctx_memory ctx) obj = Some o ->
    extensible o = false ->
    Exists (fun p => key p <> NULL) (properties o) ->
    fst (mjs_object_clone ctx obj) = NULL.
Proof.
  intros ctx obj o Hb Hroom Ho He Hk. unfold mjs_object_clone. rewrite Ho.
  destruct (mjs_object_new ctx) as [clone ctx1] eqn:Hn.
  destruct (clone =? NULL)%N eqn:Hz; [reflexivity |].
  destruct (mjs_object_new_spec _ _ _ Hroom Hn) as (_ & [[-> _] | (Hp & _ & Hl & Hq)]);
    [discriminate |].
  assert (obj <> clone) as Hne.
  { unfold load_object in Ho.
    destruct (load (ctx_memory ctx) obj) as [b |] eqn:E; [| discriminate].
    apply (load_some_ne (ctx_gc ctx) clone obj b Hb Hp E). }
  assert (load_object (ctx_memory ctx1) obj = Some o) as Ho1.
  { unfold load_object. rewrite (Hq obj Hne). exact Ho. }
  rewrite Ho1, Hl. cbn [properties property_count].
  set (c := MkObject [] (prototype o) (extensible o) 0).
  pose proof (clone_properties_not_extensible clone c (properties o) He Hk
                (ctx_set_memory (store clone (PObject c) (ctx_memory ctx1)) ctx1)) as Hf.
  destruct (clone_properties _ clone (properties o)) as [ok ctx2].
  cbn [fst] in Hf. rewrite Hf; [reflexivity |].
  change (ctx_memory (ctx_set_memory ?x _)) with x.
  apply (load_object_store _ clone _ c Hl).
Qed.

(** The keyed object once sealed. *)
Definition sealed_context : mjs_context_t :=
  ctx_set_memory (mjs_object_seal (ctx_memory keyed_context) fresh_global) keyed_context.

Lemma mjs_object_clone_of_non_extensible_is_null_witness :
  fst (mjs_object_clone sealed_context fresh_global) = NULL.
Proof.
  assert (heap_below (ctx_gc sealed_context)) as Hb.
  { apply heap_below_check. vm_compute. reflexivity. }
  assert (load_object (ctx_memory sealed_context) fresh_global
          = Some (MkObject [MkProperty 4224 (mjs_value_number 1) true true false]
                    NULL false 1)) as Ho.
  { vm_compute. reflexivity. }
  assert (Exists (fun p => key p <> NULL)
            [MkProperty 4224 (mjs_value_number 1) true true false]) as Hk.
  { apply Exists_cons_hd. discriminate. }
  assert (heap_room (ctx_gc sealed_context) 80) as Hr
      by (split; vm_compute; [discriminate | reflexivity]).
  exact (mjs_object_clone_of_non_extensible_is_null sealed_context fresh_global _
           Hb Hr Ho eq_refl Hk).
Defined.

(** *** What a clone holds *)

Lemma find_app_first {A} (f : A -> bool) l1 l2 :
  List.find f (l1 ++ l2)
  = match List.find f l1 with Some x => Some x | None => List.find f l2 end.
Proof.
  induction l1 as [| x r IH]; [reflexivity |].
  simpl. destruct (f x); [reflexivity | exact IH].
Qed.

Lemma find_ext_in {A} (f g : A -> bool) l :
  (forall x, In x l -> f x = g x) -> List.find f l = List.find g l.
Proof.
  induction l as [| x r IH]; intros H; [reflexivity |].
  simpl. rewrite (H x (or_introl eq_refl)), IH; [reflexivity |].
  intros y Hy. apply H. right. exact Hy.
Qed.

Lemma find_index_find_none {A} (f : A -> bool) l :
  find_index f l = None -> List.find f l = None.
Proof.
  induction l as [| x r IH]; [reflexivity |].
  simpl. destruct (f x); [discriminate |].
  destruct (find_index f r); [discriminate |]. intros _. apply IH. reflexivity.
Qed.

(** A lookup of a key reads the first property of the chain that
    matches. *)
Lemma get_property_value_find m obj o k :
  load_object m obj = Some o ->
  mjs_object_get_property_value m obj k
  = match List.find (key_matches m k) (properties o) with
    | Some p => value p
    | None => mjs_value_undefined
    end.
Proof.
  intros Ho. unfold mjs_object_get_property_value, mjs_object_get_property, property_at.
  rewrite Ho. destruct (find_index _ _) as [i |] eqn:Hf.
  - destruct (find_index_some _ _ _ Hf) as (x & Hx & _).
    rewrite Hx, (find_index_find _ _ _ _ Hf Hx). reflexivity.
  - rewrite (find_index_find_none _ _ Hf). reflexivity.
Qed.

Lemma find_insert_no_match {A} (f : A -> bool) l i x y :
  l !! i = Some x -> f x = false -> f y = false ->
  List.find f (<[i := y]> l) = List.find f l.
Proof.
  revert i. induction l as [| z r IH]; intros [| i] Hx Fx Fy; try discriminate.
  - injection Hx as ->. simpl. rewrite Fx, Fy. reflexivity.
  - simpl. destruct (f z); [reflexivity |]. apply (IH i Hx Fx Fy).
Qed.

(** Two names with the same bytes before the first NUL match the same
    keys. *)
Lemma streq_same a k s : MJS_STREQ a k = true -> MJS_STREQ s k = MJS_STREQ s a.
Proof.
  unfold MJS_STREQ. intros H. apply String.eqb_eq in H. rewrite H. reflexivity.
Qed.

Lemma streq_other a k s : MJS_STREQ a k = false -> MJS_STREQ s a = true -> MJS_STREQ s k = false.
Proof.
  unfold MJS_STREQ. intros H Hs. apply String.eqb_eq in Hs. rewrite Hs. exact H.
Qed.

Lemma streq_bytes name k : MJS_STREQ (bytes name (strlen name)) k = MJS_STREQ name k.
Proof.
  unfold MJS_STREQ, bytes, strlen. rewrite Nat2N.id, substring_c_str, c_str_idem.
  reflexivity.
Qed.

Lemma heap_below_store g p b :
  heap_below g -> heap_below (gc_set_memory (store p b (memory g)) g).
Proof.
  intros Hb q c. cbn. unfold store. destruct (memory g !! p) as [c0 |] eqn:E.
  - destruct (decide (q = p)) as [-> | Hne].
    + intros _. apply (Hb p c0 E).
    + rewrite lookup_insert_ne by congruence. apply Hb.
  - apply Hb.
Qed.

(** One successful [mjs_object_define_property] on an object of a heap
    that has room for a key string: the heap keeps its shape and its
    size, at most the 88 bytes of the key are taken, the object keeps
    its place,
    its prototype and its extensibility, every other cell keeps its
    payload, and a lookup of a name reads the value defined when the name
    has the bytes of the key, and what it read before otherwise. *)
Lemma define_property_step ctx obj o name v w e c ctx1 :
  heap_below (ctx_gc ctx) ->
  heap_room (ctx_gc ctx) 88 ->
  load_object (ctx_memory ctx) obj = Some o ->
  mjs_object_define_property ctx obj name v w e c = (MJS_OK, ctx1) ->
  heap_below (ctx_gc ctx1)
  /\ (heap_size (ctx_gc ctx1) = heap_size (ctx_gc ctx)
      /\ Z.of_N (heap_used (ctx_gc ctx1)) <= Z.of_N (heap_used (ctx_gc ctx)) + 88)
  /\ (exists o1, load_object (ctx_memory ctx1) obj = Some o1
                 /\ prototype o1 = prototype o /\ extensible o1 = extensible o)
  /\ (forall q b, q <> obj -> load (ctx_memory ctx) q = Some b ->
                  load (ctx_memory ctx1) q = Some b)
  /\ (forall k, mjs_object_get_property_value (ctx_memory ctx1) obj k
                = if MJS_STREQ name k then v
                  else mjs_object_get_property_value (ctx_memory ctx) obj k).
Proof.
  intros Hb Hroom Ho.
  pose proof (heap_room_no_wrap _ _ Hroom) as Hw. change (Z.of_N 88) with 88 in Hw.
  unfold mjs_object_define_property. rewrite Ho.
  destruct (extensible o) eqn:He; [| discriminate]. cbn [negb].
  destruct (mjs_object_get_property (ctx_memory ctx) obj name) as [i |] eqn:Hi.
  - destruct (properties o !! i) as [existing |] eqn:Hp; [| discriminate].
    destruct (configurable existing); [| discriminate]. cbn [negb].
    intros [= <-]. change (ctx_memory (ctx_set_memory ?x _)) with x.
    change (ctx_gc (ctx_set_memory ?x ?y)) with (gc_set_memory x (ctx_gc y)).
    set (o' := MkObject _ _ _ _).
    pose proof (load_object_store _ obj o o' Ho) as Ho'.
    pose proof (get_property_first _ _ _ _ _ Ho Hi) as Hf.
    destruct (find_index_some _ _ _ Hf) as (x & Hx & Hm).
    assert (x = existing) as -> by congruence.
    split; [apply heap_below_store; exact Hb |].
    split; [split; [reflexivity | cbn; lia] |].
    split; [exists o'; split; [exact Ho' | split; reflexivity] |].
    split; [intros q b Hq Hl; rewrite load_store_ne by congruence; exact Hl |].
    intros k. rewrite (get_property_value_find _ _ _ k Ho').
    rewrite (get_property_value_find _ _ _ k Ho).
    rewrite (find_ext _ (key_matches (ctx_memory ctx) k))
      by (intros y; apply (key_matches_store_object _ _ o o' k y Ho)).
    cbn [properties o'].
    assert (forall k', key_matches (ctx_memory ctx) k' (MkProperty (key existing) v w e c)
                       = key_matches (ctx_memory ctx) k' existing) as Hkey
        by (intros k'; apply key_matches_key; reflexivity).
    destruct (MJS_STREQ name k) eqn:Hs.
    + assert (forall y, key_matches (ctx_memory ctx) k y
                        = key_matches (ctx_memory ctx) name y) as Hsame.
      { intros y. unfold key_matches. destruct (load_string _ (key y)); [| reflexivity].
        rewrite (streq_same _ _ _ Hs). reflexivity. }
      rewrite (find_ext _ _ _ Hsame).
      assert (find_index (key_matches (ctx_memory ctx) name)
                (<[i := MkProperty (key existing) v w e c]> (properties o)) = Some i) as Hf'.
      { apply find_index_insert; [exact Hf |]. rewrite Hkey. exact Hm. }
      rewrite (find_index_find _ _ _ (MkProperty (key existing) v w e c) Hf');
        [reflexivity |].
      apply list_lookup_insert_eq. eapply lookup_lt_Some. exact Hp.
    + assert (key_matches (ctx_memory ctx) k existing = false) as Hno.
      { unfold key_matches in Hm |- *.
        destruct (negb (key existing =? NULL)%N); [| reflexivity]. cbn [andb] in Hm |- *.
        destruct (load_string _ (key existing)); [| reflexivity].
        apply (streq_other _ _ _ Hs Hm). }
      rewrite (find_insert_no_match _ _ _ existing _ Hp Hno); [reflexivity |].
      rewrite Hkey. exact Hno.
  - destruct (mjs_string_new ctx name (strlen name)) as [kp ctx0] eqn:Hs.
    destruct (kp =? NULL)%N eqn:Hk; [discriminate |]. apply N.eqb_neq in Hk.
    destruct (new_key_is_found ctx ctx0 obj o name kp v w e c Hb Hroom Ho Hs Hk)
      as (Ho0 & Hnew).
    rewrite Ho0. intros [= <-]. change (ctx_memory (ctx_set_memory ?x _)) with x.
    change (ctx_gc (ctx_set_memory ?x ?y)) with (gc_set_memory x (ctx_gc y)).
    destruct (Hnew (prototype o) (extensible o) (size_add (property_count o) 1))
      as (Hl & Hm).
    destruct (mjs_string_new_room _ _ _ _ _ Hroom Hs) as (_ & Hsz & _).
    destruct (mjs_string_new_spec _ _ _ _ _ Hroom Hs)
      as (_ & _ & Hh & [[-> _] | (Hkp & Hu & Hls & Hq)]); [contradiction |].
    assert (size_add sizeof_mjs_string_t GC_HEADER_SIZE = 88%N) as E88
        by (vm_compute; reflexivity).
    rewrite E88 in Hu.
    assert (heap_used (ctx_gc ctx0) = (heap_used (ctx_gc ctx) + 88)%N) as Hu'.
    { rewrite Hu. unfold size_add, wrap_size_t. rewrite Z.mod_small by lia. lia. }
    assert (heap_below (ctx_gc ctx0)) as Hb0.
    { apply (heap_below_extend (ctx_gc ctx) (ctx_gc ctx0) kp 88 Hb Hh Hkp Hu);
        [lia | lia | exact Hq]. }
    set (o' := MkObject _ _ _ _) in *.
    assert (ctx_memory ctx !! kp = None) as Hfresh
        by (apply (heap_below_fresh _ _ Hb Hkp)).
    split; [apply heap_below_store; exact Hb0 |].
    split; [split; [exact Hsz | cbn; change (gc (runtime ctx0)) with (ctx_gc ctx0); lia] |].
    split; [exists o'; split; [exact Hl | split; [reflexivity | exact He]] |].
    split.
    { intros q b Hne Hq0. rewrite load_store_ne by congruence.
      rewrite Hq; [exact Hq0 |]. intros ->. unfold load in Hq0.
      change (memory (ctx_gc ctx)) with (ctx_memory ctx) in Hq0.
      rewrite Hfresh in Hq0. discriminate. }
    intros k. rewrite (get_property_value_find _ _ _ k Hl).
    rewrite (get_property_value_find _ _ _ k Ho).
    cbn [properties o' List.find].
    assert (key_matches (store obj (PObject o') (ctx_memory ctx0)) k (MkProperty kp v w e c)
            = MJS_STREQ name k) as Hhead.
    { rewrite (key_matches_store_object _ _ o _ _ _ Ho0).
      unfold key_matches. cbn [key]. apply N.eqb_neq in Hk. rewrite Hk, Hls.
      cbn [negb andb str_data]. apply streq_bytes. }
    rewrite Hhead. destruct (MJS_STREQ name k) eqn:Hsk; [reflexivity |].
    rewrite (find_ext _ (key_matches (ctx_memory ctx) k)); [reflexivity |].
    intros y. rewrite (key_matches_store_object _ _ o _ _ _ Ho0).
    unfold key_matches. destruct (decide (key y = kp)) as [E | E].
    + rewrite E, Hls. unfold load_string, load. rewrite Hfresh. cbn [str_data fmap option_fmap option_map].
      rewrite streq_bytes, Hsk. reflexivity.
    + unfold load_string. rewrite (Hq _ E). reflexivity.
Qed.

(** A key string that was on the heap is still the same string where
    every cell but one object kept its payload. *)
Lemma key_matches_kept m m' obj o k p :
  load_object m obj = Some o ->
  (forall q b, q <> obj -> load m q = Some b -> load m' q = Some b) ->
  key p = NULL \/ is_Some (load_string m (key p)) ->
  (key p = NULL \/ is_Some (load_string m' (key p)))
  /\ key_matches m' k p = key_matches m k p.
Proof.
  intros Ho Hk [Hz | [s Hs]].
  - split; [left; exact Hz |]. unfold key_matches. rewrite Hz. reflexivity.
  - assert (load m (key p) = Some (PString s)) as Hl.
    { unfold load_string in Hs. destruct (load m (key p)) as [[] |]; congruence. }
    assert (key p <> obj) as Hne.
    { intros E. unfold load_object in Ho. rewrite <- E, Hl in Ho. discriminate. }
    assert (load_string m' (key p) = Some s) as Hs'.
    { unfold load_string. rewrite (Hk _ _ Hne Hl). reflexivity. }
    split; [right; rewrite Hs'; eauto |].
    unfold key_matches. rewrite Hs, Hs'. reflexivity.
Qed.

(** The loop of [mjs_object_clone], when it succeeds on a heap that has
    room for the keys: a lookup on the clone reads the last
    property of the list that matches, and what it read before the loop
    when none does. *)
Lemma clone_properties_spec l :
  forall ctx clone c ctx',
    heap_below (ctx_gc ctx) ->
    heap_room (ctx_gc ctx) (88 * N.of_nat (length l)) ->
    load_object (ctx_memory ctx) clone = Some c ->
    Forall (fun p => key p = NULL \/ is_Some (load_string (ctx_memory ctx) (key p))) l ->
    clone_properties ctx clone l = (true, ctx') ->
    (exists c', load_object (ctx_memory ctx') clone = Some c'
                /\ prototype c' = prototype c /\ extensible c' = extensible c)
    /\ (forall q b, q <> clone -> load (ctx_memory ctx) q = Some b ->
                    load (ctx_memory ctx') q = Some b)
    /\ (forall k, mjs_object_get_property_value (ctx_memory ctx') clone k
                  = match List.find (key_matches (ctx_memory ctx) k) (rev l) with
                    | Some p => value p
                    | None => mjs_object_get_property_value (ctx_memory ctx) clone k
                    end).
Proof.
  induction l as [| p next IH]; intros ctx clone c ctx' Hb Hw Hc Hkeys Hrun.
  - injection Hrun as <-. split; [exists c; auto |]. split; [auto | reflexivity].
  - cbn [clone_properties] in Hrun. cbn [length] in Hw.
    rewrite Nat2N.inj_succ in Hw.
    assert (heap_room (ctx_gc ctx) (88 * N.of_nat (length next))) as Hw'
        by (eapply heap_room_less; [exact Hw | lia]).
    assert (heap_room (ctx_gc ctx) 88) as Hw1
        by (eapply heap_room_less; [exact Hw | lia]).
    apply Forall_cons in Hkeys. destruct Hkeys as [Hp Hnext].
    cbn [rev].
    destruct (key p =? NULL)%N eqn:Hz.
    + destruct (IH ctx clone c ctx' Hb Hw' Hc Hnext Hrun) as (I1 & I2 & I3).
      split; [exact I1 |]. split; [exact I2 |].
      intros k. rewrite I3, find_app_first.
      destruct (List.find _ (rev next)); [reflexivity |].
      cbn [List.find]. unfold key_matches at 1. rewrite Hz. reflexivity.
    + destruct Hp as [Hp | [s Hs]]; [apply N.eqb_neq in Hz; contradiction |].
      rewrite Hs in Hrun.
      destruct (mjs_object_define_property ctx clone (str_data s) (value p) (writable p)
                  (enumerable p) (configurable p)) as [result ctx1] eqn:Hd.
      destruct result; try discriminate.
      destruct (define_property_step _ _ _ _ _ _ _ _ _ Hb Hw1 Hc Hd)
        as (Hb1 & (Hs1 & Hu1) & (c1 & Hc1 & Hpt & Hex) & Hkept & Hlook).
      assert (heap_room (ctx_gc ctx1) (88 * N.of_nat (length next))) as Hw2.
      { eapply heap_room_less; [apply (heap_room_step _ _ _ 88 Hw Hs1); lia | lia]. }
      assert (Forall (fun q => (key q = NULL
                                \/ is_Some (load_string (ctx_memory ctx1) (key q)))
                               /\ forall k, key_matches (ctx_memory ctx1) k q
                                            = key_matches (ctx_memory ctx) k q) next)
        as Hnext1.
      { eapply Forall_impl; [exact Hnext |]. intros q Hq. cbv beta in Hq |- *.
        split; [apply (key_matches_kept _ _ _ _ "" q Hc Hkept Hq) |].
        intros k. apply (key_matches_kept _ _ _ _ k q Hc Hkept Hq). }
      destruct (IH ctx1 clone c1 ctx' Hb1 Hw2 Hc1) as (I1 & I2 & I3).
      { eapply Forall_impl; [exact Hnext1 |]. intros q Hq. apply Hq. }
      { exact Hrun. }
      split; [destruct I1 as (c' & E1 & E2 & E3); exists c'; split;
              [exact E1 | split; congruence] |].
      split; [intros q b Hq Hl; apply (I2 q b Hq), (Hkept q b Hq Hl) |].
      intros k. rewrite I3, find_app_first.
      rewrite (find_ext_in _ (key_matches (ctx_memory ctx) k)).
      * destruct (List.find _ (rev next)); [reflexivity |].
        rewrite Hlook. cbn [List.find]. unfold key_matches at 1. rewrite Hz, Hs.
        cbn [negb andb]. destruct (MJS_STREQ (str_data s) k); reflexivity.
      * intros x Hx. apply in_rev in Hx.
        rewrite List.Forall_forall in Hnext1. apply (Hnext1 x Hx).
Qed.

Lemma find_rev_single {A} (f : A -> bool) l :
  (length (List.filter f l) <= 1)%nat -> List.find f (rev l) = List.find f l.
Proof.
  induction l as [| x r IH]; [reflexivity |].
  cbn [rev]. rewrite find_app_first. simpl. destruct (f x) eqn:Fx; cbn [length].
  - intros H. assert (List.filter f r = []) as Hnil.
    { destruct (List.filter f r); [reflexivity | simpl in H; lia]. }
    assert (List.find f (rev r) = None) as ->; [| reflexivity].
    destruct (List.find f (rev r)) as [y |] eqn:Hy; [| reflexivity].
    apply find_some in Hy. destruct Hy as [Hin Fy]. apply in_rev in Hin.
    assert (In y (List.filter f r)) as Hin' by (apply filter_In; split; assumption).
    rewrite Hnil in Hin'. destruct Hin'.
  - intros H. rewrite (IH H). destruct (List.find f r); reflexivity.
Qed.

(** X16. [mjs_object_clone] on a heap that has room for the clone, 80
    bytes, and for a key string, 88 bytes, for each property, so that it
    does not grow, of an object whose keys are strings of the heap: when
    it returns an address, no cell was there before and the object is as
    it was; the clone has the prototype and the extensibility of the
    object, and a lookup of a name on it reads the last property of the
    chain of the object that the name matches, or undefined when none
    does. For a name that at most one property of the chain matches, the
    clone reads what the object reads. *)
Theorem mjs_object_clone_reads_last_match :
  forall (ctx : mjs_context_t) (obj : ptr) (o : mjs_object_t),
    heap_below (ctx_gc ctx) ->
    heap_room (ctx_gc ctx) (80 + 88 * N.of_nat (length (properties o))) ->
    load_object (ctx_memory ctx) obj = Some o ->
    Forall (fun p => key p = NULL \/ is_Some (load_string (ctx_memory ctx) (key p)))
      (properties o) ->
    fst (mjs_object_clone ctx obj) <> NULL ->
    ctx_memory ctx !! fst (mjs_object_clone ctx obj) = None
    /\ load_object (ctx_memory (snd (mjs_object_clone ctx obj))) obj = Some o
    /\ mjs_object_get_prototype (ctx_memory (snd (mjs_object_clone ctx obj)))
         (fst (mjs_object_clone ctx obj))
       = prototype o
    /\ mjs_object_is_extensible (ctx_memory (snd (mjs_object_clone ctx obj)))
         (fst (mjs_object_clone ctx obj))
       = extensible o
    /\ (forall k,
          mjs_object_get_property_value (ctx_memory (snd (mjs_object_clone ctx obj)))
            (fst (mjs_object_clone ctx obj)) k
          = match List.find (key_matches (ctx_memory ctx) k) (rev (properties o)) with
            | Some p => value p
            | None => mjs_value_undefined
            end)
    /\ (forall k,
          (length (List.filter (key_matches (ctx_memory ctx) k) (properties o)) <= 1)%nat ->
          mjs_object_get_property_value (ctx_memory (snd (mjs_object_clone ctx obj)))
            (fst (mjs_object_clone ctx obj)) k
          = mjs_object_get_property_value (ctx_memory ctx) obj k).
Proof.
  intros ctx obj o Hb Hroom Ho Hkeys.
  assert (heap_room (ctx_gc ctx) 80) as Hroom80
      by (eapply heap_room_less; [exact Hroom | lia]).
  pose proof (heap_room_no_wrap _ _ Hroom80) as Hw. change (Z.of_N 80) with 80 in Hw.
  unfold mjs_object_clone. rewrite Ho.
  destruct (mjs_object_new ctx) as [clone ctx1] eqn:Hn.
  destruct (clone =? NULL)%N eqn:Hz; [intros H; contradiction |].
  destruct (mjs_object_new_room _ _ _ Hroom80 Hn) as (_ & Hsz1 & Hused1).
  destruct (mjs_object_new_spec _ _ _ Hroom80 Hn) as (Hh & [[-> _] | (Hp & Hu & Hl & Hq)]);
    [discriminate |].
  assert (ctx_memory ctx !! clone = None) as Hfresh by apply (heap_below_fresh _ _ Hb Hp).
  assert (obj <> clone) as Hne.
  { unfold load_object in Ho.
    destruct (load (ctx_memory ctx) obj) as [b |] eqn:E; [| discriminate].
    apply (load_some_ne (ctx_gc ctx) clone obj b Hb Hp E). }
  assert (load_object (ctx_memory ctx1) obj = Some o) as Ho1.
  { unfold load_object. rewrite (Hq obj Hne). exact Ho. }
  rewrite Ho1, Hl. cbn [properties property_count].
  set (c := MkObject [] (prototype o) (extensible o) 0).
  set (ctx2 := ctx_set_memory (store clone (PObject c) (ctx_memory ctx1)) ctx1).
  assert (size_add sizeof_mjs_object_t GC_HEADER_SIZE = 80%N) as E80
      by (vm_compute; reflexivity).
  rewrite E80 in Hu.
  assert (heap_used (ctx_gc ctx1) = (heap_used (ctx_gc ctx) + 80)%N) as Hu'.
  { rewrite Hu. unfold size_add, wrap_size_t. rewrite Z.mod_small by lia. lia. }
  assert (heap_below (ctx_gc ctx1)) as Hb1.
  { apply (heap_below_extend (ctx_gc ctx) (ctx_gc ctx1) clone 80 Hb Hh Hp Hu);
      [lia | lia | exact Hq]. }
  assert (heap_below (ctx_gc ctx2)) as Hb2 by (apply heap_below_store; exact Hb1).
  assert (load_object (ctx_memory ctx2) clone = Some c) as Hc2
      by apply (load_object_store _ clone _ c Hl).
  assert (forall q b, q <> clone -> load (ctx_memory ctx) q = Some b ->
                      load (ctx_memory ctx2) q = Some b) as Hkept.
  { intros q b Hqc Hlq. unfold ctx2. change (ctx_memory (ctx_set_memory ?x _)) with x.
    rewrite load_store_ne by congruence. rewrite (Hq q Hqc). exact Hlq. }
  assert (forall p, key p = NULL \/ is_Some (load_string (ctx_memory ctx) (key p)) ->
                    (key p = NULL \/ is_Some (load_string (ctx_memory ctx2) (key p)))
                    /\ forall k, key_matches (ctx_memory ctx2) k p
                                 = key_matches (ctx_memory ctx) k p) as Hkm.
  { intros p [Hz0 | [s Hs]].
    - split; [left; exact Hz0 |]. intros k. unfold key_matches. rewrite Hz0. reflexivity.
    - assert (load (ctx_memory ctx) (key p) = Some (PString s)) as Hls.
      { unfold load_string in Hs. destruct (load (ctx_memory ctx) (key p)) as [[] |];
          congruence. }
      assert (key p <> clone) as Hkc.
      { intros E. unfold load in Hls. rewrite E, Hfresh in Hls. discriminate. }
      assert (load_string (ctx_memory ctx2) (key p) = Some s) as Hs2.
      { unfold load_string. rewrite (Hkept _ _ Hkc Hls). reflexivity. }
      split; [right; rewrite Hs2; eauto |].
      intros k. unfold key_matches. rewrite Hs, Hs2. reflexivity. }
  destruct (clone_properties ctx2 clone (properties o)) as [ok ctx3] eqn:Hrun.
  destruct ok; [| intros H; contradiction]. intros _. cbn [fst snd].
  destruct (clone_properties_spec (properties o) ctx2 clone c ctx3 Hb2) as (I1 & I2 & I3).
  { change (ctx_gc ctx2) with (gc_set_memory (store clone (PObject c) (ctx_memory ctx1))
                                 (ctx_gc ctx1)).
    destruct Hroom as [R1 R2].
    split; cbn [heap_used heap_size gc_set_memory]; rewrite ?Hsz1; [lia | exact R2]. }
  { exact Hc2. }
  { eapply Forall_impl; [exact Hkeys |]. intros p Hpk. apply (Hkm p Hpk). }
  { exact Hrun. }
  destruct I1 as (c' & Hc' & Hpt & Hex).
  assert (forall k,
             mjs_object_get_property_value (ctx_memory ctx3) clone k
             = match List.find (key_matches (ctx_memory ctx) k) (rev (properties o)) with
               | Some p => value p
               | None => mjs_value_undefined
               end) as Hread.
  { intros k. rewrite I3.
    rewrite (find_ext_in _ (key_matches (ctx_memory ctx) k)).
    - rewrite (get_property_value_find _ _ _ k Hc2). reflexivity.
    - intros x Hx. apply in_rev in Hx.
      rewrite List.Forall_forall in Hkeys. apply (Hkm x (Hkeys x Hx)). }
  split; [exact Hfresh |]. split; [| split; [| split; [| split]]].
  - unfold load_object in Ho |- *.
    destruct (load (ctx_memory ctx) obj) as [b |] eqn:E; [| discriminate].
    rewrite (I2 obj b Hne (Hkept obj b Hne E)). exact Ho.
  - unfold mjs_object_get_prototype. rewrite Hc'. exact Hpt.
  - unfold mjs_object_is_extensible. rewrite Hc'. exact Hex.
  - exact Hread.
  - intros k Hone. rewrite Hread, (find_rev_single _ _ Hone).
    rewrite (get_property_value_find _ _ _ k Ho). reflexivity.
Qed.

Lemma mjs_object_clone_reads_last_match_witness :
  mjs_object_get_property_value (ctx_memory (snd (mjs_object_clone keyed_context fresh_global)))
    (fst (mjs_object_clone keyed_context fresh_global)) "x"
  = mjs_object_get_property_value (ctx_memory keyed_context) fresh_global "x".
Proof.
  assert (heap_below (ctx_gc keyed_context)) as Hb.
  { apply heap_below_check. vm_compute. reflexivity. }
  assert (heap_room (ctx_gc keyed_context)
            (80 + 88 * N.of_nat (length (properties keyed_object)))) as Hw.
  { split; vm_compute; [discriminate | reflexivity]. }
  assert (Forall (fun p => key p = NULL
                           \/ is_Some (load_string (ctx_memory keyed_context) (key p)))
            (properties keyed_object)) as Hkeys.
  { apply Forall_cons. split; [| apply Forall_nil; exact I].
    right. vm_compute. eexists. reflexivity. }
  assert (fst (mjs_object_clone keyed_context fresh_global) <> NULL) as Hc.
  { vm_compute. discriminate. }
  assert (length (List.filter (key_matches (ctx_memory keyed_context) "x")
                    (properties keyed_object)) <= 1)%nat as Hone.
  { vm_compute. lia. }
  pose proof (mjs_object_clone_reads_last_match keyed_context fresh_global keyed_object
                Hb Hw keyed_loaded Hkeys Hc) as H.
  exact (proj2 (proj2 (proj2 (proj2 (proj2 H)))) "x" Hone).
Defined.

(** ** Compiled expressions *)

(** The binary and the unary operators the compiler has an instruction
    for, each with its instruction and with the helper of vm.c the
    instruction applies to its operands. *)
Definition binary_helper (operator : mjs_token_type_t)
  : option (mjs_opcode_t * (mjs_vm_t -> mjs_value_t -> mjs_value_t -> mjs_value_t)) :=
  match operator with
  | TOKEN_PLUS => Some (OP_ADD, vm_add)
  | TOKEN_MINUS => Some (OP_SUB, vm_subtract)
  | TOKEN_MULTIPLY => Some (OP_MUL, vm_multiply)
  | TOKEN_DIVIDE => Some (OP_DIV, vm_divide)
  | TOKEN_MODULO => Some (OP_MOD, vm_modulo)
  | TOKEN_EQUAL => Some (OP_EQ, fun vm a b => mjs_value_boolean (vm_equals vm a b))
  | TOKEN_NOT_EQUAL => Some (OP_NE, fun vm a b => mjs_value_boolean (negb (vm_equals vm a b)))
  | TOKEN_LESS_THAN => Some (OP_LT, fun vm a b => mjs_value_boolean (vm_less_than vm a b))
  | TOKEN_LESS_EQUAL =>
      Some (OP_LE, fun vm a b => mjs_value_boolean (vm_less_than_or_equal vm a b))
  | TOKEN_GREATER_THAN =>
      Some (OP_GT, fun vm a b => mjs_value_boolean (vm_greater_than vm a b))
  | TOKEN_GREATER_EQUAL =>
      Some (OP_GE, fun vm a b => mjs_value_boolean (vm_greater_than_or_equal vm a b))
  | TOKEN_LOGICAL_AND =>
      Some (OP_AND,
            fun vm a b =>
              mjs_value_boolean
                (mjs_to_boolean (vm_memory vm) a && mjs_to_boolean (vm_memory vm) b))
  | TOKEN_LOGICAL_OR =>
      Some (OP_OR,
            fun vm a b =>
              mjs_value_boolean
                (mjs_to_boolean (vm_memory vm) a || mjs_to_boolean (vm_memory vm) b))
  | TOKEN_BITWISE_AND =>
      Some (OP_BIT_AND,
            fun vm a b => mjs_value_number (of_int32 (Z.land (to_int32 vm a) (to_int32 vm b))))
  | TOKEN_BITWISE_OR =>
      Some (OP_BIT_OR,
            fun vm a b => mjs_value_number (of_int32 (Z.lor (to_int32 vm a) (to_int32 vm b))))
  | TOKEN_BITWISE_XOR =>
      Some (OP_BIT_XOR,
            fun vm a b => mjs_value_number (of_int32 (Z.lxor (to_int32 vm a) (to_int32 vm b))))
  | TOKEN_LEFT_SHIFT =>
      Some (OP_SHL,
            fun vm a b =>
              mjs_value_number
                (of_int32 (wrap_int (Z.shiftl (to_int32 vm a) (Z.land (to_int32 vm b) 31)))))
  | TOKEN_RIGHT_SHIFT =>
      Some (OP_SHR,
            fun vm a b =>
              mjs_value_number
                (of_int32 (Z.shiftr (to_int32 vm a) (Z.land (to_int32 vm b) 31))))
  | _ => None
  end.

Definition unary_helper (operator : mjs_token_type_t)
  : option (mjs_opcode_t * (mjs_vm_t -> mjs_value_t -> mjs_value_t)) :=
  match operator with
  | TOKEN_PLUS => Some (OP_PLUS, vm_unary_plus)
  | TOKEN_MINUS => Some (OP_NEG, vm_negate)
  | TOKEN_LOGICAL_NOT =>
      Some (OP_NOT, fun vm a => mjs_value_boolean (negb (mjs_to_boolean (vm_memory vm) a)))
  | TOKEN_BITWISE_NOT =>
      Some (OP_BIT_NOT, fun vm a => mjs_value_number (of_int32 (Z.lnot (to_int32 vm a))))
  | _ => None
  end.

(** The expressions made of number literals and of these operators. *)
Fixpoint closed_expression (e : mjs_ast_node_t) : bool :=
  match e with
  | AST_LITERAL_NUMBER _ => true
  | AST_BINARY_EXPRESSION operator l r =>
      match binary_helper operator with
      | Some _ => closed_expression l && closed_expression r
      | None => false
      end
  | AST_UNARY_EXPRESSION operator a prefix =>
      match unary_helper operator with
      | Some _ => prefix && closed_expression a
      | None => false
      end
  | _ => false
  end.

(** The value of such an expression: the helpers applied along the
    tree, on the operands in their order. *)
Fixpoint value_of (vm : mjs_vm_t) (e : mjs_ast_node_t) : mjs_value_t :=
  match e with
  | AST_LITERAL_NUMBER x => mjs_value_number x
  | AST_BINARY_EXPRESSION operator l r =>
      match binary_helper operator with
      | Some (_, f) => f vm (value_of vm l) (value_of vm r)
      | None => mjs_value_undefined
      end
  | AST_UNARY_EXPRESSION operator a _ =>
      match unary_helper operator with
      | Some (_, f) => f vm (value_of vm a)
      | None => mjs_value_undefined
      end
  | _ => mjs_value_undefined
  end.

(** The number of nodes of an expression, and the height the operand
    stack reaches over its start while the expression is evaluated. *)
Fixpoint node_count (e : mjs_ast_node_t) : nat :=
  match e with
  | AST_BINARY_EXPRESSION _ l r => S (node_count l + node_count r)
  | AST_UNARY_EXPRESSION _ a _ => S (node_count a)
  | _ => 1
  end.

Fixpoint stack_need (e : mjs_ast_node_t) : nat :=
  match e with
  | AST_BINARY_EXPRESSION _ l r => Nat.max (stack_need l) (S (stack_need r))
  | AST_UNARY_EXPRESSION _ a _ => stack_need a
  | _ => 1
  end.

(** The constants and the instructions the compiler gives for such an
    expression, [k] being the number of constants of the block before. *)
Fixpoint constants_of (e : mjs_ast_node_t) : list mjs_value_t :=
  match e with
  | AST_LITERAL_NUMBER x => [mjs_value_number x]
  | AST_BINARY_EXPRESSION _ l r => constants_of l ++ constants_of r
  | AST_UNARY_EXPRESSION _ a _ => constants_of a
  | _ => []
  end.

Fixpoint code_of (e : mjs_ast_node_t) (k : N) : list mjs_instruction_t :=
  match e with
  | AST_LITERAL_NUMBER _ => [Instr OP_LOAD_CONST (wrap_uint32 (Z.of_N k))]
  | AST_BINARY_EXPRESSION operator l r =>
      code_of l k ++ code_of r (k + N.of_nat (length (constants_of l)))
      ++ match binary_helper operator with
         | Some (op, _) => [Instr op 0]
         | None => []
         end
  | AST_UNARY_EXPRESSION operator a _ =>
      code_of a k
      ++ match unary_helper operator with
         | Some (op, _) => [Instr op 0]
         | None => []
         end
  | _ => []
  end.

Lemma closed_expression_ind (P : mjs_ast_node_t -> Prop) :
  (forall x, P (AST_LITERAL_NUMBER x)) ->
  (forall operator l r op f,
      binary_helper operator = Some (op, f) ->
      closed_expression l = true -> closed_expression r = true ->
      P l -> P r -> P (AST_BINARY_EXPRESSION operator l r)) ->
  (forall operator a op f,
      unary_helper operator = Some (op, f) ->
      closed_expression a = true -> P a -> P (AST_UNARY_EXPRESSION operator a true)) ->
  forall e, closed_expression e = true -> P e.
Proof.
  intros Hn Hb Hu. fix IH 1. intros e. destruct e; try discriminate.
  - intros _. apply Hn.
  - cbn [closed_expression]. destruct (binary_helper operator) as [[op f] |] eqn:E;
      [| discriminate].
    intros H. apply andb_true_iff in H. destruct H as [H1 H2].
    apply (Hb operator e1 e2 op f E H1 H2); apply IH; assumption.
  - cbn [closed_expression]. destruct (unary_helper operator) as [[op f] |] eqn:E;
      [| discriminate].
    intros H. apply andb_true_iff in H. destruct H as [H1 H2]. rewrite H1.
    apply (Hu operator e op f E H2). apply IH. exact H2.
Qed.

Lemma length_code_of e :
  closed_expression e = true -> forall k, length (code_of e k) = node_count e.
Proof.
  revert e. apply (closed_expression_ind (fun e => forall k, length (code_of e k) = node_count e));
    [intros x | intros operator l r op f E _ _ IHl IHr | intros operator a op f E _ IHa];
    intros k; cbn [code_of node_count].
  - reflexivity.
  - rewrite E, !length_app, IHl, IHr. cbn [length]. lia.
  - rewrite E, length_app, IHa. cbn [length]. lia.
Qed.

Lemma length_constants_of e :
  closed_expression e = true -> (length (constants_of e) <= node_count e)%nat.
Proof.
  revert e. apply (closed_expression_ind (fun e => (length (constants_of e) <= node_count e)%nat));
    [intros x | intros operator l r op f E _ _ IHl IHr | intros operator a op f E _ IHa];
    cbn [constants_of node_count].
  - reflexivity.
  - rewrite length_app. lia.
  - lia.
Qed.

Lemma stack_need_positive e : closed_expression e = true -> (1 <= stack_need e)%nat.
Proof.
  revert e. apply (closed_expression_ind (fun e => (1 <= stack_need e)%nat));
    [intros x | intros operator l r op f E _ _ IHl IHr | intros operator a op f E _ IHa];
    cbn [stack_need]; lia.
Qed.

(** The helpers read the machine for its heap only. *)
Lemma binary_helper_memory operator op f vm vm' a b :
  binary_helper operator = Some (op, f) -> vm_memory vm' = vm_memory vm ->
  f vm' a b = f vm a b.
Proof.
  intros E Hm.
  destruct operator; try discriminate E; injection E as <- <-;
    unfold vm_add, vm_subtract, vm_multiply, vm_divide, vm_modulo, vm_equals, vm_less_than,
      vm_less_than_or_equal, vm_greater_than, vm_greater_than_or_equal, to_int32;
    rewrite Hm; reflexivity.
Qed.

Lemma unary_helper_memory operator op f vm vm' a :
  unary_helper operator = Some (op, f) -> vm_memory vm' = vm_memory vm ->
  f vm' a = f vm a.
Proof.
  intros E Hm.
  destruct operator; try discriminate E; injection E as <- <-;
    unfold vm_unary_plus, vm_negate, to_int32; rewrite Hm; reflexivity.
Qed.

Lemma value_of_memory vm vm' e :
  vm_memory vm' = vm_memory vm -> closed_expression e = true ->
  value_of vm' e = value_of vm e.
Proof.
  intros Hm. revert e.
  apply (closed_expression_ind (fun e => value_of vm' e = value_of vm e));
    [intros x | intros operator l r op f E _ _ IHl IHr | intros operator a op f E _ IHa];
    cbn [value_of].
  - reflexivity.
  - rewrite E, IHl, IHr. apply (binary_helper_memory _ _ _ _ _ _ _ E Hm).
  - rewrite E, IHa. apply (unary_helper_memory _ _ _ _ _ _ E Hm).
Qed.

Local Open Scope compile_scope.

(** What the compiler does with such an expression: it succeeds, the
    instructions and the constants of the expression follow the ones the
    block had, and nothing else of the compiler changes. *)
Lemma compile_closed_expression e :
  closed_expression e = true ->
  forall c,
    exists c',
      compile_expression e c = (true, c')
      /\ instructions (c_bytecode c')
         = instructions (c_bytecode c) ++ code_of e (constant_count (c_bytecode c))
      /\ constants (c_bytecode c') = constants (c_bytecode c) ++ constants_of e
      /\ strings (c_bytecode c') = strings (c_bytecode c)
      /\ c_has_error c' = c_has_error c.
Proof.
  revert e.
  apply (closed_expression_ind
           (fun e => forall c,
                exists c',
                  compile_expression e c = (true, c')
                  /\ instructions (c_bytecode c')
                     = instructions (c_bytecode c)
                       ++ code_of e (constant_count (c_bytecode c))
                  /\ constants (c_bytecode c') = constants (c_bytecode c) ++ constants_of e
                  /\ strings (c_bytecode c') = strings (c_bytecode c)
                  /\ c_has_error c' = c_has_error c)).
  - intros x c. eexists. split; [reflexivity |]. cbn. repeat split; reflexivity.
  - intros operator l r op f E _ _ IHl IHr c.
    destruct (IHl c) as (c1 & R1 & I1 & K1 & G1 & E1).
    destruct (IHr c1) as (c2 & R2 & I2 & K2 & G2 & E2).
    assert (forall c0,
               match operator with
               | TOKEN_PLUS => emit_instruction OP_ADD 0
               | TOKEN_MINUS => emit_instruction OP_SUB 0
               | TOKEN_MULTIPLY => emit_instruction OP_MUL 0
               | TOKEN_DIVIDE => emit_instruction OP_DIV 0
               | TOKEN_MODULO => emit_instruction OP_MOD 0
               | TOKEN_EQUAL => emit_instruction OP_EQ 0
               | TOKEN_NOT_EQUAL => emit_instruction OP_NE 0
               | TOKEN_LESS_THAN => emit_instruction OP_LT 0
               | TOKEN_LESS_EQUAL => emit_instruction OP_LE 0
               | TOKEN_GREATER_THAN => emit_instruction OP_GT 0
               | TOKEN_GREATER_EQUAL => emit_instruction OP_GE 0
               | TOKEN_LOGICAL_AND => emit_instruction OP_AND 0
               | TOKEN_LOGICAL_OR => emit_instruction OP_OR 0
               | TOKEN_BITWISE_AND => emit_instruction OP_BIT_AND 0
               | TOKEN_BITWISE_OR => emit_instruction OP_BIT_OR 0
               | TOKEN_BITWISE_XOR => emit_instruction OP_BIT_XOR 0
               | TOKEN_LEFT_SHIFT => emit_instruction OP_SHL 0
               | TOKEN_RIGHT_SHIFT => emit_instruction OP_SHR 0
               | _ => fail "Unknown binary operator"
               end c0 = emit_instruction op 0 c0) as Hop.
    { intros c0. destruct operator; try discriminate E; injection E as <- _; reflexivity. }
    eexists. split.
    + cbn [compile_expression]. unfold compile_binary_expression, guard, cbind.
      rewrite R1, R2, Hop. reflexivity.
    + cbn [c_bytecode emit_instruction on_bytecode mjs_bytecode_emit instructions constants
             strings c_has_error fst snd code_of constants_of].
      rewrite E, I2, I1, K2, K1.
      unfold constant_count at 2. rewrite K1, length_app, Nat2N.inj_add.
      fold (constant_count (c_bytecode c)).
      rewrite <- !app_assoc. repeat split; congruence.
  - intros operator a op f E _ IHa c.
    destruct (IHa c) as (c1 & R1 & I1 & K1 & G1 & E1).
    assert (forall c0,
               match operator with
               | TOKEN_PLUS => emit_instruction OP_PLUS 0
               | TOKEN_MINUS => emit_instruction OP_NEG 0
               | TOKEN_LOGICAL_NOT => emit_instruction OP_NOT 0
               | TOKEN_BITWISE_NOT => emit_instruction OP_BIT_NOT 0
               | TOKEN_KEYWORD_TYPEOF => emit_instruction OP_TYPEOF 0
               | TOKEN_KEYWORD_VOID =>
                   emit_instruction OP_POP 0 ;;;
                   undef_index <- add_constant mjs_value_undefined ;;
                   emit_instruction OP_LOAD_CONST undef_index
               | _ => fail "Unknown unary operator"
               end c0 = emit_instruction op 0 c0) as Hop.
    { intros c0. destruct operator; try discriminate E; injection E as <- _; reflexivity. }
    eexists. split.
    + cbn [compile_expression]. unfold compile_unary_expression, guard, cbind.
      rewrite R1, Hop. reflexivity.
    + cbn [c_bytecode emit_instruction on_bytecode mjs_bytecode_emit instructions constants
             strings c_has_error fst snd code_of constants_of].
      rewrite E, I1, K1. rewrite <- !app_assoc. repeat split; congruence.
Qed.

Local Close Scope compile_scope.

(** One turn of the loop of [mjs_vm_execute] on a running machine whose
    frame has an instruction at its program counter. *)
Lemma vm_run_step fuel vm frame rest instr :
  vm_state vm = VM_STATE_RUNNING ->
  call_stack vm = frame :: rest ->
  instructions (bytecode frame) !! N.to_nat (pc frame) = Some instr ->
  Z.of_nat (length (instructions (bytecode frame))) < 2 ^ 64 ->
  vm_run (S fuel) vm
  = match vm_execute_instruction
            (vm_count_instruction (vm_set_pc (pc frame + 1) vm)) instr with
    | None => None
    | Some (false, vm) => Some (MJS_ERROR, vm_set_state VM_STATE_ERROR vm)
    | Some (true, vm) => vm_run fuel vm
    end.
Proof.
  intros Hst Hcs Hin Hlen. cbn [vm_run]. rewrite Hst.
  unfold call_stack_top, vm_current_frame. rewrite Hcs. cbn [length head].
  unfold instruction_count. rewrite (lookup_instruction_in_range _ _ _ Hin), Hin.
  assert (size_add (pc frame) 1 = (pc frame + 1)%N) as ->; [| reflexivity].
  apply lookup_lt_Some in Hin. unfold size_add, wrap_size_t.
  rewrite Z.mod_small by lia. lia.
Qed.

(** The machine after an expression has been evaluated: its value is on
    the operand stack and the program counter is past its code. *)
Definition evaluated (vm vm' : mjs_vm_t) (frame : mjs_call_frame_t)
    (rest : list mjs_call_frame_t) (n : nat) (v : mjs_value_t) : Prop :=
  stack vm' = v :: stack vm
  /\ call_stack vm'
     = MkFrame (bytecode frame) (pc frame + N.of_nat n) (locals_base frame)
         (this_value frame) :: rest
  /\ context vm' = context vm
  /\ vm_state vm' = vm_state vm
  /\ stack_capacity vm' = stack_capacity vm
  /\ call_stack_capacity vm' = call_stack_capacity vm.

Lemma vm_execute_binary operator op f vm frame rest :
  binary_helper operator = Some (op, f) ->
  call_stack vm = frame :: rest ->
  vm_execute_instruction vm (Instr op 0) = Some (vm_binary vm f).
Proof.
  intros E Hcs. unfold vm_execute_instruction, vm_current_frame. rewrite Hcs.
  cbn [head opcode].
  destruct operator; try discriminate E; injection E as <- <-; reflexivity.
Qed.

Lemma vm_execute_unary operator op f vm frame rest :
  unary_helper operator = Some (op, f) ->
  call_stack vm = frame :: rest ->
  vm_execute_instruction vm (Instr op 0) = Some (vm_unary vm f).
Proof.
  intros E Hcs. unfold vm_execute_instruction, vm_current_frame. rewrite Hcs.
  cbn [head opcode].
  destruct operator; try discriminate E; injection E as <- <-; reflexivity.
Qed.

(** Running the code of an expression, with its constants in the pool of
    the frame, below the limit of the 32 bits of an operand, and room on
    the operand stack: after as many turns as the expression has nodes,
    the value of the expression is on the stack. *)
Lemma vm_run_expression e :
  closed_expression e = true ->
  forall vm frame rest pre post k fuel,
    vm_state vm = VM_STATE_RUNNING ->
    call_stack vm = frame :: rest ->
    instructions (bytecode frame) = pre ++ code_of e k ++ post ->
    pc frame = N.of_nat (length pre) ->
    (forall i v, constants_of e !! i = Some v ->
                 constants (bytecode frame) !! (N.to_nat k + i)%nat = Some v) ->
    Z.of_N k + Z.of_nat (length (constants_of e)) <= 2 ^ 32 ->
    Z.of_nat (length (instructions (bytecode frame))) < 2 ^ 64 ->
    (length (stack vm) + stack_need e <= N.to_nat (stack_capacity vm))%nat ->
    exists vm',
      vm_run (node_count e + fuel) vm = vm_run fuel vm'
      /\ evaluated vm vm' frame rest (node_count e) (value_of vm e).
Proof.
  revert e.
  apply (closed_expression_ind
           (fun e =>
              forall vm frame rest pre post k fuel,
                vm_state vm = VM_STATE_RUNNING ->
                call_stack vm = frame :: rest ->
                instructions (bytecode frame) = pre ++ code_of e k ++ post ->
                pc frame = N.of_nat (length pre) ->
                (forall i v, constants_of e !! i = Some v ->
                             constants (bytecode frame) !! (N.to_nat k + i)%nat = Some v) ->
                Z.of_N k + Z.of_nat (length (constants_of e)) <= 2 ^ 32 ->
                Z.of_nat (length (instructions (bytecode frame))) < 2 ^ 64 ->
                (length (stack vm) + stack_need e <= N.to_nat (stack_capacity vm))%nat ->
                exists vm',
                  vm_run (node_count e + fuel) vm = vm_run fuel vm'
                  /\ evaluated vm vm' frame rest (node_count e) (value_of vm e))).
  - intros x vm frame rest pre post k fuel Hst Hcs Hin Hpc Hk Hk32 Hlen Hroom.
    cbn [code_of constants_of node_count stack_need value_of length] in *.
    assert (instructions (bytecode frame) !! N.to_nat (pc frame)
            = Some (Instr OP_LOAD_CONST (wrap_uint32 (Z.of_N k)))) as Hi.
    { rewrite Hin, Hpc, Nat2N.id.
      rewrite lookup_app_r by lia. rewrite Nat.sub_diag. reflexivity. }
    assert (wrap_uint32 (Z.of_N k) = k) as Hw.
    { unfold wrap_uint32. rewrite Z.mod_small by lia. apply N2Z.id. }
    pose proof (Hk 0%nat _ eq_refl) as Hc. rewrite Nat.add_0_r in Hc.
    cbn [Nat.add]. rewrite (vm_run_step fuel vm frame rest _ Hst Hcs Hi Hlen).
    unfold vm_execute_instruction, vm_current_frame, vm_count_instruction, vm_set_pc.
    rewrite Hcs. cbn [call_stack vm_set_call_stack head bytecode opcode operand].
    rewrite Hw. unfold constant_count.
    assert ((N.of_nat (length (constants (bytecode frame))) <=? k)%N = false) as ->.
    { apply N.leb_gt. apply lookup_lt_Some in Hc. lia. }
    rewrite Hc. cbn [default]. unfold vm_push, stack_top.
    cbn [stack stack_capacity vm_set_stack vm_set_call_stack].
    assert ((stack_capacity vm <=? N.of_nat (length (stack vm)))%N = false) as ->.
    { apply N.leb_gt. lia. }
    eexists. split; [reflexivity |].
    unfold evaluated. cbn. repeat split; reflexivity.
  - intros operator l r op f E Hl Hr IHl IHr vm frame rest pre post k fuel
           Hst Hcs Hin Hpc Hk Hk32 Hlen Hroom.
    cbn [code_of constants_of node_count stack_need value_of] in *.
    rewrite E in Hin |- *. rewrite length_app in Hk32.
    destruct (IHl vm frame rest pre
                (code_of r (k + N.of_nat (length (constants_of l))) ++ [Instr op 0] ++ post)
                k (node_count r + S fuel)%nat Hst Hcs) as (vm1 & R1 & S1 & C1 & X1 & T1 & P1 & Q1).
    { rewrite Hin, <- !app_assoc. reflexivity. }
    { exact Hpc. }
    { intros i v Hi. apply Hk. apply lookup_app_l_Some. exact Hi. }
    { lia. }
    { exact Hlen. }
    { lia. }
    set (frame1 := MkFrame (bytecode frame) (pc frame + N.of_nat (node_count l))
                     (locals_base frame) (this_value frame)) in *.
    destruct (IHr vm1 frame1 rest (pre ++ code_of l k) ([Instr op 0] ++ post)
                (k + N.of_nat (length (constants_of l)))%N (S fuel))
      as (vm2 & R2 & S2 & C2 & X2 & T2 & P2 & Q2).
    { congruence. }
    { exact C1. }
    { cbn [bytecode frame1]. rewrite Hin, <- !app_assoc. reflexivity. }
    { cbn [pc frame1]. rewrite Hpc, length_app, (length_code_of l Hl). lia. }
    { intros i v Hi. cbn [bytecode frame1].
      replace (N.to_nat (k + N.of_nat (length (constants_of l))) + i)%nat
        with (N.to_nat k + (length (constants_of l) + i))%nat by lia.
      apply Hk. rewrite lookup_app_r by lia.
      replace (length (constants_of l) + i - length (constants_of l))%nat with i by lia.
      exact Hi. }
    { lia. }
    { exact Hlen. }
    { rewrite S1, P1. cbn [length]. lia. }
    set (frame2 := MkFrame (bytecode frame1) (pc frame1 + N.of_nat (node_count r))
                     (locals_base frame1) (this_value frame1)) in *.
    assert (instructions (bytecode frame2) !! N.to_nat (pc frame2) = Some (Instr op 0))
      as Hi.
    { cbn [bytecode pc frame2 frame1]. rewrite Hin, Hpc.
      replace (pre ++ (code_of l k ++ code_of r (k + N.of_nat (length (constants_of l)))
                       ++ [Instr op 0]) ++ post)
        with ((pre ++ code_of l k ++ code_of r (k + N.of_nat (length (constants_of l))))
              ++ Instr op 0 :: post)
        by (rewrite <- !app_assoc; reflexivity).
      apply list_lookup_middle.
      rewrite !length_app, (length_code_of l Hl), (length_code_of r Hr). lia. }
    assert (vm_memory vm1 = vm_memory vm) as M1 by (unfold vm_memory; rewrite X1; reflexivity).
    assert (vm_memory vm2 = vm_memory vm) as M2
        by (unfold vm_memory; rewrite X2, X1; reflexivity).
    replace (S (node_count l + node_count r) + fuel)%nat
      with (node_count l + (node_count r + S fuel))%nat by lia.
    rewrite R1, R2.
    rewrite (vm_run_step fuel vm2 frame2 rest _ ltac:(congruence) C2 Hi Hlen).
    rewrite (vm_execute_binary operator op f _
               (MkFrame (bytecode frame2) (pc frame2 + 1) (locals_base frame2)
                  (this_value frame2)) rest E)
      by (unfold vm_count_instruction, vm_set_pc; rewrite C2; reflexivity).
    unfold vm_binary, vm_pop, vm_count_instruction, vm_set_pc.
    rewrite C2. cbn [stack vm_set_call_stack vm_set_stack]. rewrite S2, S1.
    unfold vm_push, stack_top. cbn [stack stack_capacity vm_set_stack vm_set_call_stack].
    assert ((stack_capacity vm2 <=? N.of_nat (length (stack vm)))%N = false) as ->.
    { apply N.leb_gt. rewrite P2, P1. pose proof (stack_need_positive r Hr). lia. }
    eexists. split; [reflexivity |].
    unfold evaluated. cbn. repeat split; try congruence.
    + f_equal. rewrite (value_of_memory vm vm1 r M1 Hr).
      apply (binary_helper_memory operator op f); [exact E |].
      unfold vm_memory. cbn. rewrite X2, X1. reflexivity.
    + f_equal. f_equal. lia.
  - intros operator a op f E Ha IHa vm frame rest pre post k fuel
           Hst Hcs Hin Hpc Hk Hk32 Hlen Hroom.
    cbn [code_of constants_of node_count stack_need value_of] in *.
    rewrite E in Hin |- *.
    destruct (IHa vm frame rest pre ([Instr op 0] ++ post) k (S fuel) Hst Hcs)
      as (vm1 & R1 & S1 & C1 & X1 & T1 & P1 & Q1).
    { rewrite Hin, <- !app_assoc. reflexivity. }
    { exact Hpc. }
    { exact Hk. }
    { exact Hk32. }
    { exact Hlen. }
    { exact Hroom. }
    set (frame1 := MkFrame (bytecode frame) (pc frame + N.of_nat (node_count a))
                     (locals_base frame) (this_value frame)) in *.
    assert (instructions (bytecode frame1) !! N.to_nat (pc frame1) = Some (Instr op 0))
      as Hi.
    { cbn [bytecode pc frame1]. rewrite Hin, Hpc.
      replace (pre ++ (code_of a k ++ [Instr op 0]) ++ post)
        with ((pre ++ code_of a k) ++ Instr op 0 :: post)
        by (rewrite <- !app_assoc; reflexivity).
      apply list_lookup_middle. rewrite length_app, (length_code_of a Ha). lia. }
    replace (S (node_count a) + fuel)%nat with (node_count a + S fuel)%nat by lia.
    rewrite R1.
    rewrite (vm_run_step fuel vm1 frame1 rest _ ltac:(congruence) C1 Hi Hlen).
    rewrite (vm_execute_unary operator op f _
               (MkFrame (bytecode frame1) (pc frame1 + 1) (locals_base frame1)
                  (this_value frame1)) rest E)
      by (unfold vm_count_instruction, vm_set_pc; rewrite C1; reflexivity).
    unfold vm_unary, vm_pop, vm_count_instruction, vm_set_pc.
    rewrite C1. cbn [stack vm_set_call_stack vm_set_stack]. rewrite S1.
    unfold vm_push, stack_top. cbn [stack stack_capacity vm_set_stack vm_set_call_stack].
    assert ((stack_capacity vm1 <=? N.of_nat (length (stack vm)))%N = false) as ->.
    { apply N.leb_gt. rewrite P1. pose proof (stack_need_positive a Ha). lia. }
    eexists. split; [reflexivity |].
    unfold evaluated. cbn. repeat split; try congruence.
    + f_equal. apply (unary_helper_memory operator op f); [exact E |].
      unfold vm_memory. cbn. rewrite X1. reflexivity.
    + f_equal. f_equal. lia.
Qed.

(** [OP_RETURN] in the only frame of the machine: the value on top of
    the operand stack stays there and the frame is left. *)
Lemma vm_execute_return vm frame v s :
  call_stack vm = [frame] -> stack vm = v :: s ->
  (N.of_nat (length s) < stack_capacity vm)%N ->
  vm_execute_instruction vm (Instr OP_RETURN 0)
  = Some (true, vm_set_stack (v :: s) (vm_set_call_stack [] (vm_set_stack s vm))).
Proof.
  intros Hcs Hs Hroom. unfold vm_execute_instruction, vm_current_frame.
  rewrite Hcs. cbn [head opcode]. unfold vm_pop. rewrite Hs.
  unfold vm_pop_frame. cbn [call_stack vm_set_stack]. rewrite Hcs. cbn [negb].
  unfold vm_push, stack_top. cbn [stack stack_capacity vm_set_stack vm_set_call_stack].
  apply N.leb_gt in Hroom. rewrite Hroom. reflexivity.
Qed.

(** The loop of [mjs_vm_execute] ends when no frame is left. *)
Lemma vm_run_no_frame fuel vm :
  call_stack vm = [] -> vm_run (S fuel) vm = Some (MJS_OK, vm).
Proof.
  intros Hcs. cbn [vm_run]. unfold call_stack_top. rewrite Hcs.
  cbn [length]. rewrite andb_false_r. reflexivity.
Qed.


(** X17. An expression made of number literals and of the binary and
    unary operators the compiler has an instruction for, with fewer than
    [2 ^ 32] nodes and needing no more than the 1024 places of the
    operand stack: [mjs_compile_ast] gives a block, the code of the
    expression followed by [OP_RETURN], and [mjs_vm_execute] on a new
    machine runs it to [MJS_OK] in the number of nodes plus two turns;
    the result is the value the helpers of the machine give along the
    tree, and it is what is left on the operand stack. *)
Theorem compiled_expression_runs_to_its_value :
  forall (ctx : mjs_context_t) (e : mjs_ast_node_t) (fuel : nat),
    closed_expression e = true ->
    (stack_need e <= 1024)%nat ->
    Z.of_nat (node_count e) < 2 ^ 32 ->
    exists bc vm',
      mjs_compile_ast e = Some bc
      /\ instructions bc = code_of e 0 ++ [Instr OP_RETURN 0]
      /\ mjs_vm_execute (node_count e + 2 + fuel) (mjs_vm_new ctx) bc
         = Some (MJS_OK, Some (value_of (mjs_vm_new ctx) e), vm')
      /\ stack vm' = [value_of (mjs_vm_new ctx) e]
      /\ vm_state vm' = VM_STATE_READY.
Proof.
  intros ctx e fuel He Hneed Hsize.
  destruct (compile_closed_expression e He (MkCompiler mjs_bytecode_new 0 false ""))
    as (c' & R & I & K & _ & Er).
  cbn [c_bytecode mjs_bytecode_new instructions constants constant_count length
         c_has_error app] in I, K, Er.
  change (N.of_nat 0) with 0%N in I.
  set (bc := c_bytecode (snd (emit_instruction OP_RETURN 0 c'))).
  assert (mjs_compile_ast e = Some bc) as Hbc.
  { unfold mjs_compile_ast.
    assert (match e with
            | AST_PROGRAM _ =>
                compile_statement e (MkCompiler mjs_bytecode_new 0 false "")
            | _ => compile_expression e (MkCompiler mjs_bytecode_new 0 false "")
            end = (true, c')) as ->.
    { rewrite <- R. destruct e; try discriminate He; reflexivity. }
    rewrite Er. reflexivity. }
  assert (instructions bc = code_of e 0 ++ [Instr OP_RETURN 0]) as Hi.
  { subst bc. cbn. rewrite I. reflexivity. }
  assert (constants bc = constants_of e) as Hk.
  { subst bc. cbn. exact K. }
  exists bc.
  set (frame := MkFrame bc 0 (size_sub 0 0) mjs_value_undefined).
  set (vm0 := vm_set_state VM_STATE_RUNNING
                (vm_set_call_stack [frame] (mjs_vm_new ctx))).
  destruct (vm_run_expression e He vm0 frame [] [] [Instr OP_RETURN 0] 0 (S (S fuel)))
    as (vm1 & R1 & S1 & C1 & X1 & T1 & P1 & Q1).
  { reflexivity. }
  { reflexivity. }
  { exact Hi. }
  { reflexivity. }
  { intros i v Hv. cbn [bytecode frame]. rewrite Hk. exact Hv. }
  { pose proof (length_constants_of e He). lia. }
  { cbn [bytecode frame]. rewrite Hi, length_app, (length_code_of e He). cbn [length]. lia. }
  { change (stack vm0) with (@nil mjs_value_t). change (stack_capacity vm0) with 1024%N.
    cbn [length]. lia. }
  set (frame1 := MkFrame (bytecode frame) (pc frame + N.of_nat (node_count e))
                   (locals_base frame) (this_value frame)) in *.
  assert (instructions (bytecode frame1) !! N.to_nat (pc frame1) = Some (Instr OP_RETURN 0))
    as Hr.
  { cbn [bytecode pc frame1 frame]. rewrite Hi. apply list_lookup_middle.
    rewrite (length_code_of e He). lia. }
  assert (vm_memory vm0 = vm_memory (mjs_vm_new ctx)) as M0 by reflexivity.
  rewrite (value_of_memory _ _ e M0 He) in S1.
  set (vm2 := vm_count_instruction (vm_set_pc (pc frame1 + 1) vm1)).
  assert (call_stack vm2 = [MkFrame (bytecode frame1) (pc frame1 + 1) (locals_base frame1)
                              (this_value frame1)]) as C2.
  { unfold vm2, vm_count_instruction, vm_set_pc. rewrite C1. reflexivity. }
  assert (stack vm2 = value_of (mjs_vm_new ctx) e :: []) as S2.
  { unfold vm2, vm_count_instruction, vm_set_pc. rewrite C1. exact S1. }
  assert (N.of_nat (length (@nil mjs_value_t)) < stack_capacity vm2)%N as P2.
  { unfold vm2, vm_count_instruction, vm_set_pc. rewrite C1.
    cbn [stack_capacity vm_set_call_stack]. rewrite P1. reflexivity. }
  exists (vm_set_state VM_STATE_READY
            (vm_set_stack [value_of (mjs_vm_new ctx) e]
               (vm_set_call_stack [] (vm_set_stack [] vm2)))).
  split; [exact Hbc |]. split; [exact Hi |]. split; [| split; reflexivity].
  unfold mjs_vm_execute, vm_push_frame.
  change (call_stack_capacity (mjs_vm_new ctx) <=? call_stack_top (mjs_vm_new ctx))%N
    with false.
  change (stack_top (mjs_vm_new ctx)) with 0%N. fold frame.
  cbv beta iota zeta. cbn [negb].
  change (call_stack (mjs_vm_new ctx)) with (@nil mjs_call_frame_t). fold vm0.
  replace (node_count e + 2 + fuel)%nat with (node_count e + S (S fuel))%nat by lia.
  rewrite R1.
  rewrite (vm_run_step (S fuel) vm1 frame1 [] _ ltac:(rewrite T1; reflexivity) C1 Hr)
    by (cbn [bytecode frame1 frame]; rewrite Hi, length_app, (length_code_of e He);
        cbn [length]; lia).
  fold vm2. rewrite (vm_execute_return vm2 _ _ [] C2 S2 P2).
  rewrite vm_run_no_frame by reflexivity.
  reflexivity.
Qed.

(** The expression [2 + 3 * 4]. *)
Definition two_plus_three_times_four : mjs_ast_node_t :=
  AST_BINARY_EXPRESSION TOKEN_PLUS (AST_LITERAL_NUMBER 2)
    (AST_BINARY_EXPRESSION TOKEN_MULTIPLY (AST_LITERAL_NUMBER 3) (AST_LITERAL_NUMBER 4)).

Lemma compiled_expression_runs_to_its_value_witness :
  value_of (mjs_vm_new fresh_context) two_plus_three_times_four = mjs_value_number 14
  /\ exists bc vm',
       mjs_compile_ast two_plus_three_times_four = Some bc
       /\ instructions bc = code_of two_plus_three_times_four 0 ++ [Instr OP_RETURN 0]
       /\ mjs_vm_execute (node_count two_plus_three_times_four + 2 + 0)
            (mjs_vm_new fresh_context) bc
          = Some (MJS_OK, Some (value_of (mjs_vm_new fresh_context) two_plus_three_times_four),
                  vm')
       /\ stack vm' = [value_of (mjs_vm_new fresh_context) two_plus_three_times_four]
       /\ vm_state vm' = VM_STATE_READY.
Proof.
  split; [vm_compute; reflexivity |].
  assert (closed_expression two_plus_three_times_four = true) as H1 by reflexivity.
  assert (stack_need two_plus_three_times_four <= 1024)%nat as H2
      by (cbn [stack_need two_plus_three_times_four Nat.max]; lia).
  assert (Z.of_nat (node_count two_plus_three_times_four) < 2 ^ 32) as H3
      by (vm_compute; reflexivity).
  exact (compiled_expression_runs_to_its_value fresh_context two_plus_three_times_four 0
           H1 H2 H3).
Defined.

(** ** A declaration and a read *)

(** The program [var name = e; name]. *)
Definition declare_and_read (kind : var_decl_kind) (name : string) (e : mjs_ast_node_t)
  : mjs_ast_node_t :=
  AST_PROGRAM [AST_VARIABLE_DECLARATION kind [(name, Some e)];
               AST_EXPRESSION_STATEMENT (AST_IDENTIFIER name)].

Lemma streq_c_str name : MJS_STREQ (c_str name) name = true.
Proof. unfold MJS_STREQ. rewrite c_str_idem. apply String.eqb_refl. Qed.

Lemma compile_declare_and_read kind name e :
  closed_expression e = true ->
  exists bc,
    mjs_compile_ast (declare_and_read kind name e) = Some bc
    /\ instructions bc
       = code_of e 0 ++ [Instr OP_STORE_VAR 0; Instr OP_LOAD_VAR 0; Instr OP_POP 0;
                         Instr OP_RETURN 0]
    /\ constants bc = constants_of e
    /\ strings bc = [MkString (c_str name) (size_add (strlen name) 1) false].
Proof.
  intros He.
  destruct (compile_closed_expression e He (MkCompiler mjs_bytecode_new 0 false ""))
    as (c' & R & I & K & G & Er).
  cbn [c_bytecode mjs_bytecode_new instructions constants strings constant_count length
         c_has_error app] in I, K, G, Er.
  change (N.of_nat 0) with 0%N in I.
  unfold mjs_compile_ast, declare_and_read.
  cbn [compile_statement compile_each]. unfold compile_variable_declaration.
  cbn [compile_each snd fst]. unfold guard, cbind, creturn. rewrite R.
  destruct c' as [[ins icap cons ccap strs scap] depth err msg].
  cbn [c_bytecode instructions constants strings c_has_error] in I, K, G, Er.
  subst ins cons strs err.
  unfold add_string, on_bytecode, mjs_bytecode_add_string.
  cbn [c_bytecode strings find_index string_count length].
  unfold emit_instruction, on_bytecode, mjs_bytecode_emit.
  cbn [c_bytecode strings instructions constants compile_expression compile_identifier
         current_scope_depth c_has_error c_error_message instruction_capacity
         constant_capacity string_capacity app].
  unfold cbind, add_string, on_bytecode, mjs_bytecode_add_string.
  cbn [c_bytecode strings find_index str_data].
  rewrite streq_c_str.
  unfold emit_instruction, on_bytecode, mjs_bytecode_emit.
  cbn [c_bytecode strings instructions constants current_scope_depth c_has_error
         c_error_message instruction_capacity constant_capacity string_capacity negb orb
         snd fst].
  eexists. split; [reflexivity |].
  cbn [instructions constants strings]. rewrite <- !app_assoc.
  repeat split; reflexivity.
Qed.

(** Names with the same bytes before the first NUL name the same
    global. *)
Lemma get_variable_c_str ctx name :
  mjs_context_get_variable ctx (c_str name) = mjs_context_get_variable ctx name.
Proof.
  unfold mjs_context_get_variable.
  destruct (load_object _ _) as [global |]; [| reflexivity].
  rewrite (find_ext _ (key_matches (ctx_memory ctx) name)); [reflexivity |].
  intros p. unfold key_matches, MJS_STREQ. rewrite c_str_idem. reflexivity.
Qed.

Lemma string_new_address ctx data len :
  fst (mjs_string_new ctx data len)
  = fst (mjs_gc_alloc (ctx_gc ctx) sizeof_mjs_string_t GC_TYPE_STRING).
Proof.
  unfold mjs_string_new.
  destruct (mjs_gc_alloc _ _ _) as [p g]. cbn [fst].
  destruct (p =? NULL)%N eqn:E; [| reflexivity].
  apply N.eqb_eq in E. subst p. reflexivity.
Qed.

Lemma lookup_after {A} (l post : list A) (n i : nat) x :
  post !! i = Some x -> n = (length l + i)%nat -> (l ++ post) !! n = Some x.
Proof.
  intros H ->. rewrite lookup_app_r by lia.
  replace (length l + i - length l)%nat with i by lia. exact H.
Qed.

Lemma vm_execute_store_var vm frame rest v s i :
  call_stack vm = frame :: rest -> stack vm = v :: s ->
  (string_count (bytecode frame) <=? i)%N = false ->
  vm_execute_instruction vm (Instr OP_STORE_VAR i)
  = Some (fst (mjs_context_set_variable (context vm) (pool_string (bytecode frame) i) v),
          vm_set_context
            (snd (mjs_context_set_variable (context vm) (pool_string (bytecode frame) i) v))
            (vm_set_stack s vm)).
Proof.
  intros Hcs Hs Hi. unfold vm_execute_instruction, vm_current_frame.
  rewrite Hcs. cbn [head opcode operand]. rewrite Hi. unfold vm_pop. rewrite Hs.
  cbn [context vm_set_stack].
  destruct (mjs_context_set_variable _ _ _). reflexivity.
Qed.

Lemma vm_execute_load_var vm frame rest v i :
  call_stack vm = frame :: rest ->
  (string_count (bytecode frame) <=? i)%N = false ->
  (stack_capacity vm <=? stack_top vm)%N = false ->
  mjs_context_get_variable (context vm) (pool_string (bytecode frame) i) = (true, v) ->
  vm_execute_instruction vm (Instr OP_LOAD_VAR i)
  = Some (true, vm_set_stack (v :: stack vm) vm).
Proof.
  intros Hcs Hi Hroom Hget. unfold vm_execute_instruction, vm_current_frame.
  rewrite Hcs. cbn [head opcode operand]. rewrite Hi, Hget. unfold vm_push.
  rewrite Hroom. reflexivity.
Qed.

Lemma vm_execute_pop vm frame rest :
  call_stack vm = frame :: rest ->
  vm_execute_instruction vm (Instr OP_POP 0) = Some (true, snd (vm_pop vm)).
Proof.
  intros Hcs. unfold vm_execute_instruction, vm_current_frame. rewrite Hcs. reflexivity.
Qed.

(** [OP_RETURN] on an empty operand stack returns undefined. *)
Lemma vm_execute_return_empty vm frame :
  call_stack vm = [frame] -> stack vm = [] -> (0 < stack_capacity vm)%N ->
  vm_execute_instruction vm (Instr OP_RETURN 0)
  = Some (true, vm_set_stack [mjs_value_undefined] (vm_set_call_stack [] vm)).
Proof.
  intros Hcs Hs Hroom. unfold vm_execute_instruction, vm_current_frame.
  rewrite Hcs. cbn [head opcode]. unfold vm_pop. rewrite Hs.
  unfold vm_pop_frame. rewrite Hcs. cbn [negb].
  unfold vm_push, stack_top. cbn [stack stack_capacity vm_set_call_stack]. rewrite Hs.
  apply N.leb_gt in Hroom. cbn [length]. change (N.of_nat 0) with 0%N.
  rewrite Hroom. reflexivity.
Qed.

(** X18. The program [var name = e; name], for an expression [e] as in
    X17, on the new machine of a context whose global object is on the
    heap and whose heap has room for the string of a key, 88 bytes, so
    that it does not grow: it compiles, and [mjs_vm_execute] runs it to
    [MJS_OK] in the number of nodes of [e] plus five turns. The global
    [name] then holds the value of [e], but the result of the program is
    undefined: the value the last statement reads is popped before
    [OP_RETURN], which finds the operand stack empty. *)
Theorem declared_variable_is_set_and_result_is_undefined :
  forall (ctx : mjs_context_t) (global : mjs_object_t) (kind : var_decl_kind)
         (name : string) (e : mjs_ast_node_t) (fuel : nat),
    closed_expression e = true ->
    (stack_need e <= 1024)%nat ->
    Z.of_nat (node_count e) < 2 ^ 32 ->
    heap_below (ctx_gc ctx) ->
    heap_room (ctx_gc ctx) 88 ->
    load_object (ctx_memory ctx) (union_object (global_object ctx)) = Some global ->
    exists bc vm',
      mjs_compile_ast (declare_and_read kind name e) = Some bc
      /\ mjs_vm_execute (node_count e + 5 + fuel) (mjs_vm_new ctx) bc
         = Some (MJS_OK, Some mjs_value_undefined, vm')
      /\ mjs_context_get_variable (context vm') name
         = (true, value_of (mjs_vm_new ctx) e).
Proof.
  intros ctx global kind name e fuel He Hneed Hsize Hb Hroom Hg.
  destruct (compile_declare_and_read kind name e He) as (bc & Hbc & Hi & Hk & Hs).
  exists bc.
  set (frame := MkFrame bc 0 (size_sub 0 0) mjs_value_undefined).
  set (vm0 := vm_set_state VM_STATE_RUNNING
                (vm_set_call_stack [frame] (mjs_vm_new ctx))).
  assert (Z.of_nat (length (instructions bc)) < 2 ^ 64) as Hlen.
  { rewrite Hi, length_app, (length_code_of e He). cbn [length]. lia. }
  destruct (vm_run_expression e He vm0 frame [] []
              [Instr OP_STORE_VAR 0; Instr OP_LOAD_VAR 0; Instr OP_POP 0; Instr OP_RETURN 0]
              0 (5 + fuel))
    as (vm1 & R1 & S1 & C1 & X1 & T1 & P1 & Q1).
  { reflexivity. }
  { reflexivity. }
  { exact Hi. }
  { reflexivity. }
  { intros i v Hv. cbn [bytecode frame]. rewrite Hk. exact Hv. }
  { pose proof (length_constants_of e He). lia. }
  { exact Hlen. }
  { change (stack vm0) with (@nil mjs_value_t). change (stack_capacity vm0) with 1024%N.
    cbn [length]. lia. }
  assert (vm_memory vm0 = vm_memory (mjs_vm_new ctx)) as M0 by reflexivity.
  rewrite (value_of_memory _ _ e M0 He) in S1.
  set (v := value_of (mjs_vm_new ctx) e) in *.
  destruct vm1 as [c1 st1 s1 cap1 cs1 ccap1 n1].
  cbn [stack call_stack context vm_state stack_capacity call_stack_capacity] in *.
  change (context vm0) with ctx in X1. change (vm_state vm0) with VM_STATE_RUNNING in T1.
  change (stack vm0) with (@nil mjs_value_t) in S1.
  change (stack_capacity vm0) with 1024%N in P1.
  change (call_stack_capacity vm0) with 256%N in Q1.
  change (pc frame) with 0%N in C1. change (bytecode frame) with bc in C1.
  change (locals_base frame) with (size_sub 0 0) in C1.
  change (this_value frame) with mjs_value_undefined in C1.
  subst c1 st1 s1 cap1 cs1 ccap1.
  (* the store *)
  destruct (set_variable_get_variable ctx global (c_str name) v Hb Hroom Hg) as (Hok & Hget).
  destruct (mjs_context_set_variable ctx (c_str name) v) as [ok ctx1] eqn:Hset.
  cbn [fst snd] in Hok, Hget. subst ok.
  rewrite get_variable_c_str in Hget.
  assert (forall i x,
             [Instr OP_STORE_VAR 0; Instr OP_LOAD_VAR 0; Instr OP_POP 0; Instr OP_RETURN 0]
               !! i = Some x ->
             instructions bc !! N.to_nat (0 + N.of_nat (node_count e) + N.of_nat i)
             = Some x) as Hat.
  { intros i x Hx. rewrite Hi. apply (lookup_after _ _ _ i x Hx).
    rewrite (length_code_of e He). lia. }
  assert (pool_string bc 0 = c_str name) as Hpool.
  { unfold pool_string. rewrite Hs. reflexivity. }
  assert (string_count bc = 1%N) as Hcount.
  { unfold string_count. rewrite Hs. reflexivity. }
  eexists. split; [exact Hbc |].
  unfold mjs_vm_execute, vm_push_frame.
  change (call_stack_capacity (mjs_vm_new ctx) <=? call_stack_top (mjs_vm_new ctx))%N
    with false.
  change (stack_top (mjs_vm_new ctx)) with 0%N. fold frame.
  cbv beta iota zeta. cbn [negb].
  change (call_stack (mjs_vm_new ctx)) with (@nil mjs_call_frame_t). fold vm0.
  replace (node_count e + 5 + fuel)%nat with (node_count e + (5 + fuel))%nat by lia.
  rewrite R1. cbn [Nat.add].
  (* OP_STORE_VAR *)
  erewrite vm_run_step;
    [| reflexivity | reflexivity
     | cbn [bytecode pc]; rewrite <- (N.add_0_r (0 + N.of_nat (node_count e)));
       apply (Hat 0%nat); reflexivity
     | exact Hlen].
  erewrite vm_execute_store_var;
    [| reflexivity | reflexivity | cbn [bytecode]; rewrite Hcount; reflexivity].
  cbn [bytecode context vm_count_instruction vm_set_pc call_stack vm_set_call_stack].
  rewrite Hpool, Hset. cbn [fst snd].
  (* OP_LOAD_VAR *)
  erewrite vm_run_step;
    [| reflexivity | reflexivity
     | cbn [bytecode pc]; apply (Hat 1%nat); reflexivity
     | exact Hlen].
  erewrite vm_execute_load_var;
    [| reflexivity | cbn [bytecode]; rewrite Hcount; reflexivity | reflexivity
     | cbn [bytecode]; rewrite Hpool, get_variable_c_str; exact Hget].
  (* OP_POP *)
  erewrite vm_run_step;
    [| reflexivity | reflexivity
     | cbn [bytecode pc];
       replace (0 + N.of_nat (node_count e) + 1 + 1)%N
         with (0 + N.of_nat (node_count e) + N.of_nat 2)%N by lia;
       apply (Hat 2%nat); reflexivity
     | exact Hlen].
  erewrite vm_execute_pop; [| reflexivity].
  (* OP_RETURN *)
  erewrite vm_run_step;
    [| reflexivity | reflexivity
     | cbn [bytecode pc];
       replace (0 + N.of_nat (node_count e) + 1 + 1 + 1)%N
         with (0 + N.of_nat (node_count e) + N.of_nat 3)%N by lia;
       apply (Hat 3%nat); reflexivity
     | exact Hlen].
  erewrite vm_execute_return_empty; [| reflexivity | reflexivity | reflexivity].
  rewrite vm_run_no_frame by reflexivity.
  split; [reflexivity |]. exact Hget.
Qed.

Lemma declared_variable_is_set_and_result_is_undefined_witness :
  exists bc vm',
    mjs_compile_ast (declare_and_read VAR_DECLARATION_VAR "x" two_plus_three_times_four)
    = Some bc
    /\ mjs_vm_execute (node_count two_plus_three_times_four + 5 + 0)
         (mjs_vm_new fresh_context) bc
       = Some (MJS_OK, Some mjs_value_undefined, vm')
    /\ mjs_context_get_variable (context vm') "x"
       = (true, value_of (mjs_vm_new fresh_context) two_plus_three_times_four).
Proof.
  assert (closed_expression two_plus_three_times_four = true) as H1 by reflexivity.
  assert (stack_need two_plus_three_times_four <= 1024)%nat as H2
      by (cbn [stack_need two_plus_three_times_four Nat.max]; lia).
  assert (Z.of_nat (node_count two_plus_three_times_four) < 2 ^ 32) as H3
      by (vm_compute; reflexivity).
  assert (heap_below (ctx_gc fresh_context)) as H4
      by (apply heap_below_check; vm_compute; reflexivity).
  assert (load_object (ctx_memory fresh_context) (union_object (global_object fresh_context))
          = Some (MkObject [] NULL true 0)) as H5 by (vm_compute; reflexivity).
  assert (heap_room (ctx_gc fresh_context) 88) as H6
      by (split; vm_compute; [discriminate | reflexivity]).
  exact (declared_variable_is_set_and_result_is_undefined fresh_context
           (MkObject [] NULL true 0) VAR_DECLARATION_VAR "x" two_plus_three_times_four 0
           H1 H2 H3 H4 H6 H5).
Defined.

(** ** Instructions the machine has no case for *)

(** The block [mjs_compile_ast] gives for [ast] starts with the
    instruction [op] and stops the new machine of [ctx] with [MJS_ERROR],
    in the error state, within [fuel] turns. *)
Definition compiles_and_fails (ctx : mjs_context_t) (fuel : nat) (ast : mjs_ast_node_t)
    (op : mjs_opcode_t) : Prop :=
  exists bc,
    mjs_compile_ast ast = Some bc
    /\ head (instructions bc) = Some (Instr op 0)
    /\ outcome (mjs_vm_execute fuel (mjs_vm_new ctx) bc)
       = Some (MJS_ERROR, None, VM_STATE_ERROR).

(** X19. The literals [undefined], [null], [true] and [false], the
    declaration of a variable without a value and the declaration of a
    function all compile, to a block that starts with
    [OP_PUSH_UNDEFINED], [OP_PUSH_NULL], [OP_PUSH_TRUE] or
    [OP_PUSH_FALSE]; [vm_execute_instruction] has no case for these, so
    that running the block is a runtime error at its first
    instruction. *)
Theorem pushed_literals_fail_at_run_time :
  forall (ctx : mjs_context_t) (fuel : nat) (kind : var_decl_kind)
         (name : string) (params : list mjs_ast_node_t) (body : mjs_ast_node_t),
    compiles_and_fails ctx (S fuel) AST_LITERAL_UNDEFINED OP_PUSH_UNDEFINED
    /\ compiles_and_fails ctx (S fuel) AST_LITERAL_NULL OP_PUSH_NULL
    /\ compiles_and_fails ctx (S fuel) (AST_LITERAL_BOOLEAN true) OP_PUSH_TRUE
    /\ compiles_and_fails ctx (S fuel) (AST_LITERAL_BOOLEAN false) OP_PUSH_FALSE
    /\ compiles_and_fails ctx (S fuel)
         (AST_PROGRAM [AST_VARIABLE_DECLARATION kind [(name, None)]]) OP_PUSH_UNDEFINED
    /\ compiles_and_fails ctx (S fuel)
         (AST_PROGRAM [AST_FUNCTION_DECLARATION name params body]) OP_PUSH_UNDEFINED.
Proof.
  intros ctx fuel kind name params body. unfold compiles_and_fails.
  repeat split;
    (eexists; split; [reflexivity | split; [reflexivity | vm_compute; reflexivity]]).
Qed.

(** ** The string pool of a block *)

Lemma find_index_app {A} (f : A -> bool) l1 l2 :
  find_index f (l1 ++ l2)
  = match find_index f l1 with
    | Some i => Some i
    | None => (fun i => (length l1 + i)%nat) <$> find_index f l2
    end.
Proof.
  induction l1 as [| x r IH]; cbn [app find_index length].
  - destruct (find_index f l2); reflexivity.
  - destruct (f x); [reflexivity |]. rewrite IH.
    destruct (find_index f r); [reflexivity |].
    destruct (find_index f l2); reflexivity.
Qed.

Lemma find_index_before {A} (f : A -> bool) l i :
  find_index f l = Some i -> forall j x, (j < i)%nat -> l !! j = Some x -> f x = false.
Proof.
  revert i. induction l as [| y r IH]; intros i H j x Hj Hx; [discriminate |].
  cbn [find_index] in H. destruct (f y) eqn:E.
  - injection H as <-. lia.
  - destruct (find_index f r) as [i' |] eqn:Ei; [| discriminate]. injection H as <-.
    destruct j as [| j]; [injection Hx as <-; exact E |].
    apply (IH i' eq_refl j x); [lia | exact Hx].
Qed.

Lemma find_index_none_all {A} (f : A -> bool) l :
  find_index f l = None -> forall j x, l !! j = Some x -> f x = false.
Proof.
  induction l as [| y r IH]; intros H j x Hx; [discriminate |].
  cbn [find_index] in H. destruct (f y) eqn:E; [discriminate |].
  destruct (find_index f r) eqn:Er; [discriminate |].
  destruct j as [| j]; [injection Hx as <-; exact E |]. apply (IH eq_refl j x Hx).
Qed.

Lemma wrap_uint32_small n :
  Z.of_nat n < 2 ^ 32 -> wrap_uint32 (Z.of_nat n) = N.of_nat n.
Proof. intros H. unfold wrap_uint32. rewrite Z.mod_small by lia. lia. Qed.

(** X20. [mjs_bytecode_add_string] on a block with fewer than [2 ^ 32]
    strings returns an index of the pool at which a string with the
    bytes of the name is, the first such; the strings that were in the
    pool keep their indices, and the instructions and the constants are
    left alone. Adding the name again, or a name with the same bytes,
    returns the same index and changes nothing. *)
Theorem mjs_bytecode_add_string_gives_one_index_per_name :
  forall (b : mjs_bytecode_t) (str : string),
    Z.of_nat (length (strings b)) < 2 ^ 32 ->
    (fst (mjs_bytecode_add_string b str)
     < string_count (snd (mjs_bytecode_add_string b str)))%N
    /\ MJS_STREQ (pool_string (snd (mjs_bytecode_add_string b str))
                    (fst (mjs_bytecode_add_string b str))) str = true
    /\ (forall j, (j < fst (mjs_bytecode_add_string b str))%N ->
                  MJS_STREQ (pool_string (snd (mjs_bytecode_add_string b str)) j) str
                  = false)
    /\ (forall j, (j < length (strings b))%nat ->
                  strings (snd (mjs_bytecode_add_string b str)) !! j = strings b !! j)
    /\ instructions (snd (mjs_bytecode_add_string b str)) = instructions b
    /\ constants (snd (mjs_bytecode_add_string b str)) = constants b
    /\ (forall other,
          MJS_STREQ other str = true ->
          mjs_bytecode_add_string (snd (mjs_bytecode_add_string b str)) other
          = (fst (mjs_bytecode_add_string b str), snd (mjs_bytecode_add_string b str))).
Proof.
  intros b str Hlen.
  set (f := fun s : mjs_string_t => MJS_STREQ (str_data s) str).
  assert (forall other, MJS_STREQ other str = true ->
            forall l, find_index (fun s : mjs_string_t => MJS_STREQ (str_data s) other) l
                      = find_index f l) as Hother.
  { intros other Ho l. apply find_index_ext. intros s. subst f. cbv beta.
    unfold MJS_STREQ in *. apply String.eqb_eq in Ho. rewrite Ho. reflexivity. }
  assert (mjs_bytecode_add_string b str
          = match find_index f (strings b) with
            | Some i => (wrap_uint32 (Z.of_nat i), b)
            | None =>
                (wrap_uint32 (Z.of_N (string_count b)),
                 MkBytecode (instructions b) (instruction_capacity b) (constants b)
                   (constant_capacity b)
                   (strings b ++ [MkString (c_str str) (size_add (strlen str) 1) false])
                   (if (string_capacity b <=? string_count b)%N
                    then size_mul (string_capacity b) 2 else string_capacity b))
            end) as Hadd by reflexivity.
  rewrite Hadd. clear Hadd.
  destruct (find_index f (strings b)) as [i |] eqn:Hf.
  - destruct (find_index_some _ _ _ Hf) as (x & Hx & Hm).
    pose proof (lookup_lt_Some _ _ _ Hx) as Hi.
    cbn [fst snd]. rewrite (wrap_uint32_small i) by lia.
    split; [unfold string_count; lia |].
    split; [unfold pool_string; rewrite Nat2N.id, Hx; exact Hm |].
    split.
    { intros j Hj. unfold pool_string.
      destruct (strings b !! N.to_nat j) as [y |] eqn:Hy.
      - apply (find_index_before _ _ _ Hf (N.to_nat j) y); [lia | exact Hy].
      - apply lookup_ge_None in Hy. lia. }
    split; [reflexivity |]. split; [reflexivity |]. split; [reflexivity |].
    intros other Ho. unfold mjs_bytecode_add_string.
    rewrite (Hother other Ho), Hf. rewrite (wrap_uint32_small i) by lia. reflexivity.
  - cbn [fst snd strings instructions constants].
    assert (wrap_uint32 (Z.of_N (string_count b)) = N.of_nat (length (strings b))) as Hw
        by (unfold string_count; rewrite nat_N_Z; apply (wrap_uint32_small _ Hlen)).
    rewrite !Hw.
    split; [unfold string_count; cbn [strings]; rewrite length_app; cbn [length]; lia |].
    split.
    { unfold pool_string. cbn [strings]. rewrite Nat2N.id.
      rewrite lookup_app_r by lia. rewrite Nat.sub_diag. cbn [lookup list_lookup str_data].
      apply streq_c_str. }
    split.
    { intros j Hj. unfold pool_string. cbn [strings].
      rewrite lookup_app_l by lia.
      destruct (strings b !! N.to_nat j) as [y |] eqn:Hy; [| apply lookup_ge_None in Hy; lia].
      apply (find_index_none_all _ _ Hf _ _ Hy). }
    split; [intros j Hj; apply lookup_app_l; exact Hj |].
    split; [reflexivity |]. split; [reflexivity |].
    intros other Ho. unfold mjs_bytecode_add_string. cbn [strings].
    rewrite (Hother other Ho), find_index_app, Hf. cbn [find_index fmap option_fmap option_map].
    subst f. cbv beta. cbn [str_data]. rewrite streq_c_str. cbn [fmap option_fmap option_map].
    rewrite Nat.add_0_r, (wrap_uint32_small _ Hlen). reflexivity.
Qed.

Lemma mjs_bytecode_add_string_gives_one_index_per_name_witness :
  mjs_bytecode_add_string (snd (mjs_bytecode_add_string mjs_bytecode_new "x")) "x"
  = (fst (mjs_bytecode_add_string mjs_bytecode_new "x"),
     snd (mjs_bytecode_add_string mjs_bytecode_new "x")).
Proof.
  assert (Z.of_nat (length (strings mjs_bytecode_new)) < 2 ^ 32) as H
      by (vm_compute; reflexivity).
  assert (MJS_STREQ "x" "x" = true) as Hx by reflexivity.
  exact (proj2 (proj2 (proj2 (proj2 (proj2 (proj2
           (mjs_bytecode_add_string_gives_one_index_per_name mjs_bytecode_new "x" H))))))
           "x" Hx).
Defined.

(** ** Strings *)

Lemma length_substring n m s :
  (n + m <= String.length s)%nat -> String.length (substring n m s) = m.
Proof.
  revert n m. induction s as [| c s IH]; intros [| n] [| m] H; cbn in *;
    try reflexivity; try lia.
  - rewrite (IH 0%nat m) by lia. reflexivity.
  - apply IH. lia.
  - apply IH. lia.
Qed.

Lemma substring_substring n m k s :
  (k <= m)%nat -> substring 0 k (substring n m s) = substring n k s.
Proof.
  revert n m k. induction s as [| c s IH]; intros [| n] [| m] [| k] H; cbn;
    try reflexivity; try lia.
  - rewrite (IH 0%nat m k) by lia. reflexivity.
  - apply (IH n 0%nat 0%nat). lia.
  - apply (IH n (S m) 0%nat). lia.
  - apply (IH n (S m) (S k)). lia.
Qed.

Lemma substring_all s : substring 0 (String.length s) s = s.
Proof. induction s as [| c s IH]; cbn; [reflexivity | rewrite IH; reflexivity]. Qed.

(** What the loop of [mjs_string_index_of] returns over indices at
    which the string still has room for the text searched. *)
Lemma string_index_from_spec data search n :
  forall i,
    (N.to_nat i + n + String.length search <= String.length data + 1)%nat ->
    Z.of_N i + Z.of_nat n <= 2 ^ 31 ->
    (string_index_from n data search i = -1
     /\ forall j, (i <= j)%N -> (N.to_nat j < N.to_nat i + n)%nat ->
                  substring (N.to_nat j) (String.length search) data <> search)
    \/ (exists k,
           string_index_from n data search i = Z.of_N k
           /\ (i <= k)%N /\ (N.to_nat k < N.to_nat i + n)%nat
           /\ substring (N.to_nat k) (String.length search) data = search
           /\ forall j, (i <= j)%N -> (j < k)%N ->
                        substring (N.to_nat j) (String.length search) data <> search).
Proof.
  induction n as [| n IH]; intros i Hroom Hint.
  - left. split; [reflexivity |]. intros j Hj1 Hj2. lia.
  - cbn [string_index_from].
    rewrite memcmp_zero by (apply length_substring; lia).
    destruct (String.eqb _ search) eqn:E.
    + right. exists i. apply String.eqb_eq in E.
      split.
      { unfold wrap_int. rewrite Z.mod_small by lia. lia. }
      split; [lia |]. split; [lia |]. split; [exact E |]. intros j Hj1 Hj2. lia.
    + apply String.eqb_neq in E.
      destruct (IH (i + 1)%N ltac:(lia) ltac:(lia)) as [[Hr Hn] | (k & Hr & Hk1 & Hk2 & Hk3 & Hk4)].
      * left. split; [exact Hr |]. intros j Hj1 Hj2.
        destruct (decide (j = i)) as [-> | Hne]; [exact E |]. apply Hn; lia.
      * right. exists k. split; [exact Hr |]. split; [lia |]. split; [lia |].
        split; [exact Hk3 |]. intros j Hj1 Hj2.
        destruct (decide (j = i)) as [-> | Hne]; [exact E |]. apply Hk4; lia.
Qed.

(** X21. [mjs_string_index_of] on two strings of the heap, the first
    shorter than [2 ^ 31] bytes: the result is the first index from
    [start_pos] on at which the bytes of the text searched are in the
    string, and -1 when there is none. An empty text is never found: the
    result is -1 for it. *)
Theorem mjs_string_index_of_is_first_occurrence :
  forall (m : gmap N cell) (str search : ptr) (start_pos : N) (s t : mjs_string_t),
    str <> NULL -> search <> NULL ->
    load_string m str = Some s -> load_string m search = Some t ->
    (str_length s < 2 ^ 31)%N ->
    (str_length t = 0%N -> mjs_string_index_of m str search start_pos = -1)
    /\ ((mjs_string_index_of m str search start_pos = -1
         /\ forall j, (0 < str_length t)%N -> (start_pos <= j)%N ->
                      (j + str_length t <= str_length s)%N ->
                      substring (N.to_nat j) (String.length (str_data t)) (str_data s)
                      <> str_data t)
        \/ (exists i,
               mjs_string_index_of m str search start_pos = Z.of_N i
               /\ (0 < str_length t)%N /\ (start_pos <= i)%N
               /\ (i + str_length t <= str_length s)%N
               /\ substring (N.to_nat i) (String.length (str_data t)) (str_data s)
                  = str_data t
               /\ forall j, (start_pos <= j)%N -> (j < i)%N ->
                            substring (N.to_nat j) (String.length (str_data t)) (str_data s)
                            <> str_data t)).
Proof.
  intros m str search start_pos s t Hstr Hsearch Hs Ht Hlen.
  unfold mjs_string_index_of, read_string. rewrite Hs, Ht. cbn [default from_option id].
  apply N.eqb_neq in Hstr, Hsearch. rewrite Hstr, Hsearch. cbn [orb].
  change (2 ^ 31)%N with 2147483648%N in Hlen.
  split.
  { intros H0. rewrite H0. reflexivity. }
  destruct (str_length t =? 0)%N eqn:E0.
  { left. split; [reflexivity |]. intros j H0. apply N.eqb_eq in E0. lia. }
  apply N.eqb_neq in E0. cbn [orb].
  destruct (str_length s <=? start_pos)%N eqn:E1.
  { left. split; [reflexivity |]. intros j _ Hj1 Hj2. apply N.leb_le in E1. lia. }
  apply N.leb_gt in E1.
  assert (size_sub (str_length s) start_pos = (str_length s - start_pos)%N) as ->.
  { unfold size_sub, wrap_size_t. rewrite Z.mod_small by lia. lia. }
  destruct (str_length s - start_pos <? str_length t)%N eqn:E2.
  { left. split; [reflexivity |]. intros j _ Hj1 Hj2. apply N.ltb_lt in E2. lia. }
  apply N.ltb_ge in E2.
  assert (size_sub (str_length s) (str_length t) = (str_length s - str_length t)%N) as ->.
  { unfold size_sub, wrap_size_t. rewrite Z.mod_small by lia. lia. }
  unfold str_length in *.
  destruct (string_index_from_spec (str_data s) (str_data t)
              (N.to_nat (N.of_nat (String.length (str_data s))
                         - N.of_nat (String.length (str_data t))) + 1
               - N.to_nat start_pos) start_pos ltac:(lia) ltac:(lia))
    as [[Hr Hn] | (k & Hr & Hk1 & Hk2 & Hk3 & Hk4)].
  - left. split; [exact Hr |]. intros j _ Hj1 Hj2. apply Hn; lia.
  - right. exists k. split; [exact Hr |]. split; [lia |]. split; [exact Hk1 |].
    split; [lia |]. split; [exact Hk3 |]. exact Hk4.
Qed.

(** A heap with the strings [hello world] and [o w]. *)
Definition text_context : mjs_context_t :=
  snd (mjs_string_new (snd (mjs_string_new fresh_context "hello world" 11)) "o w" 3).
Definition hello_world : mjs_string_t := MkString "hello world" 12 false.
Definition o_w : mjs_string_t := MkString "o w" 4 false.

Lemma hello_world_loaded : load_string (ctx_memory text_context) 4224 = Some hello_world.
Proof. vm_compute. reflexivity. Qed.

Lemma o_w_loaded : load_string (ctx_memory text_context) 4312 = Some o_w.
Proof. vm_compute. reflexivity. Qed.

Lemma text_context_below : heap_below (ctx_gc text_context).
Proof. apply heap_below_check. vm_compute. reflexivity. Qed.

Lemma mjs_string_index_of_is_first_occurrence_witness :
  (mjs_string_index_of (ctx_memory text_context) 4224 4312 0 = -1
   /\ forall j, (0 < str_length o_w)%N -> (0 <= j)%N ->
                (j + str_length o_w <= str_length hello_world)%N ->
                substring (N.to_nat j) (String.length (str_data o_w)) (str_data hello_world)
                <> str_data o_w)
  \/ (exists i,
         mjs_string_index_of (ctx_memory text_context) 4224 4312 0 = Z.of_N i
         /\ (0 < str_length o_w)%N /\ (0 <= i)%N
         /\ (i + str_length o_w <= str_length hello_world)%N
         /\ substring (N.to_nat i) (String.length (str_data o_w)) (str_data hello_world)
            = str_data o_w
         /\ forall j, (0 <= j)%N -> (j < i)%N ->
                      substring (N.to_nat j) (String.length (str_data o_w))
                        (str_data hello_world)
                      <> str_data o_w).
Proof.
  assert (4224%N <> NULL) as H1 by discriminate.
  assert (4312%N <> NULL) as H2 by discriminate.
  assert (str_length hello_world < 2 ^ 31)%N as H3 by (vm_compute; reflexivity).
  exact (proj2 (mjs_string_index_of_is_first_occurrence (ctx_memory text_context) 4224 4312 0
                  hello_world o_w H1 H2 hello_world_loaded o_w_loaded H3)).
Defined.

(** The bytes [mjs_string_new] copies when it is given the bytes of a
    string from [start] on. *)
Lemma bytes_drop start len data :
  (start + len <= String.length data)%nat ->
  bytes (LibC.drop start data) (N.of_nat len) = substring start len data.
Proof.
  intros H. unfold bytes, LibC.drop. rewrite Nat2N.id.
  apply substring_substring. lia.
Qed.

Lemma substring_none n s : substring n 0 s = EmptyString.
Proof.
  revert n. induction s as [| c s IH]; intros [| n]; cbn; try reflexivity. apply IH.
Qed.

(** X22. [mjs_string_substring] on a string of the heap, shorter than
    [2 ^ 64] bytes, when [start] plus [length] does not wrap and the
    heap has room for a string, 88 bytes, so that it does not grow: it
    returns a new string, not interned, whose bytes are those of the
    string from [start] on, [length] of them or as many as there are; it
    is empty when [start] is at or past the end. The string it was taken
    from is as it was. *)
Theorem mjs_string_substring_is_clamped :
  forall (ctx : mjs_context_t) (str : ptr) (start length : N) (s : mjs_string_t),
    heap_below (ctx_gc ctx) ->
    heap_room (ctx_gc ctx) 88 ->
    str <> NULL ->
    load_string (ctx_memory ctx) str = Some s ->
    (str_length s < 2 ^ 64)%N ->
    Z.of_N start + Z.of_N length < 2 ^ 64 ->
    fst (mjs_string_substring ctx str start length) <> NULL
    /\ ctx_memory ctx !! fst (mjs_string_substring ctx str start length) = None
    /\ (exists capacity,
           load_string (ctx_memory (snd (mjs_string_substring ctx str start length)))
             (fst (mjs_string_substring ctx str start length))
           = Some (MkString
                     (substring (N.to_nat start)
                        (N.to_nat (N.min length (str_length s - start))) (str_data s))
                     capacity false))
    /\ load_string (ctx_memory (snd (mjs_string_substring ctx str start length))) str
       = Some s.
Proof.
  intros ctx str start length s Hb Hroom Hstr Hs Hsz Hw.
  change (2 ^ 64)%N with 18446744073709551616%N in Hsz.
  unfold mjs_string_substring, read_string. rewrite Hs. cbn [default from_option id].
  apply N.eqb_neq in Hstr. rewrite Hstr.
  assert (forall data len,
             (len <= N.of_nat (String.length data))%N ->
             fst (mjs_string_new ctx data len) <> NULL
             /\ ctx_memory ctx !! fst (mjs_string_new ctx data len) = None
             /\ (exists capacity,
                    load_string (ctx_memory (snd (mjs_string_new ctx data len)))
                      (fst (mjs_string_new ctx data len))
                    = Some (MkString (bytes data len) capacity false))
             /\ load_string (ctx_memory (snd (mjs_string_new ctx data len))) str = Some s)
    as Hnew.
  { intros data len Hlen.
    destruct (mjs_string_new ctx data len) as [r ctx'] eqn:E. cbn [fst snd] in *.
    destruct (mjs_string_new_room _ _ _ _ _ Hroom E) as (Hr & _).
    destruct (mjs_string_new_spec _ _ _ _ _ Hroom E)
      as (_ & _ & _ & [[-> _] | (Hp & _ & Hl & Hq)]); [contradiction |].
    split; [exact Hr |].
    split; [apply (heap_below_fresh _ _ Hb Hp) |]. split; [eexists; exact Hl |].
    assert (str <> r) as Hne.
    { unfold load_string in Hs.
      destruct (load (ctx_memory ctx) str) as [b |] eqn:El; [| discriminate].
      apply (load_some_ne (ctx_gc ctx) r str b Hb Hp El). }
    unfold load_string. rewrite (Hq str Hne). exact Hs. }
  destruct (str_length s <=? start)%N eqn:E1.
  - apply N.leb_le in E1.
    destruct (Hnew "" 0%N ltac:(cbn; lia)) as (F0 & F1 & (cap & F2) & F3).
    split; [exact F0 |]. split; [exact F1 |]. split; [| exact F3]. exists cap. rewrite F2.
    replace (N.min length (str_length s - start)) with 0%N by lia.
    rewrite substring_none. reflexivity.
  - apply N.leb_gt in E1.
    assert (size_add start length = (start + length)%N) as ->.
    { unfold size_add, wrap_size_t. rewrite Z.mod_small by lia. lia. }
    assert (size_sub (str_length s) start = (str_length s - start)%N) as ->.
    { unfold size_sub, wrap_size_t.
      rewrite Z.mod_small by lia. lia. }
    set (len := if (str_length s <? start + length)%N then (str_length s - start)%N
                else length).
    assert (len = N.min length (str_length s - start)) as Hlen.
    { subst len. destruct (str_length s <? start + length)%N eqn:E2.
      - apply N.ltb_lt in E2. lia.
      - apply N.ltb_ge in E2. lia. }
    destruct (Hnew (LibC.drop (N.to_nat start) (str_data s)) len)
      as (F0 & F1 & (cap & F2) & F3).
    { unfold LibC.drop. rewrite length_substring by (unfold str_length in E1; lia).
      unfold str_length in *. lia. }
    split; [exact F0 |]. split; [exact F1 |]. split; [| exact F3].
    exists cap. rewrite F2. f_equal. f_equal.
    rewrite <- Hlen. rewrite <- (N2Nat.id len) at 1. apply bytes_drop.
    unfold str_length in *. lia.
Qed.

Lemma text_context_room : heap_room (ctx_gc text_context) 88.
Proof. split; vm_compute; [discriminate | reflexivity]. Qed.

Lemma mjs_string_substring_is_clamped_witness :
  fst (mjs_string_substring text_context 4224 4 3) <> NULL
  /\ ctx_memory text_context !! fst (mjs_string_substring text_context 4224 4 3) = None
  /\ (exists capacity,
         load_string (ctx_memory (snd (mjs_string_substring text_context 4224 4 3)))
           (fst (mjs_string_substring text_context 4224 4 3))
         = Some (MkString
                   (substring (N.to_nat 4)
                      (N.to_nat (N.min 3 (str_length hello_world - 4)))
                      (str_data hello_world))
                   capacity false))
  /\ load_string (ctx_memory (snd (mjs_string_substring text_context 4224 4 3))) 4224
     = Some hello_world.
Proof.
  assert (4224%N <> NULL) as H1 by discriminate.
  assert (str_length hello_world < 2 ^ 64)%N as H2 by (vm_compute; reflexivity).
  assert (Z.of_N 4 + Z.of_N 3 < 2 ^ 64) as H3 by (vm_compute; reflexivity).
  exact (mjs_string_substring_is_clamped text_context 4224 4 3 hello_world
           text_context_below text_context_room H1 hello_world_loaded H2 H3).
Defined.

(** X23. [mjs_string_concat] on two strings of the heap whose lengths
    have a sum below [2 ^ 64], on a heap that has room for a string, 88
    bytes, so that it does not grow: it returns a new string, not
    interned, whose bytes are those of the first followed by those of
    the second, and the two strings are as they were. With the null
    pointer for one of the two, the result has the bytes of the
    other. *)
Theorem mjs_string_concat_appends :
  forall (ctx : mjs_context_t) (a b : ptr) (sa sb : mjs_string_t),
    heap_below (ctx_gc ctx) ->
    heap_room (ctx_gc ctx) 88 ->
    a <> NULL -> b <> NULL ->
    load_string (ctx_memory ctx) a = Some sa ->
    load_string (ctx_memory ctx) b = Some sb ->
    (str_length sa + str_length sb < 2 ^ 64)%N ->
    (exists r ctx',
        mjs_string_concat ctx a b = Some (r, ctx')
        /\ r <> NULL
        /\ ctx_memory ctx !! r = None
        /\ load_string (ctx_memory ctx') r
           = Some (MkString (str_data sa +:+ str_data sb)
                     (size_add (str_length sa + str_length sb) 1) false)
        /\ load_string (ctx_memory ctx') a = Some sa
        /\ load_string (ctx_memory ctx') b = Some sb)
    /\ (exists r ctx',
           mjs_string_concat ctx a NULL = Some (r, ctx')
           /\ r <> NULL
           /\ load_string (ctx_memory ctx') r
              = Some (MkString (str_data sa) (size_add (str_length sa) 1) false))
    /\ (exists r ctx',
           mjs_string_concat ctx NULL b = Some (r, ctx')
           /\ r <> NULL
           /\ load_string (ctx_memory ctx') r
              = Some (MkString (str_data sb) (size_add (str_length sb) 1) false)).
Proof.
  intros ctx a b sa sb Hb Hroom Ha Hbn Hsa Hsb Hsum.
  change (2 ^ 64)%N with 18446744073709551616%N in Hsum.
  pose proof Ha as Ha'. pose proof Hbn as Hb'.
  apply N.eqb_neq in Ha', Hb'.
  assert (forall s, exists r ctx',
             mjs_string_new ctx (str_data s) (str_length s) = (r, ctx')
             /\ r <> NULL
             /\ load_string (ctx_memory ctx') r
                = Some (MkString (str_data s) (size_add (str_length s) 1) false))
    as Hcopy.
  { intros s. destruct (mjs_string_new ctx (str_data s) (str_length s)) as [r ctx'] eqn:E.
    exists r, ctx'. split; [reflexivity |].
    destruct (mjs_string_new_room _ _ _ _ _ Hroom E) as (Hr & _).
    split; [exact Hr |].
    destruct (mjs_string_new_spec _ _ _ _ _ Hroom E)
      as (_ & _ & _ & [[-> _] | (_ & _ & Hl & _)]); [contradiction |].
    rewrite Hl. unfold bytes, str_length. rewrite Nat2N.id, substring_all. reflexivity. }
  split; [| split].
  - unfold mjs_string_concat. rewrite Ha', Hb'. cbn [andb].
    cbv zeta.
    assert (read_string (ctx_memory ctx) a = sa) as Hra
        by (unfold read_string; rewrite Hsa; reflexivity).
    assert (read_string (ctx_memory ctx) b = sb) as Hrb
        by (unfold read_string; rewrite Hsb; reflexivity).
    rewrite !Hra, !Hrb.
    destruct (mjs_gc_alloc (ctx_gc ctx) sizeof_mjs_string_t GC_TYPE_STRING) as [r g] eqn:E.
    change 88%N with (sizeof_mjs_string_t + GC_HEADER_SIZE)%N in Hroom.
    destruct (mjs_gc_alloc_room _ _ _ _ _ Hroom E) as (_ & Hnn).
    destruct (Hnn ltac:(unfold sizeof_mjs_string_t; lia)) as (Hrn & _).
    pose proof Hrn as Hr. apply N.eqb_neq in Hr. rewrite Hr.
    assert (size_add (str_length sa) (str_length sb) = (str_length sa + str_length sb)%N)
      as ->.
    { unfold size_add, wrap_size_t. rewrite Z.mod_small by lia. lia. }
    rewrite N.ltb_irrefl.
    destruct (mjs_gc_alloc_spec _ _ _ _ _ Hroom E) as (_ & [[-> _] | (Hp & _ & Hl & Hq)]);
      [discriminate |].
    assert (forall q s, load_string (ctx_memory ctx) q = Some s ->
                        q <> r /\ load_string (memory g) q = Some s) as Hold.
    { intros q s Hq0.
      assert (q <> r) as Hne.
      { unfold load_string in Hq0.
        destruct (load (ctx_memory ctx) q) as [x |] eqn:El; [| discriminate].
        apply (load_some_ne (ctx_gc ctx) r q x Hb Hp El). }
      split; [exact Hne |]. unfold load_string. rewrite (Hq q Hne). exact Hq0. }
    destruct (Hold a sa Hsa) as [Nea Hga]. destruct (Hold b sb Hsb) as [Neb Hgb].
    unfold read_string. rewrite Hga, Hgb. cbn [default from_option id].
    eexists _, _. split; [reflexivity |]. split; [exact Hrn |].
    assert (exists c, memory g !! r = Some c) as [c Hc].
    { unfold load in Hl. destruct (memory g !! r) as [c |]; [eauto | discriminate]. }
    split; [apply (heap_below_fresh _ _ Hb Hp) |].
    unfold load_string in Hga, Hgb.
    unfold ctx_memory, ctx_gc, load_string. simpl.
    split; [rewrite (load_store_eq _ _ _ _ Hc); reflexivity |].
    split; rewrite load_store_ne by congruence.
    + exact Hga.
    + exact Hgb.
  - unfold mjs_string_concat. rewrite Ha'. cbn [andb]. rewrite N.eqb_refl.
    unfold read_string. rewrite Hsa. cbn [default from_option id].
    destruct (Hcopy sa) as (r & ctx' & E & H). exists r, ctx'. rewrite E. split; auto.
  - unfold mjs_string_concat. rewrite Hb', N.eqb_refl. cbn [andb].
    unfold read_string. rewrite Hsb. cbn [default from_option id].
    destruct (Hcopy sb) as (r & ctx' & E & H). exists r, ctx'. rewrite E. split; auto.
Qed.

Lemma mjs_string_concat_appends_witness :
  exists r ctx',
    mjs_string_concat text_context 4224 4312 = Some (r, ctx')
    /\ r <> NULL
    /\ ctx_memory text_context !! r = None
    /\ load_string (ctx_memory ctx') r
       = Some (MkString (str_data hello_world +:+ str_data o_w)
                 (size_add (str_length hello_world + str_length o_w) 1) false)
    /\ load_string (ctx_memory ctx') 4224 = Some hello_world
    /\ load_string (ctx_memory ctx') 4312 = Some o_w.
Proof.
  assert (4224%N <> NULL) as H1 by discriminate.
  assert (4312%N <> NULL) as H2 by discriminate.
  assert (str_length hello_world + str_length o_w < 2 ^ 64)%N as H3
      by (vm_compute; reflexivity).
  exact (proj1 (mjs_string_concat_appends text_context 4224 4312 hello_world o_w
                  text_context_below text_context_room H1 H2 hello_world_loaded
                  o_w_loaded H3)).
Defined.

Lemma memcmp_refl a : memcmp a a = 0.
Proof.
  induction a as [| x a IH]; [reflexivity |]. cbn [memcmp].
  rewrite Ascii.eqb_refl. exact IH.
Qed.

(** X24. [mjs_string_compare] on two strings of the heap: it is 0 for a
    string and itself; for strings shorter than [2 ^ 32] bytes it is 0
    exactly when the bytes are the same, and for strings shorter than
    [2 ^ 31] bytes of different lengths it is the difference of the
    lengths, so that the shorter string comes first whatever the bytes
    are. Two strings whose lengths differ by [2 ^ 32] compare as equal:
    the difference of the lengths is cut to an [int]. The null pointer
    comes before every string. *)
Theorem mjs_string_compare_orders_by_length_first :
  forall (m : gmap N cell) (a b : ptr) (sa sb : mjs_string_t),
    a <> NULL -> b <> NULL ->
    load_string m a = Some sa -> load_string m b = Some sb ->
    mjs_string_compare m a a = 0
    /\ ((str_length sa < 2 ^ 32)%N -> (str_length sb < 2 ^ 32)%N ->
        (mjs_string_compare m a b = 0 <-> str_data sa = str_data sb))
    /\ ((str_length sa < 2 ^ 31)%N -> (str_length sb < 2 ^ 31)%N ->
        str_length sa <> str_length sb ->
        mjs_string_compare m a b = Z.of_N (str_length sa) - Z.of_N (str_length sb))
    /\ (str_length sa = (str_length sb + 2 ^ 32)%N -> (str_length sa < 2 ^ 64)%N ->
        mjs_string_compare m a b = 0)
    /\ mjs_string_compare m NULL b = -1
    /\ mjs_string_compare m a NULL = 1
    /\ mjs_string_compare m NULL NULL = 0.
Proof.
  intros m a b sa sb Ha Hb Hsa Hsb.
  pose proof Ha as Ha'. pose proof Hb as Hb'. apply N.eqb_neq in Ha', Hb'.
  unfold mjs_string_compare. rewrite ?Ha', ?Hb', ?N.eqb_refl, ?Hsa, ?Hsb.
  cbn [andb default from_option id negb].
  change (2 ^ 32)%N with 4294967296%N. change (2 ^ 31)%N with 2147483648%N.
  change (2 ^ 64)%N with 18446744073709551616%N.
  split; [apply memcmp_refl |]. split; [| split; [| split; [| repeat split]]].
  - intros La Lb. destruct (str_length sa =? str_length sb)%N eqn:E; cbn [negb].
    + apply N.eqb_eq in E.
      pose proof (memcmp_zero (str_data sa) (str_data sb)
                    ltac:(unfold str_length in E; lia)) as Hz.
      split.
      * intros H. apply String.eqb_eq. rewrite <- Hz. apply Z.eqb_eq. exact H.
      * intros H. apply Z.eqb_eq. rewrite Hz. apply String.eqb_eq. exact H.
    + apply N.eqb_neq in E. split.
      * intros H. exfalso. revert H.
        unfold wrap_int, size_sub, wrap_size_t.
        change (2 ^ 64) with 18446744073709551616.
        change (2 ^ 32) with 4294967296. change (2 ^ 31) with 2147483648.
        set (x := str_length sa) in *. set (y := str_length sb) in *.
        pose proof (Z.mod_pos_bound (Z.of_N x - Z.of_N y) 18446744073709551616 eq_refl) as B1.
        pose proof (Z.div_mod (Z.of_N x - Z.of_N y) 18446744073709551616 ltac:(lia)) as D1.
        rewrite Z2N.id by lia.
        set (z := (Z.of_N x - Z.of_N y) mod 18446744073709551616) in *.
        pose proof (Z.mod_pos_bound (z + 2147483648) 4294967296 eq_refl) as B2.
        pose proof (Z.div_mod (z + 2147483648) 4294967296 ltac:(lia)) as D2.
        lia.
      * intros H. exfalso. apply E. unfold str_length. rewrite H. reflexivity.
  - intros La Lb E. apply N.eqb_neq in E. rewrite E. cbn [negb].
    unfold wrap_int, size_sub, wrap_size_t.
    change (2 ^ 64) with 18446744073709551616.
    change (2 ^ 32) with 4294967296. change (2 ^ 31) with 2147483648.
    set (x := str_length sa) in *. set (y := str_length sb) in *.
    pose proof (Z.mod_pos_bound (Z.of_N x - Z.of_N y) 18446744073709551616 eq_refl) as B1.
    pose proof (Z.div_mod (Z.of_N x - Z.of_N y) 18446744073709551616 ltac:(lia)) as D1.
    rewrite Z2N.id by lia.
    set (z := (Z.of_N x - Z.of_N y) mod 18446744073709551616) in *.
    pose proof (Z.mod_pos_bound (z + 2147483648) 4294967296 eq_refl) as B2.
    pose proof (Z.div_mod (z + 2147483648) 4294967296 ltac:(lia)) as D2.
    lia.
  - intros E Hlt.
    assert ((str_length sa =? str_length sb)%N = false) as -> by (apply N.eqb_neq; lia).
    cbn [negb]. unfold wrap_int, size_sub, wrap_size_t. rewrite E.
    replace (Z.of_N (str_length sb + 4294967296) - Z.of_N (str_length sb))
      with 4294967296 by lia.
    reflexivity.
Qed.

Lemma mjs_string_compare_orders_by_length_first_witness :
  mjs_string_compare (ctx_memory text_context) 4224 4312
  = Z.of_N (str_length hello_world) - Z.of_N (str_length o_w).
Proof.
  assert (4224%N <> NULL) as H1 by discriminate.
  assert (4312%N <> NULL) as H2 by discriminate.
  assert (str_length hello_world < 2 ^ 31)%N as H3 by (vm_compute; reflexivity).
  assert (str_length o_w < 2 ^ 31)%N as H4 by (vm_compute; reflexivity).
  assert (str_length hello_world <> str_length o_w) as H5 by (vm_compute; discriminate).
  exact (proj1 (proj2 (proj2 (mjs_string_compare_orders_by_length_first
                                (ctx_memory text_context) 4224 4312 hello_world o_w
                                H1 H2 hello_world_loaded o_w_loaded))) H3 H4 H5).
Defined.

(** ** Arrays made from arrays *)

(** What [mjs_array_new] returns on a heap that has room for the array,
    72 bytes, for fewer than [2 ^ 60] elements: the address of a new
    array of length 0 whose elements, as many as asked for and 4 when
    none is asked for, are undefined; the payloads that were on the heap
    are as they were. *)
Lemma mjs_array_new_spec ctx n :
  heap_room (ctx_gc ctx) 72 -> (n < 2 ^ 60)%N ->
  exists arr ctx',
    mjs_array_new ctx n = Some (arr, ctx')
    /\ arr = (heap (ctx_gc ctx) + heap_used (ctx_gc ctx) + GC_HEADER_SIZE)%N
    /\ arr <> NULL
    /\ load_array (ctx_memory ctx') arr
       = Some (MkArray (replicate (N.to_nat (if (0 <? n)%N then n else 4%N))
                          mjs_value_undefined) 0)
    /\ (forall q, q <> arr -> load (ctx_memory ctx') q = load (ctx_memory ctx) q).
Proof.
  intros Hroom Hn. unfold mjs_array_new.
  destruct (mjs_gc_alloc (ctx_gc ctx) sizeof_mjs_array_t GC_TYPE_ARRAY) as [p g] eqn:E.
  change 72%N with (sizeof_mjs_array_t + GC_HEADER_SIZE)%N in Hroom.
  destruct (mjs_gc_alloc_room _ _ _ _ _ Hroom E) as (_ & Hnn).
  destruct (Hnn ltac:(unfold sizeof_mjs_array_t; lia)) as (Hp0 & _).
  destruct (mjs_gc_alloc_spec _ _ _ _ _ Hroom E)
    as (Hh & [[-> _] | (Hp & Hu & Hl & Ho)]); [contradiction |].
  pose proof Hp0 as Hz. apply N.eqb_neq in Hz. rewrite Hz. cbv zeta.
  assert (0 < (if (0 <? n)%N then n else 4%N) < 2 ^ 60)%N as Hcap.
  { destruct (0 <? n)%N eqn:E0; [apply N.ltb_lt in E0 |]; lia. }
  destruct (holds_values_small _ (proj1 Hcap) (proj2 Hcap)) as [_ ->].
  eexists _, _. split; [reflexivity |]. split; [exact Hp |]. split; [exact Hp0 |].
  unfold ctx_memory, ctx_gc, load_array. simpl.
  assert (exists c, memory g !! p = Some c) as [c Hc].
  { unfold load in Hl. destruct (memory g !! p) as [c |]; [eauto | discriminate]. }
  split.
  - rewrite (load_store_eq _ _ _ _ Hc). reflexivity.
  - intros q Hq. rewrite load_store_ne by congruence. apply Ho. exact Hq.
Qed.

(** The array at the address [mjs_array_new] returns, whatever the heap
    is. *)
Lemma mjs_array_new_made ctx n arr ctx' :
  mjs_array_new ctx n = Some (arr, ctx') -> arr <> NULL ->
  load_array (ctx_memory ctx') arr
  = Some (MkArray (replicate (N.to_nat (if (0 <? n)%N then n else 4%N))
                     mjs_value_undefined) 0).
Proof.
  unfold mjs_array_new.
  destruct (mjs_gc_alloc (ctx_gc ctx) sizeof_mjs_array_t GC_TYPE_ARRAY) as [p g] eqn:E.
  destruct (p =? NULL)%N eqn:Hz.
  { intros [= <- <-] Hn. apply N.eqb_eq in Hz. contradiction. }
  apply N.eqb_neq in Hz. destruct (mjs_gc_alloc_cell _ _ _ _ _ E Hz) as (Hc & _).
  cbv zeta. destruct (holds_values _ _); [| discriminate].
  intros [= <- <-] _. unfold ctx_memory, ctx_gc, load_array. simpl.
  rewrite (load_store_eq _ _ _ _ Hc). reflexivity.
Qed.

Lemma element_replicate k j : element (replicate k mjs_value_undefined) j = mjs_value_undefined.
Proof.
  unfold element. destruct (replicate k mjs_value_undefined !! j) as [x |] eqn:E;
    [| reflexivity].
  apply lookup_replicate in E. destruct E as [-> _]. reflexivity.
Qed.

(** The loop that copies [n] elements. *)
Lemma copy_elements_spec src from dst to n :
  (to + n <= length dst)%nat ->
  length (copy_elements src from dst to n) = length dst
  /\ forall j, element (copy_elements src from dst to n) j
               = if decide (to <= j < to + n)%nat then element src (from + (j - to))
                 else element dst j.
Proof.
  unfold copy_elements. induction n as [| n IH]; intros Hn.
  - split; [reflexivity |]. intros j. case_decide; [lia | reflexivity].
  - destruct (IH ltac:(lia)) as [Hl He].
    rewrite seq_S, fold_left_app. cbn [fold_left Nat.add].
    split; [rewrite length_insert; exact Hl |].
    intros j. rewrite element_insert, Hl, He.
    repeat case_decide; try lia; try reflexivity.
    destruct H as [<- _]. unfold element. f_equal. f_equal. lia.
Qed.

(** The two indices [mjs_array_slice] works with, once the negative ones
    are counted from the end and both are cut to the bounds of the
    array, and what it does with them. *)
Definition slice_start (len start : Z) : Z :=
  let start :=
    if start <? 0 then
      let s := wrap_long (len + start) in if s <? 0 then 0 else s
    else start in
  if len <=? start then len else start.

Definition slice_end (len end_ : Z) : Z :=
  let end_ := if end_ <? 0 then wrap_long (len + end_) else end_ in
  if len <? end_ then len else end_.

Definition slice_between (ctx : mjs_context_t) (arr : ptr) (start end_ : Z)
  : option (ptr * mjs_context_t) :=
  if end_ <=? start then mjs_array_new ctx 0
  else
    let slice_length := wrap_size_t (end_ - start) in
    match mjs_array_new ctx slice_length with
    | None => None
    | Some (slice, ctx) =>
        if (slice =? NULL)%N then Some (NULL, ctx)
        else
          match load_array (ctx_memory ctx) arr, load_array (ctx_memory ctx) slice with
          | Some a, Some s =>
              let els := copy_elements (elements a) (Z.to_nat start) (elements s) 0
                           (N.to_nat slice_length) in
              Some (slice,
                    ctx_set_memory
                      (store slice (PArray (MkArray els slice_length)) (ctx_memory ctx))
                      ctx)
          | _, _ => Some (slice, ctx)
          end
    end.

Lemma mjs_array_slice_between ctx arr a start end_ :
  load_array (ctx_memory ctx) arr = Some a ->
  mjs_array_slice ctx arr start end_
  = slice_between ctx arr (slice_start (to_long (arr_length a)) start)
      (slice_end (to_long (arr_length a)) end_).
Proof. intros Ha. unfold mjs_array_slice. rewrite Ha. reflexivity. Qed.

Lemma wrap_long_small z : - 2 ^ 63 <= z < 2 ^ 63 -> wrap_long z = z.
Proof. intros H. unfold wrap_long. rewrite Z.mod_small by lia. lia. Qed.

Lemma slice_start_spec len start :
  0 <= len < 2 ^ 63 -> - 2 ^ 63 <= start < 2 ^ 63 ->
  slice_start len start
  = if start <? 0 then Z.max 0 (len + start) else Z.min start len.
Proof.
  intros Hl Hs. unfold slice_start. cbv zeta.
  destruct (start <? 0) eqn:E.
  - apply Z.ltb_lt in E. rewrite wrap_long_small by lia.
    destruct (len + start <? 0) eqn:E1;
      [apply Z.ltb_lt in E1 | apply Z.ltb_ge in E1];
      destruct (len <=? _) eqn:E2;
      try apply Z.leb_le in E2; try apply Z.leb_gt in E2; lia.
  - apply Z.ltb_ge in E.
    destruct (len <=? start) eqn:E2;
      [apply Z.leb_le in E2 | apply Z.leb_gt in E2]; lia.
Qed.

Lemma slice_end_spec len end_ :
  0 <= len < 2 ^ 63 -> - 2 ^ 63 <= end_ < 2 ^ 63 ->
  slice_end len end_ = if end_ <? 0 then len + end_ else Z.min end_ len.
Proof.
  intros Hl Hs. unfold slice_end. cbv zeta.
  destruct (end_ <? 0) eqn:E.
  - apply Z.ltb_lt in E. rewrite wrap_long_small by lia.
    destruct (len <? len + end_) eqn:E2;
      [apply Z.ltb_lt in E2 | apply Z.ltb_ge in E2]; lia.
  - apply Z.ltb_ge in E.
    destruct (len <? end_) eqn:E2;
      [apply Z.ltb_lt in E2 | apply Z.ltb_ge in E2]; lia.
Qed.

(** A new array on a heap whose cells are below its next place: no cell
    was at its address, and an array that was on the heap is another
    array, as it was. *)
Lemma mjs_array_new_beside ctx n arr a :
  heap_below (ctx_gc ctx) -> heap_room (ctx_gc ctx) 72 -> (n < 2 ^ 60)%N ->
  load_array (ctx_memory ctx) arr = Some a ->
  exists r ctx',
    mjs_array_new ctx n = Some (r, ctx')
    /\ r <> NULL
    /\ ctx_memory ctx !! r = None
    /\ load_array (ctx_memory ctx') r
       = Some (MkArray (replicate (N.to_nat (if (0 <? n)%N then n else 4%N))
                          mjs_value_undefined) 0)
    /\ (forall q x, load_array (ctx_memory ctx) q = Some x ->
                    q <> r /\ load_array (ctx_memory ctx') q = Some x).
Proof.
  intros Hb Hroom Hn Ha.
  destruct (mjs_array_new_spec ctx n Hroom Hn) as (r & ctx' & E & Hp & Hr & Hl & Hq).
  exists r, ctx'. split; [exact E |]. split; [exact Hr |].
  split; [apply (heap_below_fresh _ _ Hb Hp) |]. split; [exact Hl |].
  intros q x Hx.
  assert (q <> r) as Hne.
  { unfold load_array in Hx.
    destruct (load (ctx_memory ctx) q) as [b |] eqn:El; [| discriminate].
    apply (load_some_ne (ctx_gc ctx) r q b Hb Hp El). }
  split; [exact Hne |]. unfold load_array. rewrite (Hq q Hne). exact Hx.
Qed.

(** X25. [mjs_array_slice] on an array of fewer than [2 ^ 60] elements:
    a negative index counts from the end, a start before the first
    element is the first element and an end past the last is the end.
    For indices [0 <= start <= end <= length], on a heap that has room
    for an array, 72 bytes, so that it does not grow, it returns a new
    array of [end - start] elements, the elements of the array from
    [start] on, and the array is as it was. *)
Theorem mjs_array_slice_copies_range :
  forall (ctx : mjs_context_t) (arr : ptr) (a : mjs_array_t) (start end_ : Z),
    heap_below (ctx_gc ctx) ->
    heap_room (ctx_gc ctx) 72 ->
    load_array (ctx_memory ctx) arr = Some a ->
    (arr_length a <= arr_capacity a)%N -> (arr_length a < 2 ^ 60)%N ->
    - 2 ^ 63 <= start < 2 ^ 63 -> - 2 ^ 63 <= end_ < 2 ^ 63 ->
    (- Z.of_N (arr_length a) <= start < 0 ->
     mjs_array_slice ctx arr start end_
     = mjs_array_slice ctx arr (Z.of_N (arr_length a) + start) end_)
    /\ (start < - Z.of_N (arr_length a) ->
        mjs_array_slice ctx arr start end_ = mjs_array_slice ctx arr 0 end_)
    /\ (- Z.of_N (arr_length a) <= end_ < 0 ->
        mjs_array_slice ctx arr start end_
        = mjs_array_slice ctx arr start (Z.of_N (arr_length a) + end_))
    /\ (Z.of_N (arr_length a) < end_ ->
        mjs_array_slice ctx arr start end_
        = mjs_array_slice ctx arr start (Z.of_N (arr_length a)))
    /\ (0 <= start -> start <= end_ -> end_ <= Z.of_N (arr_length a) ->
        exists r ctx',
          mjs_array_slice ctx arr start end_ = Some (r, ctx')
          /\ r <> NULL
          /\ ctx_memory ctx !! r = None
          /\ mjs_array_length (ctx_memory ctx') r = Z.to_N (end_ - start)
          /\ (forall i,
                (i < Z.to_N (end_ - start))%N ->
                mjs_array_get (ctx_memory ctx') r i
                = mjs_array_get (ctx_memory ctx) arr (Z.to_N start + i))
          /\ load_array (ctx_memory ctx') arr = Some a).
Proof.
  intros ctx arr a start end_ Hb Hroom Ha Hinv Hlen60 Hs He.
  assert (arr_length a < 2 ^ 63)%N as Hlen by lia.
  change (2 ^ 63)%N with 9223372036854775808%N in Hlen.
  assert (to_long (arr_length a) = Z.of_N (arr_length a)) as Hl
      by (apply to_long_small; exact Hlen).
  assert (0 <= Z.of_N (arr_length a) < 2 ^ 63) as Hl' by lia.
  rewrite !(mjs_array_slice_between ctx arr a) by exact Ha. rewrite Hl.
  assert (forall s, - 2 ^ 63 <= s < 2 ^ 63 ->
                    slice_start (Z.of_N (arr_length a)) s
                    = if s <? 0 then Z.max 0 (Z.of_N (arr_length a) + s)
                      else Z.min s (Z.of_N (arr_length a))) as Hss
      by (intros s Hr; apply slice_start_spec; assumption).
  assert (forall e, - 2 ^ 63 <= e < 2 ^ 63 ->
                    slice_end (Z.of_N (arr_length a)) e
                    = if e <? 0 then Z.of_N (arr_length a) + e
                      else Z.min e (Z.of_N (arr_length a))) as Hse
      by (intros e Hr; apply slice_end_spec; assumption).
  split; [| split; [| split; [| split]]].
  - intros H. f_equal. rewrite !Hss by lia.
    assert ((start <? 0) = true) as -> by (apply Z.ltb_lt; lia).
    assert ((Z.of_N (arr_length a) + start <? 0) = false) as -> by (apply Z.ltb_ge; lia).
    lia.
  - intros H. f_equal. rewrite !Hss by lia.
    assert ((start <? 0) = true) as -> by (apply Z.ltb_lt; lia).
    change (0 <? 0) with false. lia.
  - intros H. f_equal. rewrite !Hse by lia.
    assert ((end_ <? 0) = true) as -> by (apply Z.ltb_lt; lia).
    assert ((Z.of_N (arr_length a) + end_ <? 0) = false) as -> by (apply Z.ltb_ge; lia).
    lia.
  - intros H. f_equal. rewrite !Hse by lia.
    assert ((end_ <? 0) = false) as -> by (apply Z.ltb_ge; lia).
    assert ((Z.of_N (arr_length a) <? 0) = false) as -> by (apply Z.ltb_ge; lia).
    lia.
  - intros H0 H1 H2. rewrite Hss, Hse by lia.
    assert ((start <? 0) = false) as -> by (apply Z.ltb_ge; lia).
    assert ((end_ <? 0) = false) as -> by (apply Z.ltb_ge; lia).
    rewrite !Z.min_l by lia.
    unfold slice_between.
    destruct (end_ <=? start) eqn:E.
    + apply Z.leb_le in E. assert (end_ = start) as -> by lia.
      rewrite Z.sub_diag. cbn [Z.to_N].
      destruct (mjs_array_new_beside ctx 0 arr a Hb Hroom ltac:(lia) Ha)
        as (r & ctx' & En & Hr & F1 & F2 & Hold).
      exists r, ctx'. split; [exact En |]. split; [exact Hr |]. split; [exact F1 |].
      split; [unfold mjs_array_length; rewrite F2; reflexivity |].
      split; [intros i Hi; lia | apply (Hold arr a Ha)].
    + apply Z.leb_gt in E.
      assert (wrap_size_t (end_ - start) = Z.to_N (end_ - start)) as ->.
      { unfold wrap_size_t. rewrite Z.mod_small by lia. reflexivity. }
      set (n := Z.to_N (end_ - start)).
      destruct (mjs_array_new_beside ctx n arr a Hb Hroom ltac:(lia) Ha)
        as (r & ctx' & En & Hr & F1 & F2 & Hold).
      destruct (Hold arr a Ha) as [Hne F3].
      rewrite En. pose proof Hr as Hz. apply N.eqb_neq in Hz. rewrite Hz.
      rewrite F3, F2. cbn [elements].
      eexists _, _. split; [reflexivity |]. split; [exact Hr |]. split; [exact F1 |].
      change (ctx_memory (ctx_set_memory ?x _)) with x.
      assert ((0 <? n)%N = true) as Hn by (apply N.ltb_lt; lia).
      rewrite Hn.
      destruct (copy_elements_spec (elements a) (Z.to_nat start)
                  (replicate (N.to_nat n) mjs_value_undefined) 0 (N.to_nat n))
        as [Hcl Hce].
      { rewrite length_replicate. lia. }
      split; [unfold mjs_array_length; rewrite (load_array_store _ _ _ _ F2); reflexivity |].
      split.
      * intros i Hi.
        rewrite (mjs_array_get_element _ _ _ _ (load_array_store _ _ _ _ F2)).
        rewrite (mjs_array_get_element _ _ _ _ Ha). cbn [arr_length elements].
        assert ((n <=? i)%N = false) as -> by (apply N.leb_gt; exact Hi).
        assert ((arr_length a <=? Z.to_N start + i)%N = false) as ->
            by (apply N.leb_gt; lia).
        rewrite Hce. case_decide; [| lia]. f_equal. lia.
      * unfold load_array. rewrite load_store_ne by congruence. exact F3.
Qed.

(** The context of the new array after 1, 2 and 3 have been pushed on
    it. *)
Definition three_context : mjs_context_t :=
  ctx_set_memory three_memory (snd new_array_made).

Lemma three_context_below : heap_below (ctx_gc three_context).
Proof. apply heap_below_check. vm_compute. reflexivity. Qed.

Lemma three_context_room : heap_room (ctx_gc three_context) 72.
Proof. split; vm_compute; [discriminate | reflexivity]. Qed.

Lemma three_context_loaded :
  load_array (ctx_memory three_context) new_array = Some three_value.
Proof. vm_compute. reflexivity. Qed.

Lemma mjs_array_slice_copies_range_witness :
  exists r ctx',
    mjs_array_slice three_context new_array 1 3 = Some (r, ctx')
    /\ r <> NULL
    /\ ctx_memory three_context !! r = None
    /\ mjs_array_length (ctx_memory ctx') r = Z.to_N (3 - 1)
    /\ (forall i,
          (i < Z.to_N (3 - 1))%N ->
          mjs_array_get (ctx_memory ctx') r i
          = mjs_array_get (ctx_memory three_context) new_array (Z.to_N 1 + i))
    /\ load_array (ctx_memory ctx') new_array = Some three_value.
Proof.
  assert (arr_length three_value <= arr_capacity three_value)%N as H1
      by (vm_compute; discriminate).
  assert (arr_length three_value < 2 ^ 60)%N as H2 by (vm_compute; reflexivity).
  assert (- 2 ^ 63 <= 1 < 2 ^ 63) as H3 by lia.
  assert (- 2 ^ 63 <= 3 < 2 ^ 63) as H4 by lia.
  assert (0 <= 1) as H5 by lia.
  assert (1 <= 3) as H6 by lia.
  assert (3 <= Z.of_N (arr_length three_value)) as H7
      by (change (arr_length three_value) with 3%N; lia).
  exact (proj2 (proj2 (proj2 (proj2
           (mjs_array_slice_copies_range three_context new_array three_value 1 3
              three_context_below three_context_room three_context_loaded
              H1 H2 H3 H4)))) H5 H6 H7).
Defined.

(** X26. [mjs_array_concat] on two arrays of the heap whose lengths
    have a sum below [2 ^ 60], on a heap that has room for an array, 72
    bytes, so that it does not grow: it returns a new array whose length
    is the sum of the lengths; its elements are those of the first array
    followed by those of the second, and the two arrays are as they
    were. *)
Theorem mjs_array_concat_appends :
  forall (ctx : mjs_context_t) (arr1 arr2 : ptr) (a1 a2 : mjs_array_t),
    heap_below (ctx_gc ctx) ->
    heap_room (ctx_gc ctx) 72 ->
    load_array (ctx_memory ctx) arr1 = Some a1 ->
    load_array (ctx_memory ctx) arr2 = Some a2 ->
    (arr_length a1 <= arr_capacity a1)%N -> (arr_length a2 <= arr_capacity a2)%N ->
    (arr_length a1 + arr_length a2 < 2 ^ 60)%N ->
    exists r ctx',
      mjs_array_concat ctx arr1 arr2 = Some (r, ctx')
      /\ r <> NULL
      /\ ctx_memory ctx !! r = None
      /\ mjs_array_length (ctx_memory ctx') r = (arr_length a1 + arr_length a2)%N
      /\ (forall i,
            mjs_array_get (ctx_memory ctx') r i
            = if (i <? arr_length a1)%N then mjs_array_get (ctx_memory ctx) arr1 i
              else mjs_array_get (ctx_memory ctx) arr2 (i - arr_length a1))
      /\ load_array (ctx_memory ctx') arr1 = Some a1
      /\ load_array (ctx_memory ctx') arr2 = Some a2.
Proof.
  intros ctx arr1 arr2 a1 a2 Hb Hroom H1 H2 Hi1 Hi2 Hsum.
  unfold mjs_array_concat, mjs_array_length. rewrite H1, H2. cbv zeta.
  assert (size_add (arr_length a1) (arr_length a2) = (arr_length a1 + arr_length a2)%N)
    as ->.
  { unfold size_add, wrap_size_t. rewrite Z.mod_small by lia. lia. }
  set (n := (arr_length a1 + arr_length a2)%N).
  destruct (mjs_array_new_beside ctx n arr1 a1 Hb Hroom Hsum H1)
    as (r & ctx' & En & Hr & F1 & Hr' & Hold).
  rewrite En. pose proof Hr as Hz. apply N.eqb_neq in Hz. rewrite Hz.
  destruct (Hold _ _ H1) as [N1 G1]. destruct (Hold _ _ H2) as [N2 G2].
  rewrite Hr', G1, G2. cbn [elements].
  eexists _, _. split; [reflexivity |]. split; [exact Hr |]. split; [exact F1 |].
  change (ctx_memory (ctx_set_memory ?x _)) with x.
  set (cap := N.to_nat (if (0 <? n)%N then n else 4%N)).
  assert (N.to_nat n <= cap)%nat as Hcap.
  { subst cap. destruct (0 <? n)%N eqn:E; [lia |]. apply N.ltb_ge in E. lia. }
  destruct (copy_elements_spec (elements a1) 0 (replicate cap mjs_value_undefined) 0
              (N.to_nat (arr_length a1))) as [Hl1 He1].
  { rewrite length_replicate. lia. }
  destruct (copy_elements_spec (elements a2) 0
              (copy_elements (elements a1) 0 (replicate cap mjs_value_undefined) 0
                 (N.to_nat (arr_length a1)))
              (N.to_nat (arr_length a1)) (N.to_nat (arr_length a2))) as [Hl2 He2].
  { rewrite Hl1, length_replicate. lia. }
  split; [rewrite (load_array_store _ _ _ _ Hr'); reflexivity |].
  split; [| split; unfold load_array; rewrite load_store_ne by congruence;
            [exact G1 | exact G2]].
  intros i. rewrite (mjs_array_get_element _ _ _ _ (load_array_store _ _ _ _ Hr')).
  rewrite (mjs_array_get_element _ _ _ _ H1), (mjs_array_get_element _ _ _ _ H2).
  cbn [arr_length elements].
  destruct (n <=? i)%N eqn:E.
  - apply N.leb_le in E.
    assert ((i <? arr_length a1)%N = false) as -> by (apply N.ltb_ge; lia).
    assert ((arr_length a2 <=? i - arr_length a1)%N = true) as ->
        by (apply N.leb_le; lia).
    reflexivity.
  - apply N.leb_gt in E. rewrite He2.
    destruct (i <? arr_length a1)%N eqn:E1.
    + apply N.ltb_lt in E1.
      assert ((arr_length a1 <=? i)%N = false) as -> by (apply N.leb_gt; lia).
      case_decide; [lia |]. rewrite He1. case_decide; [| lia].
      f_equal. lia.
    + apply N.ltb_ge in E1.
      assert ((arr_length a2 <=? i - arr_length a1)%N = false) as ->
          by (apply N.leb_gt; lia).
      case_decide; [| lia]. f_equal. lia.
Qed.

Lemma mjs_array_concat_appends_witness :
  exists r ctx',
    mjs_array_concat three_context new_array new_array = Some (r, ctx')
    /\ r <> NULL
    /\ ctx_memory three_context !! r = None
    /\ mjs_array_length (ctx_memory ctx') r
       = (arr_length three_value + arr_length three_value)%N
    /\ (forall i,
          mjs_array_get (ctx_memory ctx') r i
          = if (i <? arr_length three_value)%N
            then mjs_array_get (ctx_memory three_context) new_array i
            else mjs_array_get (ctx_memory three_context) new_array
                   (i - arr_length three_value))
    /\ load_array (ctx_memory ctx') new_array = Some three_value
    /\ load_array (ctx_memory ctx') new_array = Some three_value.
Proof.
  assert (arr_length three_value <= arr_capacity three_value)%N as H1
      by (vm_compute; discriminate).
  assert (arr_length three_value + arr_length three_value < 2 ^ 60)%N as H2
      by (vm_compute; reflexivity).
  exact (mjs_array_concat_appends three_context new_array new_array
           three_value three_value three_context_below three_context_room
           three_context_loaded three_context_loaded H1 H1 H2).
Defined.

(** X27. [mjs_array_clone] of an array of the heap whose capacity is
    below [2 ^ 60], on a heap that has room for an array, 72 bytes, so
    that it does not grow: it returns a new array with the length of the
    array and, at every index, the element of the array; it is another
    array for [mjs_array_equals], and the array is as it was. *)
Theorem mjs_array_clone_copies_elements :
  forall (ctx : mjs_context_t) (arr : ptr) (a : mjs_array_t),
    heap_below (ctx_gc ctx) ->
    heap_room (ctx_gc ctx) 72 ->
    load_array (ctx_memory ctx) arr = Some a ->
    (arr_length a <= arr_capacity a)%N ->
    (arr_capacity a < 2 ^ 60)%N ->
    exists r ctx',
      mjs_array_clone ctx arr = Some (r, ctx')
      /\ r <> NULL
      /\ ctx_memory ctx !! r = None
      /\ mjs_array_equals arr r = false
      /\ mjs_array_length (ctx_memory ctx') r = arr_length a
      /\ (forall i, mjs_array_get (ctx_memory ctx') r i = mjs_array_get (ctx_memory ctx) arr i)
      /\ load_array (ctx_memory ctx') arr = Some a.
Proof.
  intros ctx arr a Hb Hroom Ha Hinv Hc60. unfold mjs_array_clone, mjs_array_length.
  rewrite Ha.
  destruct (mjs_array_new_beside ctx (arr_capacity a) arr a Hb Hroom Hc60 Ha)
    as (r & ctx' & En & Hr & F1 & Hr' & Hold).
  rewrite En. pose proof Hr as Hz. apply N.eqb_neq in Hz. rewrite Hz.
  destruct (Hold _ _ Ha) as [Hne Ga].
  rewrite Ga, Hr'. cbn [elements].
  eexists _, _. split; [reflexivity |]. split; [exact Hr |]. split; [exact F1 |].
  change (ctx_memory (ctx_set_memory ?x _)) with x.
  set (cap := N.to_nat (if (0 <? arr_capacity a)%N then arr_capacity a else 4%N)).
  assert (N.to_nat (arr_capacity a) <= cap)%nat as Hcap.
  { subst cap. destruct (0 <? arr_capacity a)%N eqn:E; [lia |]. apply N.ltb_ge in E. lia. }
  destruct (copy_elements_spec (elements a) 0 (replicate cap mjs_value_undefined) 0
              (N.to_nat (arr_length a))) as [Hl He].
  { rewrite length_replicate. lia. }
  split; [unfold mjs_array_equals; apply N.eqb_neq; exact Hne |].
  split; [rewrite (load_array_store _ _ _ _ Hr'); reflexivity |].
  split; [| unfold load_array; rewrite load_store_ne by congruence; exact Ga].
  intros i. rewrite (mjs_array_get_element _ _ _ _ (load_array_store _ _ _ _ Hr')).
  rewrite (mjs_array_get_element _ _ _ _ Ha). cbn [arr_length elements].
  destruct (arr_length a <=? i)%N eqn:E; [reflexivity |]. apply N.leb_gt in E.
  rewrite He. case_decide; [| lia]. f_equal. lia.
Qed.

Lemma mjs_array_clone_copies_elements_witness :
  exists r ctx',
    mjs_array_clone three_context new_array = Some (r, ctx')
    /\ r <> NULL
    /\ ctx_memory three_context !! r = None
    /\ mjs_array_equals new_array r = false
    /\ mjs_array_length (ctx_memory ctx') r = arr_length three_value
    /\ (forall i, mjs_array_get (ctx_memory ctx') r i
                  = mjs_array_get (ctx_memory three_context) new_array i)
    /\ load_array (ctx_memory ctx') new_array = Some three_value.
Proof.
  assert (arr_length three_value <= arr_capacity three_value)%N as H1
      by (vm_compute; discriminate).
  assert (arr_capacity three_value < 2 ^ 60)%N as H2 by (vm_compute; reflexivity).
  exact (mjs_array_clone_copies_elements three_context new_array three_value
           three_context_below three_context_room three_context_loaded H1 H2).
Defined.

(** X28. [mjs_array_set_length] to a length of at most [2 ^ 59], on an
    array whose capacity is not 0: it returns true and the array has
    the new length; the elements below the old and the new length are
    what they were, every other index reads as undefined. The elements
    a shorter length cuts off are overwritten with undefined in the
    buffer of the array. *)
Theorem mjs_array_set_length_cuts_and_fills :
  forall (m : gmap N cell) (arr : ptr) (a : mjs_array_t) (new_length : N),
    load_array m arr = Some a ->
    (0 < arr_capacity a)%N -> (arr_capacity a < 2 ^ 64)%N ->
    (arr_length a <= arr_capacity a)%N ->
    (new_length <= 2 ^ 59)%N ->
    exists m',
      mjs_array_set_length m arr new_length = Some (true, m')
      /\ mjs_array_length m' arr = new_length
      /\ (forall i,
            mjs_array_get m' arr i
            = if (i <? N.min new_length (arr_length a))%N then mjs_array_get m arr i
              else mjs_value_undefined)
      /\ (exists a',
            load_array m' arr = Some a'
            /\ forall i, (new_length <= i)%N -> (i < arr_length a)%N ->
                         elements a' !! N.to_nat i = Some mjs_value_undefined).
Proof.
  intros m arr a new_length Ha Hc Hc64 Hinv Hn.
  assert (forall m0 a0 n,
             load_array m0 arr = Some a0 ->
             (0 < arr_capacity a0)%N -> (arr_capacity a0 < 2 ^ 64)%N ->
             (arr_length a0 <= arr_capacity a0)%N -> (n <= 2 ^ 59)%N ->
             exists a1,
               mjs_array_set_length m0 arr n = Some (true, store arr (PArray a1) m0)
               /\ arr_length a1 = n
               /\ (N.to_nat (arr_capacity a0) <= length (elements a1))%nat
               /\ (N.to_nat n <= length (elements a1))%nat
               /\ forall i,
                    element (elements a1) i
                    = if decide (i < N.to_nat (N.min n (arr_length a0)))%nat
                      then element (elements a0) i
                      else if decide (i < N.to_nat (N.max n (arr_length a0)))%nat
                           then mjs_value_undefined
                           else element (elements a0) i) as Hstep.
  { intros m0 a0 n H0 C0 C64 I0 N0. unfold mjs_array_set_length. rewrite H0.
    destruct (arr_length a0 <? n)%N eqn:E.
    - apply N.ltb_lt in E.
      destruct (mjs_array_ensure_capacity_ok a0 n C0 C64 N0) as (k & -> & Hk).
      cbn [arr_length elements].
      destruct (fill_undefined_spec (arr_length a0) n
                  (elements a0 ++ replicate k mjs_value_undefined)) as [Hl He].
      eexists. split; [reflexivity |]. cbn [arr_length elements].
      split; [reflexivity |]. rewrite Hl, length_app, length_replicate.
      split; [unfold arr_capacity; lia |]. split; [lia |].
      intros i. rewrite He, element_app_undefined.
      repeat case_decide; try lia; reflexivity.
    - apply N.ltb_ge in E. destruct (n <? arr_length a0)%N eqn:E1.
      + apply N.ltb_lt in E1.
        destruct (fill_undefined_spec n (arr_length a0) (elements a0)) as [Hl He].
        eexists. split; [reflexivity |]. cbn [arr_length elements].
        split; [reflexivity |]. rewrite Hl.
        split; [unfold arr_capacity; lia |]. split; [unfold arr_capacity in I0; lia |].
        intros i. rewrite He. repeat case_decide; try lia; reflexivity.
      + apply N.ltb_ge in E1. assert (n = arr_length a0) as -> by lia.
        eexists. split; [reflexivity |]. cbn [arr_length elements].
        split; [reflexivity |].
        split; [unfold arr_capacity; lia |]. split; [unfold arr_capacity in I0; lia |].
        intros i. repeat case_decide; try lia; reflexivity. }
  destruct (Hstep m a new_length Ha Hc Hc64 Hinv Hn) as (a1 & E1 & L1 & C1 & R1 & G1).
  exists (store arr (PArray a1) m). split; [exact E1 |].
  pose proof (load_array_store _ _ _ a1 Ha) as Ha1.
  split; [unfold mjs_array_length; rewrite Ha1; exact L1 |].
  split.
  - intros i. rewrite (mjs_array_get_element _ _ _ _ Ha1), (mjs_array_get_element _ _ _ _ Ha).
    rewrite L1, G1.
    destruct (new_length <=? i)%N eqn:E; [apply N.leb_le in E | apply N.leb_gt in E];
      destruct (i <? N.min new_length (arr_length a))%N eqn:E2;
      try apply N.ltb_lt in E2; try apply N.ltb_ge in E2; try lia; try reflexivity.
    + assert ((arr_length a <=? i)%N = false) as -> by (apply N.leb_gt; lia).
      case_decide; [reflexivity | lia].
    + case_decide; [lia |]. case_decide; [reflexivity | lia].
  - exists a1. split; [exact Ha1 |]. intros i Hi1 Hi2.
    pose proof (G1 (N.to_nat i)) as Hg. unfold element in Hg.
    destruct (elements a1 !! N.to_nat i) as [x |] eqn:Ex.
    + cbn [default from_option id] in Hg. rewrite Hg.
      case_decide; [lia |]. case_decide; [reflexivity | lia].
    + apply lookup_ge_None in Ex. unfold arr_capacity in *. lia.
Qed.

Lemma mjs_array_set_length_cuts_and_fills_witness :
  (exists m',
      mjs_array_set_length three_memory new_array 6 = Some (true, m')
      /\ mjs_array_length m' new_array = 6%N
      /\ (forall i,
            mjs_array_get m' new_array i
            = if (i <? N.min 6 (arr_length three_value))%N
              then mjs_array_get three_memory new_array i
              else mjs_value_undefined)
      /\ (exists a',
            load_array m' new_array = Some a'
            /\ forall i, (6 <= i)%N -> (i < arr_length three_value)%N ->
                         elements a' !! N.to_nat i = Some mjs_value_undefined))
  /\ (exists m',
        mjs_array_set_length three_memory new_array 1 = Some (true, m')
        /\ mjs_array_length m' new_array = 1%N
        /\ (forall i,
              mjs_array_get m' new_array i
              = if (i <? N.min 1 (arr_length three_value))%N
                then mjs_array_get three_memory new_array i
                else mjs_value_undefined)
        /\ (exists a',
              load_array m' new_array = Some a'
              /\ forall i, (1 <= i)%N -> (i < arr_length three_value)%N ->
                           elements a' !! N.to_nat i = Some mjs_value_undefined)).
Proof.
  assert (0 < arr_capacity three_value)%N as H1 by (vm_compute; reflexivity).
  assert (arr_capacity three_value < 2 ^ 64)%N as H2 by (vm_compute; reflexivity).
  assert (arr_length three_value <= arr_capacity three_value)%N as H3
      by (vm_compute; discriminate).
  assert (6 <= 2 ^ 59)%N as H4 by (vm_compute; discriminate).
  assert (1 <= 2 ^ 59)%N as H5 by (vm_compute; discriminate).
  split.
  - exact (mjs_array_set_length_cuts_and_fills three_memory new_array three_value 6
             three_loaded H1 H2 H3 H4).
  - exact (mjs_array_set_length_cuts_and_fills three_memory new_array three_value 1
             three_loaded H1 H2 H3 H5).
Defined.

(** ** Invariants *)

(** The count of an object is the number of the properties of its
    chain. *)
Definition counts_properties (m : gmap N cell) (obj : ptr) : Prop :=
  exists o, load_object m obj = Some o
            /\ property_count o = N.of_nat (length (properties o)).

Lemma load_object_preserved g g' q :
  preserves g g' -> load_object (memory g') q = load_object (memory g) q.
Proof.
  intros (_ & _ & _ & H). unfold load_object.
  rewrite (same_bodies_load _ _ q H). reflexivity.
Qed.

(** X29. The count of an object stays the number of its properties:
    [mjs_object_new] gives an object for which it is, and
    [mjs_object_set_property], [mjs_object_define_property],
    [mjs_object_delete_property], [mjs_object_seal],
    [mjs_object_freeze], [mjs_object_prevent_extensions] and
    [mjs_object_set_prototype] keep it so, on an object with fewer than
    [2 ^ 64 - 1] properties and a heap that has room for a string, 88
    bytes, so that it does not grow. *)
Theorem property_count_is_kept :
  forall (ctx : mjs_context_t) (obj : ptr) (k : string) (v : mjs_value_t)
         (w e c : bool) (proto : ptr) (o : mjs_object_t),
    heap_below (ctx_gc ctx) ->
    heap_room (ctx_gc ctx) 88 ->
    load_object (ctx_memory ctx) obj = Some o ->
    property_count o = N.of_nat (length (properties o)) ->
    Z.of_nat (length (properties o)) + 1 < 2 ^ 64 ->
    (fst (mjs_object_new ctx) <> NULL
     /\ counts_properties (ctx_memory (snd (mjs_object_new ctx)))
          (fst (mjs_object_new ctx)))
    /\ counts_properties (mjs_object_set_property (ctx_memory ctx) obj k v) obj
    /\ counts_properties
         (ctx_memory (snd (mjs_object_define_property ctx obj k v w e c))) obj
    /\ counts_properties (snd (mjs_object_delete_property (ctx_memory ctx) obj k)) obj
    /\ counts_properties (mjs_object_seal (ctx_memory ctx) obj) obj
    /\ counts_properties (mjs_object_freeze (ctx_memory ctx) obj) obj
    /\ counts_properties (mjs_object_prevent_extensions (ctx_memory ctx) obj) obj
    /\ counts_properties (mjs_object_set_prototype (ctx_memory ctx) obj proto) obj.
Proof.
  intros ctx obj k v w e c proto o Hb Hroom Ho Hc Hlen.
  assert (forall o', property_count o' = N.of_nat (length (properties o')) ->
                     counts_properties (store obj (PObject o') (ctx_memory ctx)) obj) as Hstore.
  { intros o' Hc'. exists o'. split; [apply (load_object_store _ obj o o' Ho) | exact Hc']. }
  assert (counts_properties (ctx_memory ctx) obj) as Hsame by (exists o; split; assumption).
  assert (size_add (property_count o) 1 = N.of_nat (S (length (properties o)))) as Hinc.
  { rewrite Hc. unfold size_add, wrap_size_t. rewrite Z.mod_small by lia. lia. }
  split; [| split; [| split; [| split; [| split; [| split; [| split]]]]]].
  - destruct (mjs_object_new ctx) as [p ctx'] eqn:E. cbn [fst snd].
    assert (heap_room (ctx_gc ctx) 80) as Hroom' by (apply (heap_room_less _ _ _ Hroom); lia).
    destruct (mjs_object_new_room _ _ _ Hroom' E) as (Hp & _).
    split; [exact Hp |].
    destruct (mjs_object_new_spec _ _ _ Hroom' E) as (_ & [[-> _] | (_ & _ & Hl & _)]);
      [contradiction |].
    eexists. split; [exact Hl | reflexivity].
  - unfold mjs_object_set_property. rewrite Ho.
    destruct (mjs_object_get_property (ctx_memory ctx) obj k) as [i |].
    + destruct (properties o !! i) as [existing |]; [| exact Hsame].
      destruct (writable existing); [| exact Hsame].
      apply Hstore. cbn [property_count properties]. rewrite length_insert. exact Hc.
    + apply Hstore. cbn [property_count properties length]. exact Hinc.
  - unfold mjs_object_define_property. rewrite Ho.
    destruct (extensible o); [| exact Hsame]. cbn [negb].
    destruct (mjs_object_get_property (ctx_memory ctx) obj k) as [i |].
    + destruct (properties o !! i) as [existing |]; [| exact Hsame].
      destruct (configurable existing); [| exact Hsame]. cbn [negb snd].
      change (ctx_memory (ctx_set_memory ?x _)) with x.
      apply Hstore. cbn [property_count properties]. rewrite length_insert. exact Hc.
    + destruct (mjs_string_new ctx k (strlen k)) as [kp ctx1] eqn:Hs.
      assert (load_object (ctx_memory ctx1) obj = Some o) as Ho1.
      { destruct (mjs_string_new_spec _ _ _ _ _ Hroom Hs)
          as (_ & _ & _ & [[_ Hp] | (Hkp & _ & _ & Hq)]).
        - unfold ctx_memory. rewrite (load_object_preserved _ _ obj Hp). exact Ho.
        - unfold load_object. rewrite Hq; [exact Ho |].
          unfold load_object in Ho.
          destruct (load (ctx_memory ctx) obj) as [b |] eqn:El; [| discriminate].
          apply (load_some_ne (ctx_gc ctx) kp obj b Hb Hkp El). }
      destruct (kp =? NULL)%N.
      * cbn [snd]. exists o. split; assumption.
      * rewrite Ho1. cbn [snd]. change (ctx_memory (ctx_set_memory ?x _)) with x.
        eexists. split; [apply (load_object_store _ obj o _ Ho1) |].
        cbn [property_count properties length]. exact Hinc.
  - unfold mjs_object_delete_property. rewrite Ho.
    destruct (find_index (key_matches (ctx_memory ctx) k) (properties o)) as [i |] eqn:Hf;
      [| exact Hsame].
    destruct (find_index_some _ _ _ Hf) as (p & Hp & _). rewrite Hp.
    destruct (configurable p); [| exact Hsame]. cbn [negb snd].
    eexists. split; [rewrite load_object_free; apply (load_object_store _ obj o _ Ho) |].
    cbn [property_count properties]. rewrite Hc.
    pose proof (lookup_lt_Some _ _ _ Hp) as Hi.
    rewrite length_delete by (rewrite Hp; eauto).
    unfold size_sub, wrap_size_t. rewrite Z.mod_small by lia. lia.
  - unfold mjs_object_seal. rewrite Ho. apply Hstore.
    cbn [property_count properties]. rewrite length_map. exact Hc.
  - unfold mjs_object_freeze. rewrite Ho. apply Hstore.
    cbn [property_count properties]. rewrite length_map. exact Hc.
  - unfold mjs_object_prevent_extensions. rewrite Ho. apply Hstore. exact Hc.
  - unfold mjs_object_set_prototype. rewrite Ho. apply Hstore. exact Hc.
Qed.

Lemma property_count_is_kept_witness :
  (fst (mjs_object_new keyed_context) <> NULL
   /\ counts_properties (ctx_memory (snd (mjs_object_new keyed_context)))
        (fst (mjs_object_new keyed_context)))
  /\ counts_properties
       (mjs_object_set_property (ctx_memory keyed_context) fresh_global "y"
          (mjs_value_number 2)) fresh_global
  /\ counts_properties
       (ctx_memory (snd (mjs_object_define_property keyed_context fresh_global "y"
                           (mjs_value_number 2) true true true))) fresh_global
  /\ counts_properties (snd (mjs_object_delete_property (ctx_memory keyed_context)
                              fresh_global "x")) fresh_global.
Proof.
  assert (heap_below (ctx_gc keyed_context)) as H1
      by (apply heap_below_check; vm_compute; reflexivity).
  assert (heap_room (ctx_gc keyed_context) 88) as Hr
      by (split; vm_compute; [discriminate | reflexivity]).
  assert (property_count keyed_object = N.of_nat (length (properties keyed_object))) as H2
      by reflexivity.
  assert (Z.of_nat (length (properties keyed_object)) + 1 < 2 ^ 64) as H3
      by (vm_compute; reflexivity).
  split; [| split; [| split]].
  - exact (proj1 (property_count_is_kept keyed_context fresh_global "y"
                    (mjs_value_number 2) true true true NULL keyed_object
                    H1 Hr keyed_loaded H2 H3)).
  - exact (proj1 (proj2 (property_count_is_kept keyed_context fresh_global "y"
                           (mjs_value_number 2) true true true NULL keyed_object
                           H1 Hr keyed_loaded H2 H3))).
  - exact (proj1 (proj2 (proj2
             (property_count_is_kept keyed_context fresh_global "y"
                (mjs_value_number 2) true true true NULL keyed_object
                H1 Hr keyed_loaded H2 H3)))).
  - exact (proj1 (proj2 (proj2 (proj2
             (property_count_is_kept keyed_context fresh_global "x" mjs_value_undefined
                true true true NULL keyed_object H1 Hr keyed_loaded H2 H3))))).
Defined.

(** An array of the heap has room for an element and for its length. *)
Definition array_in_bounds (m : gmap N cell) (arr : ptr) : Prop :=
  exists a, load_array m arr = Some a
            /\ (0 < arr_capacity a)%N /\ (arr_length a <= arr_capacity a)%N.

Lemma grow_capacity_reaches fuel :
  forall c r c', grow_capacity fuel c r = Some c' -> (r <= c')%N.
Proof.
  induction fuel as [| fuel IH]; intros c r c'; cbn [grow_capacity];
    destruct (r <=? c)%N eqn:E.
  - intros [= <-]. apply N.leb_le. exact E.
  - discriminate.
  - intros [= <-]. apply N.leb_le. exact E.
  - destruct (c =? 0)%N; [discriminate |]. apply IH.
Qed.

Lemma ensure_capacity_grows a r a' :
  mjs_array_ensure_capacity a r = Some (true, a') ->
  arr_length a' = arr_length a
  /\ (arr_capacity a <= arr_capacity a')%N /\ (r <= arr_capacity a')%N.
Proof.
  unfold mjs_array_ensure_capacity. destruct (r <=? arr_capacity a)%N eqn:E.
  - intros [= <-]. apply N.leb_le in E. repeat split; [lia | exact E].
  - destruct (grow_capacity 64 (arr_capacity a) r) as [c' |] eqn:G; [| discriminate].
    cbv zeta. destruct (size_mul sizeof_mjs_value_t c' =? 0)%N; [discriminate |].
    destruct (holds_values _ _); [| discriminate].
    intros [= <-]. apply grow_capacity_reaches in G. apply N.leb_gt in E.
    unfold arr_capacity in *. cbn [arr_length elements].
    rewrite length_app, length_replicate. repeat split; lia.
Qed.

Lemma length_fold_insert {A B} (f : list A -> B -> nat) (g : list A -> B -> A) (ks : list B) :
  forall l, length (fold_left (fun l i => <[f l i := g l i]> l) ks l) = length l.
Proof.
  induction ks as [| i ks IH]; intros l; cbn [fold_left]; [reflexivity |].
  rewrite IH. apply length_insert.
Qed.

Lemma length_move_right n : forall l, length (move_right n l) = length l.
Proof.
  induction n as [| n IH]; intros l; cbn [move_right]; [reflexivity |].
  rewrite IH. apply length_insert.
Qed.

Lemma length_reverse_loop fuel :
  forall left right l, length (reverse_loop fuel left right l) = length l.
Proof.
  induction fuel as [| fuel IH]; intros left right l; cbn [reverse_loop]; [reflexivity |].
  destruct (left <? right)%nat; [| reflexivity]. cbv zeta.
  rewrite IH, !length_insert. reflexivity.
Qed.

(** X30. An array of the heap keeps a capacity that is not 0 and a
    length within its capacity: [mjs_array_new] gives such an array, and
    [mjs_array_push], [mjs_array_pop], [mjs_array_set],
    [mjs_array_unshift], [mjs_array_shift], [mjs_array_reverse] and
    [mjs_array_set_length], whenever they return, leave it one. *)
Theorem array_stays_in_bounds :
  forall (ctx : mjs_context_t) (m : gmap N cell) (arr : ptr) (v : mjs_value_t)
         (index n : N),
    array_in_bounds m arr ->
    (forall r ctx', mjs_array_new ctx n = Some (r, ctx') -> r <> NULL ->
                    array_in_bounds (ctx_memory ctx') r)
    /\ (forall ok m', mjs_array_push m arr v = Some (ok, m') -> array_in_bounds m' arr)
    /\ array_in_bounds (snd (mjs_array_pop m arr)) arr
    /\ (forall ok m', mjs_array_set m arr index v = Some (ok, m') ->
                      array_in_bounds m' arr)
    /\ (forall ok m', mjs_array_unshift m arr v = Some (ok, m') -> array_in_bounds m' arr)
    /\ array_in_bounds (snd (mjs_array_shift m arr)) arr
    /\ array_in_bounds (mjs_array_reverse m arr) arr
    /\ (forall ok m', mjs_array_set_length m arr n = Some (ok, m') ->
                      array_in_bounds m' arr).
Proof.
  intros ctx m arr v index n (a & Ha & Hc & Hl).
  assert (array_in_bounds m arr) as Hsame by (exists a; repeat split; assumption).
  assert (forall els len,
             (0 < length els)%nat -> (N.to_nat len <= length els)%nat ->
             array_in_bounds (store arr (PArray (MkArray els len)) m) arr) as Hstore.
  { intros els len H1 H2. eexists. split; [apply (load_array_store _ _ _ _ Ha) |].
    unfold arr_capacity. cbn [elements arr_length]. lia. }
  assert (forall x, (0 < x)%N -> (size_sub x 1 <= x)%N) as Hdec.
  { intros x Hx. unfold size_sub, wrap_size_t. change (Z.of_N 1) with 1.
    pose proof (Z.mod_le (Z.of_N x - 1) (2 ^ 64) ltac:(lia) ltac:(lia)). lia. }
  unfold arr_capacity in Hc, Hl.
  split; [| split; [| split; [| split; [| split; [| split; [| split]]]]]].
  - intros r ctx' E Hr.
    eexists. split; [exact (mjs_array_new_made _ _ _ _ E Hr) |]. unfold arr_capacity.
    cbn [elements arr_length]. rewrite length_replicate.
    destruct (0 <? n)%N eqn:En; [apply N.ltb_lt in En |]; lia.
  - intros ok m'. unfold mjs_array_push. rewrite Ha.
    destruct (mjs_array_ensure_capacity a (size_add (arr_length a) 1))
      as [[[|] a'] |] eqn:E; [| intros [= <- <-]; exact Hsame | discriminate].
    destruct (ensure_capacity_grows _ _ _ E) as (L & C1 & C2).
    intros [= <- <-]. unfold arr_capacity in C1, C2.
    apply Hstore; rewrite length_insert; [lia |]. rewrite L. lia.
  - unfold mjs_array_pop. rewrite Ha.
    destruct (arr_length a =? 0)%N eqn:E; [exact Hsame |]. apply N.eqb_neq in E.
    cbn [snd]. pose proof (Hdec (arr_length a) ltac:(lia)) as D.
    apply Hstore; rewrite length_insert; lia.
  - intros ok m'. unfold mjs_array_set. rewrite Ha.
    destruct (arr_length a <=? index)%N.
    + destruct (mjs_array_ensure_capacity a (size_add index 1)) as [[[|] a'] |] eqn:E;
        [| intros [= <- <-]; exact Hsame | discriminate].
      destruct (ensure_capacity_grows _ _ _ E) as (L & C1 & C2).
      intros [= <- <-]. unfold arr_capacity in C1, C2.
      destruct (fill_undefined_spec (arr_length a') index (elements a')) as [Lf _].
      apply Hstore; rewrite length_insert, Lf; lia.
    + intros [= <- <-]. apply Hstore; rewrite length_insert; lia.
  - intros ok m'. unfold mjs_array_unshift. rewrite Ha.
    destruct (mjs_array_ensure_capacity a (size_add (arr_length a) 1))
      as [[[|] a'] |] eqn:E; [| intros [= <- <-]; exact Hsame | discriminate].
    destruct (ensure_capacity_grows _ _ _ E) as (L & C1 & C2).
    intros [= <- <-]. unfold arr_capacity in C1, C2.
    apply Hstore; rewrite length_insert, length_move_right; [lia |]. rewrite L. lia.
  - unfold mjs_array_shift. rewrite Ha.
    destruct (arr_length a =? 0)%N eqn:E; [exact Hsame |]. apply N.eqb_neq in E.
    cbn [snd]. pose proof (Hdec (arr_length a) ltac:(lia)) as D.
    apply Hstore; rewrite length_insert; unfold move_left;
      rewrite (length_fold_insert (fun _ i => i)
                 (fun l i => default mjs_value_undefined (l !! S i))); lia.
  - unfold mjs_array_reverse. rewrite Ha.
    destruct (arr_length a <=? 1)%N; [exact Hsame |].
    apply Hstore; rewrite length_reverse_loop; lia.
  - intros ok m'. unfold mjs_array_set_length. rewrite Ha.
    destruct (arr_length a <? n)%N eqn:E1.
    + destruct (mjs_array_ensure_capacity a n) as [[[|] a'] |] eqn:E;
        [| intros [= <- <-]; exact Hsame | discriminate].
      destruct (ensure_capacity_grows _ _ _ E) as (L & C1 & C2).
      intros [= <- <-]. unfold arr_capacity in C1, C2.
      destruct (fill_undefined_spec (arr_length a') n (elements a')) as [Lf _].
      apply Hstore; rewrite Lf; lia.
    + apply N.ltb_ge in E1. intros [= <- <-].
      destruct (n <? arr_length a)%N.
      * destruct (fill_undefined_spec n (arr_length a) (elements a)) as [Lf _].
        apply Hstore; rewrite Lf; lia.
      * apply Hstore; lia.
Qed.

Lemma array_stays_in_bounds_witness :
  array_in_bounds (mjs_array_reverse three_memory new_array) new_array.
Proof.
  assert (array_in_bounds three_memory new_array) as H.
  { exists three_value. split; [exact three_loaded |].
    split; [vm_compute; reflexivity | vm_compute; discriminate]. }
  exact (proj1 (proj2 (proj2 (proj2 (proj2 (proj2 (proj2
           (array_stays_in_bounds three_context three_memory new_array mjs_value_undefined
              0 0 H)))))))).
Defined.
